(** * go-rdbms: the SQL front end and the relational engine, embedded in Rocq

    The development follows the Go packages of the repository:

    - [GoStrings]: the few functions of Go's [strings] and [strconv]
      packages the engine calls, on byte strings;
    - [Ast], [Lexer], [Parser]: [parser/ast.go], [parser/lexer.go],
      [parser/parser.go];
    - [Engine]: [engine/table.go], [engine/database.go], and of
      [engine/storage.go] what does not touch the file system, which is
      the codec of [table.go] it calls.

    Go values of type [interface{}] that the engine stores are [nil], [int],
    [string] and [bool]; rows are heap objects reached through pointers, so
    the row store is an explicit map from locations to rows and a table
    holds locations, both in its row sequence and in its primary-key index. *)

From Stdlib Require Import ZArith String Ascii List Bool Lia DecimalString DecimalPos.
From stdpp Require Import base option list gmap strings countable.

#[local] Open Scope string_scope.
#[local] Open Scope list_scope.

(* ===================================================================== *)
(** ** Go's [strings] and [strconv], as far as the engine uses them       *)
(* ===================================================================== *)

Module GoStrings.

(** [strings.HasPrefix]. *)
Definition HasPrefix (s pre : string) : bool := String.prefix pre s.

(** [strings.TrimPrefix]: [s] without the leading [pre], or [s] itself. *)
Definition TrimPrefix (s pre : string) : string :=
  if HasPrefix s pre
  then String.substring (String.length pre) (String.length s - String.length pre) s
  else s.

(** [strings.Contains]. *)
Fixpoint Contains (s substr : string) : bool :=
  String.prefix substr s ||
  match s with
  | EmptyString => false
  | String _ s' => Contains s' substr
  end.

(** [strings.Join]. *)
Definition Join (elems : list string) (sep : string) : string :=
  String.concat sep elems.

(** [strings.Split] for a non-empty separator: the pieces between the
    successive, non-overlapping occurrences of [sep], found left to right.
    [skip] counts the bytes of a separator that are still to be passed. *)
Fixpoint Split_go (sep s : string) (skip : nat) : list string :=
  match s with
  | EmptyString => [EmptyString]
  | String c s' =>
      match skip with
      | S k => Split_go sep s' k
      | O =>
          if String.prefix sep s
          then EmptyString :: Split_go sep s' (String.length sep - 1)
          else match Split_go sep s' 0 with
               | w :: ws => String c w :: ws
               | [] => [String c EmptyString]
               end
      end
  end.

Definition Split (s sep : string) : list string := Split_go sep s 0.

(** [strings.ReplaceAll] for a non-empty [old]. *)
Fixpoint ReplaceAll_go (old new s : string) (skip : nat) : string :=
  match s with
  | EmptyString => EmptyString
  | String c s' =>
      match skip with
      | S k => ReplaceAll_go old new s' k
      | O =>
          if String.prefix old s
          then (new ++ ReplaceAll_go old new s' (String.length old - 1))%string
          else String c (ReplaceAll_go old new s' 0)
      end
  end.

Definition ReplaceAll (s old new : string) : string := ReplaceAll_go old new s 0.

(** The white space of [unicode.IsSpace], in UTF-8: the six ASCII
    characters, U+0085, U+00A0, U+1680, U+2000..U+200A, U+2028, U+2029,
    U+202F, U+205F and U+3000. [space_width s] is the number of bytes of
    the white-space character [s] starts with, [0] when there is none. *)
Definition isAsciiSpace (c : ascii) : bool :=
  let n := nat_of_ascii c in
  (n =? 9)%nat || (n =? 10)%nat || (n =? 11)%nat || (n =? 12)%nat ||
  (n =? 13)%nat || (n =? 32)%nat.

Definition space_width (s : string) : nat :=
  match s with
  | EmptyString => 0
  | String c0 s0 =>
      if isAsciiSpace c0 then 1
      else
        match nat_of_ascii c0, s0 with
        | 194, String c1 _ =>
            let b1 := nat_of_ascii c1 in
            if (b1 =? 133)%nat || (b1 =? 160)%nat then 2 else 0
        | 225, String c1 (String c2 _) =>
            if (nat_of_ascii c1 =? 154)%nat && (nat_of_ascii c2 =? 128)%nat
            then 3 else 0
        | 226, String c1 (String c2 _) =>
            let b1 := nat_of_ascii c1 in
            let b2 := nat_of_ascii c2 in
            if (b1 =? 128)%nat &&
               (((128 <=? b2)%nat && (b2 <=? 138)%nat) || (b2 =? 168)%nat ||
                (b2 =? 169)%nat || (b2 =? 175)%nat)
            then 3
            else if (b1 =? 129)%nat && (b2 =? 159)%nat then 3 else 0
        | 227, String c1 (String c2 _) =>
            if (nat_of_ascii c1 =? 128)%nat && (nat_of_ascii c2 =? 128)%nat
            then 3 else 0
        | _, _ => 0
        end
  end.

(** The same test at the end of a string; [r] is the string reversed, so
    the bytes of a character come last byte first. *)
Definition space_width_rev (r : string) : nat :=
  match r with
  | EmptyString => 0
  | String c0 r0 =>
      if isAsciiSpace c0 then 1
      else
        match r0 with
        | String c1 r1 =>
            if (space_width (String c1 (String c0 EmptyString)) =? 2)%nat then 2
            else
              match r1 with
              | String c2 _ =>
                  if (space_width
                        (String c2 (String c1 (String c0 EmptyString))) =? 3)%nat
                  then 3 else 0
              | EmptyString => 0
              end
        | EmptyString => 0
        end
  end.

(** [strings.TrimLeftFunc(s, unicode.IsSpace)]. [skip] as in [Split_go]. *)
Fixpoint trimLeft_go (space : string -> nat) (s : string) (skip : nat) : string :=
  match s with
  | EmptyString => EmptyString
  | String _ s' =>
      match skip with
      | S k => trimLeft_go space s' k
      | O =>
          match space s with
          | O => s
          | S k => trimLeft_go space s' k
          end
      end
  end.

Definition string_rev (s : string) : string :=
  string_of_list_ascii (rev (list_ascii_of_string s)).

(** [strings.TrimSpace]. *)
Definition TrimSpace (s : string) : string :=
  string_rev (trimLeft_go space_width_rev
                (string_rev (trimLeft_go space_width s 0)) 0).

(** [strings.ToLower] and [strings.ToUpper] on the ASCII letters. The
    engine compares the result with ASCII words only ([true], [false], the
    SQL keywords); no character outside ASCII that can occur in the
    argument maps into them. *)
Definition lower_byte (c : ascii) : ascii :=
  let n := nat_of_ascii c in
  if (65 <=? n)%nat && (n <=? 90)%nat then ascii_of_nat (n + 32) else c.

Definition upper_byte (c : ascii) : ascii :=
  let n := nat_of_ascii c in
  if (97 <=? n)%nat && (n <=? 122)%nat then ascii_of_nat (n - 32) else c.

Fixpoint map_bytes (f : ascii -> ascii) (s : string) : string :=
  match s with
  | EmptyString => EmptyString
  | String c s' => String (f c) (map_bytes f s')
  end.

Definition ToLower : string -> string := map_bytes lower_byte.
Definition ToUpper : string -> string := map_bytes upper_byte.

(** Go's [int] is 64 bits wide on the platforms the engine targets. *)
Definition minInt : Z := (- 2 ^ 63)%Z.
Definition maxInt : Z := (2 ^ 63 - 1)%Z.

Definition isDecimalDigit (c : ascii) : bool :=
  let n := nat_of_ascii c in (48 <=? n)%nat && (n <=? 57)%nat.

Fixpoint digits_value (s : string) (acc : Z) : option Z :=
  match s with
  | EmptyString => Some acc
  | String c s' =>
      if isDecimalDigit c
      then digits_value s' (acc * 10 + (Z.of_nat (nat_of_ascii c) - 48))%Z
      else None
  end.

(** [strconv.Atoi]: an optional sign, at least one decimal digit, nothing
    else, and a value that fits an [int]; [None] is the error. *)
Definition Atoi (s : string) : option Z :=
  let '(neg, body) :=
    match s with
    | String c s' =>
        if Ascii.eqb c "-"%char then (true, s')
        else if Ascii.eqb c "+"%char then (false, s')
        else (false, s)
    | EmptyString => (false, s)
    end in
  match body with
  | EmptyString => None
  | _ =>
      match digits_value body 0%Z with
      | None => None
      | Some n =>
          let v := if neg then (- n)%Z else n in
          if (minInt <=? v)%Z && (v <=? maxInt)%Z then Some v else None
      end
  end.

(** [strconv.Itoa], which is what [fmt.Sprintf("%v", i)] prints for an
    [int]. *)
Definition Itoa (i : Z) : string := NilZero.string_of_int (Z.to_int i).

End GoStrings.

(* ===================================================================== *)
(** ** Values                                                             *)
(* ===================================================================== *)

(** A Go [interface{}] as the engine meets it: [nil], an [int], a [string]
    or a [bool]. Go's [==] on two such values and [reflect.DeepEqual] both
    hold exactly when the dynamic types and the values agree, which is
    equality of [Value]. An [int] has 64 bits; the engine does no
    arithmetic on integers, it stores and compares them, so they are
    carried as [Z], and [GoStrings.Atoi], where they come from, refuses
    what does not fit. *)
Inductive Value : Type :=
| VNil
| VInt (i : Z)
| VText (s : string)
| VBool (b : bool).

#[global] Instance Value_eq_dec : EqDecision Value.
Proof. solve_decision. Defined.

Definition Value_to_sum (v : Value) : unit + (Z + (string + bool)) :=
  match v with
  | VNil => inl tt
  | VInt i => inr (inl i)
  | VText s => inr (inr (inl s))
  | VBool b => inr (inr (inr b))
  end.

Definition Value_of_sum (x : unit + (Z + (string + bool))) : Value :=
  match x with
  | inl _ => VNil
  | inr (inl i) => VInt i
  | inr (inr (inl s)) => VText s
  | inr (inr (inr b)) => VBool b
  end.

#[global] Instance Value_countable : Countable Value.
Proof. apply (inj_countable' Value_to_sum Value_of_sum). by intros []. Defined.

(* ===================================================================== *)
(** ** parser/ast.go                                                      *)
(* ===================================================================== *)

Module Ast.

(** [DataType], an [iota] enumeration of three constants. *)
Inductive DataType : Type :=
| DATATYPE_INTEGER
| DATATYPE_TEXT
| DATATYPE_BOOLEAN.

Definition DataType_String (d : DataType) : string :=
  match d with
  | DATATYPE_INTEGER => "INTEGER"
  | DATATYPE_TEXT => "TEXT"
  | DATATYPE_BOOLEAN => "BOOLEAN"
  end.

Record ColumnDefinition : Type := mkColumnDefinition {
  cd_Name : string;
  cd_DataType : DataType;
  cd_PrimaryKey : bool;
  cd_Unique : bool
}.

(** The five expression nodes. A [BinaryExpression] holds two
    sub-expressions; the parser only builds it over primary expressions. *)
Inductive Expression : Type :=
| Identifier (Value_ : string)
| QualifiedIdentifier (Table Column : string)
| Literal (Value_ : Value) (Type_ : DataType)
| BinaryExpression (Left : Expression) (Operator : string) (Right : Expression)
| StarExpression.

(** [*BinaryExpression], the type of [JoinClause.On]. *)
Record BinaryExpr : Type := mkBinaryExpr {
  be_Left : Expression;
  be_Operator : string;
  be_Right : Expression
}.

Record JoinClause : Type := mkJoinClause {
  jc_TableName : string;
  jc_On : BinaryExpr
}.

Record CreateTableStatement : Type := mkCreateTable {
  ct_TableName : string;
  ct_Columns : list ColumnDefinition
}.

Record InsertStatement : Type := mkInsert {
  ins_TableName : string;
  ins_Values : list Expression
}.

(** [Where] and [Join] are [nil] when the clause is absent. *)
Record SelectStatement : Type := mkSelect {
  sel_TableName : string;
  sel_Columns : list Expression;
  sel_Where : option Expression;
  sel_Join : option JoinClause
}.

(** [Set] is a Go map; the parser fills it key by key. *)
Record UpdateStatement : Type := mkUpdate {
  upd_TableName : string;
  upd_Set : gmap string Expression;
  upd_Where : option Expression
}.

Record DeleteStatement : Type := mkDelete {
  del_TableName : string;
  del_Where : option Expression
}.

Inductive Statement : Type :=
| StmtCreateTable (s : CreateTableStatement)
| StmtInsert (s : InsertStatement)
| StmtSelect (s : SelectStatement)
| StmtUpdate (s : UpdateStatement)
| StmtDelete (s : DeleteStatement).

#[global] Instance DataType_eq_dec : EqDecision DataType.
Proof. solve_decision. Defined.
#[global] Instance ColumnDefinition_eq_dec : EqDecision ColumnDefinition.
Proof. solve_decision. Defined.
#[global] Instance Expression_eq_dec : EqDecision Expression.
Proof. solve_decision. Defined.
#[global] Instance BinaryExpr_eq_dec : EqDecision BinaryExpr.
Proof. solve_decision. Defined.
#[global] Instance JoinClause_eq_dec : EqDecision JoinClause.
Proof. solve_decision. Defined.
#[global] Instance CreateTableStatement_eq_dec : EqDecision CreateTableStatement.
Proof. solve_decision. Defined.
#[global] Instance InsertStatement_eq_dec : EqDecision InsertStatement.
Proof. solve_decision. Defined.
#[global] Instance SelectStatement_eq_dec : EqDecision SelectStatement.
Proof. solve_decision. Defined.
#[global] Instance UpdateStatement_eq_dec : EqDecision UpdateStatement.
Proof. solve_decision. Defined.
#[global] Instance DeleteStatement_eq_dec : EqDecision DeleteStatement.
Proof. solve_decision. Defined.
#[global] Instance Statement_eq_dec : EqDecision Statement.
Proof. solve_decision. Defined.

End Ast.

(* ===================================================================== *)
(** ** parser/lexer.go                                                    *)
(* ===================================================================== *)

Module Lexer.

(** [TokenType], an [iota] enumeration. *)
Inductive TokenType : Type :=
| TOKEN_SELECT | TOKEN_INSERT | TOKEN_UPDATE | TOKEN_DELETE | TOKEN_CREATE
| TOKEN_TABLE | TOKEN_FROM | TOKEN_WHERE | TOKEN_VALUES | TOKEN_SET
| TOKEN_INTO | TOKEN_JOIN | TOKEN_ON | TOKEN_PRIMARY | TOKEN_KEY
| TOKEN_UNIQUE
| TOKEN_IDENTIFIER | TOKEN_STRING | TOKEN_NUMBER | TOKEN_TRUE | TOKEN_FALSE
| TOKEN_EQUALS | TOKEN_NOT_EQUALS | TOKEN_GREATER | TOKEN_LESS
| TOKEN_GREATER_EQUALS | TOKEN_LESS_EQUALS | TOKEN_COMMA | TOKEN_SEMICOLON
| TOKEN_LEFT_PAREN | TOKEN_RIGHT_PAREN | TOKEN_STAR | TOKEN_DOT
| TOKEN_EOF.

#[global] Instance TokenType_eq_dec : EqDecision TokenType.
Proof. solve_decision. Defined.

(** The integer behind each constant, which is what [%v] prints. *)
Definition TokenType_code (t : TokenType) : Z :=
  match t with
  | TOKEN_SELECT => 0 | TOKEN_INSERT => 1 | TOKEN_UPDATE => 2
  | TOKEN_DELETE => 3 | TOKEN_CREATE => 4 | TOKEN_TABLE => 5
  | TOKEN_FROM => 6 | TOKEN_WHERE => 7 | TOKEN_VALUES => 8
  | TOKEN_SET => 9 | TOKEN_INTO => 10 | TOKEN_JOIN => 11
  | TOKEN_ON => 12 | TOKEN_PRIMARY => 13 | TOKEN_KEY => 14
  | TOKEN_UNIQUE => 15 | TOKEN_IDENTIFIER => 16 | TOKEN_STRING => 17
  | TOKEN_NUMBER => 18 | TOKEN_TRUE => 19 | TOKEN_FALSE => 20
  | TOKEN_EQUALS => 21 | TOKEN_NOT_EQUALS => 22 | TOKEN_GREATER => 23
  | TOKEN_LESS => 24 | TOKEN_GREATER_EQUALS => 25 | TOKEN_LESS_EQUALS => 26
  | TOKEN_COMMA => 27 | TOKEN_SEMICOLON => 28 | TOKEN_LEFT_PAREN => 29
  | TOKEN_RIGHT_PAREN => 30 | TOKEN_STAR => 31 | TOKEN_DOT => 32
  | TOKEN_EOF => 33
  end%Z.

Record Token : Type := mkToken {
  tok_Type : TokenType;
  tok_Literal : string
}.

#[global] Instance Token_eq_dec : EqDecision Token.
Proof. solve_decision. Defined.

Record Lexer : Type := mkLexer {
  input : string;
  pos : nat;
  current : ascii
}.

Definition zeroByte : ascii := "000"%char.

(** [Lexer.readChar]. *)
Definition readChar (l : Lexer) : Lexer :=
  {| input := input l;
     pos := S (pos l);
     current := default zeroByte (String.get (pos l) (input l)) |}.

(** [Lexer.peekChar]. *)
Definition peekChar (l : Lexer) : ascii :=
  default zeroByte (String.get (pos l) (input l)).

(** [NewLexer]. *)
Definition NewLexer (input : string) : Lexer :=
  readChar {| input := input; pos := 0; current := zeroByte |}.

(** [unicode.IsLetter] and [unicode.IsDigit] on a byte read as a code
    point, that is on Latin-1. *)
Definition isLetter (ch : ascii) : bool :=
  let n := nat_of_ascii ch in
  (((65 <=? n) && (n <=? 90)) || ((97 <=? n) && (n <=? 122)) ||
   (n =? 170) || (n =? 181) || (n =? 186) ||
   ((192 <=? n) && (n <=? 214)) || ((216 <=? n) && (n <=? 246)) ||
   ((248 <=? n) && (n <=? 255)) ||
   (n =? 95))%nat.

Definition isDigit (ch : ascii) : bool :=
  let n := nat_of_ascii ch in ((48 <=? n) && (n <=? 57))%nat.

Definition isBlank (ch : ascii) : bool :=
  let n := nat_of_ascii ch in ((n =? 32) || (n =? 9) || (n =? 10) || (n =? 13))%nat.

(** [l.input[n:]]. *)
Fixpoint dropBytes (n : nat) (s : string) : string :=
  match n, s with
  | S k, String _ s' => dropBytes k s'
  | _, _ => s
  end.

(** The loop [for cond(l.current) { l.readChar() }], for a condition
    that fails on the byte 0. [rest] is the input from [l.pos] on, which
    is what the coming calls of [readChar] deliver; once it is used up
    [readChar] delivers 0 and the loop stops. *)
Fixpoint readWhile_go (cond : ascii -> bool) (rest : string) (l : Lexer) : Lexer :=
  if cond (current l) then
    match rest with
    | EmptyString => readChar l
    | String _ rest' => readWhile_go cond rest' (readChar l)
    end
  else l.

Definition readWhile (cond : ascii -> bool) (l : Lexer) : Lexer :=
  readWhile_go cond (dropBytes (pos l) (input l)) l.

(** [Lexer.skipWhitespace]. *)
Definition skipWhitespace : Lexer -> Lexer := readWhile isBlank.

(** [l.input[from : l.pos-1]]. *)
Definition sliceTo (l : Lexer) (from : nat) : string :=
  String.substring from (pos l - 1 - from) (input l).

(** [Lexer.readIdentifier]. *)
Definition readIdentifier (l : Lexer) : string * Lexer :=
  let from := pos l - 1 in
  let l' := readWhile (fun c => isLetter c || isDigit c || Ascii.eqb c "_"%char) l in
  (sliceTo l' from, l').

(** [Lexer.readNumber]. *)
Definition readNumber (l : Lexer) : string * Lexer :=
  let from := pos l - 1 in
  let l' := readWhile isDigit l in
  (sliceTo l' from, l').

(** [Lexer.readString]: up to the closing quote, or to the end of the
    input when there is none. *)
Definition readString (l : Lexer) : string * Lexer :=
  let l0 := readChar l in
  let from := pos l0 - 1 in
  let l' := readWhile (fun c => negb (Ascii.eqb c "'"%char) && negb (Ascii.eqb c zeroByte))
                      l0 in
  if Ascii.eqb (current l') "'"%char
  then (sliceTo l' from, readChar l')
  else (sliceTo l' from, l').

(** [Lexer.lookupIdent]. *)
Definition lookupIdent (ident : string) : TokenType :=
  let u := GoStrings.ToUpper ident in
  if String.eqb u "SELECT" then TOKEN_SELECT
  else if String.eqb u "INSERT" then TOKEN_INSERT
  else if String.eqb u "UPDATE" then TOKEN_UPDATE
  else if String.eqb u "DELETE" then TOKEN_DELETE
  else if String.eqb u "CREATE" then TOKEN_CREATE
  else if String.eqb u "TABLE" then TOKEN_TABLE
  else if String.eqb u "FROM" then TOKEN_FROM
  else if String.eqb u "WHERE" then TOKEN_WHERE
  else if String.eqb u "VALUES" then TOKEN_VALUES
  else if String.eqb u "SET" then TOKEN_SET
  else if String.eqb u "INTO" then TOKEN_INTO
  else if String.eqb u "JOIN" then TOKEN_JOIN
  else if String.eqb u "ON" then TOKEN_ON
  else if String.eqb u "PRIMARY" then TOKEN_PRIMARY
  else if String.eqb u "KEY" then TOKEN_KEY
  else if String.eqb u "UNIQUE" then TOKEN_UNIQUE
  else if String.eqb u "TRUE" then TOKEN_TRUE
  else if String.eqb u "FALSE" then TOKEN_FALSE
  else TOKEN_IDENTIFIER.

(** [string(l.current)]: the conversion of a byte to a string gives the
    UTF-8 encoding of the code point of that number, two bytes from 128
    on. *)
Definition runeString (c : ascii) : string :=
  let n := nat_of_ascii c in
  if (n <? 128)%nat then String c EmptyString
  else String (ascii_of_nat (192 + n / 64))
         (String (ascii_of_nat (128 + n mod 64)) EmptyString).

(** A token of one or two bytes, after which [NextToken] reads on. *)
Definition punct (t : TokenType) (lit : string) (l : Lexer) : Token * Lexer :=
  ({| tok_Type := t; tok_Literal := lit |}, readChar l).

(** [Lexer.NextToken]. *)
Definition NextToken (l : Lexer) : Token * Lexer :=
  let l := skipWhitespace l in
  let c := current l in
  let followedByEquals := Ascii.eqb (peekChar l) "="%char in
  if Ascii.eqb c "="%char then punct TOKEN_EQUALS "=" l
  else if Ascii.eqb c "!"%char then
    if followedByEquals then punct TOKEN_NOT_EQUALS "!=" (readChar l)
    else punct TOKEN_IDENTIFIER "!" l
  else if Ascii.eqb c ">"%char then
    if followedByEquals then punct TOKEN_GREATER_EQUALS ">=" (readChar l)
    else punct TOKEN_GREATER ">" l
  else if Ascii.eqb c "<"%char then
    if followedByEquals then punct TOKEN_LESS_EQUALS "<=" (readChar l)
    else punct TOKEN_LESS "<" l
  else if Ascii.eqb c ","%char then punct TOKEN_COMMA "," l
  else if Ascii.eqb c ";"%char then punct TOKEN_SEMICOLON ";" l
  else if Ascii.eqb c "("%char then punct TOKEN_LEFT_PAREN "(" l
  else if Ascii.eqb c ")"%char then punct TOKEN_RIGHT_PAREN ")" l
  else if Ascii.eqb c "*"%char then punct TOKEN_STAR "*" l
  else if Ascii.eqb c "."%char then punct TOKEN_DOT "." l
  else if Ascii.eqb c zeroByte then punct TOKEN_EOF EmptyString l
  else if isLetter c then
    let '(lit, l') := readIdentifier l in
    ({| tok_Type := lookupIdent lit; tok_Literal := lit |}, l')
  else if isDigit c then
    let '(lit, l') := readNumber l in
    ({| tok_Type := TOKEN_NUMBER; tok_Literal := lit |}, l')
  else if Ascii.eqb c "'"%char then
    let '(lit, l') := readString l in
    ({| tok_Type := TOKEN_STRING; tok_Literal := lit |}, l')
  else punct TOKEN_IDENTIFIER (runeString c) l.

End Lexer.

(* ===================================================================== *)
(** ** parser/parser.go                                                   *)
(* ===================================================================== *)

Module Parser.
Import Ast Lexer.

Record Parser : Type := mkParser {
  lexer : Lexer;
  currentToken : Token;
  peekToken : Token;
  errors : list string
}.

(** A method of [*Parser]: it returns a value and leaves the parser in a
    new state. *)
Definition M (A : Type) : Type := Parser -> A * Parser.

Definition ret {A : Type} (a : A) : M A := fun p => (a, p).

Definition bind {A B : Type} (m : M A) (k : A -> M B) : M B :=
  fun p => let '(a, p') := m p in k a p'.

Notation "'let*' x ':=' m 'in' k" := (bind m (fun x => k))
  (at level 10, x binder, k at level 200, only parsing).

Definition get : M Parser := fun p => (p, p).

(** What a parsing function returns: the node, or the error. *)
Inductive parsed (A : Type) : Type :=
| Parsed (a : A)
| Failed (msg : string).
Arguments Parsed {A} a.
Arguments Failed {A} msg.

#[global] Instance parsed_eq_dec {A : Type} `{EqDecision A} : EqDecision (parsed A).
Proof. solve_decision. Defined.

(** [Parser.nextToken]. *)
Definition nextToken : M unit :=
  fun p =>
    let '(tok, l') := NextToken (lexer p) in
    (tt, {| lexer := l'; currentToken := peekToken p; peekToken := tok;
            errors := errors p |}).

(** [NewParser]. The two token fields start as the zero [Token]. *)
Definition NewParser (l : Lexer) : Parser :=
  let zero := {| tok_Type := TOKEN_SELECT; tok_Literal := EmptyString |} in
  snd ((let* _ := nextToken in nextToken)
         {| lexer := l; currentToken := zero; peekToken := zero; errors := [] |}).

(** [Parser.peekTokenIs]. *)
Definition peekTokenIs (t : TokenType) : M bool :=
  fun p => (bool_decide (tok_Type (peekToken p) = t), p).

Definition currentLiteral : M string :=
  fun p => (tok_Literal (currentToken p), p).

(** [Parser.peekError]. *)
Definition peekError (t : TokenType) : M unit :=
  fun p =>
    let msg := ("expected next token to be " ++ GoStrings.Itoa (TokenType_code t)
                ++ ", got " ++ GoStrings.Itoa (TokenType_code (tok_Type (peekToken p)))
                ++ " instead")%string in
    (tt, {| lexer := lexer p; currentToken := currentToken p;
            peekToken := peekToken p; errors := errors p ++ [msg] |}).

(** [Parser.expectPeek]. *)
Definition expectPeek (t : TokenType) : M bool :=
  let* is_t := peekTokenIs t in
  if is_t then let* _ := nextToken in ret true
  else let* _ := peekError t in ret false.

(** [Parser.parseDataType]. The names are compared as written. *)
Definition parseDataType : M (parsed DataType) :=
  let* ok := expectPeek TOKEN_IDENTIFIER in
  if negb ok then ret (Failed "expected data type")
  else
    let* lit := currentLiteral in
    if String.eqb lit "INTEGER" || String.eqb lit "INT" then ret (Parsed DATATYPE_INTEGER)
    else if String.eqb lit "TEXT" || String.eqb lit "VARCHAR" then ret (Parsed DATATYPE_TEXT)
    else if String.eqb lit "BOOLEAN" || String.eqb lit "BOOL" then ret (Parsed DATATYPE_BOOLEAN)
    else ret (Failed ("unknown data type: " ++ lit)%string).

(** The loops of the parser go round once per list element and every
    element takes at least one token, so the number of bytes of the input
    plus one bounds the number of turns; [ProgressFacts] below proves that
    the bound is never reached. *)
Definition turns : M nat :=
  fun p => (S (String.length (input (lexer p))), p).

(** The constraint part of a column definition. *)
Definition parseColumnConstraint : M (bool * bool) :=
  let* is_primary := peekTokenIs TOKEN_PRIMARY in
  if is_primary then
    let* _ := nextToken in
    let* has_key := expectPeek TOKEN_KEY in
    ret (has_key, false)
  else
    let* is_unique := peekTokenIs TOKEN_UNIQUE in
    if is_unique then let* _ := nextToken in ret (false, true)
    else ret (false, false).

(** [Parser.parseColumnDefinitions]. Each [break] of the source leaves
    the loop with the columns collected so far. *)
Fixpoint parseColumnDefinitions_go (fuel : nat) (columns : list ColumnDefinition)
  : M (list ColumnDefinition) :=
  match fuel with
  | O => ret columns
  | S fuel' =>
      let* at_paren := peekTokenIs TOKEN_RIGHT_PAREN in
      let* at_eof := peekTokenIs TOKEN_EOF in
      if at_paren || at_eof then ret columns
      else
        let* ok := expectPeek TOKEN_IDENTIFIER in
        if negb ok then ret columns
        else
          let* name := currentLiteral in
          let* dt := parseDataType in
          match dt with
          | Failed _ => ret columns
          | Parsed dataType =>
              let* flags := parseColumnConstraint in
              let columns' :=
                columns ++ [{| cd_Name := name; cd_DataType := dataType;
                               cd_PrimaryKey := fst flags; cd_Unique := snd flags |}] in
              let* at_paren' := peekTokenIs TOKEN_RIGHT_PAREN in
              if at_paren' then parseColumnDefinitions_go fuel' columns'
              else
                let* comma := expectPeek TOKEN_COMMA in
                if negb comma then ret columns'
                else parseColumnDefinitions_go fuel' columns'
          end
  end.

Definition parseColumnDefinitions : M (list ColumnDefinition) :=
  let* n := turns in parseColumnDefinitions_go n [].

(** [Parser.parseCreateStatement]. *)
Definition parseCreateStatement : M (parsed CreateTableStatement) :=
  let* ok := expectPeek TOKEN_TABLE in
  if negb ok then ret (Failed "expected TABLE after CREATE")
  else
    let* ok := expectPeek TOKEN_IDENTIFIER in
    if negb ok then ret (Failed "expected table name after TABLE")
    else
      let* name := currentLiteral in
      let* ok := expectPeek TOKEN_LEFT_PAREN in
      if negb ok then ret (Failed "expected ( after table name")
      else
        let* columns := parseColumnDefinitions in
        let* ok := expectPeek TOKEN_RIGHT_PAREN in
        if negb ok then ret (Failed "expected ) after column definitions")
        else ret (Parsed {| ct_TableName := name; ct_Columns := columns |}).

(** [Parser.parsePrimaryExpression]. *)
Definition parsePrimaryExpression : M (parsed Expression) :=
  let* p := get in
  match tok_Type (peekToken p) with
  | TOKEN_IDENTIFIER =>
      let* _ := nextToken in
      let* ident := currentLiteral in
      let* is_dot := peekTokenIs TOKEN_DOT in
      if is_dot then
        let* _ := nextToken in
        let* ok := expectPeek TOKEN_IDENTIFIER in
        if negb ok then ret (Failed "expected identifier after dot")
        else
          let* column := currentLiteral in
          ret (Parsed (QualifiedIdentifier ident column))
      else ret (Parsed (Identifier ident))
  | TOKEN_STRING =>
      let* _ := nextToken in
      let* lit := currentLiteral in
      ret (Parsed (Literal (VText lit) DATATYPE_TEXT))
  | TOKEN_NUMBER =>
      let* _ := nextToken in
      let* lit := currentLiteral in
      match GoStrings.Atoi lit with
      | None =>
          ret (Failed ("strconv.Atoi: parsing " ++ String "034"%char lit
                       ++ String "034"%char ": value out of range")%string)
      | Some value => ret (Parsed (Literal (VInt value) DATATYPE_INTEGER))
      end
  | TOKEN_TRUE =>
      let* _ := nextToken in ret (Parsed (Literal (VBool true) DATATYPE_BOOLEAN))
  | TOKEN_FALSE =>
      let* _ := nextToken in ret (Parsed (Literal (VBool false) DATATYPE_BOOLEAN))
  | _ =>
      ret (Failed ("unexpected token in expression: " ++ tok_Literal (peekToken p))%string)
  end.

Definition isComparison (t : TokenType) : bool :=
  match t with
  | TOKEN_EQUALS | TOKEN_NOT_EQUALS | TOKEN_GREATER | TOKEN_LESS
  | TOKEN_GREATER_EQUALS | TOKEN_LESS_EQUALS => true
  | _ => false
  end.

(** [Parser.parseExpression]. *)
Definition parseExpression : M (parsed Expression) :=
  let* l := parsePrimaryExpression in
  match l with
  | Failed msg => ret (Failed msg)
  | Parsed leftExpr =>
      let* p := get in
      if isComparison (tok_Type (peekToken p)) then
        let* _ := nextToken in
        let* operator := currentLiteral in
        let* r := parsePrimaryExpression in
        match r with
        | Failed msg => ret (Failed msg)
        | Parsed rightExpr => ret (Parsed (BinaryExpression leftExpr operator rightExpr))
        end
      else ret (Parsed leftExpr)
  end.

(** [Parser.parseExpressionList]. *)
Fixpoint parseExpressionList_go (fuel : nat) (endToken : TokenType)
    (expressions : list Expression) : M (list Expression) :=
  match fuel with
  | O => ret expressions
  | S fuel' =>
      let* at_end := peekTokenIs endToken in
      let* at_eof := peekTokenIs TOKEN_EOF in
      if at_end || at_eof then ret expressions
      else
        let* e := parseExpression in
        match e with
        | Failed _ => ret expressions
        | Parsed expr =>
            let expressions' := expressions ++ [expr] in
            let* at_end' := peekTokenIs endToken in
            if at_end' then parseExpressionList_go fuel' endToken expressions'
            else
              let* comma := expectPeek TOKEN_COMMA in
              if negb comma then ret expressions'
              else parseExpressionList_go fuel' endToken expressions'
        end
  end.

Definition parseExpressionList (endToken : TokenType) : M (list Expression) :=
  let* n := turns in parseExpressionList_go n endToken [].

(** [Parser.parseInsertStatement]. *)
Definition parseInsertStatement : M (parsed InsertStatement) :=
  let* ok := expectPeek TOKEN_INTO in
  if negb ok then ret (Failed "expected INTO after INSERT")
  else
    let* ok := expectPeek TOKEN_IDENTIFIER in
    if negb ok then ret (Failed "expected table name after INTO")
    else
      let* name := currentLiteral in
      let* ok := expectPeek TOKEN_VALUES in
      if negb ok then ret (Failed "expected VALUES after table name")
      else
        let* ok := expectPeek TOKEN_LEFT_PAREN in
        if negb ok then ret (Failed "expected ( after VALUES")
        else
          let* values := parseExpressionList TOKEN_RIGHT_PAREN in
          let* ok := expectPeek TOKEN_RIGHT_PAREN in
          if negb ok then ret (Failed "expected ) after values")
          else ret (Parsed {| ins_TableName := name; ins_Values := values |}).

(** [Parser.parseSelectColumns]. *)
Definition parseSelectColumns : M (list Expression) :=
  let* is_star := peekTokenIs TOKEN_STAR in
  if is_star then let* _ := nextToken in ret [StarExpression]
  else parseExpressionList TOKEN_FROM.

(** [Parser.parseJoinClause]. *)
Definition parseJoinClause : M (parsed JoinClause) :=
  let* _ := nextToken in
  let* ok := expectPeek TOKEN_IDENTIFIER in
  if negb ok then ret (Failed "expected table name after JOIN")
  else
    let* name := currentLiteral in
    let* ok := expectPeek TOKEN_ON in
    if negb ok then ret (Failed "expected ON after JOIN table")
    else
      let* e := parseExpression in
      match e with
      | Failed msg => ret (Failed msg)
      | Parsed (BinaryExpression l op r) =>
          ret (Parsed {| jc_TableName := name;
                         jc_On := {| be_Left := l; be_Operator := op; be_Right := r |} |})
      | Parsed _ => ret (Failed "expected binary expression in ON clause")
      end.

(** The optional [WHERE] clause that ends four of the statements. *)
Definition parseOptionalWhere : M (parsed (option Expression)) :=
  let* is_where := peekTokenIs TOKEN_WHERE in
  if is_where then
    let* _ := nextToken in
    let* e := parseExpression in
    match e with
    | Failed msg => ret (Failed msg)
    | Parsed where_ => ret (Parsed (Some where_))
    end
  else ret (Parsed None).

(** [Parser.parseSelectStatement]. *)
Definition parseSelectStatement : M (parsed SelectStatement) :=
  let* columns := parseSelectColumns in
  let* ok := expectPeek TOKEN_FROM in
  if negb ok then ret (Failed "expected FROM after SELECT columns")
  else
    let* ok := expectPeek TOKEN_IDENTIFIER in
    if negb ok then ret (Failed "expected table name after FROM")
    else
      let* name := currentLiteral in
      let* is_join := peekTokenIs TOKEN_JOIN in
      let* j := (if is_join then
              let* j := parseJoinClause in
              match j with
              | Failed msg => ret (Failed msg)
              | Parsed join => ret (Parsed (Some join))
              end
            else ret (Parsed None)) in
      match j with
      | Failed msg => ret (Failed msg)
      | Parsed join =>
          let* w := parseOptionalWhere in
          match w with
          | Failed msg => ret (Failed msg)
          | Parsed where_ =>
              ret (Parsed {| sel_TableName := name; sel_Columns := columns;
                             sel_Where := where_; sel_Join := join |})
          end
      end.

(** [Parser.parseSetClause]. *)
Fixpoint parseSetClause_go (fuel : nat) (set : gmap string Expression)
  : M (gmap string Expression) :=
  match fuel with
  | O => ret set
  | S fuel' =>
      let* at_where := peekTokenIs TOKEN_WHERE in
      let* at_eof := peekTokenIs TOKEN_EOF in
      if at_where || at_eof then ret set
      else
        let* ok := expectPeek TOKEN_IDENTIFIER in
        if negb ok then ret set
        else
          let* colName := currentLiteral in
          let* ok := expectPeek TOKEN_EQUALS in
          if negb ok then ret set
          else
            let* e := parseExpression in
            match e with
            | Failed _ => ret set
            | Parsed expr =>
                let set' := <[colName := expr]> set in
                let* at_where' := peekTokenIs TOKEN_WHERE in
                if at_where' then parseSetClause_go fuel' set'
                else
                  let* comma := expectPeek TOKEN_COMMA in
                  if negb comma then ret set'
                  else parseSetClause_go fuel' set'
            end
  end.

Definition parseSetClause : M (gmap string Expression) :=
  let* n := turns in parseSetClause_go n ∅.

(** [Parser.parseUpdateStatement]. *)
Definition parseUpdateStatement : M (parsed UpdateStatement) :=
  let* ok := expectPeek TOKEN_IDENTIFIER in
  if negb ok then ret (Failed "expected table name after UPDATE")
  else
    let* name := currentLiteral in
    let* ok := expectPeek TOKEN_SET in
    if negb ok then ret (Failed "expected SET after table name")
    else
      let* set := parseSetClause in
      let* w := parseOptionalWhere in
      match w with
      | Failed msg => ret (Failed msg)
      | Parsed where_ =>
          ret (Parsed {| upd_TableName := name; upd_Set := set; upd_Where := where_ |})
      end.

(** [Parser.parseDeleteStatement]. *)
Definition parseDeleteStatement : M (parsed DeleteStatement) :=
  let* ok := expectPeek TOKEN_FROM in
  if negb ok then ret (Failed "expected FROM after DELETE")
  else
    let* ok := expectPeek TOKEN_IDENTIFIER in
    if negb ok then ret (Failed "expected table name after FROM")
    else
      let* name := currentLiteral in
      let* w := parseOptionalWhere in
      match w with
      | Failed msg => ret (Failed msg)
      | Parsed where_ =>
          ret (Parsed {| del_TableName := name; del_Where := where_ |})
      end.

Definition wrap {A : Type} (f : A -> Statement) (m : M (parsed A)) : M (parsed Statement) :=
  let* r := m in
  match r with
  | Failed msg => ret (Failed msg)
  | Parsed a => ret (Parsed (f a))
  end.

(** [Parser.ParseStatement]. *)
Definition ParseStatement : M (parsed Statement) :=
  let* p := get in
  match tok_Type (currentToken p) with
  | TOKEN_SELECT => wrap StmtSelect parseSelectStatement
  | TOKEN_INSERT => wrap StmtInsert parseInsertStatement
  | TOKEN_UPDATE => wrap StmtUpdate parseUpdateStatement
  | TOKEN_DELETE => wrap StmtDelete parseDeleteStatement
  | TOKEN_CREATE => wrap StmtCreateTable parseCreateStatement
  | _ => ret (Failed ("unexpected token: " ++ tok_Literal (currentToken p))%string)
  end.

(** [Parser.GetErrors]. *)
Definition GetErrors (p : Parser) : list string := errors p.

(** What the command loop does with one statement's text: lex, parse,
    and hand back the result with the diagnostics collected. *)
Definition parseText (sql : string) : parsed Statement * list string :=
  let '(r, p) := ParseStatement (NewParser (NewLexer sql)) in
  (r, GetErrors p).

End Parser.

(* ===================================================================== *)
(** ** engine/table.go                                                    *)
(* ===================================================================== *)

Module Engine.
Import Ast.

(** *** Errors

    The source builds every error with [fmt.Errorf]; one constructor
    stands for each message, with the values the message prints. *)
Inductive error : Type :=
| ErrMissingValue (col : string)
    (* missing value for column %s *)
| ErrTypeMismatch (col : string) (expects : DataType) (got : Value)
    (* column %s expects INTEGER|TEXT|BOOLEAN, got %T *)
| ErrPrimaryKeyViolation (pkValue : Value)
    (* primary key violation: %v already exists *)
| ErrUniqueViolation (col : string) (value : Value)
    (* unique constraint violation for column %s: %v already exists *)
| ErrRowNotFound (pkValue : Value)
    (* row with primary key %v not found *)
| ErrColumnNotExist (col : string)
    (* column %s does not exist *)
| ErrNoPrimaryKey
    (* table has no primary key *)
| ErrTableExists (name : string)
    (* table %s already exists *)
| ErrTableNotExist (name : string)
    (* table %s does not exist *)
| ErrJoinedTableNotExist (name : string)
    (* joined table %s does not exist *)
| ErrValueCount (expected got : nat)
    (* expected %d values, got %d *)
| ErrOnlyEqualityJoins
    (* only equality joins are supported *)
| ErrNotIdentifier
    (* expression must be an identifier or qualified identifier *)
| ErrUnsupportedWhere
    (* unsupported WHERE expression type: %T *)
| ErrIdentifierInValueContext
    (* identifiers not supported in value context *)
| ErrUnsupportedExpression
    (* unsupported expression type: %T *)
| ErrEmptyCSV
    (* empty CSV data *)
| ErrInvalidSchemaLine (line : string)
    (* invalid schema line: %s *)
| ErrInvalidColumnDefinition (colDef : string)
    (* invalid column definition: %s *)
| ErrRowArity (i got expected : nat)
    (* row %d has %d values, expected %d *)
| ErrParseInt (s : string)
    (* strconv.Atoi: parsing %q: ... *)
| ErrInvalidBoolean (s : string)
    (* invalid boolean value: %s *)
| ErrParsingValue (col : string) (cause : error)
    (* error parsing value for column %s: %v *)
| ErrInsertingRow (i : nat) (cause : error)
    (* error inserting row %d: %v *).

#[global] Instance error_eq_dec : EqDecision error.
Proof. solve_decision. Defined.

(** The error kinds of the specification (its section 7). The source has
    no such kinds, only messages: [error_class] files each message under
    the kind whose description in the specification covers it. *)
Inductive ErrorClass : Type :=
| SchemaError | ConstraintError | NotFoundError | UnsupportedError | IOError.

Fixpoint error_class (e : error) : ErrorClass :=
  match e with
  | ErrMissingValue _ | ErrTypeMismatch _ _ _ | ErrColumnNotExist _
  | ErrNoPrimaryKey | ErrTableExists _ | ErrTableNotExist _
  | ErrJoinedTableNotExist _ | ErrValueCount _ _ => SchemaError
  | ErrPrimaryKeyViolation _ | ErrUniqueViolation _ _ => ConstraintError
  | ErrRowNotFound _ => NotFoundError
  | ErrOnlyEqualityJoins | ErrNotIdentifier | ErrUnsupportedWhere
  | ErrIdentifierInValueContext | ErrUnsupportedExpression => UnsupportedError
  | ErrEmptyCSV | ErrInvalidSchemaLine _ | ErrInvalidColumnDefinition _
  | ErrRowArity _ _ _ | ErrParseInt _ | ErrInvalidBoolean _
  | ErrParsingValue _ _ => IOError
  | ErrInsertingRow _ cause => error_class cause
  end.

(** A Go result pair [(value, error)]. *)
Inductive result (A : Type) : Type :=
| Ok (a : A)
| Err (e : error).
Arguments Ok {A} a.
Arguments Err {A} e.

#[global] Instance result_eq_dec {A : Type} `{EqDecision A} : EqDecision (result A).
Proof. solve_decision. Defined.

(** *** Columns, rows and the row store *)

Record Column : Type := mkColumn {
  col_Name : string;
  col_DataType : DataType;
  col_PrimaryKey : bool;
  col_Unique : bool
}.

#[global] Instance Column_eq_dec : EqDecision Column.
Proof. solve_decision. Defined.

(** [Row.Data], a [map[string]interface{}]: a key can be absent, or
    present with the value [nil]. *)
Abbreviation Row := (gmap string Value) (only parsing).

(** A [*Row]. Every pointer the engine holds comes from [NewRow], so it is
    never nil and always names a row of the store. *)
Abbreviation loc := nat (only parsing).

(** The Go heap, restricted to rows. *)
Abbreviation Heap := (gmap nat (gmap string Value)) (only parsing).

Definition deref (h : Heap) (r : loc) : Row := default ∅ (h !! r).

(** [NewRow]: a fresh row with empty data. *)
Definition NewRow (h : Heap) : loc * Heap :=
  let r := fresh (dom h) in (r, <[r := ∅]> h).

(** [Row.GetValue]: indexing a Go map yields [nil] for an absent key. *)
Definition GetValue (row : Row) (columnName : string) : Value :=
  default VNil (row !! columnName).

(** [Row.SetValue], through the pointer. *)
Definition SetValue (h : Heap) (r : loc) (columnName : string) (value : Value) : Heap :=
  <[r := <[columnName := value]> (deref h r)]> h.

(** *** Tables *)

Record Table : Type := mkTable {
  tbl_Name : string;
  tbl_Columns : list Column;
  tbl_Rows : list nat;              (* []*Row *)
  tbl_PrimaryKey : string;          (* column name of primary key *)
  tbl_index : gmap Value nat        (* map[interface{}]*Row *)
}.

#[global] Instance Table_eq_dec : EqDecision Table.
Proof. solve_decision. Defined.

(** The loop of [NewTable]: the name of the first column flagged as
    primary key, the zero value of [string] when there is none. *)
Fixpoint primaryKeyOf (columns : list Column) : string :=
  match columns with
  | [] => EmptyString
  | col :: rest => if col_PrimaryKey col then col_Name col else primaryKeyOf rest
  end.

Definition NewTable (name : string) (columns : list Column) : Table :=
  {| tbl_Name := name;
     tbl_Columns := columns;
     tbl_Rows := [];
     tbl_PrimaryKey := primaryKeyOf columns;
     tbl_index := ∅ |}.

(** [t.PrimaryKey] is not the empty string. *)
Definition hasPrimaryKey (t : Table) : bool :=
  negb (String.eqb (tbl_PrimaryKey t) EmptyString).

(** [validateValueType]: the type assertions [value.(int)],
    [value.(string)], [value.(bool)]; each fails on [nil]. *)
Definition validateValueType (col : Column) (value : Value) : option error :=
  match col_DataType col, value with
  | DATATYPE_INTEGER, VInt _ => None
  | DATATYPE_TEXT, VText _ => None
  | DATATYPE_BOOLEAN, VBool _ => None
  | dt, _ => Some (ErrTypeMismatch (col_Name col) dt value)
  end.

(** First loop of [ValidateRow]: presence and type of every column. *)
Fixpoint validateColumns (columns : list Column) (row : Row) : option error :=
  match columns with
  | [] => None
  | col :: rest =>
      match row !! col_Name col with
      | None => Some (ErrMissingValue (col_Name col))
      | Some v =>
          match validateValueType col v with
          | Some e => Some e
          | None => validateColumns rest row
          end
      end
  end.

(** The primary-key test of [ValidateRow]. *)
Definition validatePrimaryKey (t : Table) (row : Row) : option error :=
  if hasPrimaryKey t then
    match row !! tbl_PrimaryKey t with
    | Some pkValue =>
        match tbl_index t !! pkValue with
        | Some _ => Some (ErrPrimaryKeyViolation pkValue)
        | None => None
        end
    | None => None
    end
  else None.

(** [existingValue != nil && existingValue == value]. *)
Definition collides (existingValue value : Value) : bool :=
  negb (bool_decide (existingValue = VNil)) && bool_decide (existingValue = value).

(** Inner loop of the unique check of [ValidateRow], over [t.Rows]. *)
Fixpoint scanRows (h : Heap) (rows : list nat) (colName : string) (value : Value)
  : option error :=
  match rows with
  | [] => None
  | existingRow :: rest =>
      if collides (GetValue (deref h existingRow) colName) value
      then Some (ErrUniqueViolation colName value)
      else scanRows h rest colName value
  end.

(** Outer loop of the unique check of [ValidateRow], over [t.Columns]. *)
Fixpoint validateUnique (h : Heap) (rows : list nat) (columns : list Column) (row : Row)
  : option error :=
  match columns with
  | [] => None
  | col :: rest =>
      if col_Unique col && negb (col_PrimaryKey col) then
        match row !! col_Name col with
        | Some value =>
            match scanRows h rows (col_Name col) value with
            | Some e => Some e
            | None => validateUnique h rows rest row
            end
        | None => validateUnique h rows rest row
        end
      else validateUnique h rows rest row
  end.

(** [Table.ValidateRow]. *)
Definition ValidateRow (h : Heap) (t : Table) (row : Row) : option error :=
  match validateColumns (tbl_Columns t) row with
  | Some e => Some e
  | None =>
      match validatePrimaryKey t row with
      | Some e => Some e
      | None => validateUnique h (tbl_Rows t) (tbl_Columns t) row
      end
  end.

(** [Table.InsertRow]: the table after the call, and the error if any.
    The row object itself is not written. *)
Definition InsertRow (h : Heap) (t : Table) (row : loc) : Table * option error :=
  match ValidateRow h t (deref h row) with
  | Some e => (t, Some e)
  | None =>
      let index' :=
        if hasPrimaryKey t then
          match deref h row !! tbl_PrimaryKey t with
          | Some pkValue => <[pkValue := row]> (tbl_index t)
          | None => tbl_index t
          end
        else tbl_index t in
      ({| tbl_Name := tbl_Name t;
          tbl_Columns := tbl_Columns t;
          tbl_Rows := tbl_Rows t ++ [row];
          tbl_PrimaryKey := tbl_PrimaryKey t;
          tbl_index := index' |}, None)
  end.

(** [Table.FindRowByPrimaryKey]; [None] is the nil pointer. *)
Definition FindRowByPrimaryKey (t : Table) (pkValue : Value) : option nat :=
  if hasPrimaryKey t then tbl_index t !! pkValue else None.

(** [Table.findColumn]. *)
Fixpoint findColumn_in (columns : list Column) (name : string) : option Column :=
  match columns with
  | [] => None
  | col :: rest =>
      if String.eqb (col_Name col) name then Some col else findColumn_in rest name
  end.

Definition findColumn (t : Table) (name : string) : option Column :=
  findColumn_in (tbl_Columns t) name.

(** First loop of [UpdateRow]. [updates] is a Go map; the list gives its
    entries in the order the [range] loop happens to visit them. An entry
    that fails returns at once, leaving the earlier ones applied. *)
Fixpoint applyUpdates (t : Table) (row : loc) (updates : list (string * Value)) (h : Heap)
  : Heap * option error :=
  match updates with
  | [] => (h, None)
  | (colName, value) :: rest =>
      match findColumn t colName with
      | None => (h, Some (ErrColumnNotExist colName))
      | Some col =>
          match validateValueType col value with
          | Some e => (h, Some e)
          | None => applyUpdates t row rest (SetValue h row colName value)
          end
      end
  end.

(** Inner loop of the re-validation of [UpdateRow]: the rows other than
    [row] itself, compared as pointers. *)
Fixpoint scanOtherRows (h : Heap) (rows : list nat) (row : loc) (colName : string)
    (value : Value) : option error :=
  match rows with
  | [] => None
  | existingRow :: rest =>
      if negb (existingRow =? row)%nat &&
         collides (GetValue (deref h existingRow) colName) value
      then Some (ErrUniqueViolation colName value)
      else scanOtherRows h rest row colName value
  end.

(** Outer loop of the re-validation of [UpdateRow]. *)
Fixpoint revalidateUnique (h : Heap) (rows : list nat) (columns : list Column) (row : loc)
  : option error :=
  match columns with
  | [] => None
  | col :: rest =>
      if col_Unique col && negb (col_PrimaryKey col) then
        match scanOtherRows h rows row (col_Name col)
                (GetValue (deref h row) (col_Name col)) with
        | Some e => Some e
        | None => revalidateUnique h rows rest row
        end
      else revalidateUnique h rows rest row
  end.

(** [Table.UpdateRow]: the store and the table after the call, and the
    error if any. The method writes the row object through its pointer and
    assigns to no field of the table. *)
Definition UpdateRow (h : Heap) (t : Table) (pkValue : Value)
    (updates : list (string * Value)) : Heap * Table * option error :=
  match FindRowByPrimaryKey t pkValue with
  | None => (h, t, Some (ErrRowNotFound pkValue))
  | Some row =>
      match applyUpdates t row updates h with
      | (h', Some e) => (h', t, Some e)
      | (h', None) => (h', t, revalidateUnique h' (tbl_Rows t) (tbl_Columns t) row)
      end
  end.

(** [append(t.Rows[:i], t.Rows[i+1:]...)] at the first [i] with
    [t.Rows[i] == row]. *)
Fixpoint removeFirst (rows : list nat) (row : loc) : list nat :=
  match rows with
  | [] => []
  | r :: rest => if (r =? row)%nat then rest else r :: removeFirst rest row
  end.

(** [Table.DeleteRow]. *)
Definition DeleteRow (t : Table) (pkValue : Value) : Table * option error :=
  if negb (hasPrimaryKey t) then (t, Some ErrNoPrimaryKey)
  else
    match FindRowByPrimaryKey t pkValue with
    | None => (t, Some (ErrRowNotFound pkValue))
    | Some row =>
        ({| tbl_Name := tbl_Name t;
            tbl_Columns := tbl_Columns t;
            tbl_Rows := removeFirst (tbl_Rows t) row;
            tbl_PrimaryKey := tbl_PrimaryKey t;
            tbl_index := delete pkValue (tbl_index t) |}, None)
    end.

(** [Table.SelectRows]; the [columns] argument is unused in the source.
    [whereCondition == nil] is [None]. The closure reads the row through
    its pointer. *)
Definition SelectRows (h : Heap) (t : Table) (whereCondition : option (Row -> bool))
  : list nat :=
  List.filter (fun row => match whereCondition with
                          | None => true
                          | Some cond => cond (deref h row)
                          end) (tbl_Rows t).

(** [Table.GetColumnNames]. *)
Definition GetColumnNames (t : Table) : list string := map col_Name (tbl_Columns t).

(* =================================================================== *)
(** *** engine/database.go                                              *)
(* =================================================================== *)

(** [Database.Tables], a [map[string]*Table]. Each name has a table
    object of its own, so a table changed in place is the map updated at
    its name. *)
Record Database : Type := mkDatabase {
  Tables : gmap string Table
}.

#[global] Instance Database_eq_dec : EqDecision Database.
Proof. solve_decision. Defined.

Definition NewDatabase : Database := {| Tables := ∅ |}.

Definition setTable (db : Database) (name : string) (t : Table) : Database :=
  {| Tables := <[name := t]> (Tables db) |}.

Record ResultSet : Type := mkResultSet {
  rs_Columns : list string;
  rs_Rows : list (list Value)
}.

#[global] Instance ResultSet_eq_dec : EqDecision ResultSet.
Proof. solve_decision. Defined.

(** [Database.ExecuteCreateTable]. *)
Definition ExecuteCreateTable (db : Database) (stmt : CreateTableStatement)
  : Database * option error :=
  match Tables db !! ct_TableName stmt with
  | Some _ => (db, Some (ErrTableExists (ct_TableName stmt)))
  | None =>
      let columns :=
        map (fun colDef => {| col_Name := cd_Name colDef;
                              col_DataType := cd_DataType colDef;
                              col_PrimaryKey := cd_PrimaryKey colDef;
                              col_Unique := cd_Unique colDef |})
            (ct_Columns stmt) in
      (setTable db (ct_TableName stmt) (NewTable (ct_TableName stmt) columns), None)
  end.

(** [Database.evaluateExpression]. *)
Definition evaluateExpression (expr : Expression) : result Value :=
  match expr with
  | Literal v _ => Ok v
  | Identifier _ => Err ErrIdentifierInValueContext
  | _ => Err ErrUnsupportedExpression
  end.

(** [Database.extractColumnName]: the table part of a qualified
    identifier is dropped. *)
Definition extractColumnName (expr : Expression) : result string :=
  match expr with
  | Identifier v => Ok v
  | QualifiedIdentifier _ c => Ok c
  | _ => Err ErrNotIdentifier
  end.

(** Go's [<] on strings: byte by byte, a proper prefix being smaller. *)
Fixpoint string_less (l r : string) : bool :=
  match l, r with
  | _, EmptyString => false
  | EmptyString, String _ _ => true
  | String a l', String b r' =>
      (N_of_ascii a <? N_of_ascii b)%N ||
      ((N_of_ascii a =? N_of_ascii b)%N && string_less l' r')
  end.

(** [compareOrdered]: -1, 0 or 1 for two [int]s or two [string]s, 0 for
    every other pair. *)
Definition compareOrdered (left right : Value) : Z :=
  match left, right with
  | VInt l, VInt r =>
      if (l <? r)%Z then (-1)%Z else if (r <? l)%Z then 1%Z else 0%Z
  | VText l, VText r =>
      if string_less l r then (-1)%Z else if string_less r l then 1%Z else 0%Z
  | _, _ => 0%Z
  end.

(** [Database.compareValues]. *)
Definition compareValues (left right : Value) (operator : string) : bool :=
  if String.eqb operator "=" then bool_decide (left = right)
  else if String.eqb operator "!=" then negb (bool_decide (left = right))
  else if String.eqb operator ">" then (0 <? compareOrdered left right)%Z
  else if String.eqb operator "<" then (compareOrdered left right <? 0)%Z
  else if String.eqb operator ">=" then (0 <=? compareOrdered left right)%Z
  else if String.eqb operator "<=" then (compareOrdered left right <=? 0)%Z
  else false.

(** [Database.buildBinaryCondition]. *)
Definition buildBinaryCondition (left : Expression) (operator : string)
    (right : Expression) : result (Row -> bool) :=
  match extractColumnName left with
  | Err e => Err e
  | Ok leftCol =>
      match evaluateExpression right with
      | Err e => Err e
      | Ok rightValue =>
          Ok (fun row => compareValues (GetValue row leftCol) rightValue operator)
      end
  end.

(** [Database.buildWhereCondition]. *)
Definition buildWhereCondition (expr : Expression) : result (Row -> bool) :=
  match expr with
  | BinaryExpression l op r => buildBinaryCondition l op r
  | _ => Err ErrUnsupportedWhere
  end.

(** The opening of [ExecuteSelect], [ExecuteUpdate] and [ExecuteDelete]:
    the predicate that accepts all rows, replaced by the built condition
    when a [WHERE] clause is present. *)
Definition whereConditionOf (where_ : option Expression) : result (Row -> bool) :=
  match where_ with
  | None => Ok (fun _ => true)
  | Some expr => buildWhereCondition expr
  end.

(** [Database.parseJoinCondition]. *)
Definition parseJoinCondition (expr : BinaryExpr) : result (string * string) :=
  if negb (String.eqb (be_Operator expr) "=") then Err ErrOnlyEqualityJoins
  else
    match extractColumnName (be_Left expr) with
    | Err e => Err e
    | Ok leftCol =>
        match extractColumnName (be_Right expr) with
        | Err e => Err e
        | Ok rightCol => Ok (leftCol, rightCol)
        end
    end.

(** The values of a row under a list of column names. *)
Definition rowValues (row : Row) (columnNames : list string) : list Value :=
  map (GetValue row) columnNames.

(** The nested loops of [executeJoinSelect]. *)
Fixpoint joinRight (h : Heap) (leftTable rightTable : Table) (leftCol rightCol : string)
    (leftRow : loc) (rightRows : list nat) : list (list Value) :=
  match rightRows with
  | [] => []
  | rightRow :: rest =>
      let leftValue := GetValue (deref h leftRow) leftCol in
      let rightValue := GetValue (deref h rightRow) rightCol in
      if bool_decide (leftValue = rightValue)
      then (rowValues (deref h leftRow) (GetColumnNames leftTable) ++
            rowValues (deref h rightRow) (GetColumnNames rightTable))
           :: joinRight h leftTable rightTable leftCol rightCol leftRow rest
      else joinRight h leftTable rightTable leftCol rightCol leftRow rest
  end.

Fixpoint joinLeft (h : Heap) (leftTable rightTable : Table) (leftCol rightCol : string)
    (leftRows : list nat) : list (list Value) :=
  match leftRows with
  | [] => []
  | leftRow :: rest =>
      joinRight h leftTable rightTable leftCol rightCol leftRow (tbl_Rows rightTable)
      ++ joinLeft h leftTable rightTable leftCol rightCol rest
  end.

(** [Database.executeJoinSelect]. [join] is [stmt.Join], which the caller
    has found non-nil; the function reads nothing else of the statement. *)
Definition executeJoinSelect (h : Heap) (db : Database) (leftTable : Table)
    (join : JoinClause) : result ResultSet :=
  match Tables db !! jc_TableName join with
  | None => Err (ErrJoinedTableNotExist (jc_TableName join))
  | Some rightTable =>
      match parseJoinCondition (jc_On join) with
      | Err e => Err e
      | Ok (leftCol, rightCol) =>
          Ok {| rs_Columns := GetColumnNames leftTable ++ GetColumnNames rightTable;
                rs_Rows := joinLeft h leftTable rightTable leftCol rightCol
                             (tbl_Rows leftTable) |}
      end
  end.

(** The column names of an explicit projection list, up to the first
    expression that is not an identifier. *)
Fixpoint extractColumnNames (columns : list Expression) : result (list string) :=
  match columns with
  | [] => Ok []
  | col :: rest =>
      match extractColumnName col with
      | Err e => Err e
      | Ok colName =>
          match extractColumnNames rest with
          | Err e => Err e
          | Ok names => Ok (colName :: names)
          end
      end
  end.

(** [Database.ExecuteSelect]. Past the join test [stmt.Join] is nil, so
    the star projection is the table's own columns. *)
Definition ExecuteSelect (h : Heap) (db : Database) (stmt : SelectStatement)
  : result ResultSet :=
  match Tables db !! sel_TableName stmt with
  | None => Err (ErrTableNotExist (sel_TableName stmt))
  | Some table =>
      match whereConditionOf (sel_Where stmt) with
      | Err e => Err e
      | Ok whereCondition =>
          match sel_Join stmt with
          | Some join => executeJoinSelect h db table join
          | None =>
              let rows := SelectRows h table (Some whereCondition) in
              let columnNames :=
                match sel_Columns stmt with
                | [StarExpression] => Ok (GetColumnNames table)
                | columns => extractColumnNames columns
                end in
              match columnNames with
              | Err e => Err e
              | Ok columnNames =>
                  Ok {| rs_Columns := columnNames;
                        rs_Rows := map (fun row => rowValues (deref h row) columnNames)
                                       rows |}
              end
          end
      end
  end.

(** [Database.ExecuteInsert]: the store, the database and the error. *)
Fixpoint fillRow (h : Heap) (row : loc) (columns : list Column) (values : list Expression)
  : Heap * option error :=
  match values, columns with
  | expr :: values', col :: columns' =>
      match evaluateExpression expr with
      | Err e => (h, Some e)
      | Ok value => fillRow (SetValue h row (col_Name col) value) row columns' values'
      end
  | _, _ => (h, None)
  end.

Definition ExecuteInsert (h : Heap) (db : Database) (stmt : InsertStatement)
  : Heap * Database * option error :=
  match Tables db !! ins_TableName stmt with
  | None => (h, db, Some (ErrTableNotExist (ins_TableName stmt)))
  | Some table =>
      if negb (length (ins_Values stmt) =? length (tbl_Columns table))%nat
      then (h, db, Some (ErrValueCount (length (tbl_Columns table))
                                        (length (ins_Values stmt))))
      else
        let '(row, h0) := NewRow h in
        match fillRow h0 row (tbl_Columns table) (ins_Values stmt) with
        | (h1, Some e) => (h1, db, Some e)
        | (h1, None) =>
            let '(table', err) := InsertRow h1 table row in
            (h1, setTable db (ins_TableName stmt) table', err)
        end
  end.

(** First loop of [ExecuteDelete]: the primary-key values of the matching
    rows; a table without primary key contributes none. *)
Fixpoint rowsToDelete (h : Heap) (table : Table) (whereCondition : Row -> bool)
    (rows : list nat) : list Value :=
  match rows with
  | [] => []
  | row :: rest =>
      if whereCondition (deref h row) then
        if hasPrimaryKey table
        then GetValue (deref h row) (tbl_PrimaryKey table)
             :: rowsToDelete h table whereCondition rest
        else rowsToDelete h table whereCondition rest
      else rowsToDelete h table whereCondition rest
  end.

(** Second loop of [ExecuteDelete]: stops at the first failing
    [DeleteRow], the earlier deletions staying in place. *)
Fixpoint deleteRows (table : Table) (pkValues : list Value) : Table * option error :=
  match pkValues with
  | [] => (table, None)
  | pkValue :: rest =>
      match DeleteRow table pkValue with
      | (table', Some e) => (table', Some e)
      | (table', None) => deleteRows table' rest
      end
  end.

(** [Database.ExecuteDelete]. *)
Definition ExecuteDelete (h : Heap) (db : Database) (stmt : DeleteStatement)
  : Database * option error :=
  match Tables db !! del_TableName stmt with
  | None => (db, Some (ErrTableNotExist (del_TableName stmt)))
  | Some table =>
      match whereConditionOf (del_Where stmt) with
      | Err e => (db, Some e)
      | Ok whereCondition =>
          let '(table', err) :=
            deleteRows table (rowsToDelete h table whereCondition (tbl_Rows table)) in
          (setTable db (del_TableName stmt) table', err)
      end
  end.

(** The order in which a [range] loop visits the entries of a Go map. The
    language leaves it open and lets it differ from one loop to the next,
    so every loop of [ExecuteUpdate] has an order of its own: the loop
    over [stmt.Set], and the loop over [updates] that is run for the n-th
    row to update. *)
Record RangeOrder : Type := mkRangeOrder {
  overSet : gmap string Expression -> list (string * Expression);
  overUpdates : nat -> gmap string Value -> list (string * Value)
}.

(** The first loop of [ExecuteUpdate]: the assigned expressions are
    evaluated and collected in the map [updates]; the first expression
    that does not evaluate ends the statement. *)
Fixpoint evaluateSet (entries : list (string * Expression)) (updates : gmap string Value)
  : result (gmap string Value) :=
  match entries with
  | [] => Ok updates
  | (colName, expr) :: rest =>
      match evaluateExpression expr with
      | Err e => Err e
      | Ok value => evaluateSet rest (<[colName := value]> updates)
      end
  end.

(** The loop of [ExecuteUpdate] for a table without primary key: the
    updates are written to the row with no check. *)
Definition updateInPlace (row : nat) (updates : list (string * Value)) (h : Heap) : Heap :=
  foldl (fun h u => SetValue h row u.1 u.2) h updates.

(** The last loop of [ExecuteUpdate], over [rowsToUpdate]. The key of a
    row is read when its turn comes; the first [UpdateRow] that fails ends
    the statement, the rows updated before staying as they are. *)
Fixpoint updateRows (order : RangeOrder) (table : Table) (updates : gmap string Value)
    (n : nat) (rows : list nat) (h : Heap) : Heap * option error :=
  match rows with
  | [] => (h, None)
  | row :: rest =>
      if hasPrimaryKey table then
        let pkValue := GetValue (deref h row) (tbl_PrimaryKey table) in
        match UpdateRow h table pkValue (overUpdates order n updates) with
        | (h', _, Some e) => (h', Some e)
        | (h', _, None) => updateRows order table updates (S n) rest h'
        end
      else
        updateRows order table updates (S n) rest
          (updateInPlace row (overUpdates order n updates) h)
  end.

(** [Database.ExecuteUpdate]: the store after the call and the error. No
    field of the table is assigned, so the database is as before. *)
Definition ExecuteUpdate (order : RangeOrder) (h : Heap) (db : Database)
    (stmt : UpdateStatement) : Heap * option error :=
  match Tables db !! upd_TableName stmt with
  | None => (h, Some (ErrTableNotExist (upd_TableName stmt)))
  | Some table =>
      match evaluateSet (overSet order (upd_Set stmt)) ∅ with
      | Err e => (h, Some e)
      | Ok updates =>
          match whereConditionOf (upd_Where stmt) with
          | Err e => (h, Some e)
          | Ok whereCondition =>
              let rowsToUpdate :=
                List.filter (fun row => whereCondition (deref h row)) (tbl_Rows table) in
              updateRows order table updates 0 rowsToUpdate h
          end
      end
  end.

(* =================================================================== *)
(** *** The codec of engine/table.go: [ToCSV] and [TableFromCSV]        *)
(* =================================================================== *)

Definition dquote : ascii := "034"%char.
Definition newline : string := String "010"%char EmptyString.
Definition quoteStr : string := String dquote EmptyString.
Definition quoteQuoteStr : string := String dquote (String dquote EmptyString).

(** [formatValue]. The [default] case prints with [%v]; [ToCSV] reaches
    it with an [int] only. *)
Definition formatValue (value : Value) : string :=
  match value with
  | VText v =>
      if GoStrings.Contains v "," || GoStrings.Contains v quoteStr
      then (quoteStr ++ GoStrings.ReplaceAll v quoteStr quoteQuoteStr ++ quoteStr)%string
      else v
  | VBool v => if v then "true" else "false"
  | VInt v => GoStrings.Itoa v
  | VNil => "<nil>"
  end.

(** The schema descriptor of one column. *)
Definition colDefOf (col : Column) : string :=
  (col_Name col ++ ":" ++ DataType_String (col_DataType col)
   ++ (if col_PrimaryKey col then ":PRIMARY_KEY" else EmptyString)
   ++ (if col_Unique col then ":UNIQUE" else EmptyString))%string.

(** One data line. *)
Definition rowLine (colNames : list string) (row : Row) : string :=
  GoStrings.Join
    (map (fun colName =>
            match GetValue row colName with
            | VNil => EmptyString
            | value => formatValue value
            end) colNames) ",".

(** [Table.ToCSV]. *)
Definition ToCSV (h : Heap) (t : Table) : string :=
  let schema :=
    ("# SCHEMA: " ++ GoStrings.Join (map colDefOf (tbl_Columns t)) ",")%string in
  let colNames := GetColumnNames t in
  GoStrings.Join
    (schema :: map (fun row => rowLine colNames (deref h row)) (tbl_Rows t))
    newline.

(** [parseDataType]. *)
Definition parseDataType (s : string) : DataType :=
  if String.eqb s "INTEGER" then DATATYPE_INTEGER
  else if String.eqb s "TEXT" then DATATYPE_TEXT
  else if String.eqb s "BOOLEAN" then DATATYPE_BOOLEAN
  else DATATYPE_TEXT.

(** [s[len(s)-1]]. *)
Fixpoint lastByte (s : string) : option ascii :=
  match s with
  | EmptyString => None
  | String c EmptyString => Some c
  | String _ s' => lastByte s'
  end.

(** [parseValue]. An empty field is [nil]. *)
Definition parseValue (s : string) (dataType : DataType) : result Value :=
  let s := GoStrings.TrimSpace s in
  if String.eqb s EmptyString then Ok VNil
  else
    match dataType with
    | DATATYPE_INTEGER =>
        match GoStrings.Atoi s with
        | Some i => Ok (VInt i)
        | None => Err (ErrParseInt s)
        end
    | DATATYPE_BOOLEAN =>
        let l := GoStrings.ToLower s in
        if String.eqb l "true" || String.eqb l "1" then Ok (VBool true)
        else if String.eqb l "false" || String.eqb l "0" then Ok (VBool false)
        else Err (ErrInvalidBoolean s)
    | DATATYPE_TEXT =>
        match s with
        | String first _ =>
            if (2 <=? String.length s)%nat && Ascii.eqb first dquote
               && bool_decide (lastByte s = Some dquote)
            then Ok (VText (GoStrings.ReplaceAll
                              (String.substring 1 (String.length s - 2) s)
                              quoteQuoteStr quoteStr))
            else Ok (VText s)
        | EmptyString => Ok (VText s)
        end
    end.

(** [parseCSVLine]: the quote-aware scanner. [current] is the field being
    collected; a doubled quote inside quotes is read as one quote
    character and both bytes are passed. *)
Fixpoint parseCSVLine_go (line : string) (inQuotes : bool) (current : string)
  : list string :=
  match line with
  | EmptyString => [current]
  | String char rest =>
      if Ascii.eqb char dquote then
        if negb inQuotes then parseCSVLine_go rest true current
        else
          match rest with
          | String next rest' =>
              if Ascii.eqb next dquote
              then parseCSVLine_go rest' true (current ++ quoteStr)%string
              else parseCSVLine_go rest false current
          | EmptyString => parseCSVLine_go rest false current
          end
      else if Ascii.eqb char ","%char && negb inQuotes
      then current :: parseCSVLine_go rest false EmptyString
      else parseCSVLine_go rest inQuotes (current ++ String char EmptyString)%string
  end.

Definition parseCSVLine (line : string) : list string :=
  parseCSVLine_go line false EmptyString.

(** The flags of a column descriptor, [parts[2:]]. *)
Fixpoint columnFlags (parts : list string) (pk uq : bool) : bool * bool :=
  match parts with
  | [] => (pk, uq)
  | part :: rest =>
      if String.eqb part "PRIMARY_KEY" then columnFlags rest true uq
      else if String.eqb part "UNIQUE" then columnFlags rest pk true
      else columnFlags rest pk uq
  end.

(** The schema loop of [TableFromCSV]. *)
Fixpoint parseColumns (colDefs : list string) : result (list Column) :=
  match colDefs with
  | [] => Ok []
  | colDef :: rest =>
      let colDef := GoStrings.TrimSpace colDef in
      match GoStrings.Split colDef ":" with
      | name :: typ :: flags =>
          let '(pk, uq) := columnFlags flags false false in
          match parseColumns rest with
          | Err e => Err e
          | Ok cols =>
              Ok ({| col_Name := name; col_DataType := parseDataType typ;
                     col_PrimaryKey := pk; col_Unique := uq |} :: cols)
          end
      | _ => Err (ErrInvalidColumnDefinition colDef)
      end
  end.

(** The loop over the fields of one data line. The caller has checked
    that there are as many values as columns. *)
Fixpoint parseFields (h : Heap) (row : loc) (columns : list Column) (values : list string)
  : Heap * option error :=
  match values, columns with
  | value :: values', col :: columns' =>
      match parseValue value (col_DataType col) with
      | Err e => (h, Some (ErrParsingValue (col_Name col) e))
      | Ok parsedValue =>
          parseFields (SetValue h row (col_Name col) parsedValue) row columns' values'
      end
  | _, _ => (h, None)
  end.

(** The loop over the data lines, [lines[i:]]. *)
Fixpoint loadRows (h : Heap) (table : Table) (columns : list Column)
    (i : nat) (lines : list string) : Heap * result Table :=
  match lines with
  | [] => (h, Ok table)
  | line :: rest =>
      let line := GoStrings.TrimSpace line in
      if String.eqb line EmptyString then loadRows h table columns (S i) rest
      else
        let values := parseCSVLine line in
        if negb (length values =? length columns)%nat
        then (h, Err (ErrRowArity i (length values) (length columns)))
        else
          let '(row, h0) := NewRow h in
          match parseFields h0 row columns values with
          | (h1, Some e) => (h1, Err e)
          | (h1, None) =>
              match InsertRow h1 table row with
              | (_, Some e) => (h1, Err (ErrInsertingRow i e))
              | (table', None) => loadRows h1 table' columns (S i) rest
              end
          end
  end.

(** [TableFromCSV]: the store after the call, and the table or the error. *)
Definition TableFromCSV (h : Heap) (name csvData : string) : Heap * result Table :=
  match GoStrings.Split csvData newline with
  | [] => (h, Err ErrEmptyCSV)
  | schemaLine :: dataLines =>
      if negb (GoStrings.HasPrefix schemaLine "# SCHEMA: ")
      then (h, Err (ErrInvalidSchemaLine schemaLine))
      else
        let schemaStr := GoStrings.TrimPrefix schemaLine "# SCHEMA: " in
        match parseColumns (GoStrings.Split schemaStr ",") with
        | Err e => (h, Err e)
        | Ok columns => loadRows h (NewTable name columns) columns 1 dataLines
        end
  end.

End Engine.

Import Ast Engine.

(* ===================================================================== *)
(** ** Notions used to state the properties                               *)
(* ===================================================================== *)

(** One assignment of an update, applied to the data of a row. *)
Definition setColumn (data : gmap string Value) (update : string * Value)
  : gmap string Value :=
  <[update.1 := update.2]> data.

(** [v] is strictly greater than [literal]: both integers, or both texts in
    the lexicographic order of their bytes. *)
Definition strictlyGreater (v literal : Value) : bool :=
  match v, literal with
  | VInt a, VInt b => (b <? a)%Z
  | VText a, VText b => String.ltb b a
  | _, _ => false
  end.

(** The pairs of values that have an order: two integers or two texts. *)
Definition comparable (v literal : Value) : bool :=
  match v, literal with
  | VInt _, VInt _ | VText _, VText _ => true
  | _, _ => false
  end.

(** [SELECT * FROM name WHERE col op literal]. *)
Definition selectWhere (name col op : string) (literal : Value) (ty : DataType)
  : SelectStatement :=
  {| sel_TableName := name;
     sel_Columns := [StarExpression];
     sel_Where := Some (BinaryExpression (Identifier col) op (Literal literal ty));
     sel_Join := None |}.

(** The rows at [rows], each as the list of its values in column order. *)
Definition projected (h : Heap) (t : Table) (rows : list nat) : list (list Value) :=
  map (fun row => rowValues (deref h row) (GetColumnNames t)) rows.

(** [SELECT columns FROM a JOIN b ON l op r [WHERE where_]]. *)
Definition selectJoin (a b : string) (columns : list Expression)
    (where_ : option Expression) (l : Expression) (op : string) (r : Expression)
  : SelectStatement :=
  {| sel_TableName := a;
     sel_Columns := columns;
     sel_Where := where_;
     sel_Join := Some {| jc_TableName := b;
                         jc_On := {| be_Left := l; be_Operator := op; be_Right := r |} |} |}.

(** The rows of [tB] whose [y] equals the [x] of [leftRow]. *)
Definition matching (h : Heap) (tB : Table) (x y : string) (leftRow : nat) : list nat :=
  List.filter
    (fun rightRow =>
       bool_decide (GetValue (deref h leftRow) x = GetValue (deref h rightRow) y))
    (tbl_Rows tB).

(** One output row for every left row and every right row matching it:
    the values of the left row followed by those of the right row. *)
Definition joinedRows (h : Heap) (tA tB : Table) (x y : string) : list (list Value) :=
  flat_map
    (fun leftRow =>
       map (fun rightRow => rowValues (deref h leftRow) (GetColumnNames tA) ++
                            rowValues (deref h rightRow) (GetColumnNames tB))
           (matching h tB x y leftRow))
    (tbl_Rows tA).

(** A statement with its [WHERE] clause removed. *)
Definition withoutWhere (stmt : SelectStatement) : SelectStatement :=
  {| sel_TableName := sel_TableName stmt;
     sel_Columns := sel_Columns stmt;
     sel_Where := None;
     sel_Join := sel_Join stmt |}.

(** Every loop visits each entry of its map once. *)
Definition permutes (order : RangeOrder) : Prop :=
  (forall set, overSet order set ≡ₚ map_to_list set) /\
  (forall n updates, overUpdates order n updates ≡ₚ map_to_list updates).

(** [SELECT * FROM name]. *)
Definition selectAll (name : string) : SelectStatement :=
  {| sel_TableName := name; sel_Columns := [StarExpression];
     sel_Where := None; sel_Join := None |}.

(** Every row of every table of the database is an object of the store,
    as it is in a Go program, where a pointer is made by [NewRow] only. *)
Definition allocated (h : Heap) (db : Database) : Prop :=
  map_Forall (fun _ t => Forall (fun r => r ∈ dom h) (tbl_Rows t)) (Tables db).

#[global] Instance allocated_dec h db : Decision (allocated h db).
Proof. unfold allocated. apply _. Defined.

(* ===================================================================== *)
(** ** What a table keeps true                                            *)
(* ===================================================================== *)

Module Consistency.

(** The table has a primary key, chosen as [NewTable] chooses it. *)
Definition keyed (t : Table) : Prop :=
  hasPrimaryKey t = true /\ tbl_PrimaryKey t = primaryKeyOf (tbl_Columns t).

(** The value a row carries under the primary-key column. *)
Definition keyOf (h : Heap) (t : Table) (r : nat) : option Value :=
  deref h r !! tbl_PrimaryKey t.

(** The index and the row sequence agree: no row object occurs twice,
    every row is found under its key, and every entry of the index leads
    to a row of the table that carries the entry's key. *)
Definition indexed (h : Heap) (t : Table) : Prop :=
  NoDup (tbl_Rows t) /\
  Forall (fun r => keyOf h t r ≫= (fun v => tbl_index t !! v) = Some r) (tbl_Rows t) /\
  map_Forall (fun v r => r ∈ tbl_Rows t /\ keyOf h t r = Some v) (tbl_index t).

(** The dynamic type of a value, as the type assertions of
    [validateValueType] tell it; [nil] has none. *)
Definition typeOf (v : Value) : option DataType :=
  match v with
  | VNil => None
  | VInt _ => Some DATATYPE_INTEGER
  | VText _ => Some DATATYPE_TEXT
  | VBool _ => Some DATATYPE_BOOLEAN
  end.

(** Every row has a value of the declared type in every column. *)
Definition typed (h : Heap) (t : Table) : Prop :=
  Forall (fun r => validateColumns (tbl_Columns t) (deref h r) = None) (tbl_Rows t).

(** The values of a column, row by row. *)
Definition columnValues (h : Heap) (rows : list nat) (colName : string) : list Value :=
  map (fun r => GetValue (deref h r) colName) rows.

(** In every column flagged unique that is not flagged primary key, the
    values other than [nil] are pairwise different. *)
Definition distinct (h : Heap) (t : Table) : Prop :=
  Forall (fun col =>
            col_Unique col && negb (col_PrimaryKey col) = true ->
            NoDup (filter (fun v => v <> VNil) (columnValues h (tbl_Rows t) (col_Name col))))
         (tbl_Columns t).

(** A call of [InsertRow] or of [DeleteRow]. *)
Inductive Call : Type :=
| CallInsertRow (row : nat)
| CallDeleteRow (pkValue : Value).

(** The table a call leaves, whether it returns an error or not. *)
Definition after (h : Heap) (t : Table) (c : Call) : Table :=
  match c with
  | CallInsertRow row => fst (InsertRow h t row)
  | CallDeleteRow pkValue => fst (DeleteRow t pkValue)
  end.

(** The table that a sequence of calls leaves of a new table. The calls
    write no row object, so one store serves them all: the store as it
    is after the last call, with the row objects made in between. *)
Definition reached (h : Heap) (name : string) (columns : list Column) (calls : list Call)
  : Table :=
  foldl (after h) (NewTable name columns) calls.

#[global] Instance keyed_dec t : Decision (keyed t).
Proof. unfold keyed. apply _. Defined.
#[global] Instance indexed_dec h t : Decision (indexed h t).
Proof. unfold indexed. apply _. Defined.
#[global] Instance typed_dec h t : Decision (typed h t).
Proof. unfold typed. apply _. Defined.
#[global] Instance distinct_dec h t : Decision (distinct h t).
Proof. unfold distinct. apply _. Defined.

End Consistency.

Import Consistency.

(** *** What is stored and read back *)

(** No byte of [s] is [c]. *)
Fixpoint without (c : ascii) (s : string) : bool :=
  match s with
  | EmptyString => true
  | String a s' => negb (Ascii.eqb c a) && without c s'
  end.

(** A value as plain text: what a field of a CSV line stands for once
    the quoting is undone. *)
Definition plain (v : Value) : string :=
  match v with
  | VNil => EmptyString
  | VInt i => GoStrings.Itoa i
  | VText s => s
  | VBool b => if b then "true" else "false"
  end.

(** What follows a field on its line: nothing, or the comma that starts
    the next field. *)
Definition fieldEnd (rest : string) : Prop :=
  rest = EmptyString \/ exists rest', rest = String ","%char rest'.

(** The field written for a value, as [ToCSV] writes it. *)
Abbreviation fieldOf v :=
  (match v with
   | VNil => EmptyString
   | VInt i => formatValue (VInt i)
   | VText s => formatValue (VText s)
   | VBool b => formatValue (VBool b)
   end).

(** [len(s) >= 2 && s[0] == '"' && s[len(s)-1] == '"'], the test of
    [parseValue] for a text in quotes. *)
Definition quoted (s : string) : bool :=
  match s with
  | String first _ =>
      (2 <=? String.length s)%nat && Ascii.eqb first dquote
      && bool_decide (lastByte s = Some dquote)
  | EmptyString => false
  end.

(** The values a field can carry unharmed: an integer of 64 bits, a
    Boolean, and a text that is not empty, does not start or end with
    white space, and is not held in double quotes. *)
Definition readable (v : Value) : bool :=
  match v with
  | VNil => false
  | VInt i => (GoStrings.minInt <=? i)%Z && (i <=? GoStrings.maxInt)%Z
  | VBool _ => true
  | VText s =>
      negb (String.eqb s EmptyString) && String.eqb (GoStrings.TrimSpace s) s
      && negb (quoted s)
  end.

Definition newlineByte : ascii := "010"%char.

(** The values a table can hold and get back from its file: those a
    field can carry, the texts without a line feed. *)
Definition storable (v : Value) : bool :=
  readable v && match v with VText s => without newlineByte s | _ => true end.

(** The column names a schema line can carry: no comma, colon or line
    feed, and no white space in front. *)
Definition storableName (name : string) : bool :=
  without ","%char name && without ":"%char name && without newlineByte name
  && (GoStrings.space_width name =? 0)%nat.

(** A table whose file gives it back: at least one column, names and
    values that can be stored, the primary key chosen as [NewTable]
    chooses it. *)
Definition storableTable (h : Heap) (t : Table) : Prop :=
  tbl_Columns t <> [] /\
  tbl_PrimaryKey t = primaryKeyOf (tbl_Columns t) /\
  Forall (fun col => storableName (col_Name col) = true) (tbl_Columns t) /\
  Forall (fun r =>
            Forall (fun col => storable (GetValue (deref h r) (col_Name col)) = true)
                   (tbl_Columns t))
         (tbl_Rows t).

#[global] Instance storableTable_dec h t : Decision (storableTable h t).
Proof. unfold storableTable. apply _. Defined.

(** [row'] has in every column what [row] has there. *)
Definition agree (columns : list Column) (row row' : Row) : Prop :=
  Forall (fun col => row' !! col_Name col = row !! col_Name col) columns.

(** What a cell of a typed, storable table is. *)
Definition cell (row : Row) (col : Column) : Prop :=
  exists v, row !! col_Name col = Some v /\ typeOf v = Some (col_DataType col) /\
            storable v = true.

(** The state of [TableFromCSV] after the lines of the rows [done] of
    [t]: the table being built has the schema of [t], a row for each row
    of [done] with the same cells, keys of [done] only in its index, and the
    index in step with the rows. *)
Definition loadedSoFar (h : Heap) (t : Table) (name : string)
    (hc : Heap) (tc : Table) (done : list nat) : Prop :=
  tbl_Name tc = name /\ tbl_Columns tc = tbl_Columns t /\
  tbl_PrimaryKey tc = tbl_PrimaryKey t /\
  Forall2 (fun r' r => agree (tbl_Columns t) (deref h r) (deref hc r')) (tbl_Rows tc) done /\
  Forall (fun r' => r' ∈ dom hc) (tbl_Rows tc) /\
  map_Forall (fun v _ => exists r, r ∈ done /\ keyOf h t r = Some v) (tbl_index tc) /\
  (hasPrimaryKey tc = true -> indexed hc tc).

(* ===================================================================== *)
(** ** The progress of the lexer and the turns of the parser              *)
(* ===================================================================== *)

Module Progress.
Import Lexer Parser.

(** The byte in [current] is the one before [pos], or 0 past the end. *)
Definition wf (l : Lexer) : Prop :=
  current l = default zeroByte (String.get (pos l - 1) (input l)) /\ 1 <= pos l.

(** One call of [NextToken]: the lexer moves forward, and it has gone past
    the end of the input by one at most when the token is not the end
    token. *)
Definition step_ok (l l' : Lexer) (nonEOF : Prop) : Prop :=
  wf l' /\ input l' = input l /\ pos l < pos l' /\
  (nonEOF -> pos l' <= String.length (input l) + 1).

(** What holds of the parser at every point of a run. *)
Definition J (p : Parser) : Prop :=
  wf (lexer p) /\
  (tok_Type (peekToken p) <> TOKEN_EOF ->
   pos (lexer p) <= String.length (input (lexer p)) + 1).

Definition later (p p' : Parser) : Prop :=
  input (lexer p') = input (lexer p) /\ pos (lexer p) <= pos (lexer p') /\ J p'.

Definition strictly_later (p p' : Parser) : Prop :=
  input (lexer p') = input (lexer p) /\ pos (lexer p) < pos (lexer p') /\ J p'.

(** An upper bound on the tokens other than the end token that are still
    to come. *)
Definition turnsLeft (p : Parser) : nat :=
  String.length (input (lexer p)) + 2 - pos (lexer p).

End Progress.

(* ===================================================================== *)
(** ** parser/ast.go: the [String] methods                                *)
(* ===================================================================== *)

Module AstText.
Import Lexer.

(** [fmt.Sprintf("%v", v)] on the values a literal holds. *)
Definition Sprint (v : Value) : string :=
  match v with
  | VNil => "<nil>"
  | VInt i => GoStrings.Itoa i
  | VText s => s
  | VBool b => if b then "true" else "false"
  end.

(** [Expression.String]. The type assertions of [Literal.String] panic
    on a value of another type: [None]. *)
Fixpoint Expression_String (e : Expression) : option string :=
  match e with
  | Identifier v => Some v
  | QualifiedIdentifier t c => Some (t ++ "." ++ c)%string
  | Literal v ty =>
      match ty with
      | DATATYPE_TEXT =>
          match v with
          | VText s => Some ("'" ++ s ++ "'")%string
          | _ => None
          end
      | DATATYPE_BOOLEAN =>
          match v with
          | VBool b => Some (if b then "TRUE" else "FALSE")
          | _ => None
          end
      | DATATYPE_INTEGER => Some (Sprint v)
      end
  | BinaryExpression l op r =>
      match Expression_String l, Expression_String r with
      | Some ls, Some rs => Some (ls ++ " " ++ op ++ " " ++ rs)%string
      | _, _ => None
      end
  | StarExpression => Some "*"
  end.

(** The loops [for _, x := range xs { strs = append(strs, x.String()) }]. *)
Fixpoint Expressions_Strings (es : list Expression) : option (list string) :=
  match es with
  | [] => Some []
  | e :: rest =>
      match Expression_String e, Expressions_Strings rest with
      | Some s, Some ss => Some (s :: ss)
      | _, _ => None
      end
  end.

(** [ColumnDefinition.String]. *)
Definition ColumnDefinition_String (c : ColumnDefinition) : string :=
  (cd_Name c ++ " " ++ DataType_String (cd_DataType c)
   ++ (if cd_PrimaryKey c then " PRIMARY KEY" else EmptyString)
   ++ (if cd_Unique c then " UNIQUE" else EmptyString))%string.

(** [CreateTableStatement.String]. *)
Definition CreateTableStatement_String (c : CreateTableStatement) : string :=
  ("CREATE TABLE " ++ ct_TableName c ++ " ("
   ++ GoStrings.Join (map ColumnDefinition_String (ct_Columns c)) ", " ++ ")")%string.

(** [InsertStatement.String]. *)
Definition InsertStatement_String (i : InsertStatement) : option string :=
  match Expressions_Strings (ins_Values i) with
  | Some vals =>
      Some ("INSERT INTO " ++ ins_TableName i ++ " VALUES ("
            ++ GoStrings.Join vals ", " ++ ")")%string
  | None => None
  end.

(** [JoinClause.String]. *)
Definition JoinClause_String (j : JoinClause) : option string :=
  match Expression_String
          (BinaryExpression (be_Left (jc_On j)) (be_Operator (jc_On j)) (be_Right (jc_On j)))
  with
  | Some on => Some ("JOIN " ++ jc_TableName j ++ " ON " ++ on)%string
  | None => None
  end.

(** The end of four of the methods:
    [if x.Where != nil { result += " WHERE " + x.Where.String() }]. *)
Definition withWhere (result : string) (where_ : option Expression) : option string :=
  match where_ with
  | Some w =>
      match Expression_String w with
      | Some ws => Some (result ++ " WHERE " ++ ws)%string
      | None => None
      end
  | None => Some result
  end.

(** [SelectStatement.String]. *)
Definition SelectStatement_String (s : SelectStatement) : option string :=
  match Expressions_Strings (sel_Columns s) with
  | Some cols =>
      let result := ("SELECT " ++ GoStrings.Join cols ", " ++ " FROM " ++ sel_TableName s)%string in
      match sel_Join s with
      | Some j =>
          match JoinClause_String j with
          | Some js => withWhere (result ++ " " ++ js)%string (sel_Where s)
          | None => None
          end
      | None => withWhere result (sel_Where s)
      end
  | None => None
  end.

(** The loop of [UpdateStatement.String] over the map [u.Set], in the
    order [entries] the run-time visits it. *)
Fixpoint Assignments_Strings (entries : list (string * Expression)) : option (list string) :=
  match entries with
  | [] => Some []
  | (col, val) :: rest =>
      match Expression_String val, Assignments_Strings rest with
      | Some s, Some ss => Some ((col ++ " = " ++ s)%string :: ss)
      | _, _ => None
      end
  end.

(** [UpdateStatement.String]. *)
Definition UpdateStatement_String (order : RangeOrder) (u : UpdateStatement) : option string :=
  match Assignments_Strings (overSet order (upd_Set u)) with
  | Some sets =>
      withWhere ("UPDATE " ++ upd_TableName u ++ " SET " ++ GoStrings.Join sets ", ")%string
                (upd_Where u)
  | None => None
  end.

(** [DeleteStatement.String]. *)
Definition DeleteStatement_String (d : DeleteStatement) : option string :=
  withWhere ("DELETE FROM " ++ del_TableName d)%string (del_Where d).

End AstText.

(* ===================================================================== *)
(** ** Texts as sequences of lexemes                                      *)
(* ===================================================================== *)

Module Lexemes.
Import Lexer.

(** The lexer that has read [pre] and has [rest] before it, the first
    byte of [rest] in [current]. *)
Definition lexerAt (pre rest : string) : Lexer :=
  {| input := (pre ++ rest)%string;
     pos := S (String.length pre);
     current := match rest with EmptyString => zeroByte | String c _ => c end |}.

(** The lexer past the end of its input. *)
Definition exhausted (l : Lexer) : Prop :=
  current l = zeroByte /\ String.length (input l) < pos l.

(** The bytes an identifier goes on with. *)
Definition isWordByte (c : ascii) : bool :=
  isLetter c || isDigit c || Ascii.eqb c "_"%char.

Fixpoint allBytes (f : ascii -> bool) (s : string) : bool :=
  match s with
  | EmptyString => true
  | String c s' => f c && allBytes f s'
  end.

(** What the lexer makes one token of: a word (an identifier or a
    keyword), a number, a text in single quotes, a sign. *)
Inductive Lexeme : Type :=
| LWord (w : string)
| LNumber (d : string)
| LString (s : string)
| LSign (t : TokenType).

Definition signText (t : TokenType) : string :=
  match t with
  | TOKEN_EQUALS => "="
  | TOKEN_NOT_EQUALS => "!="
  | TOKEN_GREATER => ">"
  | TOKEN_LESS => "<"
  | TOKEN_GREATER_EQUALS => ">="
  | TOKEN_LESS_EQUALS => "<="
  | TOKEN_COMMA => ","
  | TOKEN_SEMICOLON => ";"
  | TOKEN_LEFT_PAREN => "("
  | TOKEN_RIGHT_PAREN => ")"
  | TOKEN_STAR => "*"
  | TOKEN_DOT => "."
  | _ => EmptyString
  end.

Definition lexemeText (x : Lexeme) : string :=
  match x with
  | LWord w => w
  | LNumber d => d
  | LString s => ("'" ++ s ++ "'")%string
  | LSign t => signText t
  end.

Definition lexemeToken (x : Lexeme) : Token :=
  match x with
  | LWord w => {| tok_Type := lookupIdent w; tok_Literal := w |}
  | LNumber d => {| tok_Type := TOKEN_NUMBER; tok_Literal := d |}
  | LString s => {| tok_Type := TOKEN_STRING; tok_Literal := s |}
  | LSign t => {| tok_Type := t; tok_Literal := signText t |}
  end.

(** A word starts with a letter or an underscore, a number is made of
    digits, a text holds neither a single quote nor the byte 0. *)
Definition lexemeOk (x : Lexeme) : bool :=
  match x with
  | LWord w =>
      match w with
      | String c w' => isLetter c && allBytes isWordByte w'
      | EmptyString => false
      end
  | LNumber d =>
      match d with
      | String c d' => isDigit c && allBytes isDigit d'
      | EmptyString => false
      end
  | LString s => allBytes (fun c => negb (Ascii.eqb c "'"%char) && negb (Ascii.eqb c zeroByte)) s
  | LSign t => negb (String.eqb (signText t) EmptyString)
  end.

(** The lexeme ends where its text ends, given the text [rest] after it. *)
Definition lexemeFits (x : Lexeme) (rest : string) : bool :=
  match rest with
  | EmptyString => true
  | String c _ =>
      match x with
      | LWord _ => negb (isWordByte c)
      | LNumber _ => negb (isDigit c)
      | LString _ => true
      | LSign TOKEN_GREATER | LSign TOKEN_LESS => negb (Ascii.eqb c "="%char)
      | LSign _ => true
      end
  end.

(** A lexeme with the blanks in front of it. *)
Definition Segment : Type := string * Lexeme.

Fixpoint render (segs : list Segment) : string :=
  match segs with
  | [] => EmptyString
  | (blanks, x) :: rest => (blanks ++ lexemeText x ++ render rest)%string
  end.

(** The lexemes of [segs], followed by the text [trail], are kept apart. *)
Fixpoint separated (segs : list Segment) (trail : string) : bool :=
  match segs with
  | [] => true
  | (blanks, x) :: rest =>
      allBytes isBlank blanks && lexemeOk x
      && lexemeFits x (render rest ++ trail) && separated rest trail
  end.

(** [n] calls of [NextToken]. *)
Fixpoint lexTokens (n : nat) (l : Lexer) : list Token * Lexer :=
  match n with
  | O => ([], l)
  | S k =>
      let '(t, l1) := NextToken l in
      let '(ts, l2) := lexTokens k l1 in
      (t :: ts, l2)
  end.

End Lexemes.

(* ===================================================================== *)
(** ** Statements that are read back from their text                      *)
(* ===================================================================== *)

Module Printed.
Import Lexer Parser Progress Lexemes AstText.

Definition endToken : Token := {| tok_Type := TOKEN_EOF; tok_Literal := EmptyString |}.

(** The bytes that start a lexeme: no blank, no sign, not the byte 0. *)
Definition plainByte (c : ascii) : Prop :=
  isBlank c = false /\ Ascii.eqb c "="%char = false /\ Ascii.eqb c "!"%char = false /\
  Ascii.eqb c ">"%char = false /\ Ascii.eqb c "<"%char = false /\
  Ascii.eqb c ","%char = false /\ Ascii.eqb c ";"%char = false /\
  Ascii.eqb c "("%char = false /\ Ascii.eqb c ")"%char = false /\
  Ascii.eqb c "*"%char = false /\ Ascii.eqb c "."%char = false /\
  Ascii.eqb c zeroByte = false.

(** The lexer has nothing but blanks before it. *)
Definition atEnd (l : Lexer) : Prop :=
  exists l', NextToken l = (endToken, l') /\ exhausted l'.

(** The tokens the lexer is about to deliver, up to the end of its input. *)
Fixpoint feeds (l : Lexer) (toks : list Token) : Prop :=
  match toks with
  | [] => atEnd l
  | t :: rest => exists l', NextToken l = (t, l') /\ feeds l' rest
  end.

(** The tokens the parser has before it: the one in [peekToken], then
    those of its lexer. *)
Definition ahead (p : Parser) (toks : list Token) : Prop :=
  J p /\
  match toks with
  | [] => peekToken p = endToken /\ exhausted (lexer p)
  | t :: rest => peekToken p = t /\ feeds (lexer p) rest
  end.

Definition tokensOf (segs : list Segment) : list Token :=
  map (fun seg => lexemeToken (snd seg)) segs.

(** A name: a word that is no keyword. *)
Definition isName (w : string) : bool :=
  lexemeOk (LWord w) && bool_decide (lookupIdent w = TOKEN_IDENTIFIER).

(** The six operators of a comparison. *)
Definition operatorToken (op : string) : option TokenType :=
  if String.eqb op "=" then Some TOKEN_EQUALS
  else if String.eqb op "!=" then Some TOKEN_NOT_EQUALS
  else if String.eqb op ">" then Some TOKEN_GREATER
  else if String.eqb op "<" then Some TOKEN_LESS
  else if String.eqb op ">=" then Some TOKEN_GREATER_EQUALS
  else if String.eqb op "<=" then Some TOKEN_LESS_EQUALS
  else None.

(** The expressions the parser builds from one to three tokens: a name,
    a qualified name, a number that fits an [int], a text without single
    quote, a Boolean. *)
Definition primaryOk (e : Expression) : bool :=
  match e with
  | Identifier v => isName v
  | QualifiedIdentifier t c => isName t && isName c
  | Literal (VInt n) DATATYPE_INTEGER => (0 <=? n)%Z && (n <=? GoStrings.maxInt)%Z
  | Literal (VText s) DATATYPE_TEXT => lexemeOk (LString s)
  | Literal (VBool _) DATATYPE_BOOLEAN => true
  | _ => false
  end.

(** The expressions the parser builds: a primary one, or a comparison of
    two. *)
Definition expressionOk (e : Expression) : bool :=
  match e with
  | BinaryExpression l op r =>
      primaryOk l && bool_decide (is_Some (operatorToken op)) && primaryOk r
  | _ => primaryOk e
  end.

Fixpoint exprSegments (lead : string) (e : Expression) : list Segment :=
  match e with
  | Identifier v => [(lead, LWord v)]
  | QualifiedIdentifier t c =>
      [(lead, LWord t); (EmptyString, LSign TOKEN_DOT); (EmptyString, LWord c)]
  | Literal (VInt n) DATATYPE_INTEGER => [(lead, LNumber (GoStrings.Itoa n))]
  | Literal (VText s) DATATYPE_TEXT => [(lead, LString s)]
  | Literal (VBool b) DATATYPE_BOOLEAN => [(lead, LWord (if b then "TRUE" else "FALSE"))]
  | Literal _ _ => []
  | BinaryExpression l op r =>
      exprSegments lead l
      ++ (" ", LSign (default TOKEN_EQUALS (operatorToken op))) :: exprSegments " " r
  | StarExpression => [(lead, LSign TOKEN_STAR)]
  end.

(** The token after an expression is no comparison and no dot. *)
Definition closes (rest : list Token) : Prop :=
  match rest with
  | [] => True
  | t :: _ => isComparison (tok_Type t) = false /\ tok_Type t <> TOKEN_DOT
  end.

(** A text that starts with no byte of a word and not with [=]. *)
Definition cleanStart (s : string) : bool :=
  match s with
  | EmptyString => true
  | String c _ => negb (isWordByte c) && negb (Ascii.eqb c "="%char)
  end.

(** The lexemes of a list of expressions, with commas between them. *)
Fixpoint listSegments (lead : string) (es : list Expression) : list Segment :=
  match es with
  | [] => []
  | e :: rest =>
      exprSegments lead e
      ++ match rest with
         | [] => []
         | _ => (EmptyString, LSign TOKEN_COMMA) :: listSegments " " rest
         end
  end.

(** The types of the tokens an expression starts with. *)
Definition startsExpression (t : TokenType) : bool :=
  match t with
  | TOKEN_IDENTIFIER | TOKEN_STRING | TOKEN_NUMBER | TOKEN_TRUE | TOKEN_FALSE => true
  | _ => false
  end.

Definition insertSegments (i : InsertStatement) : list Segment :=
  [ (EmptyString, LWord "INSERT"); (" ", LWord "INTO"); (" ", LWord (ins_TableName i));
    (" ", LWord "VALUES"); (" ", LSign TOKEN_LEFT_PAREN) ]
  ++ listSegments EmptyString (ins_Values i)
  ++ [ (EmptyString, LSign TOKEN_RIGHT_PAREN) ].

(** The INSERT statements that are read back from their text. *)
Definition insertOk (i : InsertStatement) : bool :=
  isName (ins_TableName i) && forallb expressionOk (ins_Values i).

(** The WHERE clause that ends a statement. *)
Definition whereSegments (blanks : string) (where_ : option Expression) : list Segment :=
  match where_ with
  | Some e => (blanks, LWord "WHERE") :: exprSegments " " e
  | None => []
  end.

Definition whereOk (where_ : option Expression) : bool :=
  match where_ with
  | Some e => expressionOk e
  | None => true
  end.

Definition deleteSegments (d : DeleteStatement) : list Segment :=
  (EmptyString, LWord "DELETE") :: (" ", LWord "FROM") :: (" ", LWord (del_TableName d))
  :: whereSegments " " (del_Where d).

(** The DELETE statements that are read back from their text. *)
Definition deleteOk (d : DeleteStatement) : bool :=
  isName (del_TableName d) && whereOk (del_Where d).

Definition onExpression (j : JoinClause) : Expression :=
  BinaryExpression (be_Left (jc_On j)) (be_Operator (jc_On j)) (be_Right (jc_On j)).

Definition joinSegments (join : option JoinClause) : list Segment :=
  match join with
  | Some j =>
      (" ", LWord "JOIN") :: (" ", LWord (jc_TableName j)) :: (" ", LWord "ON")
      :: exprSegments " " (onExpression j)
  | None => []
  end.

Definition joinOk (join : option JoinClause) : bool :=
  match join with
  | Some j => isName (jc_TableName j) && expressionOk (onExpression j)
  | None => true
  end.

(** The columns of a SELECT: the star alone, or expressions. *)
Definition columnsOk (columns : list Expression) : bool :=
  bool_decide (columns = [StarExpression]) || forallb expressionOk columns.

Definition selectSegments (s : SelectStatement) : list Segment :=
  (EmptyString, LWord "SELECT")
  :: listSegments " " (sel_Columns s)
  ++ (match sel_Columns s with [] => "  " | _ => " " end, LWord "FROM")
  :: (" ", LWord (sel_TableName s))
  :: joinSegments (sel_Join s) ++ whereSegments " " (sel_Where s).

(** The SELECT statements that are read back from their text. *)
Definition selectOk (s : SelectStatement) : bool :=
  isName (sel_TableName s) && columnsOk (sel_Columns s)
  && joinOk (sel_Join s) && whereOk (sel_Where s).

Definition flagSegments (c : ColumnDefinition) : list Segment :=
  (if cd_PrimaryKey c then [(" ", LWord "PRIMARY"); (" ", LWord "KEY")] else [])
  ++ (if cd_Unique c then [(" ", LWord "UNIQUE")] else []).

Definition columnSegments (lead : string) (c : ColumnDefinition) : list Segment :=
  (lead, LWord (cd_Name c)) :: (" ", LWord (DataType_String (cd_DataType c)))
  :: flagSegments c.

Fixpoint columnsSegments (lead : string) (columns : list ColumnDefinition) : list Segment :=
  match columns with
  | [] => []
  | c :: rest =>
      columnSegments lead c
      ++ match rest with
         | [] => []
         | _ => (EmptyString, LSign TOKEN_COMMA) :: columnsSegments " " rest
         end
  end.

(** A column definition that is read back: its name is a name and it is
    not both primary key and unique. *)
Definition columnOk (c : ColumnDefinition) : bool :=
  isName (cd_Name c) && negb (cd_PrimaryKey c && cd_Unique c).

Definition createSegments (c : CreateTableStatement) : list Segment :=
  (EmptyString, LWord "CREATE") :: (" ", LWord "TABLE") :: (" ", LWord (ct_TableName c))
  :: (" ", LSign TOKEN_LEFT_PAREN)
  :: columnsSegments EmptyString (ct_Columns c) ++ [(EmptyString, LSign TOKEN_RIGHT_PAREN)].

(** The CREATE TABLE statements that are read back from their text. *)
Definition createOk (c : CreateTableStatement) : bool :=
  isName (ct_TableName c) && forallb columnOk (ct_Columns c).

Definition assignmentSegments (lead : string) (a : string * Expression) : list Segment :=
  (lead, LWord a.1) :: (" ", LSign TOKEN_EQUALS) :: exprSegments " " a.2.

Fixpoint assignmentsSegments (lead : string) (entries : list (string * Expression))
  : list Segment :=
  match entries with
  | [] => []
  | a :: rest =>
      assignmentSegments lead a
      ++ match rest with
         | [] => []
         | _ => (EmptyString, LSign TOKEN_COMMA) :: assignmentsSegments " " rest
         end
  end.

Definition assignmentOk (a : string * Expression) : bool :=
  isName a.1 && expressionOk a.2.

Definition updateSegments (entries : list (string * Expression)) (u : UpdateStatement)
  : list Segment :=
  (EmptyString, LWord "UPDATE") :: (" ", LWord (upd_TableName u)) :: (" ", LWord "SET")
  :: assignmentsSegments " " entries ++ whereSegments " " (upd_Where u).

(** The UPDATE statements that are read back from their text: at least
    one assignment, to columns with names. *)
Definition updateOk (u : UpdateStatement) : bool :=
  isName (upd_TableName u) && negb (bool_decide (upd_Set u = ∅))
  && bool_decide (map_Forall (fun col e => assignmentOk (col, e) = true) (upd_Set u))
  && whereOk (upd_Where u).

(** What [expectPeek(TOKEN_COMMA)] records at the end of the input. *)
Definition commaExpected : string := "expected next token to be 27, got 33 instead".

End Printed.

(* ===================================================================== *)
(** ** A small database to run the engine on                              *)
(* ===================================================================== *)

Module Fixtures.

(** [CREATE TABLE users (id INTEGER PRIMARY KEY, name TEXT,
    email TEXT UNIQUE, active BOOLEAN)]. *)
Definition usersColumns : list Column :=
  [ mkColumn "id" DATATYPE_INTEGER true false;
    mkColumn "name" DATATYPE_TEXT false false;
    mkColumn "email" DATATYPE_TEXT false true;
    mkColumn "active" DATATYPE_BOOLEAN false false ].

(** [CREATE TABLE posts (id INTEGER PRIMARY KEY, user_id INTEGER,
    title TEXT)]. *)
Definition postsColumns : list Column :=
  [ mkColumn "id" DATATYPE_INTEGER true false;
    mkColumn "user_id" DATATYPE_INTEGER false false;
    mkColumn "title" DATATYPE_TEXT false false ].

(** [CREATE TABLE logs (line TEXT)], a table without primary key. *)
Definition logsColumns : list Column :=
  [ mkColumn "line" DATATYPE_TEXT false false ].

Definition userRow (id name email active : Value) : gmap string Value :=
  <["id" := id]> (<["name" := name]> (<["email" := email]> (<["active" := active]> ∅))).

Definition postRow (id user_id title : Value) : gmap string Value :=
  <["id" := id]> (<["user_id" := user_id]> (<["title" := title]> ∅)).

(** The text [x] wrapped in two double-quote characters, three bytes. *)
Definition quotedName : string :=
  String dquote (String "x"%char (String dquote EmptyString)).

(** The row objects the examples insert, update and delete. *)
Definition store : gmap nat (gmap string Value) :=
  list_to_map
    [ (0, userRow (VInt 1) (VText "Alice") (VText "alice@example.com") (VBool true));
      (1, userRow (VInt 1) (VText "Bob") (VText "bob@example.com") (VBool false));
      (2, userRow (VInt 1) (VInt 5) (VText "eve@example.com") (VBool false));
      (3, userRow (VInt 2) (VText "Bob") (VText "bob@example.com") (VBool false));
      (4, userRow (VInt 3) (VText "Carol") VNil (VBool true));
      (5, userRow (VInt 4) (VText "Dan") (VText "alice@example.com") (VBool true));
      (6, userRow (VInt 5) (VText EmptyString) (VText "erin@example.com") (VBool true));
      (7, postRow (VInt 1) (VInt 1) (VText "Hello World"));
      (8, postRow (VInt 2) (VInt 2) (VText "Database Fun"));
      (9, postRow (VInt 3) (VInt 1) (VText "Go Programming"));
      (10, <["line" := VText "started"]> ∅);
      (11, userRow (VInt 6) (VText quotedName) (VText "quinn@example.com") (VBool true)) ].

Definition users0 : Table := NewTable "users" usersColumns.
Definition users1 : Table := fst (InsertRow store users0 0).
Definition users2 : Table := fst (InsertRow store users1 3).
Definition usersE : Table := fst (InsertRow store users1 6).
Definition usersQ : Table := fst (InsertRow store users1 11).

Definition posts3 : Table :=
  fst (InsertRow store
         (fst (InsertRow store (fst (InsertRow store (NewTable "posts" postsColumns) 7)) 8))
         9).

Definition logs1 : Table := fst (InsertRow store (NewTable "logs" logsColumns) 10).

Definition db : Database :=
  {| Tables := <["users" := users2]> (<["posts" := posts3]> (<["logs" := logs1]> ∅)) |}.

(** [UPDATE users SET email = 'alice@example.com' WHERE id = 2], as the
    call of [UpdateRow] it leads to, and the store it leaves. *)
Definition emailClash : list (string * Value) :=
  [("email", VText "alice@example.com")].
Definition storeAfterEmailClash : gmap nat (gmap string Value) :=
  fst (fst (UpdateRow store users2 (VInt 2) emailClash)).

(** [UPDATE users SET id = 7 WHERE id = 1] and [UPDATE users SET id = 2
    WHERE id = 1]. *)
Definition rekeyFresh : list (string * Value) := [("id", VInt 7)].
Definition rekeyTaken : list (string * Value) := [("id", VInt 2)].
Definition storeAfterRekeyFresh : gmap nat (gmap string Value) :=
  fst (fst (UpdateRow store users2 (VInt 1) rekeyFresh)).
Definition storeAfterRekeyTaken : gmap nat (gmap string Value) :=
  fst (fst (UpdateRow store users2 (VInt 1) rekeyTaken)).

(** [DELETE FROM logs]. *)
Definition deleteLogs : DeleteStatement :=
  {| del_TableName := "logs"; del_Where := None |}.

(** [INSERT INTO users VALUES (5, '', 'erin@example.com', TRUE)], run on
    the database whose table [users] holds Alice alone. *)
Definition insertEmptyName : InsertStatement :=
  {| ins_TableName := "users";
     ins_Values := [ Literal (VInt 5) DATATYPE_INTEGER;
                     Literal (VText EmptyString) DATATYPE_TEXT;
                     Literal (VText "erin@example.com") DATATYPE_TEXT;
                     Literal (VBool true) DATATYPE_BOOLEAN ] |}.

Definition dbAlice : Database := {| Tables := <["users" := users1]> ∅ |}.

(** [users.id = posts.user_id], the two sides of the join condition. *)
Definition usersId : Expression := QualifiedIdentifier "users" "id".
Definition postsUserId : Expression := QualifiedIdentifier "posts" "user_id".

(** [SELECT * FROM users JOIN posts ON users.id = posts.user_id
    WHERE users.id > 1]. *)
Definition joinWhereGreater : SelectStatement :=
  selectJoin "users" "posts" [StarExpression]
    (Some (BinaryExpression usersId ">" (Literal (VInt 1) DATATYPE_INTEGER)))
    usersId "=" postsUserId.

(** [SELECT * FROM users JOIN posts ON users.id = posts.user_id
    WHERE id = user_id]. *)
Definition joinWhereColumns : SelectStatement :=
  selectJoin "users" "posts" [StarExpression]
    (Some (BinaryExpression (Identifier "id") "=" (Identifier "user_id")))
    usersId "=" postsUserId.

(** The three rows every one of the joins above returns. *)
Definition usersJoinPosts : ResultSet :=
  {| rs_Columns := ["id"; "name"; "email"; "active"; "id"; "user_id"; "title"];
     rs_Rows :=
       [ [VInt 1; VText "Alice"; VText "alice@example.com"; VBool true;
          VInt 1; VInt 1; VText "Hello World"];
         [VInt 1; VText "Alice"; VText "alice@example.com"; VBool true;
          VInt 3; VInt 1; VText "Go Programming"];
         [VInt 2; VText "Bob"; VText "bob@example.com"; VBool false;
          VInt 2; VInt 2; VText "Database Fun"] ] |}.

(** A CREATE TABLE whose second column has a type the parser does not
    know. *)
Definition createWithUnknownType : string := "CREATE TABLE t (a INTEGER, b FLOAT)".

(** The parser after [CREATE TABLE t (] of that statement, where the loop
    over the column definitions starts. *)
Definition atColumnDefinitions : Parser.Parser :=
  snd (Parser.bind (Parser.expectPeek Lexer.TOKEN_TABLE)
         (fun _ => Parser.bind (Parser.expectPeek Lexer.TOKEN_IDENTIFIER)
                     (fun _ => Parser.expectPeek Lexer.TOKEN_LEFT_PAREN))
         (Parser.NewParser (Lexer.NewLexer createWithUnknownType))).

(** Alice inserted, Bob refused for Alice's key, Bob inserted under his
    own, a key deleted that is not there, Alice deleted. *)
Definition callsOnUsers : list Call :=
  [ CallInsertRow 0; CallInsertRow 1; CallInsertRow 3;
    CallDeleteRow (VInt 9); CallDeleteRow (VInt 1) ].

(** The table [users] after [DELETE FROM users WHERE id = 1]. *)
Definition usersBob : Table := fst (DeleteRow users2 (VInt 1)).

(** [UPDATE users SET name = 'Robert' WHERE id = 2]. *)
Definition renameBob : list (string * Value) := [("name", VText "Robert")].
Definition storeAfterRename : gmap nat (gmap string Value) :=
  fst (fst (UpdateRow store users2 (VInt 2) renameBob)).

(** Every loop visits its map in the order of the map's own listing. *)
Definition listingOrder : RangeOrder :=
  {| overSet := map_to_list; overUpdates := fun _ => map_to_list |}.

(** [UPDATE logs SET line = 'stopped', level = 3]: [logs] has no primary
    key, and no column [level]. *)
Definition updateLogs : UpdateStatement :=
  {| upd_TableName := "logs";
     upd_Set := <["line" := Literal (VText "stopped") DATATYPE_TEXT]>
                  (<["level" := Literal (VInt 3) DATATYPE_INTEGER]> ∅);
     upd_Where := None |}.
Definition updateLogsValues : gmap string Value :=
  <["line" := VText "stopped"]> (<["level" := VInt 3]> ∅).

(** [UPDATE users SET name = 'Robert', active = TRUE WHERE id = 2]. *)
Definition updateBob : UpdateStatement :=
  {| upd_TableName := "users";
     upd_Set := <["name" := Literal (VText "Robert") DATATYPE_TEXT]>
                  (<["active" := Literal (VBool true) DATATYPE_BOOLEAN]> ∅);
     upd_Where := Some (BinaryExpression (Identifier "id") "="
                          (Literal (VInt 2) DATATYPE_INTEGER)) |}.
Definition updateBobValues : gmap string Value :=
  <["name" := VText "Robert"]> (<["active" := VBool true]> ∅).
Definition idIsTwo (row : gmap string Value) : bool :=
  compareValues (GetValue row "id") (VInt 2) "=".
Definition storeAfterUpdateBob : gmap nat (gmap string Value) :=
  fst (ExecuteUpdate listingOrder store db updateBob).

(** The store and the database after [insertEmptyName] has run on
    [dbAlice]. *)
Definition storeAfterInsert : gmap nat (gmap string Value) :=
  fst (fst (ExecuteInsert store dbAlice insertEmptyName)).
Definition dbAfterInsert : Database :=
  snd (fst (ExecuteInsert store dbAlice insertEmptyName)).

(** [INSERT INTO users VALUES (1, 'Zed', 'zed@example.com', FALSE)], which
    the table refuses for its key. *)
Definition insertZed : InsertStatement :=
  {| ins_TableName := "users";
     ins_Values := [ Literal (VInt 1) DATATYPE_INTEGER;
                     Literal (VText "Zed") DATATYPE_TEXT;
                     Literal (VText "zed@example.com") DATATYPE_TEXT;
                     Literal (VBool false) DATATYPE_BOOLEAN ] |}.
Definition storeAfterZed : gmap nat (gmap string Value) :=
  fst (fst (ExecuteInsert store db insertZed)).

(** [DELETE FROM users WHERE id = 2]. *)
Definition deleteBob : DeleteStatement :=
  {| del_TableName := "users";
     del_Where := Some (BinaryExpression (Identifier "id") "="
                          (Literal (VInt 2) DATATYPE_INTEGER)) |}.

(** [CREATE TABLE users (id INTEGER PRIMARY KEY, name TEXT,
    email TEXT UNIQUE, active BOOLEAN)], as the parser delivers it. *)
Definition createUsers : CreateTableStatement :=
  {| ct_TableName := "users";
     ct_Columns :=
       [ mkColumnDefinition "id" DATATYPE_INTEGER true false;
         mkColumnDefinition "name" DATATYPE_TEXT false false;
         mkColumnDefinition "email" DATATYPE_TEXT false true;
         mkColumnDefinition "active" DATATYPE_BOOLEAN false false ] |}.

(** The lexemes of [SELECT name FROM users WHERE id >= 10], with blanks
    of several kinds between them and after them. *)
Definition selectLexemes : list (string * Lexemes.Lexeme) :=
  [ (EmptyString, Lexemes.LWord "SELECT"); (" ", Lexemes.LWord "name");
    (String "010"%char " ", Lexemes.LWord "FROM"); (" ", Lexemes.LWord "users");
    (String "009"%char EmptyString, Lexemes.LWord "WHERE"); (" ", Lexemes.LWord "id");
    (EmptyString, Lexemes.LSign Lexer.TOKEN_GREATER_EQUALS);
    (EmptyString, Lexemes.LNumber "10") ].

End Fixtures.

(* ===================================================================== *)
(** ** Proofs                                                             *)
(* ===================================================================== *)

Import Fixtures.

(** A closed statement is settled by running the definitions: through the
    decision procedure of its type when there is one. *)
Ltac by_evaluation :=
  first [ apply (bool_decide_eq_true_1 _); vm_compute; reflexivity
        | vm_compute; reflexivity ].

Ltac in_list := vm_compute; repeat (first [ left; reflexivity | right ]).

(** *** Validation *)

Lemma validateColumns_class columns (row : gmap string Value) e :
  validateColumns columns row = Some e -> error_class e = SchemaError.
Proof.
  induction columns as [|col rest IH]; simpl; [discriminate|].
  destruct (row !! col_Name col) as [v|]; [|intros [= <-]; reflexivity].
  unfold validateValueType.
  destruct (col_DataType col), v; simpl; try (intros [= <-]; reflexivity); apply IH.
Qed.

Lemma validateValueType_nil col : validateValueType col VNil <> None.
Proof. unfold validateValueType. destruct (col_DataType col); discriminate. Qed.

Lemma validateColumns_nil columns (row : gmap string Value) col :
  In col columns -> GetValue row (col_Name col) = VNil ->
  validateColumns columns row <> None.
Proof.
  induction columns as [|c rest IH]; simpl; [tauto|].
  intros [->|Hin] Hnil.
  - unfold GetValue in Hnil. destruct (row !! col_Name col) as [v|]; [|discriminate].
    simpl in Hnil. subst v.
    destruct (validateValueType col VNil) eqn:E; [discriminate|].
    exfalso. eapply validateValueType_nil; eauto.
  - destruct (row !! col_Name c) as [v|]; [|discriminate].
    destruct (validateValueType c v); [discriminate|]. auto.
Qed.

Lemma InsertRow_ok_inv (h : Heap) t row t1 :
  InsertRow h t row = (t1, None) ->
  ValidateRow h t (deref h row) = None /\
  tbl_Name t1 = tbl_Name t /\ tbl_Columns t1 = tbl_Columns t /\
  tbl_Rows t1 = tbl_Rows t ++ [row] /\ tbl_PrimaryKey t1 = tbl_PrimaryKey t /\
  tbl_index t1 =
    (if hasPrimaryKey t then
       match deref h row !! tbl_PrimaryKey t with
       | Some pkValue => <[pkValue := row]> (tbl_index t)
       | None => tbl_index t
       end
     else tbl_index t).
Proof.
  unfold InsertRow. destruct (ValidateRow h t (deref h row)); [discriminate|].
  intros [= <-]. simpl. repeat split; reflexivity.
Qed.

Lemma InsertRow_err_unchanged (h : Heap) t row t' e :
  InsertRow h t row = (t', Some e) -> t' = t /\ ValidateRow h t (deref h row) = Some e.
Proof.
  unfold InsertRow. destruct (ValidateRow h t (deref h row)); [|discriminate].
  intros [= <- <-]. auto.
Qed.

(** Claim C1. In a table with a primary key, once a row with primary-key
    value [v] has been inserted, inserting a second row whose primary-key
    value is [v] fails and leaves the table, hence its row sequence,
    exactly as it was after the first insert. The failure is the
    primary-key violation, a ConstraintError, whenever the second row
    passes the presence and type checks of its columns; when it does not,
    those checks come first and the failure is their SchemaError. *)
Theorem insert_duplicate_primary_key
    (h h' : Heap) (t t1 : Table) (row1 row2 : nat) (v : Value) :
  hasPrimaryKey t = true ->
  InsertRow h t row1 = (t1, None) ->
  deref h row1 !! tbl_PrimaryKey t = Some v ->
  deref h' row2 !! tbl_PrimaryKey t = Some v ->
  exists e,
    InsertRow h' t1 row2 = (t1, Some e) /\
    tbl_Rows t1 = tbl_Rows t ++ [row1] /\
    (validateColumns (tbl_Columns t) (deref h' row2) = None ->
     e = ErrPrimaryKeyViolation v /\ error_class e = ConstraintError) /\
    (forall e0, validateColumns (tbl_Columns t) (deref h' row2) = Some e0 ->
     e = e0 /\ error_class e = SchemaError).
Proof.
  intros Hpk Hins Hv1 Hv2.
  apply InsertRow_ok_inv in Hins as (_ & _ & Hcols & Hrows & Hpkn & Hidx).
  rewrite Hpk, Hv1 in Hidx.
  unfold InsertRow, ValidateRow. rewrite Hcols.
  destruct (validateColumns (tbl_Columns t) (deref h' row2)) as [e0|] eqn:Hschema.
  - exists e0. split; [reflexivity|]. split; [assumption|]. split; [discriminate|].
    intros e1 [= <-]. split; [reflexivity|]. eapply validateColumns_class; eauto.
  - unfold validatePrimaryKey, hasPrimaryKey in *. rewrite Hpkn, Hpk, Hv2, Hidx.
    rewrite lookup_insert_eq.
    exists (ErrPrimaryKeyViolation v). split; [reflexivity|]. split; [assumption|].
    split; [auto|discriminate].
Qed.

(** Alice has [id] 1 and is in the table; Bob's row with [id] 1 is well
    typed, and is refused for its key. *)
Lemma insert_duplicate_primary_key_witness :
  (hasPrimaryKey users0 = true /\
   InsertRow store users0 0 = (users1, None) /\
   deref store 0 !! tbl_PrimaryKey users0 = Some (VInt 1) /\
   deref store 1 !! tbl_PrimaryKey users0 = Some (VInt 1)) /\
  exists e,
    InsertRow store users1 1 = (users1, Some e) /\
    tbl_Rows users1 = tbl_Rows users0 ++ [0] /\
    (validateColumns (tbl_Columns users0) (deref store 1) = None ->
     e = ErrPrimaryKeyViolation (VInt 1) /\ error_class e = ConstraintError) /\
    (forall e0, validateColumns (tbl_Columns users0) (deref store 1) = Some e0 ->
     e = e0 /\ error_class e = SchemaError).
Proof.
  split; [repeat split; by_evaluation|].
  apply (insert_duplicate_primary_key store store users0 users1 0 1 (VInt 1));
    by_evaluation.
Defined.

(** A second row with [id] 1 whose [name] is the integer 5: the insert
    fails on the type of [name], a SchemaError and not a ConstraintError. *)
Lemma insert_duplicate_primary_key_counterexample :
  hasPrimaryKey users0 = true /\
  InsertRow store users0 0 = (users1, None) /\
  deref store 0 !! tbl_PrimaryKey users0 = Some (VInt 1) /\
  deref store 2 !! tbl_PrimaryKey users0 = Some (VInt 1) /\
  InsertRow store users1 2 =
    (users1, Some (ErrTypeMismatch "name" DATATYPE_TEXT (VInt 5))) /\
  error_class (ErrTypeMismatch "name" DATATYPE_TEXT (VInt 5)) <> ConstraintError.
Proof.
  repeat split; try by_evaluation. discriminate.
Qed.

(** Claim C3. A row that carries Null (or nothing) in any column of the
    table is refused by the type check of that column or by an earlier
    check of the same loop: the insert fails with a SchemaError and the
    table is unchanged. No row with Null in a unique-flagged column is ever
    inserted, let alone two. *)
Theorem insert_null_rejected (h : Heap) (t : Table) (row : nat) (col : Column) :
  In col (tbl_Columns t) ->
  GetValue (deref h row) (col_Name col) = VNil ->
  exists e, InsertRow h t row = (t, Some e) /\ error_class e = SchemaError.
Proof.
  intros Hin Hnil. unfold InsertRow, ValidateRow.
  destruct (validateColumns (tbl_Columns t) (deref h row)) as [e|] eqn:E.
  - exists e. split; [reflexivity|]. eapply validateColumns_class; eauto.
  - exfalso. eapply validateColumns_nil; eauto.
Qed.

(** Carol's row has Null for [email], the unique-flagged column. *)
Lemma insert_null_rejected_witness :
  (In (mkColumn "email" DATATYPE_TEXT false true) (tbl_Columns users1) /\
   GetValue (deref store 4) "email" = VNil) /\
  exists e, InsertRow store users1 4 = (users1, Some e) /\ error_class e = SchemaError.
Proof.
  split; [split; [in_list|by_evaluation]|].
  apply (insert_null_rejected store users1 4 (mkColumn "email" DATATYPE_TEXT false true));
    [in_list|by_evaluation].
Defined.

Example insert_null_email_message :
  InsertRow store users1 4 = (users1, Some (ErrTypeMismatch "email" DATATYPE_TEXT VNil)).
Proof. by_evaluation. Qed.

(** The part of the unique constraint the code does enforce: a value that
    is not Null and is already present in a unique-flagged column is
    refused with a ConstraintError, if the row gets as far as that check. *)
Lemma scanRows_collision (h : Heap) rows colName value existing :
  In existing rows ->
  GetValue (deref h existing) colName = value -> value <> VNil ->
  scanRows h rows colName value = Some (ErrUniqueViolation colName value).
Proof.
  intros Hin Hv Hnn. induction rows as [|r rest IH]; simpl; [destruct Hin|].
  destruct (collides (GetValue (deref h r) colName) value) eqn:E; [reflexivity|].
  destruct Hin as [->|Hin]; [|auto].
  exfalso. unfold collides in E. rewrite Hv in E.
  rewrite bool_decide_eq_false_2 in E by assumption.
  rewrite bool_decide_eq_true_2 in E by reflexivity. discriminate.
Qed.

Lemma validateUnique_class (h : Heap) rows columns row e :
  validateUnique h rows columns row = Some e -> error_class e = ConstraintError.
Proof.
  induction columns as [|c rest IH]; simpl; [discriminate|].
  destruct (col_Unique c && negb (col_PrimaryKey c)); [|exact IH].
  destruct (row !! col_Name c) as [v|]; [|exact IH].
  destruct (scanRows h rows (col_Name c) v) as [e'|] eqn:E; [|exact IH].
  intros [= <-]. clear IH. induction rows as [|r rs IHr]; simpl in E; [discriminate|].
  destruct (collides _ _); [injection E as <-; reflexivity|auto].
Qed.

Lemma validateUnique_collision (h : Heap) rows columns row col value existing :
  In col columns -> col_Unique col = true -> col_PrimaryKey col = false ->
  row !! col_Name col = Some value -> value <> VNil ->
  In existing rows -> GetValue (deref h existing) (col_Name col) = value ->
  validateUnique h rows columns row <> None.
Proof.
  intros Hin Hu Hp Hv Hnn Hex Hval.
  induction columns as [|c rest IH]; simpl; [destruct Hin|].
  destruct Hin as [->|Hin].
  - rewrite Hu, Hp, Hv. simpl.
    rewrite (scanRows_collision h rows (col_Name col) value existing) by assumption.
    discriminate.
  - destruct (col_Unique c && negb (col_PrimaryKey c)); [|auto].
    destruct (row !! col_Name c); [|auto].
    destruct (scanRows h rows (col_Name c) v); [discriminate|auto].
Qed.

Lemma insert_duplicate_unique_rejected
    (h : Heap) (t : Table) (row existing : nat) (col : Column) (value : Value) :
  In col (tbl_Columns t) -> col_Unique col = true -> col_PrimaryKey col = false ->
  deref h row !! col_Name col = Some value -> value <> VNil ->
  In existing (tbl_Rows t) -> GetValue (deref h existing) (col_Name col) = value ->
  validateColumns (tbl_Columns t) (deref h row) = None ->
  exists e, InsertRow h t row = (t, Some e) /\ error_class e = ConstraintError.
Proof.
  intros Hin Hu Hp Hv Hnn Hex Hval Hschema.
  unfold InsertRow, ValidateRow. rewrite Hschema.
  destruct (validatePrimaryKey t (deref h row)) as [e|] eqn:Epk.
  - exists e. split; [reflexivity|]. unfold validatePrimaryKey in Epk.
    destruct (hasPrimaryKey t); [|discriminate].
    destruct (deref h row !! tbl_PrimaryKey t); [|discriminate].
    destruct (tbl_index t !! v); [|discriminate]. injection Epk as <-. reflexivity.
  - destruct (validateUnique h (tbl_Rows t) (tbl_Columns t) (deref h row)) as [e|] eqn:Eu.
    + exists e. split; [reflexivity|]. eapply validateUnique_class; eauto.
    + exfalso. eapply validateUnique_collision; eauto.
Qed.

Example insert_duplicate_email_message :
  InsertRow store users1 5 =
    (users1, Some (ErrUniqueViolation "email" (VText "alice@example.com"))).
Proof. by_evaluation. Qed.

(** *** Updates *)

Lemma deref_SetValue_same (h : Heap) row c v :
  deref (SetValue h row c v) row = <[c := v]> (deref h row).
Proof. unfold deref at 1, SetValue. rewrite lookup_insert_eq. reflexivity. Qed.

Lemma lookup_SetValue_other (h : Heap) row c v r :
  r <> row -> SetValue h row c v !! r = h !! r.
Proof. intros Hne. unfold SetValue. rewrite lookup_insert_ne by congruence. reflexivity. Qed.

Lemma applyUpdates_ok t row updates : forall (h h' : Heap),
  applyUpdates t row updates h = (h', None) ->
  deref h' row = foldl setColumn (deref h row) updates /\
  (forall r, r <> row -> h' !! r = h !! r) /\
  Forall (fun u => exists col, findColumn t u.1 = Some col /\
                               validateValueType col u.2 = None) updates.
Proof.
  induction updates as [|[c v] rest IH]; intros h h'; simpl.
  - intros [= <-]. repeat split; auto.
  - destruct (findColumn t c) as [col|] eqn:Ef; [|discriminate].
    destruct (validateValueType col v) eqn:Ev; [discriminate|].
    intros H. apply IH in H as (Hrow & Hother & Hall).
    rewrite deref_SetValue_same in Hrow. split; [exact Hrow|]. split.
    + intros r Hne. rewrite Hother by assumption. apply lookup_SetValue_other; assumption.
    + constructor; [exists col; auto|assumption].
Qed.

Lemma applyUpdates_error_class t row updates : forall (h h' : Heap) e,
  applyUpdates t row updates h = (h', Some e) -> error_class e = SchemaError.
Proof.
  induction updates as [|[c v] rest IH]; intros h h' e; simpl; [discriminate|].
  destruct (findColumn t c) as [col|]; [|intros [= _ <-]; reflexivity].
  destruct (validateValueType col v) as [e'|] eqn:Ev; [|apply IH].
  intros [= _ <-]. unfold validateValueType in Ev.
  destruct (col_DataType col), v; try discriminate; injection Ev as <-; reflexivity.
Qed.

Lemma scanOtherRows_inv (h : Heap) rows row colName value e :
  scanOtherRows h rows row colName value = Some e ->
  e = ErrUniqueViolation colName value /\
  exists other, In other rows /\ other <> row /\
                GetValue (deref h other) colName = value /\ value <> VNil.
Proof.
  induction rows as [|r rest IH]; simpl; [discriminate|].
  destruct (negb (r =? row)%nat && collides (GetValue (deref h r) colName) value) eqn:E.
  - intros [= <-]. split; [reflexivity|]. exists r.
    apply andb_true_iff in E as [Hne Hc]. apply negb_true_iff, Nat.eqb_neq in Hne.
    unfold collides in Hc. apply andb_true_iff in Hc as [Hnn Heq].
    apply bool_decide_eq_true_1 in Heq. apply negb_true_iff, bool_decide_eq_false_1 in Hnn.
    repeat split; auto. congruence.
  - intros H. apply IH in H as (-> & other & Hin & Hrest). split; [reflexivity|].
    exists other. split; [right; assumption|assumption].
Qed.

Lemma revalidateUnique_inv (h : Heap) rows columns row e :
  revalidateUnique h rows columns row = Some e ->
  exists col other,
    e = ErrUniqueViolation (col_Name col) (GetValue (deref h row) (col_Name col)) /\
    In col columns /\ col_Unique col = true /\ col_PrimaryKey col = false /\
    In other rows /\ other <> row /\
    GetValue (deref h other) (col_Name col) = GetValue (deref h row) (col_Name col) /\
    GetValue (deref h row) (col_Name col) <> VNil.
Proof.
  induction columns as [|c rest IH]; simpl; [discriminate|].
  destruct (col_Unique c && negb (col_PrimaryKey c)) eqn:Eflags.
  - destruct (scanOtherRows h rows row (col_Name c) (GetValue (deref h row) (col_Name c)))
      as [e'|] eqn:Escan.
    + intros [= <-]. apply scanOtherRows_inv in Escan as (-> & other & Hin & Hne & Hv & Hnn).
      apply andb_true_iff in Eflags as [Hu Hp]. apply negb_true_iff in Hp.
      exists c, other. repeat split; auto.
    + intros H. apply IH in H as (col & other & He & Hin & Hrest).
      exists col, other. split; [assumption|]. split; [right; assumption|assumption].
  - intros H. apply IH in H as (col & other & He & Hin & Hrest).
    exists col, other. split; [assumption|]. split; [right; assumption|assumption].
Qed.

(** The re-validation misses no collision: a row other than the target
    that holds the value, which is not Null, stops the scan of a column
    with a violation, and one such column stops the scan of the columns. *)
Lemma scanOtherRows_collision (h : Heap) rows row colName value other :
  In other rows -> other <> row ->
  GetValue (deref h other) colName = value -> value <> VNil ->
  scanOtherRows h rows row colName value = Some (ErrUniqueViolation colName value).
Proof.
  intros Hin Hne Hv Hnn. induction rows as [|r rest IH]; simpl; [destruct Hin|].
  destruct (negb (r =? row)%nat && collides (GetValue (deref h r) colName) value) eqn:E;
    [reflexivity|].
  destruct Hin as [->|Hin]; [|auto].
  exfalso. unfold collides in E. rewrite Hv in E.
  rewrite bool_decide_eq_false_2 in E by assumption.
  rewrite bool_decide_eq_true_2 in E by reflexivity.
  apply Nat.eqb_neq in Hne. rewrite Hne in E. discriminate.
Qed.

Lemma revalidateUnique_collision (h : Heap) rows columns row col other :
  In col columns -> col_Unique col = true -> col_PrimaryKey col = false ->
  In other rows -> other <> row ->
  GetValue (deref h other) (col_Name col) = GetValue (deref h row) (col_Name col) ->
  GetValue (deref h row) (col_Name col) <> VNil ->
  revalidateUnique h rows columns row <> None.
Proof.
  intros Hin Hu Hp Hino Hne Hv Hnn.
  induction columns as [|c rest IH]; simpl; [destruct Hin|].
  destruct Hin as [->|Hin].
  - rewrite Hu, Hp. simpl.
    rewrite (scanOtherRows_collision h rows row (col_Name col) _ other) by assumption.
    discriminate.
  - destruct (col_Unique c && negb (col_PrimaryKey c)); [|auto].
    destruct (scanOtherRows h rows row (col_Name c) _); [discriminate|auto].
Qed.

(** Updates that name columns of the table and carry values of their
    types are all applied. *)
Lemma applyUpdates_valid t row updates : forall (h : Heap),
  Forall (fun u => exists col, findColumn t u.1 = Some col /\
                               validateValueType col u.2 = None) updates ->
  exists h', applyUpdates t row updates h = (h', None).
Proof.
  induction updates as [|[c v] rest IH]; intros h Hall; simpl.
  - exists h. reflexivity.
  - apply list.Forall_cons in Hall as [(col & Hf & Hv) Hrest]. simpl in Hf, Hv.
    rewrite Hf, Hv. apply IH. exact Hrest.
Qed.

(** The store [UpdateRow] works on once the updates are applied, seen
    from the store before the call. *)
Lemma applyUpdates_view t row updates (h h' : Heap) :
  applyUpdates t row updates h = (h', None) ->
  deref h' row = foldl setColumn (deref h row) updates /\
  (forall r, r <> row -> h' !! r = h !! r) /\
  (forall r, r <> row -> deref h' r = deref h r).
Proof.
  intros H. apply applyUpdates_ok in H as (Hrow & Hother & _).
  split; [exact Hrow|]. split; [exact Hother|].
  intros r Hne. unfold deref. rewrite Hother by assumption. reflexivity.
Qed.

(** Claim C6. [UpdateRow] first applies every update to the target row,
    then re-checks every unique-flagged column that is not the primary key
    against all the other rows, and rolls nothing back. In three parts.
    (1) When the call fails on the re-validation of the unique constraints,
    every update had passed its checks and has been written to the target
    row, which is the only row written; the violation was found afterwards,
    between the updated row and another row of the table, on a
    unique-flagged column that is not the primary key; the error is a
    ConstraintError, and the store the call leaves holds the row with its
    new values. (2) The re-validation misses no collision: when the row is
    found and every update passes its checks, a value that is not Null and
    that the updated row shares with any other row of the table in any
    unique-flagged column that is not the primary key makes the call fail
    with a unique violation, a ConstraintError, and the store it leaves
    holds the target row with all its new values and every other row as it
    was. (3) With no such collision the call succeeds, on the same store. *)
Theorem update_unique_violation_keeps_new_values
    (h : Heap) (t : Table) (pkValue : Value) (updates : list (string * Value)) :
  (forall (h' : Heap) (t' : Table) (colName : string) (value : Value),
     UpdateRow h t pkValue updates = (h', t', Some (ErrUniqueViolation colName value)) ->
     exists row,
       FindRowByPrimaryKey t pkValue = Some row /\
       Forall (fun u => exists col, findColumn t u.1 = Some col /\
                                    validateValueType col u.2 = None) updates /\
       deref h' row = foldl setColumn (deref h row) updates /\
       (forall r, r <> row -> h' !! r = h !! r) /\
       t' = t /\
       (exists col other,
           In col (tbl_Columns t) /\ col_Name col = colName /\
           col_Unique col = true /\ col_PrimaryKey col = false /\
           In other (tbl_Rows t) /\ other <> row /\
           GetValue (deref h' other) colName = value /\
           GetValue (deref h' row) colName = value /\ value <> VNil) /\
       error_class (ErrUniqueViolation colName value) = ConstraintError) /\
  (forall (row other : nat) (col : Column),
     FindRowByPrimaryKey t pkValue = Some row ->
     Forall (fun u => exists col, findColumn t u.1 = Some col /\
                                  validateValueType col u.2 = None) updates ->
     In col (tbl_Columns t) -> col_Unique col = true -> col_PrimaryKey col = false ->
     In other (tbl_Rows t) -> other <> row ->
     GetValue (deref h other) (col_Name col) =
       GetValue (foldl setColumn (deref h row) updates) (col_Name col) ->
     GetValue (foldl setColumn (deref h row) updates) (col_Name col) <> VNil ->
     exists (h' : Heap) (colName : string) (value : Value),
       UpdateRow h t pkValue updates = (h', t, Some (ErrUniqueViolation colName value)) /\
       error_class (ErrUniqueViolation colName value) = ConstraintError /\
       deref h' row = foldl setColumn (deref h row) updates /\
       (forall r, r <> row -> h' !! r = h !! r)) /\
  (forall (row : nat),
     FindRowByPrimaryKey t pkValue = Some row ->
     Forall (fun u => exists col, findColumn t u.1 = Some col /\
                                  validateValueType col u.2 = None) updates ->
     (forall (col : Column) (other : nat),
        In col (tbl_Columns t) -> col_Unique col = true -> col_PrimaryKey col = false ->
        In other (tbl_Rows t) -> other <> row ->
        GetValue (deref h other) (col_Name col) =
          GetValue (foldl setColumn (deref h row) updates) (col_Name col) ->
        GetValue (foldl setColumn (deref h row) updates) (col_Name col) = VNil) ->
     exists (h' : Heap),
       UpdateRow h t pkValue updates = (h', t, None) /\
       deref h' row = foldl setColumn (deref h row) updates /\
       (forall r, r <> row -> h' !! r = h !! r)).
Proof.
  split; [|split].
  - intros h' t' colName value. unfold UpdateRow.
    destruct (FindRowByPrimaryKey t pkValue) as [row|]; [|discriminate].
    destruct (applyUpdates t row updates h) as [h1 [e|]] eqn:Eapp.
    + intros [= <- <- ->]. apply applyUpdates_error_class in Eapp. discriminate.
    + intros [= <- <- Hre]. apply applyUpdates_ok in Eapp as (Hrow & Hother & Hall).
      apply revalidateUnique_inv in Hre
        as (col & other & He & Hin & Hu & Hp & Hino & Hne & Hv & Hnn).
      injection He as -> ->.
      exists row. repeat split; auto.
      exists col, other. repeat split; auto.
  - intros row other col Hfind Hall Hin Hu Hp Hino Hne Hv Hnn.
    destruct (applyUpdates_valid t row updates h Hall) as [h1 Happ].
    destruct (applyUpdates_view _ _ _ _ _ Happ) as (Hrow & Hother & Hderef).
    unfold UpdateRow. rewrite Hfind, Happ.
    destruct (revalidateUnique h1 (tbl_Rows t) (tbl_Columns t) row) as [e|] eqn:E.
    + apply revalidateUnique_inv in E as (c & o & -> & _).
      exists h1, (col_Name c), (GetValue (deref h1 row) (col_Name c)).
      repeat split; auto.
    + exfalso. apply (revalidateUnique_collision h1 _ _ row col other) in E; auto.
      * rewrite Hrow, (Hderef other) by assumption. exact Hv.
      * rewrite Hrow. exact Hnn.
  - intros row Hfind Hall Hclear.
    destruct (applyUpdates_valid t row updates h Hall) as [h1 Happ].
    destruct (applyUpdates_view _ _ _ _ _ Happ) as (Hrow & Hother & Hderef).
    unfold UpdateRow. rewrite Hfind, Happ.
    destruct (revalidateUnique h1 (tbl_Rows t) (tbl_Columns t) row) as [e|] eqn:E.
    + exfalso. apply revalidateUnique_inv in E
        as (col & other & _ & Hin & Hu & Hp & Hino & Hne & Hv & Hnn).
      apply Hnn. rewrite Hrow. apply (Hclear col other); auto.
      rewrite <- Hrow, <- (Hderef other) by assumption. exact Hv.
    + exists h1. repeat split; auto.
Qed.

(** Bob is given Alice's address: the update is refused and Bob's row
    holds the address all the same. Alice's row, the other row of the
    table, is the one the re-validation finds. *)
Lemma update_unique_violation_keeps_new_values_witness :
  UpdateRow store users2 (VInt 2) emailClash =
    (storeAfterEmailClash, users2,
     Some (ErrUniqueViolation "email" (VText "alice@example.com"))) /\
  GetValue (deref store 3) "email" = VText "bob@example.com" /\
  GetValue (deref storeAfterEmailClash 3) "email" = VText "alice@example.com" /\
  (exists row,
    FindRowByPrimaryKey users2 (VInt 2) = Some row /\
    Forall (fun u => exists col, findColumn users2 u.1 = Some col /\
                                 validateValueType col u.2 = None) emailClash /\
    deref storeAfterEmailClash row = foldl setColumn (deref store row) emailClash /\
    (forall r, r <> row -> storeAfterEmailClash !! r = store !! r) /\
    users2 = users2 /\
    (exists col other,
        In col (tbl_Columns users2) /\ col_Name col = "email" /\
        col_Unique col = true /\ col_PrimaryKey col = false /\
        In other (tbl_Rows users2) /\ other <> row /\
        GetValue (deref storeAfterEmailClash other) "email" = VText "alice@example.com" /\
        GetValue (deref storeAfterEmailClash row) "email" = VText "alice@example.com" /\
        VText "alice@example.com" <> VNil) /\
    error_class (ErrUniqueViolation "email" (VText "alice@example.com")) = ConstraintError) /\
  (exists (h' : Heap) (colName : string) (value : Value),
    UpdateRow store users2 (VInt 2) emailClash =
      (h', users2, Some (ErrUniqueViolation colName value)) /\
    error_class (ErrUniqueViolation colName value) = ConstraintError /\
    deref h' 3 = foldl setColumn (deref store 3) emailClash /\
    (forall r, r <> 3 -> h' !! r = store !! r)).
Proof.
  split; [by_evaluation|]. split; [by_evaluation|]. split; [by_evaluation|].
  split.
  - apply (proj1 (update_unique_violation_keeps_new_values
                    store users2 (VInt 2) emailClash)
             storeAfterEmailClash users2 "email" (VText "alice@example.com")).
    by_evaluation.
  - apply (proj1 (proj2 (update_unique_violation_keeps_new_values
                           store users2 (VInt 2) emailClash))
             3 0 (mkColumn "email" DATATYPE_TEXT false true)).
    + by_evaluation.
    + repeat constructor.
      exists (mkColumn "email" DATATYPE_TEXT false true). split; by_evaluation.
    + in_list.
    + reflexivity.
    + reflexivity.
    + in_list.
    + lia.
    + by_evaluation.
    + vm_compute. discriminate.
Defined.

(** Bob's address is changed to one nobody has: no unique-flagged column
    collides and the update goes through. *)
Example update_without_collision_succeeds :
  snd (UpdateRow store users2 (VInt 2) [("email", VText "bob@example.org")]) = None /\
  GetValue (deref (fst (fst (UpdateRow store users2 (VInt 2)
                                [("email", VText "bob@example.org")]))) 3) "email" =
    VText "bob@example.org".
Proof. split; by_evaluation. Qed.

(** The row as a following SELECT shows it. *)
Example update_unique_violation_observed :
  ExecuteSelect store db (selectWhere "users" "id" "=" (VInt 2) DATATYPE_INTEGER) =
    Ok {| rs_Columns := ["id"; "name"; "email"; "active"];
          rs_Rows := [[VInt 2; VText "Bob"; VText "bob@example.com"; VBool false]] |} /\
  ExecuteSelect storeAfterEmailClash db
    (selectWhere "users" "id" "=" (VInt 2) DATATYPE_INTEGER) =
    Ok {| rs_Columns := ["id"; "name"; "email"; "active"];
          rs_Rows := [[VInt 2; VText "Bob"; VText "alice@example.com"; VBool false]] |}.
Proof. split; by_evaluation. Qed.

Lemma foldl_setColumn_notin updates : forall (data : gmap string Value) c,
  ~ In c (map fst updates) -> foldl setColumn data updates !! c = data !! c.
Proof.
  induction updates as [|[c' v'] rest IH]; intros data c Hnin; simpl; [reflexivity|].
  simpl in Hnin. rewrite IH by tauto. unfold setColumn. simpl.
  apply lookup_insert_ne. intros ->. tauto.
Qed.

Lemma foldl_setColumn_in updates : forall (data : gmap string Value) c v,
  List.NoDup (map fst updates) -> In (c, v) updates ->
  foldl setColumn data updates !! c = Some v.
Proof.
  induction updates as [|[c' v'] rest IH]; intros data c v Hnd Hin; simpl; [destruct Hin|].
  simpl in Hnd. apply List.NoDup_cons_iff in Hnd as [Hnin Hnd].
  destruct Hin as [[= -> ->]|Hin].
  - rewrite foldl_setColumn_notin by exact Hnin.
    unfold setColumn. simpl. apply lookup_insert_eq.
  - apply IH; assumption.
Qed.

(** Claim C9. A successful [UpdateRow] under key [k] whose updates assign
    [k'] to the primary-key column leaves the index, and the row sequence,
    as they were: looking up [k] still finds the row, which now carries
    [k'], and looking up [k'] finds what it found before the update,
    nothing when no row was indexed under [k']. The updates are the entries
    of a Go map, so no column occurs twice in them. *)
Theorem update_primary_key_keeps_index_entry
    (h h' : Heap) (t t' : Table) (k k' : Value) (row : nat)
    (updates : list (string * Value)) :
  FindRowByPrimaryKey t k = Some row ->
  List.NoDup (map fst updates) ->
  In (tbl_PrimaryKey t, k') updates ->
  UpdateRow h t k updates = (h', t', None) ->
  tbl_index t' = tbl_index t /\
  tbl_Rows t' = tbl_Rows t /\
  FindRowByPrimaryKey t' k = Some row /\
  GetValue (deref h' row) (tbl_PrimaryKey t') = k' /\
  FindRowByPrimaryKey t' k' = FindRowByPrimaryKey t k' /\
  (tbl_index t !! k' = None -> FindRowByPrimaryKey t' k' = None).
Proof.
  intros Hfind Hnd Hin. unfold UpdateRow. rewrite Hfind.
  destruct (applyUpdates t row updates h) as [h1 [e|]] eqn:Eapp; [discriminate|].
  intros [= <- <- Hre]. apply applyUpdates_ok in Eapp as (Hrow & _ & _).
  repeat split; auto.
  - unfold GetValue. rewrite Hrow.
    rewrite (foldl_setColumn_in updates _ _ k') by assumption. reflexivity.
  - intros Hnone. unfold FindRowByPrimaryKey. rewrite Hnone.
    destruct (hasPrimaryKey t); reflexivity.
Qed.

(** Alice's [id] is changed from 1 to 7, a key no row has. *)
Lemma update_primary_key_keeps_index_entry_witness :
  (FindRowByPrimaryKey users2 (VInt 1) = Some 0 /\
   List.NoDup (map fst rekeyFresh) /\
   In (tbl_PrimaryKey users2, VInt 7) rekeyFresh /\
   UpdateRow store users2 (VInt 1) rekeyFresh = (storeAfterRekeyFresh, users2, None)) /\
  tbl_index users2 = tbl_index users2 /\
  tbl_Rows users2 = tbl_Rows users2 /\
  FindRowByPrimaryKey users2 (VInt 1) = Some 0 /\
  GetValue (deref storeAfterRekeyFresh 0) (tbl_PrimaryKey users2) = VInt 7 /\
  FindRowByPrimaryKey users2 (VInt 7) = FindRowByPrimaryKey users2 (VInt 7) /\
  (tbl_index users2 !! VInt 7 = None -> FindRowByPrimaryKey users2 (VInt 7) = None).
Proof.
  assert (Hnd : List.NoDup (map fst rekeyFresh)).
  { repeat constructor. simpl. tauto. }
  assert (Hin : In (tbl_PrimaryKey users2, VInt 7) rekeyFresh) by in_list.
  split; [repeat split; first [assumption | by_evaluation]|].
  apply (update_primary_key_keeps_index_entry
           store storeAfterRekeyFresh users2 users2 (VInt 1) (VInt 7) 0 rekeyFresh);
    first [assumption | by_evaluation].
Defined.

(** Alice's [id] is changed from 1 to 2, which is Bob's key: the update
    succeeds, and looking up 2 is not absent, it finds Bob's row. *)
Lemma update_primary_key_keeps_index_entry_counterexample :
  FindRowByPrimaryKey users2 (VInt 1) = Some 0 /\
  VInt 2 <> VInt 1 /\
  UpdateRow store users2 (VInt 1) rekeyTaken = (storeAfterRekeyTaken, users2, None) /\
  GetValue (deref storeAfterRekeyTaken 0) "id" = VInt 2 /\
  FindRowByPrimaryKey users2 (VInt 2) = Some 3 /\
  FindRowByPrimaryKey users2 (VInt 2) <> None.
Proof.
  repeat split; try by_evaluation; discriminate.
Qed.

(** *** Selection *)

Lemma string_less_ltb l : forall r, string_less l r = String.ltb l r.
Proof.
  unfold String.ltb.
  induction l as [|a l IH]; intros [|b r]; simpl; try reflexivity.
  rewrite IH. unfold Ascii.compare.
  destruct (N.compare_spec (N_of_ascii a) (N_of_ascii b)) as [E|E|E].
  - rewrite E, N.ltb_irrefl, N.eqb_refl. reflexivity.
  - apply N.ltb_lt in E. rewrite E. reflexivity.
  - assert (H1 : (N_of_ascii a <? N_of_ascii b)%N = false) by (apply N.ltb_ge; lia).
    assert (H2 : (N_of_ascii a =? N_of_ascii b)%N = false) by (apply N.eqb_neq; lia).
    rewrite H1, H2. reflexivity.
Qed.

Lemma string_less_asym l r : string_less l r = true -> string_less r l = false.
Proof.
  rewrite !string_less_ltb. unfold String.ltb.
  rewrite (String.compare_antisym r l).
  destruct (String.compare l r); simpl; congruence.
Qed.

Lemma compareValues_gt v literal :
  compareValues v literal ">" = strictlyGreater v literal.
Proof.
  unfold compareValues. simpl. unfold compareOrdered, strictlyGreater.
  destruct v as [|a|a|a], literal as [|b|b|b]; try reflexivity.
  - destruct (a <? b)%Z eqn:E1; destruct (b <? a)%Z eqn:E2; try reflexivity.
    apply Z.ltb_lt in E1, E2. lia.
  - rewrite <- !string_less_ltb.
    destruct (string_less a b) eqn:E1.
    + rewrite (string_less_asym _ _ E1). reflexivity.
    + destruct (string_less b a); reflexivity.
Qed.

Lemma strictlyGreater_comparable v literal :
  strictlyGreater v literal = true -> comparable v literal = true.
Proof. destruct v, literal; simpl; congruence. Qed.

Lemma filter_none {A} (f : A -> bool) l :
  (forall x, In x l -> f x = false) -> List.filter f l = [].
Proof.
  induction l as [|a l IH]; simpl; intros H; [reflexivity|].
  rewrite (H a) by auto. apply IH. auto.
Qed.

(** Claim C7. On a table [t] of the database, [SELECT * FROM t WHERE col =
    literal] returns, in row order, exactly the rows whose value in [col]
    is the literal, same type and same value; [SELECT * FROM t WHERE col >
    literal] returns exactly the rows whose value in [col] is an integer
    greater than an integer literal, or a text greater than a text literal;
    so when no row has a value comparable with the literal (the types
    differ, or are Boolean), the result is the empty row set and not an
    error. *)
Theorem select_where_filters
    (h : Heap) (db : Database) (name col : string) (t : Table)
    (literal : Value) (ty : DataType) :
  Tables db !! name = Some t ->
  ExecuteSelect h db (selectWhere name col "=" literal ty) =
    Ok {| rs_Columns := GetColumnNames t;
          rs_Rows := projected h t
            (List.filter (fun row => bool_decide (GetValue (deref h row) col = literal))
                         (tbl_Rows t)) |} /\
  ExecuteSelect h db (selectWhere name col ">" literal ty) =
    Ok {| rs_Columns := GetColumnNames t;
          rs_Rows := projected h t
            (List.filter (fun row => strictlyGreater (GetValue (deref h row) col) literal)
                         (tbl_Rows t)) |} /\
  ((forall row, In row (tbl_Rows t) ->
                comparable (GetValue (deref h row) col) literal = false) ->
   ExecuteSelect h db (selectWhere name col ">" literal ty) =
     Ok {| rs_Columns := GetColumnNames t; rs_Rows := [] |}).
Proof.
  intros Ht.
  assert (Hgt : ExecuteSelect h db (selectWhere name col ">" literal ty) =
    Ok {| rs_Columns := GetColumnNames t;
          rs_Rows := projected h t
            (List.filter (fun row => strictlyGreater (GetValue (deref h row) col) literal)
                         (tbl_Rows t)) |}).
  { unfold ExecuteSelect, selectWhere. simpl. rewrite Ht. unfold SelectRows, projected.
    do 3 f_equal. apply filter_ext. intros row. apply compareValues_gt. }
  split; [|split].
  - unfold ExecuteSelect, selectWhere. simpl. rewrite Ht. reflexivity.
  - exact Hgt.
  - intros Hnc. rewrite Hgt. do 2 f_equal. rewrite filter_none; [reflexivity|].
    intros row Hin. specialize (Hnc row Hin).
    destruct (strictlyGreater (GetValue (deref h row) col) literal) eqn:E; [|reflexivity].
    apply strictlyGreater_comparable in E. congruence.
Qed.

(** [active] is a Boolean column: [WHERE active = FALSE] finds Bob, and
    [WHERE active > FALSE] finds nothing. *)
Lemma select_where_filters_witness :
  Tables db !! "users" = Some users2 /\
  ExecuteSelect store db (selectWhere "users" "active" "=" (VBool false) DATATYPE_BOOLEAN) =
    Ok {| rs_Columns := ["id"; "name"; "email"; "active"];
          rs_Rows := [[VInt 2; VText "Bob"; VText "bob@example.com"; VBool false]] |} /\
  ExecuteSelect store db (selectWhere "users" "active" ">" (VBool false) DATATYPE_BOOLEAN) =
    Ok {| rs_Columns := ["id"; "name"; "email"; "active"]; rs_Rows := [] |}.
Proof.
  assert (Ht : Tables db !! "users" = Some users2) by by_evaluation.
  destruct (select_where_filters store db "users" "active" users2 (VBool false)
              DATATYPE_BOOLEAN Ht) as (Heq & _ & Hnone).
  split; [exact Ht|]. split.
  - rewrite Heq. by_evaluation.
  - rewrite Hnone; [by_evaluation|].
    intros row Hin. unfold comparable.
    destruct (GetValue (deref store row) "active"); reflexivity.
Defined.

Example select_where_id_greater :
  ExecuteSelect store db (selectWhere "users" "id" ">" (VInt 1) DATATYPE_INTEGER) =
    Ok {| rs_Columns := ["id"; "name"; "email"; "active"];
          rs_Rows := [[VInt 2; VText "Bob"; VText "bob@example.com"; VBool false]] |}.
Proof. by_evaluation. Qed.

Example select_where_name_greater :
  ExecuteSelect store db (selectWhere "users" "name" ">" (VText "Alice") DATATYPE_TEXT) =
    Ok {| rs_Columns := ["id"; "name"; "email"; "active"];
          rs_Rows := [[VInt 2; VText "Bob"; VText "bob@example.com"; VBool false]] |}.
Proof. by_evaluation. Qed.

(** *** Joins *)

Lemma joinRight_spec (h : Heap) tA tB x y leftRow rightRows :
  joinRight h tA tB x y leftRow rightRows =
  map (fun rightRow => rowValues (deref h leftRow) (GetColumnNames tA) ++
                       rowValues (deref h rightRow) (GetColumnNames tB))
      (List.filter
         (fun rightRow =>
            bool_decide (GetValue (deref h leftRow) x = GetValue (deref h rightRow) y))
         rightRows).
Proof.
  induction rightRows as [|r rest IH]; simpl; [reflexivity|].
  destruct (bool_decide _); simpl; rewrite IH; reflexivity.
Qed.

Lemma joinLeft_spec (h : Heap) tA tB x y leftRows :
  joinLeft h tA tB x y leftRows =
  flat_map (fun leftRow =>
              map (fun rightRow => rowValues (deref h leftRow) (GetColumnNames tA) ++
                                   rowValues (deref h rightRow) (GetColumnNames tB))
                  (matching h tB x y leftRow))
           leftRows.
Proof.
  induction leftRows as [|l rest IH]; simpl; [reflexivity|].
  rewrite IH, joinRight_spec. reflexivity.
Qed.

Lemma length_flat_map_sum {A B} (f : A -> list B) l :
  length (flat_map f l) = list_sum (map (fun a => length (f a)) l).
Proof.
  induction l as [|a l IH]; simpl; [reflexivity|].
  rewrite length_app, IH. reflexivity.
Qed.

(** Claim C8. For two tables [A] and [B] of the database, a SELECT that
    joins them on [A.x = B.y] returns the columns of [A] followed by those
    of [B] and, for every row of [A] in turn, one output row per row of [B]
    whose [y] equals its [x]: its own values followed by those of the row
    of [B]. The number of output rows is the sum, over the rows of [A], of
    the number of matching rows of [B]. With any operator other than [=] in
    the ON condition the statement fails with the error of unsupported
    joins. This holds for the statement without WHERE clause, and with any
    WHERE clause that the executor can build. *)
Theorem join_select_pairs_equal_values
    (h : Heap) (db : Database) (A B : string) (tA tB : Table)
    (qa x qb y : string) (columns : list Expression) :
  Tables db !! A = Some tA ->
  Tables db !! B = Some tB ->
  ExecuteSelect h db
    (selectJoin A B columns None
       (QualifiedIdentifier qa x) "=" (QualifiedIdentifier qb y)) =
    Ok {| rs_Columns := GetColumnNames tA ++ GetColumnNames tB;
          rs_Rows := joinedRows h tA tB x y |} /\
  length (joinedRows h tA tB x y) =
    list_sum (map (fun leftRow => length (matching h tB x y leftRow)) (tbl_Rows tA)) /\
  (forall l op r, op <> "=" ->
     ExecuteSelect h db (selectJoin A B columns None l op r) = Err ErrOnlyEqualityJoins /\
     error_class ErrOnlyEqualityJoins = UnsupportedError) /\
  (forall where_ cond, whereConditionOf where_ = Ok cond ->
     ExecuteSelect h db
       (selectJoin A B columns where_
          (QualifiedIdentifier qa x) "=" (QualifiedIdentifier qb y)) =
       Ok {| rs_Columns := GetColumnNames tA ++ GetColumnNames tB;
             rs_Rows := joinedRows h tA tB x y |} /\
     (forall l op r, op <> "=" ->
        ExecuteSelect h db (selectJoin A B columns where_ l op r) =
          Err ErrOnlyEqualityJoins)).
Proof.
  intros HA HB.
  assert (Hgen : forall where_ cond, whereConditionOf where_ = Ok cond ->
     ExecuteSelect h db
       (selectJoin A B columns where_
          (QualifiedIdentifier qa x) "=" (QualifiedIdentifier qb y)) =
       Ok {| rs_Columns := GetColumnNames tA ++ GetColumnNames tB;
             rs_Rows := joinedRows h tA tB x y |} /\
     (forall l op r, op <> "=" ->
        ExecuteSelect h db (selectJoin A B columns where_ l op r) =
          Err ErrOnlyEqualityJoins)).
  { intros where_ cond Hw. split.
    - unfold ExecuteSelect, selectJoin. simpl. rewrite HA, Hw.
      unfold executeJoinSelect. simpl. rewrite HB. unfold parseJoinCondition. simpl.
      rewrite joinLeft_spec. reflexivity.
    - intros l op r Hop.
      unfold ExecuteSelect, selectJoin. simpl. rewrite HA, Hw.
      unfold executeJoinSelect. simpl. rewrite HB. unfold parseJoinCondition. simpl.
      apply String.eqb_neq in Hop. rewrite Hop. reflexivity. }
  destruct (Hgen None (fun _ => true) eq_refl) as [Hrows Hop].
  split; [exact Hrows|]. split; [|split].
  - unfold joinedRows. rewrite length_flat_map_sum. f_equal. apply map_ext.
    intros a. apply length_map.
  - intros l op r Hne. split; [apply Hop; assumption|reflexivity].
  - exact Hgen.
Qed.

(** [SELECT * FROM users JOIN posts ON users.id = posts.user_id]: Alice
    has two posts and Bob one. *)
Lemma join_select_pairs_equal_values_witness :
  (Tables db !! "users" = Some users2 /\ Tables db !! "posts" = Some posts3) /\
  ExecuteSelect store db
    (selectJoin "users" "posts" [StarExpression] None usersId "=" postsUserId) =
    Ok usersJoinPosts /\
  length (joinedRows store users2 posts3 "id" "user_id") = 3 /\
  ExecuteSelect store db
    (selectJoin "users" "posts" [StarExpression] None usersId ">" postsUserId) =
    Err ErrOnlyEqualityJoins.
Proof.
  assert (HA : Tables db !! "users" = Some users2) by by_evaluation.
  assert (HB : Tables db !! "posts" = Some posts3) by by_evaluation.
  destruct (join_select_pairs_equal_values store db "users" "posts" users2 posts3
              "users" "id" "posts" "user_id" [StarExpression] HA HB)
    as (Hrows & Hlen & Hop & _).
  split; [split; assumption|]. split; [|split].
  - unfold usersId, postsUserId. rewrite Hrows. by_evaluation.
  - rewrite Hlen. by_evaluation.
  - apply Hop. discriminate.
Defined.

(** Claim C10. In a SELECT that has both a JOIN and a WHERE clause, the
    condition of the WHERE clause is built and then never applied: when it
    builds, the result is that of the same statement without its WHERE
    clause; when it does not build, the statement fails with the error of
    the build, whatever the join would have returned. *)
Theorem join_select_builds_where_without_applying_it
    (h : Heap) (db : Database) (stmt : SelectStatement)
    (join : JoinClause) (where_ : Expression) :
  sel_Join stmt = Some join ->
  sel_Where stmt = Some where_ ->
  (forall cond, buildWhereCondition where_ = Ok cond ->
     ExecuteSelect h db stmt = ExecuteSelect h db (withoutWhere stmt)) /\
  (forall e table, buildWhereCondition where_ = Err e ->
     Tables db !! sel_TableName stmt = Some table ->
     ExecuteSelect h db stmt = Err e).
Proof.
  intros Hj Hw. split.
  - intros cond Hb. unfold ExecuteSelect, withoutWhere. simpl. rewrite Hw, Hj. simpl.
    rewrite Hb. destruct (Tables db !! sel_TableName stmt); reflexivity.
  - intros e table Hb Ht. unfold ExecuteSelect. rewrite Ht, Hw. simpl. rewrite Hb.
    reflexivity.
Qed.

(** With [WHERE users.id > 1] the join still returns Alice's rows. *)
Lemma join_select_builds_where_without_applying_it_witness :
  ExecuteSelect store db joinWhereGreater =
    ExecuteSelect store db (withoutWhere joinWhereGreater) /\
  ExecuteSelect store db joinWhereGreater = Ok usersJoinPosts.
Proof.
  split; [|by_evaluation].
  eapply (proj1 (join_select_builds_where_without_applying_it
                   store db joinWhereGreater _ _ eq_refl eq_refl)).
  reflexivity.
Defined.

(** With [WHERE id = user_id] the statement fails, although the same
    statement without the clause returns three rows: the clause is not
    ignored entirely. *)
Lemma join_select_builds_where_without_applying_it_counterexample :
  (exists join where_,
     sel_Join joinWhereColumns = Some join /\ sel_Where joinWhereColumns = Some where_) /\
  ExecuteSelect store db joinWhereColumns = Err ErrIdentifierInValueContext /\
  ExecuteSelect store db (withoutWhere joinWhereColumns) = Ok usersJoinPosts /\
  ExecuteSelect store db joinWhereColumns <>
    ExecuteSelect store db (withoutWhere joinWhereColumns).
Proof.
  split; [eexists _, _; split; reflexivity|].
  repeat split; by_evaluation.
Qed.

(** *** Deletion *)

Lemma setTable_same db name t : Tables db !! name = Some t -> setTable db name t = db.
Proof.
  intros H. destruct db as [m]. unfold setTable. simpl in *. f_equal.
  apply insert_id. assumption.
Qed.

Lemma rowsToDelete_no_primary_key (h : Heap) t cond rows :
  hasPrimaryKey t = false -> rowsToDelete h t cond rows = [].
Proof.
  intros Hpk. induction rows as [|r rest IH]; simpl; [reflexivity|].
  rewrite Hpk, IH. destruct (cond (deref h r)); reflexivity.
Qed.

Lemma whereConditionOf_error_class where_ e :
  whereConditionOf where_ = Err e -> error_class e = UnsupportedError.
Proof.
  unfold whereConditionOf. destruct where_ as [w|]; [|discriminate].
  unfold buildWhereCondition. destruct w; try (intros [= <-]; reflexivity).
  unfold buildBinaryCondition.
  destruct (extractColumnName w1) eqn:E1.
  - destruct (evaluateExpression w2) eqn:E2; [discriminate|]. intros [= <-].
    destruct w2; simpl in E2; try discriminate; injection E2 as <-; reflexivity.
  - intros [= <-].
    destruct w1; simpl in E1; try discriminate; injection E1 as <-; reflexivity.
Qed.

(** Claim C4. On a table without primary key, [Table.DeleteRow] fails with
    the error that the table has no primary key, a SchemaError. A DELETE
    statement against such a table never gets there: [ExecuteDelete]
    collects no key to delete, so with no WHERE clause, or one that builds,
    it returns without error and leaves the database as it was, every row
    in place. It fails only when the WHERE clause does not build. *)
Theorem delete_without_primary_key
    (h : Heap) (db : Database) (stmt : DeleteStatement) (t : Table) :
  Tables db !! del_TableName stmt = Some t ->
  hasPrimaryKey t = false ->
  (forall pkValue, DeleteRow t pkValue = (t, Some ErrNoPrimaryKey) /\
                   error_class ErrNoPrimaryKey = SchemaError) /\
  (forall cond, whereConditionOf (del_Where stmt) = Ok cond ->
     ExecuteDelete h db stmt = (db, None)) /\
  (forall e, whereConditionOf (del_Where stmt) = Err e ->
     ExecuteDelete h db stmt = (db, Some e) /\ error_class e = UnsupportedError).
Proof.
  intros Ht Hpk. split; [|split].
  - intros pkValue. unfold DeleteRow. rewrite Hpk. split; reflexivity.
  - intros cond Hw. unfold ExecuteDelete. rewrite Ht, Hw.
    rewrite rowsToDelete_no_primary_key by assumption. simpl.
    rewrite setTable_same by assumption. reflexivity.
  - intros e Hw. unfold ExecuteDelete. rewrite Ht, Hw. split; [reflexivity|].
    eapply whereConditionOf_error_class; eauto.
Qed.

(** [DELETE FROM logs] on the table [logs], which has one row and no
    primary key: no error, and the row is still there. *)
Lemma delete_without_primary_key_witness :
  (Tables db !! "logs" = Some logs1 /\ hasPrimaryKey logs1 = false) /\
  ExecuteDelete store db deleteLogs = (db, None) /\
  tbl_Rows logs1 = [10].
Proof.
  assert (Ht : Tables db !! del_TableName deleteLogs = Some logs1) by by_evaluation.
  assert (Hpk : hasPrimaryKey logs1 = false) by by_evaluation.
  split; [split; assumption|]. split; [|by_evaluation].
  eapply (proj1 (proj2 (delete_without_primary_key store db deleteLogs logs1 Ht Hpk))).
  reflexivity.
Defined.

(** *** The codec *)

(** Claim C2. The table [usersE] has columns of the three data types,
    one flagged as primary key and one as unique, and two rows that were
    inserted one after the other; the second has the empty text as [name].
    [ToCSV] writes that value as an empty field, [TableFromCSV] reads an
    empty field as Null, and the insert of the row read back fails on the
    type of [name]: deserializing the serialization of this table does not
    yield a table, it fails. *)
Theorem roundtrip_fails_on_empty_text :
  InsertRow store users1 6 = (usersE, None) /\
  projected store usersE (tbl_Rows usersE) =
    [ [VInt 1; VText "Alice"; VText "alice@example.com"; VBool true];
      [VInt 5; VText EmptyString; VText "erin@example.com"; VBool true] ] /\
  ToCSV store usersE =
    GoStrings.Join
      [ "# SCHEMA: id:INTEGER:PRIMARY_KEY,name:TEXT,email:TEXT:UNIQUE,active:BOOLEAN";
        "1,Alice,alice@example.com,true";
        "5,,erin@example.com,true" ] newline /\
  snd (TableFromCSV ∅ "users" (ToCSV store usersE)) =
    Err (ErrInsertingRow 2 (ErrTypeMismatch "name" DATATYPE_TEXT VNil)).
Proof. repeat split; by_evaluation. Qed.

(** Without the row of the empty name the same table does come back. *)
Example roundtrip_users2 :
  match TableFromCSV ∅ "users" (ToCSV store users2) with
  | (h', Ok t') =>
      tbl_Columns t' = tbl_Columns users2 /\
      projected h' t' (tbl_Rows t') = projected store users2 (tbl_Rows users2)
  | (_, Err _) => False
  end.
Proof. vm_compute. split; reflexivity. Qed.

(** A text that begins and ends with a double quote loses both on the way
    back: the table is read without error, with another [name]. *)
Example roundtrip_alters_quoted_text :
  InsertRow store users1 11 = (usersQ, None) /\
  GetValue (deref store 11) "name" = VText quotedName /\
  match TableFromCSV ∅ "users" (ToCSV store usersQ) with
  | (h', Ok t') =>
      projected h' t' (tbl_Rows t') =
        [ [VInt 1; VText "Alice"; VText "alice@example.com"; VBool true];
          [VInt 6; VText "x"; VText "quinn@example.com"; VBool true] ]
  | (_, Err _) => False
  end.
Proof.
  split; [by_evaluation|]. split; [by_evaluation|]. vm_compute. reflexivity.
Qed.

(** *** The parser *)

(** Claim C5. [ParseStatement], run on the text [CREATE TABLE t (a INTEGER,
    b FLOAT)], returns a statement and no error: a CREATE TABLE of [t] with
    the single column [a]. The definition of [b], whose type is unknown, is
    dropped, and the list of diagnostics is empty. *)
Theorem parse_create_drops_column :
  Parser.parseText createWithUnknownType =
    (Parser.Parsed
       (StmtCreateTable
          {| ct_TableName := "t";
             ct_Columns := [ {| cd_Name := "a"; cd_DataType := DATATYPE_INTEGER;
                                cd_PrimaryKey := false; cd_Unique := false |} ] |}),
     []).
Proof. by_evaluation. Qed.

(** The loop over the column definitions of that statement leaves by its
    own [break] in the second turn: more turns allowed change nothing. *)
Lemma parse_create_turns (n : nat) :
  Parser.parseColumnDefinitions_go (2 + n) [] atColumnDefinitions =
  Parser.parseColumnDefinitions_go 2 [] atColumnDefinitions.
Proof. vm_compute. reflexivity. Qed.

(** A well-formed statement is parsed in full. *)
Example parse_create_users :
  Parser.parseText
    "CREATE TABLE users (id INTEGER PRIMARY KEY, name TEXT, email TEXT UNIQUE, active BOOLEAN)" =
    (Parser.Parsed
       (StmtCreateTable
          {| ct_TableName := "users";
             ct_Columns :=
               [ mkColumnDefinition "id" DATATYPE_INTEGER true false;
                 mkColumnDefinition "name" DATATYPE_TEXT false false;
                 mkColumnDefinition "email" DATATYPE_TEXT false true;
                 mkColumnDefinition "active" DATATYPE_BOOLEAN false false ] |}),
     []).
Proof. by_evaluation. Qed.

(** The statements of the examples above, as the parser delivers them. *)
Example parse_delete_logs :
  Parser.parseText "DELETE FROM logs" = (Parser.Parsed (StmtDelete deleteLogs), []).
Proof. by_evaluation. Qed.

Example parse_insert_empty_name :
  Parser.parseText "INSERT INTO users VALUES (5, '', 'erin@example.com', TRUE)" =
    (Parser.Parsed (StmtInsert insertEmptyName), []).
Proof. by_evaluation. Qed.

Example parse_join_where_greater :
  Parser.parseText
    "SELECT * FROM users JOIN posts ON users.id = posts.user_id WHERE users.id > 1" =
    (Parser.Parsed (StmtSelect joinWhereGreater), []).
Proof. by_evaluation. Qed.

Example parse_join_where_columns :
  Parser.parseText
    "SELECT * FROM users JOIN posts ON users.id = posts.user_id WHERE id = user_id" =
    (Parser.Parsed (StmtSelect joinWhereColumns), []).
Proof. by_evaluation. Qed.

(** The row with the empty name gets into the table through INSERT, and
    the table it is in is the one the codec fails on. *)
Example insert_empty_name_accepted :
  match ExecuteInsert store dbAlice insertEmptyName with
  | (h', db', err) =>
      err = None /\
      match Tables db' !! "users" with
      | Some t' => projected h' t' (tbl_Rows t') = projected store usersE (tbl_Rows usersE) /\
                   ToCSV h' t' = ToCSV store usersE
      | None => False
      end
  end.
Proof. vm_compute. repeat split; reflexivity. Qed.

(** *** The loops of the parser end before their turns run out *)

Module ProgressFacts.
Import Lexer Parser Progress.

Lemma get_dropBytes n : forall s,
  String.get n s = match dropBytes n s with EmptyString => None | String c _ => Some c end.
Proof.
  induction n as [|n IH]; intros [|c s]; simpl; try reflexivity. apply IH.
Qed.

Lemma dropBytes_empty n : dropBytes n EmptyString = EmptyString.
Proof. destruct n; reflexivity. Qed.

Lemma dropBytes_S n : forall s,
  dropBytes (S n) s = match dropBytes n s with EmptyString => EmptyString | String _ r => r end.
Proof.
  induction n as [|n IH]; intros [|c s]; try reflexivity.
  change (dropBytes (S (S n)) (String c s)) with (dropBytes (S n) s).
  change (dropBytes (S n) (String c s)) with (dropBytes n s). apply IH.
Qed.

Lemma dropBytes_nonempty n s c r :
  dropBytes n s = String c r -> n < String.length s.
Proof.
  revert s. induction n as [|n IH]; intros [|c' s]; simpl; try discriminate; try lia.
  intros H. apply IH in H. lia.
Qed.

Lemma get_Some_lt n s c : String.get n s = Some c -> n < String.length s.
Proof.
  rewrite get_dropBytes. destruct (dropBytes n s) eqn:E; [discriminate|].
  intros _. eapply dropBytes_nonempty; eauto.
Qed.

(** [readChar] keeps the lexer well formed, whatever it was. *)
Lemma wf_readChar l : wf (readChar l).
Proof.
  unfold wf, readChar. simpl. split; [|lia].
  replace (pos l - 0) with (pos l) by lia. reflexivity.
Qed.

Lemma wf_current_nonzero l :
  wf l -> current l <> zeroByte -> pos l <= String.length (input l).
Proof.
  intros [Hc Hp] Hnz. rewrite Hc in Hnz.
  destruct (String.get (pos l - 1) (input l)) eqn:E; [|contradiction].
  apply get_Some_lt in E. lia.
Qed.

(** A reading loop moves forward, by one byte at least when it is entered,
    and stops one past the end of the input at the latest. *)
Lemma readWhile_go_spec cond (Hc0 : cond zeroByte = false) : forall rest l,
  wf l -> rest = dropBytes (pos l) (input l) ->
  wf (readWhile_go cond rest l) /\
  input (readWhile_go cond rest l) = input l /\
  pos l <= pos (readWhile_go cond rest l) /\
  (cond (current l) = true -> pos l < pos (readWhile_go cond rest l)) /\
  (pos l <= String.length (input l) + 1 ->
   pos (readWhile_go cond rest l) <= String.length (input l) + 1).
Proof.
  induction rest as [|c rest IH]; intros l Hwf Hrest; simpl.
  - destruct (cond (current l)) eqn:Ec.
    + assert (Hnz : current l <> zeroByte) by (intros E; rewrite E in Ec; congruence).
      pose proof (wf_current_nonzero l Hwf Hnz).
      split; [apply wf_readChar|]. simpl.
      split; [reflexivity|]. split; [lia|]. split; lia.
    + split; [assumption|]. split; [reflexivity|]. split; [lia|].
      split; [discriminate|auto].
  - destruct (cond (current l)) eqn:Ec.
    + assert (Hlt : pos l < String.length (input l)).
      { symmetry in Hrest. eapply dropBytes_nonempty; eauto. }
      destruct (IH (readChar l)) as (H1 & H2 & H3 & H4 & H5).
      * apply wf_readChar.
      * change (rest = dropBytes (S (pos l)) (input l)).
        rewrite dropBytes_S, <- Hrest. reflexivity.
      * simpl in *. split; [assumption|]. split; [assumption|]. split; [lia|].
        split; [lia|]. intros _. apply H5. lia.
    + split; [assumption|]. split; [reflexivity|]. split; [lia|].
      split; [discriminate|auto].
Qed.

Lemma readWhile_spec cond (Hc0 : cond zeroByte = false) l :
  wf l ->
  wf (readWhile cond l) /\
  input (readWhile cond l) = input l /\
  pos l <= pos (readWhile cond l) /\
  (cond (current l) = true -> pos l < pos (readWhile cond l)) /\
  (pos l <= String.length (input l) + 1 ->
   pos (readWhile cond l) <= String.length (input l) + 1).
Proof. intros Hwf. apply readWhile_go_spec; auto. Qed.

Lemma step_punct l l1 t lit :
  wf l1 -> input l1 = input l -> pos l <= pos l1 ->
  (t <> TOKEN_EOF -> pos l1 <= String.length (input l)) ->
  step_ok l (snd (punct t lit l1)) (tok_Type (fst (punct t lit l1)) <> TOKEN_EOF).
Proof.
  intros Hw Hi Hp Hb. unfold step_ok, punct. simpl.
  split; [apply wf_readChar|]. split; [assumption|]. split; [lia|].
  intros H. specialize (Hb H). lia.
Qed.

(** Every call of [NextToken] consumes input. *)
Lemma NextToken_spec l :
  wf l ->
  step_ok l (snd (NextToken l)) (tok_Type (fst (NextToken l)) <> TOKEN_EOF).
Proof.
  intros Hwf. unfold NextToken.
  destruct (readWhile_spec isBlank eq_refl l Hwf) as (Hw1 & Hi1 & Hp1 & _ & Hb1).
  fold skipWhitespace in *. set (l1 := skipWhitespace l) in *.
  assert (Hnz : current l1 <> zeroByte -> pos l1 <= String.length (input l)).
  { intros H. rewrite <- Hi1. apply wf_current_nonzero; assumption. }
  assert (Hpk : peekChar l1 = "="%char -> pos l1 < String.length (input l)).
  { unfold peekChar. intros H. rewrite <- Hi1.
    destruct (String.get (pos l1) (input l1)) eqn:E; [|discriminate].
    eapply get_Some_lt; eauto. }
  assert (Hone : forall t lit, current l1 <> zeroByte ->
            step_ok l (snd (punct t lit l1)) (tok_Type (fst (punct t lit l1)) <> TOKEN_EOF)).
  { intros t lit H. apply step_punct; auto. }
  assert (Htwo : forall t lit, peekChar l1 = "="%char ->
            step_ok l (snd (punct t lit (readChar l1)))
                      (tok_Type (fst (punct t lit (readChar l1))) <> TOKEN_EOF)).
  { intros t lit H. specialize (Hpk H). apply step_punct; simpl; auto using wf_readChar; lia. }
  destruct (Ascii.eqb (current l1) "=") eqn:E1.
  { apply Hone. apply Ascii.eqb_eq in E1. rewrite E1. discriminate. }
  destruct (Ascii.eqb (current l1) "!") eqn:E2.
  { apply Ascii.eqb_eq in E2. destruct (Ascii.eqb (peekChar l1) "=") eqn:Ep.
    - apply Htwo. apply Ascii.eqb_eq. assumption.
    - apply Hone. rewrite E2. discriminate. }
  destruct (Ascii.eqb (current l1) ">") eqn:E3.
  { apply Ascii.eqb_eq in E3. destruct (Ascii.eqb (peekChar l1) "=") eqn:Ep.
    - apply Htwo. apply Ascii.eqb_eq. assumption.
    - apply Hone. rewrite E3. discriminate. }
  destruct (Ascii.eqb (current l1) "<") eqn:E4.
  { apply Ascii.eqb_eq in E4. destruct (Ascii.eqb (peekChar l1) "=") eqn:Ep.
    - apply Htwo. apply Ascii.eqb_eq. assumption.
    - apply Hone. rewrite E4. discriminate. }
  destruct (Ascii.eqb (current l1) ",") eqn:E5.
  { apply Hone. apply Ascii.eqb_eq in E5. rewrite E5. discriminate. }
  destruct (Ascii.eqb (current l1) ";") eqn:E6.
  { apply Hone. apply Ascii.eqb_eq in E6. rewrite E6. discriminate. }
  destruct (Ascii.eqb (current l1) "(") eqn:E7.
  { apply Hone. apply Ascii.eqb_eq in E7. rewrite E7. discriminate. }
  destruct (Ascii.eqb (current l1) ")") eqn:E8.
  { apply Hone. apply Ascii.eqb_eq in E8. rewrite E8. discriminate. }
  destruct (Ascii.eqb (current l1) "*") eqn:E9.
  { apply Hone. apply Ascii.eqb_eq in E9. rewrite E9. discriminate. }
  destruct (Ascii.eqb (current l1) ".") eqn:E10.
  { apply Hone. apply Ascii.eqb_eq in E10. rewrite E10. discriminate. }
  destruct (Ascii.eqb (current l1) zeroByte) eqn:E11.
  { apply step_punct; auto; congruence. }
  apply Ascii.eqb_neq in E11. specialize (Hnz E11).
  destruct (isLetter (current l1)) eqn:E12.
  { unfold readIdentifier. cbn [fst snd tok_Type].
    match goal with |- context [readWhile ?c l1] =>
      destruct (readWhile_spec c eq_refl l1 Hw1) as (Ha & Hb & Hc & Hd & He) end.
    rewrite E12 in Hd. simpl in Hd. specialize (Hd eq_refl). rewrite Hi1 in *.
    split; [assumption|]. split; [assumption|]. split; [lia|].
    intros _. apply He. lia. }
  destruct (isDigit (current l1)) eqn:E13.
  { unfold readNumber. cbn [fst snd tok_Type].
    destruct (readWhile_spec isDigit eq_refl l1 Hw1) as (Ha & Hb & Hc & Hd & He).
    specialize (Hd E13). rewrite Hi1 in *.
    split; [assumption|]. split; [assumption|]. split; [lia|].
    intros _. apply He. lia. }
  destruct (Ascii.eqb (current l1) "'") eqn:E14.
  { unfold readString.
    match goal with |- context [readWhile ?c (readChar l1)] =>
      destruct (readWhile_spec c eq_refl (readChar l1) (wf_readChar l1))
        as (Ha & Hb & Hc & Hd & He); set (l2 := readWhile c (readChar l1)) in * end.
    cbn [readChar input pos] in Hb, Hc, He. rewrite Hi1 in *.
    destruct (Ascii.eqb (current l2) "'") eqn:E15; cbn [fst snd tok_Type].
    - apply Ascii.eqb_eq in E15.
      assert (Hnz2 : current l2 <> zeroByte) by (rewrite E15; discriminate).
      pose proof (wf_current_nonzero l2 Ha Hnz2) as Hl2. rewrite Hb in Hl2.
      split; [apply wf_readChar|]. cbn [readChar input pos].
      split; [assumption|]. split; lia.
    - split; [assumption|]. split; [assumption|]. split; [lia|].
      intros _. apply He. lia. }
  apply Hone. assumption.
Qed.

Lemma later_refl p : J p -> later p p.
Proof. intros H. repeat split; auto; apply H. Qed.

Lemma later_trans p q r : later p q -> later q r -> later p r.
Proof. intros (A & B & C) (D & E & F). split; [congruence|]. split; [lia|assumption]. Qed.

Lemma strictly_later_later p q : strictly_later p q -> later p q.
Proof. intros (A & B & C). split; [assumption|]. split; [lia|assumption]. Qed.

Lemma later_strictly p q r : later p q -> strictly_later q r -> strictly_later p r.
Proof. intros (A & B & C) (D & E & F). split; [congruence|]. split; [lia|assumption]. Qed.

Lemma strictly_later_trans p q r : strictly_later p q -> later q r -> strictly_later p r.
Proof. intros (A & B & C) (D & E & F). split; [congruence|]. split; [lia|assumption]. Qed.

(** The same for the parser: [nextToken] moves on, [expectPeek] moves on
    when it succeeds, and the parsing functions never move back. *)
Lemma nextToken_later p : J p -> strictly_later p (snd (nextToken p)).
Proof.
  intros [Hw _]. unfold nextToken.
  pose proof (NextToken_spec (lexer p) Hw) as (A & B & C & D).
  destruct (NextToken (lexer p)) as [tok l'] eqn:E. simpl in *.
  split; [assumption|]. split; [assumption|]. split; [assumption|].
  simpl. rewrite B. assumption.
Qed.

Lemma peekError_later t p : J p -> later p (snd (peekError t p)).
Proof. intros H. unfold peekError. simpl. repeat split; simpl; auto; apply H. Qed.

Lemma expectPeek_later t p :
  J p ->
  later p (snd (expectPeek t p)) /\
  (fst (expectPeek t p) = true -> strictly_later p (snd (expectPeek t p))).
Proof.
  intros HJ. unfold expectPeek, bind, peekTokenIs, ret.
  destruct (bool_decide (tok_Type (peekToken p) = t)).
  - pose proof (nextToken_later p HJ) as H.
    destruct (nextToken p) as [u p'] eqn:E. simpl in *.
    split; [apply strictly_later_later; assumption|auto].
  - pose proof (peekError_later t p HJ) as H.
    destruct (peekError t p) as [u p'] eqn:E. simpl in *.
    split; [assumption|discriminate].
Qed.

(** With no turn left the token ahead is the end token, on which every
    loop stops. *)
Lemma turnsLeft_zero p : J p -> turnsLeft p = 0 -> tok_Type (peekToken p) = TOKEN_EOF.
Proof.
  intros [_ Hb] Hz. unfold turnsLeft in Hz.
  destruct (decide (tok_Type (peekToken p) = TOKEN_EOF)) as [|Hne]; [assumption|].
  specialize (Hb Hne). lia.
Qed.

Lemma turnsLeft_strictly p p' n :
  strictly_later p p' -> turnsLeft p <= S n -> turnsLeft p' <= n.
Proof. intros (A & B & _). unfold turnsLeft. rewrite A. lia. Qed.

Lemma parseDataType_later p : J p -> later p (snd (parseDataType p)).
Proof.
  intros HJ. unfold parseDataType, bind, ret, currentLiteral.
  pose proof (expectPeek_later TOKEN_IDENTIFIER p HJ) as [H _].
  destruct (expectPeek TOKEN_IDENTIFIER p) as [ok p1]. simpl in *.
  destruct ok; simpl; [|assumption].
  repeat (match goal with |- context [if ?b then _ else _] => destruct b end);
    simpl; assumption.
Qed.

Lemma parseColumnConstraint_later p : J p -> later p (snd (parseColumnConstraint p)).
Proof.
  intros HJ. unfold parseColumnConstraint, bind, ret, peekTokenIs.
  destruct (bool_decide (tok_Type (peekToken p) = TOKEN_PRIMARY)).
  - pose proof (nextToken_later p HJ) as H1. apply strictly_later_later in H1.
    destruct (nextToken p) as [u p1]. simpl in *.
    pose proof (expectPeek_later TOKEN_KEY p1 (proj2 (proj2 H1))) as [H2 _].
    destruct (expectPeek TOKEN_KEY p1) as [k p2]. simpl in *.
    eapply later_trans; eauto.
  - destruct (bool_decide (tok_Type (peekToken p) = TOKEN_UNIQUE)).
    + pose proof (nextToken_later p HJ) as H1. apply strictly_later_later in H1.
      destruct (nextToken p) as [u p1]. simpl in *. assumption.
    + simpl. apply later_refl. assumption.
Qed.

(** Two runs that differ in the continuation only. *)
Lemma bind_cong {A B : Type} (f : M A) (k1 k2 : A -> M B) p :
  k1 (fst (f p)) (snd (f p)) = k2 (fst (f p)) (snd (f p)) ->
  bind f k1 p = bind f k2 p.
Proof. unfold bind. destruct (f p). simpl. auto. Qed.

Lemma peekTokenIs_run t p :
  peekTokenIs t p = (bool_decide (tok_Type (peekToken p) = t), p).
Proof. reflexivity. Qed.

Lemma currentLiteral_run p : currentLiteral p = (tok_Literal (currentToken p), p).
Proof. reflexivity. Qed.

Ltac bind_step := apply bind_cong; cbn beta.
Ltac peek_step := bind_step; rewrite !peekTokenIs_run; cbn [fst snd].
Ltac literal_step := bind_step; rewrite !currentLiteral_run; cbn [fst snd].

(** Each loop gives the same result with any two numbers of turns that
    are not below [turnsLeft]: it leaves by one of its own exits. *)
Lemma parseColumnDefinitions_go_enough n : forall m columns p,
  J p -> turnsLeft p <= n -> turnsLeft p <= m ->
  parseColumnDefinitions_go n columns p = parseColumnDefinitions_go m columns p.
Proof.
  induction n as [|n IH]; intros m columns p HJ Hn Hm.
  - assert (Heof : tok_Type (peekToken p) = TOKEN_EOF) by (apply turnsLeft_zero; [assumption|lia]).
    destruct m as [|m]; [reflexivity|].
    simpl. unfold bind, peekTokenIs, ret. rewrite Heof. reflexivity.
  - destruct m as [|m].
    { assert (Heof : tok_Type (peekToken p) = TOKEN_EOF)
        by (apply turnsLeft_zero; [assumption|lia]).
      simpl. unfold bind, peekTokenIs, ret. rewrite Heof. reflexivity. }
    cbn [parseColumnDefinitions_go].
    peek_step. peek_step.
    destruct (bool_decide (tok_Type (peekToken p) = TOKEN_RIGHT_PAREN)
              || bool_decide (tok_Type (peekToken p) = TOKEN_EOF)); [reflexivity|].
    bind_step.
    pose proof (expectPeek_later TOKEN_IDENTIFIER p HJ) as [_ H1].
    destruct (expectPeek TOKEN_IDENTIFIER p) as [ok p1]. cbn [fst snd] in *.
    destruct ok; cbn [negb]; [|reflexivity]. specialize (H1 eq_refl).
    literal_step. bind_step.
    pose proof (parseDataType_later p1 (proj2 (proj2 H1))) as H2.
    destruct (parseDataType p1) as [dt p2]. cbn [fst snd] in *.
    destruct dt as [dataType|msg]; [|reflexivity].
    bind_step.
    pose proof (parseColumnConstraint_later p2 (proj2 (proj2 H2))) as H3.
    destruct (parseColumnConstraint p2) as [flags p3]. cbn [fst snd] in *.
    assert (H13 : strictly_later p p3).
    { eapply strictly_later_trans; [exact H1|]. eapply later_trans; eauto. }
    peek_step.
    destruct (bool_decide (tok_Type (peekToken p3) = TOKEN_RIGHT_PAREN)).
    + apply IH; [apply H13| |]; eapply turnsLeft_strictly; eauto.
    + bind_step.
      pose proof (expectPeek_later TOKEN_COMMA p3 (proj2 (proj2 H13))) as [H4 _].
      destruct (expectPeek TOKEN_COMMA p3) as [comma p4]. cbn [fst snd] in *.
      destruct comma; cbn [negb]; [|reflexivity].
      assert (H14 : strictly_later p p4) by (eapply strictly_later_trans; eauto).
      apply IH; [apply H14| |]; eapply turnsLeft_strictly; eauto.
Qed.

Ltac settle :=
  subst; cbn [fst snd];
  split;
  [ first [ assumption | apply strictly_later_later; assumption
          | apply later_refl; assumption ]
  | first [ discriminate | intros; assumption ] ].

Lemma parsePrimaryExpression_later p :
  J p ->
  later p (snd (parsePrimaryExpression p)) /\
  (forall e, fst (parsePrimaryExpression p) = Parsed e ->
             strictly_later p (snd (parsePrimaryExpression p))).
Proof.
  intros HJ. remember (parsePrimaryExpression p) as r eqn:Er.
  unfold parsePrimaryExpression, bind at 1, get in Er. cbn beta iota zeta in Er.
  pose proof (nextToken_later p HJ) as H1.
  destruct (tok_Type (peekToken p));
    unfold bind, ret, currentLiteral, peekTokenIs in Er;
    try settle;
    destruct (nextToken p) as [u p1]; cbn [fst snd] in *;
    try settle.
  - (* identifier *)
    destruct (bool_decide (tok_Type (peekToken p1) = TOKEN_DOT)); [|settle].
    pose proof (nextToken_later p1 (proj2 (proj2 H1))) as H2.
    destruct (nextToken p1) as [u2 p2]. cbn [fst snd] in *.
    pose proof (expectPeek_later TOKEN_IDENTIFIER p2 (proj2 (proj2 H2))) as [H3 _].
    destruct (expectPeek TOKEN_IDENTIFIER p2) as [ok p3]. cbn [fst snd] in *.
    assert (H13 : strictly_later p p3).
    { eapply strictly_later_trans; [exact H1|].
      eapply later_trans; [apply strictly_later_later; exact H2|exact H3]. }
    destruct ok; cbn [negb] in Er; settle.
  - (* number *)
    destruct (GoStrings.Atoi (tok_Literal (currentToken p1))); settle.
Qed.

Lemma parseExpression_later p :
  J p ->
  later p (snd (parseExpression p)) /\
  (forall e, fst (parseExpression p) = Parsed e ->
             strictly_later p (snd (parseExpression p))).
Proof.
  intros HJ. remember (parseExpression p) as r eqn:Er.
  unfold parseExpression, bind at 1 in Er.
  pose proof (parsePrimaryExpression_later p HJ) as [H1 H1s].
  destruct (parsePrimaryExpression p) as [[leftExpr|msg] p1]; cbn [fst snd] in *.
  2: { unfold ret in Er. settle. }
  specialize (H1s _ eq_refl).
  unfold bind at 1, get in Er. cbn beta iota zeta in Er.
  destruct (isComparison (tok_Type (peekToken p1))).
  - unfold bind, ret, currentLiteral in Er.
    pose proof (nextToken_later p1 (proj2 (proj2 H1s))) as H2.
    destruct (nextToken p1) as [u p2]. cbn [fst snd] in *.
    pose proof (parsePrimaryExpression_later p2 (proj2 (proj2 H2))) as [H3 _].
    destruct (parsePrimaryExpression p2) as [[rightExpr|msg] p3]; cbn [fst snd] in *.
    + assert (H13 : strictly_later p p3).
      { eapply strictly_later_trans; [exact H1s|].
        eapply later_trans; [apply strictly_later_later; exact H2|exact H3]. }
      settle.
    + assert (H13 : later p p3).
      { eapply later_trans; [exact H1|].
        eapply later_trans; [apply strictly_later_later; exact H2|exact H3]. }
      settle.
  - unfold ret in Er. settle.
Qed.

Lemma parseExpressionList_go_enough endToken n : forall m expressions p,
  J p -> turnsLeft p <= n -> turnsLeft p <= m ->
  parseExpressionList_go n endToken expressions p =
  parseExpressionList_go m endToken expressions p.
Proof.
  induction n as [|n IH]; intros m expressions p HJ Hn Hm.
  - assert (Heof : tok_Type (peekToken p) = TOKEN_EOF) by (apply turnsLeft_zero; [assumption|lia]).
    destruct m as [|m]; [reflexivity|].
    simpl. unfold bind, peekTokenIs, ret. rewrite Heof.
    rewrite orb_true_r. reflexivity.
  - destruct m as [|m].
    { assert (Heof : tok_Type (peekToken p) = TOKEN_EOF)
        by (apply turnsLeft_zero; [assumption|lia]).
      simpl. unfold bind, peekTokenIs, ret. rewrite Heof.
      rewrite orb_true_r. reflexivity. }
    cbn [parseExpressionList_go].
    peek_step. peek_step.
    destruct (bool_decide (tok_Type (peekToken p) = endToken)
              || bool_decide (tok_Type (peekToken p) = TOKEN_EOF)); [reflexivity|].
    bind_step.
    pose proof (parseExpression_later p HJ) as [_ H1].
    destruct (parseExpression p) as [[expr|msg] p1]; cbn [fst snd] in *; [|reflexivity].
    specialize (H1 _ eq_refl).
    peek_step.
    destruct (bool_decide (tok_Type (peekToken p1) = endToken)).
    + apply IH; [apply H1| |]; eapply turnsLeft_strictly; eauto.
    + bind_step.
      pose proof (expectPeek_later TOKEN_COMMA p1 (proj2 (proj2 H1))) as [H2 _].
      destruct (expectPeek TOKEN_COMMA p1) as [comma p2]. cbn [fst snd] in *.
      destruct comma; cbn [negb]; [|reflexivity].
      assert (H12 : strictly_later p p2) by (eapply strictly_later_trans; eauto).
      apply IH; [apply H12| |]; eapply turnsLeft_strictly; eauto.
Qed.

Lemma parseSetClause_go_enough n : forall m set p,
  J p -> turnsLeft p <= n -> turnsLeft p <= m ->
  parseSetClause_go n set p = parseSetClause_go m set p.
Proof.
  induction n as [|n IH]; intros m set p HJ Hn Hm.
  - assert (Heof : tok_Type (peekToken p) = TOKEN_EOF) by (apply turnsLeft_zero; [assumption|lia]).
    destruct m as [|m]; [reflexivity|].
    simpl. unfold bind, peekTokenIs, ret. rewrite Heof. reflexivity.
  - destruct m as [|m].
    { assert (Heof : tok_Type (peekToken p) = TOKEN_EOF)
        by (apply turnsLeft_zero; [assumption|lia]).
      simpl. unfold bind, peekTokenIs, ret. rewrite Heof. reflexivity. }
    cbn [parseSetClause_go].
    peek_step. peek_step.
    destruct (bool_decide (tok_Type (peekToken p) = TOKEN_WHERE)
              || bool_decide (tok_Type (peekToken p) = TOKEN_EOF)); [reflexivity|].
    bind_step.
    pose proof (expectPeek_later TOKEN_IDENTIFIER p HJ) as [_ H1].
    destruct (expectPeek TOKEN_IDENTIFIER p) as [ok p1]. cbn [fst snd] in *.
    destruct ok; cbn [negb]; [|reflexivity]. specialize (H1 eq_refl).
    literal_step. bind_step.
    pose proof (expectPeek_later TOKEN_EQUALS p1 (proj2 (proj2 H1))) as [H2 _].
    destruct (expectPeek TOKEN_EQUALS p1) as [ok2 p2]. cbn [fst snd] in *.
    destruct ok2; cbn [negb]; [|reflexivity].
    bind_step.
    pose proof (parseExpression_later p2 (proj2 (proj2 H2))) as [H3 _].
    destruct (parseExpression p2) as [[expr|msg] p3]; cbn [fst snd] in *; [|reflexivity].
    assert (H13 : strictly_later p p3).
    { eapply strictly_later_trans; [exact H1|]. eapply later_trans; eauto. }
    peek_step.
    destruct (bool_decide (tok_Type (peekToken p3) = TOKEN_WHERE)).
    + apply IH; [apply H13| |]; eapply turnsLeft_strictly; eauto.
    + bind_step.
      pose proof (expectPeek_later TOKEN_COMMA p3 (proj2 (proj2 H13))) as [H4 _].
      destruct (expectPeek TOKEN_COMMA p3) as [comma p4]. cbn [fst snd] in *.
      destruct comma; cbn [negb]; [|reflexivity].
      assert (H14 : strictly_later p p4) by (eapply strictly_later_trans; eauto).
      apply IH; [apply H14| |]; eapply turnsLeft_strictly; eauto.
Qed.

Lemma turnsLeft_turns p : J p -> turnsLeft p <= fst (turns p).
Proof. intros [[_ Hp] _]. unfold turnsLeft, turns. simpl. lia. Qed.

(** The invariant holds when the parser starts. *)
Lemma J_NewParser (sql : string) : J (NewParser (NewLexer sql)).
Proof.
  unfold NewParser. unfold bind.
  set (p0 := {| lexer := NewLexer sql;
                currentToken := {| tok_Type := TOKEN_SELECT; tok_Literal := EmptyString |};
                peekToken := {| tok_Type := TOKEN_SELECT; tok_Literal := EmptyString |};
                errors := [] |}).
  assert (H0 : J p0).
  { split; [apply wf_readChar|]. simpl. lia. }
  pose proof (nextToken_later p0 H0) as H1.
  destruct (nextToken p0) as [u p1]. cbn [fst snd] in *.
  pose proof (nextToken_later p1 (proj2 (proj2 H1))) as H2.
  destruct (nextToken p1) as [u2 p2]. cbn [fst snd] in *. apply H2.
Qed.

(** The number of turns the parser allows its loops is never used up: any
    larger number gives the same columns, expressions and assignments, in
    the same parser state. *)
Theorem parser_turns_enough (p : Parser) (m : nat) :
  J p -> fst (turns p) <= m ->
  parseColumnDefinitions p = parseColumnDefinitions_go m [] p /\
  (forall endToken,
     parseExpressionList endToken p = parseExpressionList_go m endToken [] p) /\
  parseSetClause p = parseSetClause_go m ∅ p.
Proof.
  intros HJ Hm. pose proof (turnsLeft_turns p HJ) as Ht.
  unfold parseColumnDefinitions, parseExpressionList, parseSetClause, bind.
  unfold turns in *. cbn [fst snd] in *.
  split; [|split].
  - apply parseColumnDefinitions_go_enough; auto; lia.
  - intros endToken. apply parseExpressionList_go_enough; auto; lia.
  - apply parseSetClause_go_enough; auto; lia.
Qed.

End ProgressFacts.

(* ===================================================================== *)
(** ** Tables: index, types and unique columns                            *)
(* ===================================================================== *)

Lemma primaryKeyOf_column columns :
  primaryKeyOf columns <> EmptyString ->
  exists col, col ∈ columns /\ col_Name col = primaryKeyOf columns.
Proof.
  induction columns as [|c rest IH]; simpl; [congruence|].
  destruct (col_PrimaryKey c).
  - intros _. exists c. split; [left|reflexivity].
  - intros H. destruct (IH H) as (col & Hin & Hn). exists col. split; [right; assumption|assumption].
Qed.

Lemma hasPrimaryKey_true t : hasPrimaryKey t = true -> tbl_PrimaryKey t <> EmptyString.
Proof.
  unfold hasPrimaryKey. intros H Heq. rewrite Heq in H. discriminate.
Qed.

Lemma validateColumns_Forall columns (row : gmap string Value) :
  validateColumns columns row = None <->
  Forall (fun col => exists v, row !! col_Name col = Some v /\ validateValueType col v = None)
         columns.
Proof.
  induction columns as [|c rest IH]; simpl.
  - split; [constructor|reflexivity].
  - rewrite list.Forall_cons. destruct (row !! col_Name c) as [v|].
    + destruct (validateValueType c v) eqn:E.
      * split; [discriminate|]. intros [(v' & [= <-] & Hv) _]. congruence.
      * rewrite IH. split; [intros H; split; [exists v; auto|exact H]|tauto].
    + split; [discriminate|]. intros [(v' & Hv & _) _]. discriminate.
Qed.

Lemma keyed_row_has_key (h : Heap) t row :
  keyed t -> validateColumns (tbl_Columns t) (deref h row) = None ->
  exists v, keyOf h t row = Some v.
Proof.
  intros [Hpk Hname] Hv. apply validateColumns_Forall in Hv.
  apply hasPrimaryKey_true in Hpk. rewrite Hname in Hpk.
  apply primaryKeyOf_column in Hpk as (col & Hin & Hcol).
  rewrite list.Forall_forall in Hv. destruct (Hv col Hin) as (v & Hl & _).
  exists v. unfold keyOf. rewrite Hname, <- Hcol. exact Hl.
Qed.

Lemma ValidateRow_None (h : Heap) t row :
  ValidateRow h t row = None ->
  validateColumns (tbl_Columns t) row = None /\ validatePrimaryKey t row = None /\
  validateUnique h (tbl_Rows t) (tbl_Columns t) row = None.
Proof.
  unfold ValidateRow. destruct (validateColumns _ _); [discriminate|].
  destruct (validatePrimaryKey _ _); [discriminate|]. auto.
Qed.

(** What a successful insert into a keyed table does. *)
Lemma InsertRow_keyed_ok (h : Heap) t row t' :
  keyed t -> InsertRow h t row = (t', None) ->
  exists v, keyOf h t row = Some v /\ tbl_index t !! v = None /\
    t' = {| tbl_Name := tbl_Name t; tbl_Columns := tbl_Columns t;
            tbl_Rows := tbl_Rows t ++ [row]; tbl_PrimaryKey := tbl_PrimaryKey t;
            tbl_index := <[v := row]> (tbl_index t) |}.
Proof.
  intros Hk Hins. pose proof Hk as [Hpk Hname].
  unfold InsertRow in Hins.
  destruct (ValidateRow h t (deref h row)) eqn:Ev; [discriminate|].
  apply ValidateRow_None in Ev as (Hc & Hp & _).
  destruct (keyed_row_has_key h t row Hk Hc) as (v & Hv). unfold keyOf in Hv.
  exists v. split; [exact Hv|].
  unfold validatePrimaryKey in Hp. rewrite Hpk, Hv in Hp, Hins.
  destruct (tbl_index t !! v) eqn:Ei; [discriminate|].
  split; [reflexivity|]. congruence.
Qed.

Lemma keyed_after_insert (h : Heap) t row t' e :
  keyed t -> InsertRow h t row = (t', e) -> keyed t'.
Proof.
  intros Hk. unfold InsertRow. destruct (ValidateRow _ _ _); intros [= <- <-]; [exact Hk|].
  exact Hk.
Qed.

Lemma keyed_after_delete t v t' e : keyed t -> DeleteRow t v = (t', e) -> keyed t'.
Proof.
  intros Hk. unfold DeleteRow. destruct (negb (hasPrimaryKey t)); [intros [= <- <-]; exact Hk|].
  destruct (FindRowByPrimaryKey t v); intros [= <- <-]; exact Hk.
Qed.

Lemma indexed_row_in_index (h : Heap) t r :
  indexed h t -> r ∈ tbl_Rows t ->
  exists v, keyOf h t r = Some v /\ tbl_index t !! v = Some r.
Proof.
  intros (_ & Hrows & _) Hin. rewrite list.Forall_forall in Hrows. specialize (Hrows r Hin).
  destruct (keyOf h t r) as [v|]; [|discriminate]. exists v. auto.
Qed.

Lemma InsertRow_indexed (h : Heap) t row t' e :
  keyed t -> indexed h t -> InsertRow h t row = (t', e) -> indexed h t'.
Proof.
  intros Hk Hi Hins. destruct e as [e|].
  { apply InsertRow_err_unchanged in Hins as [-> _]. exact Hi. }
  apply InsertRow_keyed_ok in Hins as (v & Hv & Hfree & ->); [|exact Hk].
  pose proof Hi as (Hnd & Hrows & Hidx).
  assert (Hnew : row ∉ tbl_Rows t).
  { intros Hin. destruct (indexed_row_in_index h t row Hi Hin) as (v' & Hv' & Hl). congruence. }
  unfold indexed, keyOf in *. simpl. split; [|split].
  - apply list.NoDup_app. split; [exact Hnd|]. split; [|apply NoDup_singleton].
    intros x Hx Hx'. apply list_elem_of_singleton in Hx'. subst x. auto.
  - apply list.Forall_app. split.
    + rewrite list.Forall_forall in Hrows |- *. intros r Hr. specialize (Hrows r Hr).
      destruct (deref h r !! tbl_PrimaryKey t) as [w|] eqn:Ew; [|discriminate]. simpl in *.
      rewrite lookup_insert_ne; [exact Hrows|]. intros ->. congruence.
    + constructor; [|constructor]. rewrite Hv. simpl. apply lookup_insert_eq.
  - apply map_Forall_insert_2.
    + split; [apply elem_of_app; right; left|exact Hv].
    + intros w r Hw. destruct (Hidx w r Hw) as [Hr Hkw]. split; [|exact Hkw].
      apply elem_of_app. left. exact Hr.
Qed.

Lemma removeFirst_notin rows row : row ∉ rows -> removeFirst rows row = rows.
Proof.
  induction rows as [|r rest IH]; simpl; [reflexivity|].
  intros Hn. apply not_elem_of_cons in Hn as [Hne Hn].
  destruct (Nat.eqb_spec r row); [congruence|]. rewrite IH by exact Hn. reflexivity.
Qed.

Lemma removeFirst_filter rows row :
  NoDup rows -> removeFirst rows row = filter (fun r => r <> row) rows.
Proof.
  induction rows as [|r rest IH]; simpl; [reflexivity|].
  intros Hnd. apply list.NoDup_cons in Hnd as [Hn Hnd].
  destruct (Nat.eqb_spec r row) as [->|Hne].
  - rewrite filter_cons_False by tauto.
    rewrite <- (removeFirst_notin rest row Hn) at 1. apply IH, Hnd.
  - rewrite filter_cons_True by exact Hne. rewrite IH by exact Hnd. reflexivity.
Qed.

Lemma DeleteRow_ok t v t' :
  DeleteRow t v = (t', None) ->
  hasPrimaryKey t = true /\
  exists row, tbl_index t !! v = Some row /\
    t' = {| tbl_Name := tbl_Name t; tbl_Columns := tbl_Columns t;
            tbl_Rows := removeFirst (tbl_Rows t) row; tbl_PrimaryKey := tbl_PrimaryKey t;
            tbl_index := delete v (tbl_index t) |}.
Proof.
  unfold DeleteRow, FindRowByPrimaryKey. destruct (hasPrimaryKey t); simpl; [|discriminate].
  destruct (tbl_index t !! v) as [row|]; [|discriminate].
  intros [= <-]. split; [reflexivity|]. exists row. auto.
Qed.

Lemma DeleteRow_err t v t' e : DeleteRow t v = (t', Some e) -> t' = t.
Proof.
  unfold DeleteRow. destruct (negb (hasPrimaryKey t)); [intros [= <- _]; reflexivity|].
  destruct (FindRowByPrimaryKey t v); [discriminate|]. intros [= <- _]. reflexivity.
Qed.

Lemma DeleteRow_indexed (h : Heap) t v t' e :
  indexed h t -> DeleteRow t v = (t', e) -> indexed h t'.
Proof.
  intros Hi Hdel. destruct e as [e|].
  { apply DeleteRow_err in Hdel as ->. exact Hi. }
  apply DeleteRow_ok in Hdel as (Hpk & row & Hrow & ->).
  pose proof Hi as (Hnd & Hrows & Hidx).
  destruct (Hidx v row Hrow) as [Hin Hkey].
  unfold indexed, keyOf in *. simpl. rewrite removeFirst_filter by exact Hnd.
  split; [|split].
  - apply list.NoDup_filter, Hnd.
  - rewrite list.Forall_forall in Hrows |- *. intros r Hr.
    apply list_elem_of_filter in Hr as [Hne Hr]. specialize (Hrows r Hr).
    destruct (deref h r !! tbl_PrimaryKey t) as [w|] eqn:Ew; [|discriminate]. simpl in *.
    rewrite lookup_delete_ne; [exact Hrows|]. intros ->. congruence.
  - intros w r Hw. apply lookup_delete_Some in Hw as [Hne Hw].
    destruct (Hidx w r Hw) as [Hr Hkw]. split; [|exact Hkw].
    apply list_elem_of_filter. split; [|exact Hr]. intros ->. congruence.
Qed.

(** *** Types *)

Lemma validateValueType_typeOf col v :
  validateValueType col v = None <-> typeOf v = Some (col_DataType col).
Proof.
  unfold validateValueType. destruct (col_DataType col), v; simpl; split; congruence.
Qed.

Lemma findColumn_in_Some columns name col :
  findColumn_in columns name = Some col -> col ∈ columns /\ col_Name col = name.
Proof.
  induction columns as [|c rest IH]; simpl; [discriminate|].
  destruct (String.eqb_spec (col_Name c) name) as [He|Hne].
  - intros [= <-]. split; [left|exact He].
  - intros H. destruct (IH H). split; [right; assumption|assumption].
Qed.

(** Writing a value the column accepts keeps a well-typed row well typed. *)
Lemma validateColumns_SetValue columns (row : gmap string Value) name col v :
  validateColumns columns row = None ->
  findColumn_in columns name = Some col -> validateValueType col v = None ->
  validateColumns columns (<[name := v]> row) = None.
Proof.
  intros Hrow Hcol Hv. apply findColumn_in_Some in Hcol as [Hin Hname].
  apply validateColumns_Forall in Hrow. apply validateColumns_Forall.
  rewrite list.Forall_forall in Hrow |- *. intros c Hc.
  destruct (Hrow c Hc) as (w & Hw & Hcw).
  destruct (String.eqb_spec (col_Name c) name) as [He|Hne].
  - exists v. rewrite He, lookup_insert_eq. split; [reflexivity|].
    destruct (Hrow col Hin) as (w' & Hw' & Hcw').
    assert (w' = w) by congruence. subst w'.
    apply validateValueType_typeOf in Hcw, Hcw', Hv. apply validateValueType_typeOf.
    congruence.
  - exists w. rewrite lookup_insert_ne by congruence. auto.
Qed.

(** What the first loop of [UpdateRow] has done when it leaves, with or
    without error: the row is the old row with some of the updates
    written, each accepted by its column, and no other row is written. *)
Lemma applyUpdates_any t row updates : forall (h h' : Heap) e,
  applyUpdates t row updates h = (h', e) ->
  (forall r, r <> row -> h' !! r = h !! r) /\
  exists applied,
    deref h' row = foldl setColumn (deref h row) applied /\
    Forall (fun u => exists col, findColumn t u.1 = Some col /\
                                 validateValueType col u.2 = None) applied.
Proof.
  induction updates as [|[c v] rest IH]; intros h h' e; simpl.
  - intros [= <- _]. split; [auto|]. exists []. split; [reflexivity|constructor].
  - destruct (findColumn t c) as [col|] eqn:Ef.
    2:{ intros [= <- _]. split; [auto|]. exists []. split; [reflexivity|constructor]. }
    destruct (validateValueType col v) eqn:Ev.
    { intros [= <- _]. split; [auto|]. exists []. split; [reflexivity|constructor]. }
    intros H. apply IH in H as (Hother & applied & Hrow & Hall). split.
    + intros r Hne. rewrite Hother by assumption. apply lookup_SetValue_other; assumption.
    + exists ((c, v) :: applied). rewrite deref_SetValue_same in Hrow.
      split; [exact Hrow|]. constructor; [exists col; auto|exact Hall].
Qed.

Lemma validateColumns_foldl t applied : forall (row : gmap string Value),
  validateColumns (tbl_Columns t) row = None ->
  Forall (fun u => exists col, findColumn t u.1 = Some col /\
                               validateValueType col u.2 = None) applied ->
  validateColumns (tbl_Columns t) (foldl setColumn row applied) = None.
Proof.
  induction applied as [|[c v] rest IH]; intros row Hrow Hall; simpl; [exact Hrow|].
  apply list.Forall_cons in Hall as [(col & Hcol & Hv) Hall]. simpl in *.
  apply IH; [|exact Hall]. unfold setColumn. simpl.
  eapply validateColumns_SetValue; eauto.
Qed.

Lemma deref_other (h h' : Heap) r : h' !! r = h !! r -> deref h' r = deref h r.
Proof. unfold deref. intros ->. reflexivity. Qed.

Lemma removeFirst_sublist rows row : removeFirst rows row `sublist_of` rows.
Proof.
  induction rows as [|r rest IH]; simpl; [constructor|].
  destruct (r =? row)%nat; [apply sublist_cons, reflexivity|apply sublist_skip, IH].
Qed.

Lemma InsertRow_typed (h : Heap) t row t' e :
  typed h t -> InsertRow h t row = (t', e) -> typed h t'.
Proof.
  intros Ht Hins. destruct e as [e|].
  { apply InsertRow_err_unchanged in Hins as [-> _]. exact Ht. }
  apply InsertRow_ok_inv in Hins as (Hv & _ & Hc & Hr & _).
  apply ValidateRow_None in Hv as (Hv & _). unfold typed. rewrite Hc, Hr.
  apply list.Forall_app. split; [exact Ht|]. constructor; [exact Hv|constructor].
Qed.

Lemma DeleteRow_shape t v t' e :
  DeleteRow t v = (t', e) ->
  tbl_Columns t' = tbl_Columns t /\ tbl_PrimaryKey t' = tbl_PrimaryKey t /\
  tbl_Name t' = tbl_Name t /\ tbl_Rows t' `sublist_of` tbl_Rows t.
Proof.
  destruct e as [e|]; intros H.
  - apply DeleteRow_err in H as ->. repeat split; reflexivity.
  - apply DeleteRow_ok in H as (_ & row & _ & ->). simpl.
    repeat split; try reflexivity. apply removeFirst_sublist.
Qed.

Lemma DeleteRow_typed (h : Heap) t v t' e :
  typed h t -> DeleteRow t v = (t', e) -> typed h t'.
Proof.
  intros Ht Hdel. apply DeleteRow_shape in Hdel as (Hc & _ & _ & Hsub).
  unfold typed in *. rewrite Hc. rewrite list.Forall_forall in Ht |- *.
  intros r Hr. apply Ht. eapply elem_of_sublist; eauto.
Qed.

Lemma UpdateRow_shape (h : Heap) t pkValue updates h' t' e :
  UpdateRow h t pkValue updates = (h', t', e) ->
  t' = t /\
  ((h' = h /\ FindRowByPrimaryKey t pkValue = None) \/
   exists row e0, FindRowByPrimaryKey t pkValue = Some row /\
                  applyUpdates t row updates h = (h', e0)).
Proof.
  unfold UpdateRow. destruct (FindRowByPrimaryKey t pkValue) as [row|].
  - destruct (applyUpdates t row updates h) as [h1 [e1|]] eqn:Ea; intros [= <- <- _];
      (split; [reflexivity|right; eauto]).
  - intros [= <- <- _]. auto.
Qed.

Lemma UpdateRow_typed (h : Heap) t pkValue updates h' t' e :
  typed h t -> UpdateRow h t pkValue updates = (h', t', e) -> typed h' t'.
Proof.
  intros Ht Hup. apply UpdateRow_shape in Hup as [-> [[-> _]|(row & e0 & _ & Ha)]]; [exact Ht|].
  apply applyUpdates_any in Ha as (Hother & applied & Hrow & Hall).
  unfold typed in *. rewrite list.Forall_forall in Ht |- *. intros r Hr.
  destruct (Nat.eq_dec r row) as [->|Hne].
  - rewrite Hrow. apply validateColumns_foldl; [apply Ht, Hr|exact Hall].
  - rewrite (deref_other h h' r) by (apply Hother, Hne). apply Ht, Hr.
Qed.

(** *** Unique columns *)

Lemma scanRows_None (h : Heap) rows colName value :
  scanRows h rows colName value = None <->
  Forall (fun r => collides (GetValue (deref h r) colName) value = false) rows.
Proof.
  induction rows as [|r rest IH]; simpl.
  - split; [constructor|reflexivity].
  - rewrite list.Forall_cons.
    destruct (collides (GetValue (deref h r) colName) value).
    + split; [discriminate|]. intros [? _]. discriminate.
    + rewrite IH. tauto.
Qed.

Lemma validateUnique_None (h : Heap) rows columns (row : gmap string Value) :
  validateUnique h rows columns row = None <->
  Forall (fun col => col_Unique col && negb (col_PrimaryKey col) = true ->
                     forall value, row !! col_Name col = Some value ->
                                   scanRows h rows (col_Name col) value = None) columns.
Proof.
  induction columns as [|c rest IH]; simpl.
  - split; [constructor|reflexivity].
  - rewrite list.Forall_cons. destruct (col_Unique c && negb (col_PrimaryKey c)).
    + destruct (row !! col_Name c) as [value|].
      * destruct (scanRows h rows (col_Name c) value) eqn:Es.
        -- split; [discriminate|]. intros [H _]. specialize (H eq_refl value eq_refl).
           congruence.
        -- rewrite IH. split; [|tauto]. intros H. split; [|exact H].
           intros _ value' [= <-]. exact Es.
      * rewrite IH. split; [|tauto]. intros H. split; [|exact H]. intros _ ? [=].
    + rewrite IH. split; [|tauto]. intros H. split; [|exact H]. discriminate.
Qed.

Lemma collides_false existing value :
  collides existing value = false -> existing <> VNil -> existing <> value.
Proof.
  unfold collides. intros H Hnn Heq.
  rewrite (bool_decide_eq_false_2 _ Hnn), (bool_decide_eq_true_2 _ Heq) in H. discriminate.
Qed.

Lemma columnValues_app (h : Heap) rows rows' colName :
  columnValues h (rows ++ rows') colName =
  columnValues h rows colName ++ columnValues h rows' colName.
Proof. unfold columnValues. apply map_app. Qed.

Lemma not_in_nonnil_values (h : Heap) rows colName value :
  Forall (fun r => collides (GetValue (deref h r) colName) value = false) rows ->
  value ∉ filter (fun v => v <> VNil) (columnValues h rows colName).
Proof.
  intros Hall Hin. apply list_elem_of_filter in Hin as [Hnn Hin].
  unfold columnValues in Hin. apply (list_elem_of_fmap _ rows) in Hin as (r & Hr & Hin).
  rewrite list.Forall_forall in Hall.
  specialize (Hall r Hin). rewrite <- Hr in Hall.
  eapply collides_false in Hall; [congruence|exact Hnn].
Qed.

Lemma InsertRow_distinct (h : Heap) t row t' e :
  distinct h t -> InsertRow h t row = (t', e) -> distinct h t'.
Proof.
  intros Hd Hins. destruct e as [e|].
  { apply InsertRow_err_unchanged in Hins as [-> _]. exact Hd. }
  apply InsertRow_ok_inv in Hins as (Hv & _ & Hc & Hr & _).
  apply ValidateRow_None in Hv as (_ & _ & Hu). apply validateUnique_None in Hu.
  unfold distinct in *. rewrite Hc, Hr.
  rewrite list.Forall_forall in Hd, Hu |- *. intros col Hcol Hflags.
  specialize (Hd col Hcol Hflags). specialize (Hu col Hcol Hflags).
  rewrite columnValues_app, list.filter_app. simpl.
  apply list.NoDup_app. split; [exact Hd|].
  assert (Hnew : GetValue (deref h row) (col_Name col) <> VNil ->
                 GetValue (deref h row) (col_Name col)
                 ∉ filter (fun v => v <> VNil) (columnValues h (tbl_Rows t) (col_Name col))).
  { intros Hnn. unfold GetValue in Hnn |- * at 1.
    destruct (deref h row !! col_Name col) as [value|] eqn:El; simpl in *; [|congruence].
    apply not_in_nonnil_values, scanRows_None, Hu. reflexivity. }
  destruct (decide (GetValue (deref h row) (col_Name col) <> VNil)) as [Hnn|Hnil].
  - rewrite filter_cons_True by exact Hnn. simpl. split; [|apply NoDup_singleton].
    intros x Hx Hx'. apply list_elem_of_singleton in Hx'. subst x. exact (Hnew Hnn Hx).
  - rewrite filter_cons_False by exact Hnil. simpl. split; [|constructor].
    intros x _ Hx. inversion Hx.
Qed.

Lemma filter_sublist {A} (P : A -> Prop) `{forall x, Decision (P x)} (l k : list A) :
  l `sublist_of` k -> filter P l `sublist_of` filter P k.
Proof.
  induction 1 as [|x l k _ IH|x l k _ IH].
  - constructor.
  - destruct (decide (P x)).
    + rewrite !filter_cons_True by assumption. apply sublist_skip, IH.
    + rewrite !filter_cons_False by assumption. exact IH.
  - destruct (decide (P x)).
    + rewrite filter_cons_True by assumption. apply sublist_cons, IH.
    + rewrite filter_cons_False by assumption. exact IH.
Qed.

Lemma DeleteRow_distinct (h : Heap) t v t' e :
  distinct h t -> DeleteRow t v = (t', e) -> distinct h t'.
Proof.
  intros Hd Hdel. apply DeleteRow_shape in Hdel as (Hc & _ & _ & Hsub).
  unfold distinct in *. rewrite Hc. rewrite list.Forall_forall in Hd |- *.
  intros col Hcol Hflags. eapply sublist_NoDup; [apply (Hd col Hcol), Hflags|].
  apply filter_sublist. unfold columnValues.
  apply (fmap_sublist (fun r => GetValue (deref h r) (col_Name col))), Hsub.
Qed.

(** *** Updates that leave the key alone *)

Lemma applyUpdates_prefix t row updates : forall (h h' : Heap) e,
  applyUpdates t row updates h = (h', e) ->
  (forall r, r <> row -> h' !! r = h !! r) /\
  exists applied,
    applied `prefix_of` updates /\
    deref h' row = foldl setColumn (deref h row) applied.
Proof.
  induction updates as [|[c v] rest IH]; intros h h' e; simpl.
  - intros [= <- _]. split; [auto|]. exists []. split; [reflexivity|reflexivity].
  - destruct (findColumn t c) as [col|] eqn:Ef.
    2:{ intros [= <- _]. split; [auto|]. exists []. split; [apply prefix_nil|reflexivity]. }
    destruct (validateValueType col v) eqn:Ev.
    { intros [= <- _]. split; [auto|]. exists []. split; [apply prefix_nil|reflexivity]. }
    intros H. apply IH in H as (Hother & applied & Hpre & Hrow). split.
    + intros r Hne. rewrite Hother by assumption. apply lookup_SetValue_other; assumption.
    + exists ((c, v) :: applied). rewrite deref_SetValue_same in Hrow.
      split; [apply prefix_cons, Hpre|exact Hrow].
Qed.

Lemma foldl_setColumn_other applied : forall (data : gmap string Value) c,
  c ∉ map fst applied -> foldl setColumn data applied !! c = data !! c.
Proof.
  induction applied as [|[c' v'] rest IH]; intros data c Hnin; simpl; [reflexivity|].
  simpl in Hnin. apply not_elem_of_cons in Hnin as [Hne Hnin].
  rewrite IH by exact Hnin. unfold setColumn. simpl. apply lookup_insert_ne. congruence.
Qed.

(** An update that does not assign the primary-key column leaves every
    row with the key it had. *)
Lemma UpdateRow_keyOf (h : Heap) t pkValue updates h' t' e :
  tbl_PrimaryKey t ∉ map fst updates ->
  UpdateRow h t pkValue updates = (h', t', e) ->
  forall r, keyOf h' t r = keyOf h t r.
Proof.
  intros Hnin Hup r.
  apply UpdateRow_shape in Hup as [-> [[-> _]|(row & e0 & _ & Ha)]]; [reflexivity|].
  apply applyUpdates_prefix in Ha as (Hother & applied & [rest ->] & Hrow).
  unfold keyOf. destruct (Nat.eq_dec r row) as [->|Hne].
  - rewrite Hrow. apply foldl_setColumn_other.
    intros Hin. apply Hnin. rewrite map_app. apply elem_of_app. left. exact Hin.
  - rewrite (deref_other h h' r) by (apply Hother, Hne). reflexivity.
Qed.

Lemma UpdateRow_indexed (h : Heap) t pkValue updates h' t' e :
  tbl_PrimaryKey t ∉ map fst updates ->
  indexed h t -> UpdateRow h t pkValue updates = (h', t', e) -> indexed h' t'.
Proof.
  intros Hnin (Hnd & Hrows & Hidx) Hup.
  pose proof (UpdateRow_keyOf _ _ _ _ _ _ _ Hnin Hup) as Hkey.
  apply UpdateRow_shape in Hup as [-> _].
  split; [exact Hnd|]. split.
  - eapply list.Forall_impl; [exact Hrows|]. intros r Hr. simpl in *. rewrite Hkey. exact Hr.
  - intros v r Hv. destruct (Hidx v r Hv). rewrite Hkey. auto.
Qed.

Lemma scanOtherRows_None (h : Heap) rows row colName value :
  scanOtherRows h rows row colName value = None <->
  Forall (fun r => r <> row -> collides (GetValue (deref h r) colName) value = false) rows.
Proof.
  induction rows as [|r rest IH]; simpl.
  - split; [constructor|reflexivity].
  - rewrite list.Forall_cons. destruct (Nat.eqb_spec r row) as [->|Hne]; simpl.
    + rewrite IH. split; [|tauto]. intros H. split; [congruence|exact H].
    + destruct (collides (GetValue (deref h r) colName) value).
      * split; [discriminate|]. intros [H _]. specialize (H Hne). discriminate.
      * rewrite IH. tauto.
Qed.

Lemma revalidateUnique_None (h : Heap) rows columns row :
  revalidateUnique h rows columns row = None <->
  Forall (fun col => col_Unique col && negb (col_PrimaryKey col) = true ->
                     scanOtherRows h rows row (col_Name col)
                       (GetValue (deref h row) (col_Name col)) = None) columns.
Proof.
  induction columns as [|c rest IH]; simpl.
  - split; [constructor|reflexivity].
  - rewrite list.Forall_cons. destruct (col_Unique c && negb (col_PrimaryKey c)).
    + destruct (scanOtherRows h rows row (col_Name c) (GetValue (deref h row) (col_Name c))).
      * split; [discriminate|]. intros [H _]. specialize (H eq_refl). discriminate.
      * rewrite IH. tauto.
    + rewrite IH. split; [|tauto]. intros H. split; [discriminate|exact H].
Qed.

Lemma columnValues_ext (h h' : Heap) rows colName :
  Forall (fun r => h' !! r = h !! r) rows ->
  columnValues h' rows colName = columnValues h rows colName.
Proof.
  unfold columnValues. induction 1 as [|r rest Hr _ IH]; simpl; [reflexivity|].
  rewrite IH, (deref_other h h' r Hr). reflexivity.
Qed.

Lemma nonnil_NoDup_middle (l1 l2 : list Value) (w0 w : Value) :
  NoDup (filter (fun v => v <> VNil) (l1 ++ w0 :: l2)) ->
  (w <> VNil -> w ∉ filter (fun v => v <> VNil) l1) ->
  (w <> VNil -> w ∉ filter (fun v => v <> VNil) l2) ->
  NoDup (filter (fun v => v <> VNil) (l1 ++ w :: l2)).
Proof.
  intros Hold H1 H2. rewrite list.filter_app in Hold |- *.
  assert (Hrest : NoDup (filter (fun v => v <> VNil) l1 ++ filter (fun v => v <> VNil) l2)).
  { eapply sublist_NoDup; [exact Hold|]. apply sublist_app; [reflexivity|].
    destruct (decide (w0 <> VNil)).
    - rewrite filter_cons_True by assumption. apply sublist_cons. reflexivity.
    - rewrite filter_cons_False by assumption. reflexivity. }
  destruct (decide (w <> VNil)) as [Hnn|Hnil].
  - rewrite filter_cons_True by exact Hnn.
    apply list.NoDup_app in Hrest as (Hn1 & Hdisj & Hn2).
    apply list.NoDup_app. split; [exact Hn1|]. split.
    + intros x Hx Hx'. apply elem_of_cons in Hx' as [->|Hx']; [exact (H1 Hnn Hx)|].
      exact (Hdisj x Hx Hx').
    + apply list.NoDup_cons. split; [exact (H2 Hnn)|exact Hn2].
  - rewrite filter_cons_False by exact Hnil. exact Hrest.
Qed.

Lemma nonnil_not_in (h : Heap) rows row colName value :
  Forall (fun r => r <> row -> collides (GetValue (deref h r) colName) value = false) rows ->
  row ∉ rows ->
  value ∉ filter (fun v => v <> VNil) (columnValues h rows colName).
Proof.
  intros Hall Hnin. apply not_in_nonnil_values.
  rewrite list.Forall_forall in Hall |- *. intros r Hr. apply Hall; [exact Hr|].
  intros ->. exact (Hnin Hr).
Qed.

Lemma UpdateRow_distinct (h : Heap) t pkValue updates h' t' :
  NoDup (tbl_Rows t) -> distinct h t ->
  UpdateRow h t pkValue updates = (h', t', None) -> distinct h' t'.
Proof.
  intros Hnd Hd Hup. unfold UpdateRow in Hup.
  destruct (FindRowByPrimaryKey t pkValue) as [row|]; [|discriminate].
  destruct (applyUpdates t row updates h) as [h1 [e1|]] eqn:Ea; [discriminate|].
  injection Hup as -> -> Hre.
  apply applyUpdates_prefix in Ea as (Hother & _).
  apply revalidateUnique_None in Hre.
  unfold distinct in *. rewrite list.Forall_forall in Hd, Hre |- *.
  intros col Hcol Hflags. specialize (Hd col Hcol Hflags).
  specialize (Hre col Hcol Hflags). apply scanOtherRows_None in Hre.
  destruct (decide (row ∈ tbl_Rows t')) as [Hin|Hnin].
  - apply list_elem_of_split in Hin as (l1 & l2 & Hsplit). rewrite Hsplit in *.
    apply list.NoDup_app in Hnd as (_ & Hdisj & Hnd2).
    apply list.NoDup_cons in Hnd2 as (Hn2 & _).
    assert (Hn1 : row ∉ l1) by (intros H; apply (Hdisj row H); left).
    apply list.Forall_app in Hre as [Hre1 Hre2].
    apply list.Forall_cons in Hre2 as [_ Hre2].
    assert (He1 : Forall (fun r => h' !! r = h !! r) l1).
    { apply list.Forall_forall. intros r Hr. apply Hother. intros ->. auto. }
    assert (He2 : Forall (fun r => h' !! r = h !! r) l2).
    { apply list.Forall_forall. intros r Hr. apply Hother. intros ->. auto. }
    rewrite columnValues_app in Hd |- *. simpl in *.
    rewrite (columnValues_ext h h' l1), (columnValues_ext h h' l2) by assumption.
    eapply nonnil_NoDup_middle; [exact Hd| |]; intros _.
    + rewrite <- (columnValues_ext h h' l1) by assumption. apply (nonnil_not_in h' l1 row); assumption.
    + rewrite <- (columnValues_ext h h' l2) by assumption. apply (nonnil_not_in h' l2 row); assumption.
  - rewrite (columnValues_ext h h'); [exact Hd|].
    apply list.Forall_forall. intros r Hr. apply Hother. intros ->. auto.
Qed.

(** *** The properties *)

Lemma keyed_NewTable name columns :
  hasPrimaryKey (NewTable name columns) = true -> keyed (NewTable name columns).
Proof. intros H. split; [exact H|reflexivity]. Qed.

Lemma indexed_NewTable (h : Heap) name columns : indexed h (NewTable name columns).
Proof.
  unfold indexed. simpl. split; [constructor|]. split; [constructor|].
  apply map_Forall_empty.
Qed.

Lemma keyed_after (h : Heap) t c : keyed t -> keyed (after h t c).
Proof.
  intros Hk. destruct c as [row|v]; simpl.
  - destruct (InsertRow h t row) as [t' e] eqn:E. eapply keyed_after_insert; eauto.
  - destruct (DeleteRow t v) as [t' e] eqn:E. eapply keyed_after_delete; eauto.
Qed.

Lemma indexed_after (h : Heap) t c : keyed t -> indexed h t -> indexed h (after h t c).
Proof.
  intros Hk Hi. destruct c as [row|v]; simpl.
  - destruct (InsertRow h t row) as [t' e] eqn:E. eapply InsertRow_indexed; eauto.
  - destruct (DeleteRow t v) as [t' e] eqn:E. eapply DeleteRow_indexed; eauto.
Qed.

Lemma typed_after (h : Heap) t c : typed h t -> typed h (after h t c).
Proof.
  intros Ht. destruct c as [row|v]; simpl.
  - destruct (InsertRow h t row) as [t' e] eqn:E. eapply InsertRow_typed; eauto.
  - destruct (DeleteRow t v) as [t' e] eqn:E. eapply DeleteRow_typed; eauto.
Qed.

Lemma distinct_after (h : Heap) t c : distinct h t -> distinct h (after h t c).
Proof.
  intros Hd. destruct c as [row|v]; simpl.
  - destruct (InsertRow h t row) as [t' e] eqn:E. eapply InsertRow_distinct; eauto.
  - destruct (DeleteRow t v) as [t' e] eqn:E. eapply DeleteRow_distinct; eauto.
Qed.

Lemma foldl_after_inv (P : Table -> Prop) (h : Heap) calls :
  (forall t c, P t -> P (after h t c)) -> forall t, P t -> P (foldl (after h) t calls).
Proof.
  intros Hstep. induction calls as [|c rest IH]; intros t Ht; simpl; [exact Ht|].
  apply IH, Hstep, Ht.
Qed.

Lemma filter_all {A} (P : A -> Prop) `{forall x, Decision (P x)} (l : list A) :
  Forall P l -> filter P l = l.
Proof.
  induction 1 as [|x l Hx _ IH]; [reflexivity|].
  rewrite filter_cons_True by exact Hx. rewrite IH. reflexivity.
Qed.

Lemma indexed_find (h : Heap) t v r :
  hasPrimaryKey t = true -> indexed h t ->
  FindRowByPrimaryKey t v = Some r <-> r ∈ tbl_Rows t /\ keyOf h t r = Some v.
Proof.
  intros Hpk (Hnd & Hrows & Hidx). unfold FindRowByPrimaryKey. rewrite Hpk. split.
  - intros Hv. exact (Hidx v r Hv).
  - intros [Hr Hk]. rewrite list.Forall_forall in Hrows. specialize (Hrows r Hr).
    rewrite Hk in Hrows. exact Hrows.
Qed.

(** Property X1. After a successful [InsertRow] into a table with a
    primary key, the row carries a key, [FindRowByPrimaryKey] under that
    key found nothing before and finds the new row now, and under every
    other key it finds what it found before. *)
Theorem insert_then_find (h : Heap) (t t' : Table) (row : nat) :
  keyed t -> InsertRow h t row = (t', None) ->
  exists v, keyOf h t row = Some v /\
    FindRowByPrimaryKey t v = None /\
    FindRowByPrimaryKey t' v = Some row /\
    forall v', v' <> v -> FindRowByPrimaryKey t' v' = FindRowByPrimaryKey t v'.
Proof.
  intros Hk Hins. pose proof Hk as [Hpk _].
  apply InsertRow_keyed_ok in Hins as (v & Hv & Hfree & ->); [|exact Hk].
  exists v. unfold FindRowByPrimaryKey, hasPrimaryKey in *. simpl. rewrite Hpk.
  split; [exact Hv|]. split; [exact Hfree|]. split; [apply lookup_insert_eq|].
  intros v' Hne. apply lookup_insert_ne. congruence.
Qed.

(** Property X2. In the table that any sequence of [InsertRow] and
    [DeleteRow] calls, failed ones included, leaves of a new table with a
    primary key, no row object occurs twice, [FindRowByPrimaryKey] finds
    exactly the rows of the table, each under the key it carries, and so
    no two rows carry the same key. *)
Theorem find_exactly_the_rows (h : Heap) (name : string) (columns : list Column)
    (calls : list Call) :
  hasPrimaryKey (NewTable name columns) = true ->
  NoDup (tbl_Rows (reached h name columns calls)) /\
  (forall v r, FindRowByPrimaryKey (reached h name columns calls) v = Some r <->
               r ∈ tbl_Rows (reached h name columns calls) /\
               keyOf h (reached h name columns calls) r = Some v) /\
  (forall r1 r2, r1 ∈ tbl_Rows (reached h name columns calls) ->
                 r2 ∈ tbl_Rows (reached h name columns calls) ->
                 keyOf h (reached h name columns calls) r1 =
                 keyOf h (reached h name columns calls) r2 -> r1 = r2).
Proof.
  intros Hpk. apply keyed_NewTable in Hpk.
  assert (H : keyed (reached h name columns calls) /\ indexed h (reached h name columns calls)).
  { unfold reached.
    apply (foldl_after_inv (fun t => keyed t /\ indexed h t)).
    - intros t c [Hk Hi]. split; [apply keyed_after, Hk|apply indexed_after; assumption].
    - split; [exact Hpk|apply indexed_NewTable]. }
  destruct H as [[Hpk' _] Hi]. split; [apply Hi|]. split.
  - intros v r. apply indexed_find; assumption.
  - intros r1 r2 H1 H2 Heq.
    destruct (indexed_row_in_index h _ r1 Hi H1) as (v1 & Hv1 & Hl1).
    destruct (indexed_row_in_index h _ r2 Hi H2) as (v2 & Hv2 & Hl2).
    congruence.
Qed.

(** Property X3. In the table that any sequence of [InsertRow] and
    [DeleteRow] calls leaves of a new table, with or without primary key,
    every row has a value of the declared type in every column, [nil]
    nowhere, and in every column flagged unique and not primary key no
    value occurs in two rows. *)
Theorem rows_typed_and_unique (h : Heap) (name : string) (columns : list Column)
    (calls : list Call) :
  Forall (fun r =>
            Forall (fun col =>
                      typeOf (GetValue (deref h r) (col_Name col)) = Some (col_DataType col))
                   columns)
         (tbl_Rows (reached h name columns calls)) /\
  Forall (fun col =>
            col_Unique col = true -> col_PrimaryKey col = false ->
            NoDup (columnValues h (tbl_Rows (reached h name columns calls)) (col_Name col)))
         columns.
Proof.
  assert (H : tbl_Columns (reached h name columns calls) = columns /\
              typed h (reached h name columns calls) /\
              distinct h (reached h name columns calls)).
  { unfold reached.
    apply (foldl_after_inv (fun t => tbl_Columns t = columns /\ typed h t /\ distinct h t)).
    - intros t c (Hc & Ht & Hd). split; [|split; [apply typed_after, Ht|apply distinct_after, Hd]].
      destruct c as [row|v]; simpl.
      + destruct (InsertRow h t row) as [t' [e|]] eqn:E.
        * apply InsertRow_err_unchanged in E as [-> _]. exact Hc.
        * apply InsertRow_ok_inv in E as (_ & _ & Hc' & _). simpl. congruence.
      + destruct (DeleteRow t v) as [t' e] eqn:E.
        apply DeleteRow_shape in E as (Hc' & _). simpl. congruence.
    - split; [reflexivity|]. split; [constructor|].
      unfold distinct. simpl. apply list.Forall_forall. intros col _ _. constructor. }
  destruct H as (Hc & Ht & Hd). unfold typed, distinct in *. rewrite Hc in *.
  assert (Hty : Forall (fun r =>
            Forall (fun col =>
                      typeOf (GetValue (deref h r) (col_Name col)) = Some (col_DataType col))
                   columns) (tbl_Rows (reached h name columns calls))).
  { eapply list.Forall_impl; [exact Ht|]. intros r Hr. simpl in Hr.
    apply validateColumns_Forall in Hr. eapply list.Forall_impl; [exact Hr|].
    intros col (v & Hv & Hcv). simpl. unfold GetValue. rewrite Hv. simpl.
    apply validateValueType_typeOf, Hcv. }
  split; [exact Hty|].
  rewrite list.Forall_forall in Hd |- *. intros col Hcol Hu Hp.
  assert (Hflags : col_Unique col && negb (col_PrimaryKey col) = true) by (rewrite Hu, Hp; reflexivity).
  specialize (Hd col Hcol Hflags).
  rewrite filter_all in Hd; [exact Hd|].
  apply list.Forall_forall. intros v Hv. unfold columnValues in Hv.
  apply (list_elem_of_fmap _ (tbl_Rows _)) in Hv as (r & -> & Hr).
  rewrite list.Forall_forall in Hty. specialize (Hty r Hr).
  rewrite list.Forall_forall in Hty. specialize (Hty col Hcol).
  intros Hnil. rewrite Hnil in Hty. discriminate.
Qed.

Lemma removeFirst_length rows row :
  row ∈ rows -> length (removeFirst rows row) + 1 = length rows.
Proof.
  induction rows as [|r rest IH]; simpl; [intros H; inversion H|].
  intros Hin. destruct (Nat.eqb_spec r row) as [->|Hne]; [lia|].
  apply elem_of_cons in Hin as [->|Hin]; [congruence|]. simpl. rewrite <- (IH Hin). lia.
Qed.

(** Property X4. In a table whose index agrees with its rows, deleting
    the key under which a row has just been inserted gives back the table
    exactly as it was before the insert: name, columns, row sequence and
    index. *)
Theorem insert_then_delete (h : Heap) (t t1 : Table) (row : nat) :
  keyed t -> indexed h t -> InsertRow h t row = (t1, None) ->
  exists v, keyOf h t row = Some v /\ DeleteRow t1 v = (t, None).
Proof.
  intros Hk Hi Hins. pose proof Hk as [Hpk _].
  apply InsertRow_keyed_ok in Hins as (v & Hv & Hfree & ->); [|exact Hk].
  exists v. split; [exact Hv|].
  assert (Hnew : row ∉ tbl_Rows t).
  { intros Hin. destruct (indexed_row_in_index h t row Hi Hin) as (v' & Hv' & Hl). congruence. }
  unfold DeleteRow, FindRowByPrimaryKey, hasPrimaryKey in *. simpl. rewrite Hpk. simpl.
  rewrite lookup_insert_eq. f_equal. destruct t as [n c rows pk idx]. simpl in *. f_equal.
  - clear -Hnew. induction rows as [|r rest IH]; simpl.
    + rewrite Nat.eqb_refl. reflexivity.
    + apply not_elem_of_cons in Hnew as [Hne Hnew].
      destruct (Nat.eqb_spec r row); [congruence|]. rewrite IH by exact Hnew. reflexivity.
  - apply delete_insert_id. exact Hfree.
Qed.

(** Property X5. In a table whose index agrees with its rows, a
    successful [DeleteRow] removes the one row found under the key and
    keeps the others in their order; the key is then found no more, the
    other keys are found as before, and a second [DeleteRow] of the same
    key fails with the error that the row is not found, leaving the table
    as it is. *)
Theorem delete_removes_the_row (h : Heap) (t t' : Table) (v : Value) :
  indexed h t -> DeleteRow t v = (t', None) ->
  exists row,
    FindRowByPrimaryKey t v = Some row /\
    tbl_Rows t' = filter (fun r => r <> row) (tbl_Rows t) /\
    length (tbl_Rows t') + 1 = length (tbl_Rows t) /\
    FindRowByPrimaryKey t' v = None /\
    (forall v', v' <> v -> FindRowByPrimaryKey t' v' = FindRowByPrimaryKey t v') /\
    DeleteRow t' v = (t', Some (ErrRowNotFound v)).
Proof.
  intros Hi Hdel. apply DeleteRow_ok in Hdel as (Hpk & row & Hrow & ->).
  destruct Hi as (Hnd & _ & Hidx). destruct (Hidx v row Hrow) as [Hin _].
  exists row. unfold DeleteRow, FindRowByPrimaryKey, hasPrimaryKey in *. simpl.
  rewrite Hpk. simpl. rewrite lookup_delete_eq.
  split; [exact Hrow|]. split; [apply removeFirst_filter, Hnd|].
  split; [apply removeFirst_length, Hin|]. split; [reflexivity|]. split; [|reflexivity].
  intros v' Hne. apply lookup_delete_ne. congruence.
Qed.

(** Property X6. [UpdateRow] never leaves a row of the table with a
    missing value or a value of the wrong type: if every row of the table
    is well typed before the call it is so after the call, in the store
    the call leaves, whether the call succeeds, finds no row, stops at an
    update it refuses, or fails on the unique constraints. *)
Theorem update_keeps_rows_typed (h h' : Heap) (t t' : Table) (pkValue : Value)
    (updates : list (string * Value)) (e : option error) :
  typed h t -> UpdateRow h t pkValue updates = (h', t', e) -> typed h' t'.
Proof. apply UpdateRow_typed. Qed.

(** Property X7. A successful [UpdateRow] whose updates do not assign the
    primary-key column keeps the index in agreement with the rows and
    keeps the values of every unique column pairwise different. *)
Theorem update_keeps_constraints (h h' : Heap) (t t' : Table) (pkValue : Value)
    (updates : list (string * Value)) :
  tbl_PrimaryKey t ∉ map fst updates ->
  indexed h t -> distinct h t ->
  UpdateRow h t pkValue updates = (h', t', None) ->
  indexed h' t' /\ distinct h' t'.
Proof.
  intros Hnin Hi Hd Hup. split.
  - eapply UpdateRow_indexed; eauto.
  - eapply UpdateRow_distinct; eauto. apply Hi.
Qed.


(** Alice goes into the empty table. *)
Lemma insert_then_find_witness :
  (keyed users0 /\ InsertRow store users0 0 = (users1, None)) /\
  exists v, keyOf store users0 0 = Some v /\
    FindRowByPrimaryKey users0 v = None /\
    FindRowByPrimaryKey users1 v = Some 0 /\
    forall v', v' <> v -> FindRowByPrimaryKey users1 v' = FindRowByPrimaryKey users0 v'.
Proof.
  split; [split; by_evaluation|].
  apply (insert_then_find store users0 users1 0); by_evaluation.
Defined.

Lemma find_exactly_the_rows_witness :
  hasPrimaryKey (NewTable "users" usersColumns) = true /\
  NoDup (tbl_Rows (reached store "users" usersColumns callsOnUsers)) /\
  (forall v r, FindRowByPrimaryKey (reached store "users" usersColumns callsOnUsers) v = Some r <->
               r ∈ tbl_Rows (reached store "users" usersColumns callsOnUsers) /\
               keyOf store (reached store "users" usersColumns callsOnUsers) r = Some v) /\
  (forall r1 r2, r1 ∈ tbl_Rows (reached store "users" usersColumns callsOnUsers) ->
                 r2 ∈ tbl_Rows (reached store "users" usersColumns callsOnUsers) ->
                 keyOf store (reached store "users" usersColumns callsOnUsers) r1 =
                 keyOf store (reached store "users" usersColumns callsOnUsers) r2 -> r1 = r2).
Proof.
  split; [by_evaluation|].
  apply (find_exactly_the_rows store "users" usersColumns callsOnUsers); by_evaluation.
Defined.

(** Bob goes in after Alice and is deleted again. *)
Lemma insert_then_delete_witness :
  (keyed users1 /\ indexed store users1 /\ InsertRow store users1 3 = (users2, None)) /\
  exists v, keyOf store users1 3 = Some v /\ DeleteRow users2 v = (users1, None).
Proof.
  split; [split; [|split]; by_evaluation|].
  apply (insert_then_delete store users1 users2 3); by_evaluation.
Defined.

(** Alice is deleted from the table of Alice and Bob. *)
Lemma delete_removes_the_row_witness :
  (indexed store users2 /\ DeleteRow users2 (VInt 1) = (usersBob, None)) /\
  exists row,
    FindRowByPrimaryKey users2 (VInt 1) = Some row /\
    tbl_Rows usersBob = filter (fun r => r <> row) (tbl_Rows users2) /\
    length (tbl_Rows usersBob) + 1 = length (tbl_Rows users2) /\
    FindRowByPrimaryKey usersBob (VInt 1) = None /\
    (forall v', v' <> VInt 1 ->
                FindRowByPrimaryKey usersBob v' = FindRowByPrimaryKey users2 v') /\
    DeleteRow usersBob (VInt 1) = (usersBob, Some (ErrRowNotFound (VInt 1))).
Proof.
  split; [split; by_evaluation|].
  apply (delete_removes_the_row store users2 usersBob (VInt 1)); by_evaluation.
Defined.

(** Bob's address is set to Alice's: the call fails, the rows stay well
    typed. *)
Lemma update_keeps_rows_typed_witness :
  (typed store users2 /\
   UpdateRow store users2 (VInt 2) emailClash =
     (storeAfterEmailClash, users2,
      Some (ErrUniqueViolation "email" (VText "alice@example.com")))) /\
  typed storeAfterEmailClash users2.
Proof.
  split; [split; by_evaluation|].
  apply (update_keeps_rows_typed store storeAfterEmailClash users2 users2 (VInt 2)
           emailClash (Some (ErrUniqueViolation "email" (VText "alice@example.com"))));
    by_evaluation.
Defined.

(** Bob is renamed. *)
Lemma update_keeps_constraints_witness :
  ((tbl_PrimaryKey users2 ∉ map fst renameBob) /\ indexed store users2 /\
   distinct store users2 /\
   UpdateRow store users2 (VInt 2) renameBob = (storeAfterRename, users2, None)) /\
  indexed storeAfterRename users2 /\ distinct storeAfterRename users2.
Proof.
  split; [split; [|split; [|split]]; by_evaluation|].
  apply (update_keeps_constraints store storeAfterRename users2 users2 (VInt 2) renameBob);
    by_evaluation.
Defined.


(** *** Comparisons *)

Lemma string_less_total l r :
  string_less l r = false -> string_less r l = false -> l = r.
Proof.
  rewrite !string_less_ltb. unfold String.ltb.
  rewrite (String.compare_antisym r l).
  destruct (String.compare l r) eqn:E; simpl; try discriminate.
  intros _ _. apply String.compare_eq_iff. exact E.
Qed.

Lemma string_less_irrefl l : string_less l l = false.
Proof.
  destruct (string_less l l) eqn:E; [|reflexivity].
  pose proof (string_less_asym _ _ E). congruence.
Qed.

(** Property X8. On two integers or on two texts, the six operators of a
    WHERE clause are the six relations of a total order, that of the
    integers or that of the texts taken byte by byte: exactly the pairs
    with the left side greater satisfy [>], exactly those with the right
    side greater satisfy [<], [<=] and [>=] are the negations of [>] and
    [<], [!=] is the negation of [=], and of two different values one is
    greater. *)
Theorem compare_ordered_values (l r : Value) :
  comparable l r = true ->
  compareValues l r ">" = strictlyGreater l r /\
  compareValues l r "<" = strictlyGreater r l /\
  compareValues l r "<=" = negb (strictlyGreater l r) /\
  compareValues l r ">=" = negb (strictlyGreater r l) /\
  compareValues l r "=" = bool_decide (l = r) /\
  compareValues l r "!=" = negb (bool_decide (l = r)) /\
  (l = r \/ strictlyGreater l r = true \/ strictlyGreater r l = true) /\
  (strictlyGreater l r = true -> strictlyGreater r l = false /\ l <> r).
Proof.
  intros Hc. split; [apply compareValues_gt|].
  destruct l as [|a|a|a], r as [|b|b|b]; try discriminate;
    unfold compareValues, compareOrdered, strictlyGreater; simpl.
  - assert (Heq : (a <? b)%Z = false -> (b <? a)%Z = false -> VInt a = VInt b).
    { intros H1 H2. apply Z.ltb_ge in H1, H2. f_equal. lia. }
    assert (Hne : (b <? a)%Z = true -> VInt a <> VInt b).
    { intros H1 [= ->]. rewrite Z.ltb_irrefl in H1. discriminate. }
    assert (Hasym : (b <? a)%Z = true -> (a <? b)%Z = false).
    { intros H1. apply Z.ltb_lt in H1. apply Z.ltb_ge. lia. }
    destruct (a <? b)%Z eqn:E1, (b <? a)%Z eqn:E2; simpl;
      try (specialize (Hasym eq_refl); discriminate);
      repeat match goal with |- _ /\ _ => split end;
      try reflexivity; try discriminate; auto.
  - rewrite <- !string_less_ltb.
    assert (Heq : string_less a b = false -> string_less b a = false -> VText a = VText b).
    { intros H1 H2. f_equal. apply string_less_total; assumption. }
    assert (Hne : string_less b a = true -> VText a <> VText b).
    { intros H1 [= ->]. rewrite string_less_irrefl in H1. discriminate. }
    pose proof (string_less_asym b a) as Hasym.
    destruct (string_less a b) eqn:E1, (string_less b a) eqn:E2; simpl;
      try (specialize (Hasym eq_refl); discriminate);
      repeat match goal with |- _ /\ _ => split end;
      try reflexivity; try discriminate; auto.
Qed.

(** Property X9. On two values that have no order - a Boolean, [nil], or
    two values of different types - [<] and [>] never hold, and [<=] and
    [>=] always hold, equal or not; [=] and [!=] are equality and its
    negation whatever the values. *)
Theorem compare_unordered_values (l r : Value) :
  (comparable l r = false ->
   compareValues l r "<" = false /\ compareValues l r ">" = false /\
   compareValues l r "<=" = true /\ compareValues l r ">=" = true) /\
  compareValues l r "=" = bool_decide (l = r) /\
  compareValues l r "!=" = negb (bool_decide (l = r)).
Proof.
  split; [|split; reflexivity].
  destruct l, r; simpl; try discriminate; intros _; repeat split; reflexivity.
Qed.

(** *** UPDATE *)

Lemma entries_of_permutation {A} (l : list (string * A)) (m : gmap string A) :
  l ≡ₚ map_to_list m ->
  NoDup (map fst l) /\ (forall c a, (c, a) ∈ l <-> m !! c = Some a).
Proof.
  intros Hp. split.
  - change (NoDup (fst <$> l)). rewrite Hp. apply NoDup_fst_map_to_list.
  - intros c a. rewrite Hp. apply elem_of_map_to_list.
Qed.

Lemma foldl_setColumn_last updates : forall (data : gmap string Value) c v,
  NoDup (map fst updates) -> (c, v) ∈ updates ->
  foldl setColumn data updates !! c = Some v.
Proof.
  induction updates as [|[c' v'] rest IH]; intros data c v Hnd Hin; simpl.
  - inversion Hin.
  - simpl in Hnd. apply list.NoDup_cons in Hnd as [Hnin Hnd].
    apply elem_of_cons in Hin as [[= -> ->]|Hin].
    + rewrite foldl_setColumn_other by exact Hnin.
      unfold setColumn. simpl. apply lookup_insert_eq.
    + apply IH; assumption.
Qed.

(** Written in any order, the entries of a map leave the row as the map
    laid over it. *)
Lemma foldl_setColumn_union (l : list (string * Value)) (updates row : gmap string Value) :
  l ≡ₚ map_to_list updates -> foldl setColumn row l = updates ∪ row.
Proof.
  intros Hp. apply entries_of_permutation in Hp as [Hnd Hin].
  apply map_eq. intros c. rewrite lookup_union.
  destruct (updates !! c) as [v|] eqn:E.
  - rewrite (foldl_setColumn_last l row c v Hnd); [|apply Hin, E].
    destruct (row !! c); reflexivity.
  - rewrite foldl_setColumn_other.
    + destruct (row !! c); reflexivity.
    + intros Hc. apply (list_elem_of_fmap _ l) in Hc as ([c' v] & Hc' & Hcv). simpl in Hc'. subst c'.
      apply Hin in Hcv. congruence.
Qed.

Lemma evaluateSet_last entries : forall (acc : gmap string Value),
  NoDup (map fst entries) ->
  Forall (fun u => exists v, evaluateExpression u.2 = Ok v) entries ->
  exists updates, evaluateSet entries acc = Ok updates /\
    (forall c e, (c, e) ∈ entries -> Ok <$> (updates !! c) = Some (evaluateExpression e)) /\
    (forall c, c ∉ map fst entries -> updates !! c = acc !! c).
Proof.
  induction entries as [|[c e] rest IH]; intros acc Hnd Hall; simpl.
  - exists acc. split; [reflexivity|]. split; [|auto]. intros c e H. inversion H.
  - simpl in Hnd. apply list.NoDup_cons in Hnd as [Hnin Hnd].
    apply list.Forall_cons in Hall as [(v & Hv) Hall]. simpl in Hv. rewrite Hv.
    destruct (IH (<[c := v]> acc) Hnd Hall) as (updates & He & Hin & Hother).
    exists updates. split; [exact He|]. split.
    + intros c' e' H. apply elem_of_cons in H as [[= -> ->]|H].
      * rewrite (Hother c Hnin), lookup_insert_eq, Hv. reflexivity.
      * apply Hin, H.
    + intros c' Hn. apply not_elem_of_cons in Hn as [Hne Hn].
      rewrite (Hother c' Hn). apply lookup_insert_ne. congruence.
Qed.

(** In any order, the first loop of [ExecuteUpdate] collects the values
    of the assigned expressions when all of them evaluate. *)
Lemma evaluateSet_permutation (l : list (string * Expression))
    (set : gmap string Expression) (updates : gmap string Value) :
  l ≡ₚ map_to_list set ->
  evaluateExpression <$> set = Ok <$> updates ->
  evaluateSet l ∅ = Ok updates.
Proof.
  intros Hp Heq. apply entries_of_permutation in Hp as [Hnd Hin].
  assert (Hval : forall c, evaluateExpression <$> (set !! c) = Ok <$> (updates !! c)).
  { intros c. rewrite <- !lookup_fmap, Heq. reflexivity. }
  destruct (evaluateSet_last l ∅ Hnd) as (updates' & He & Hin' & Hother).
  { apply list.Forall_forall. intros [c e] Hce. apply Hin in Hce. simpl.
    specialize (Hval c). rewrite Hce in Hval. simpl in Hval.
    destruct (updates !! c) as [v|]; [|discriminate]. exists v.
    simpl in Hval. congruence. }
  rewrite He. f_equal. apply map_eq. intros c.
  specialize (Hval c). destruct (set !! c) as [e|] eqn:Es.
  - apply Hin in Es. specialize (Hin' c e Es). simpl in Hval.
    destruct (updates !! c) as [v|], (updates' !! c) as [v'|]; simpl in *; congruence.
  - rewrite Hother.
    + rewrite lookup_empty. destruct (updates !! c); [discriminate|reflexivity].
    + intros Hc. apply (list_elem_of_fmap _ l) in Hc as ([c' e] & Hc' & Hce). simpl in Hc'.
      subst c'. apply Hin in Hce. congruence.
Qed.

Lemma updateInPlace_spec row updates : forall (h : Heap),
  deref (updateInPlace row updates h) row = foldl setColumn (deref h row) updates /\
  forall r, r <> row -> updateInPlace row updates h !! r = h !! r.
Proof.
  unfold updateInPlace.
  induction updates as [|[c v] rest IH]; intros h; simpl; [auto|].
  destruct (IH (SetValue h row c v)) as [Hrow Hother].
  rewrite deref_SetValue_same in Hrow. split; [exact Hrow|].
  intros r Hne. rewrite Hother by exact Hne. apply lookup_SetValue_other, Hne.
Qed.

Lemma union_twice (m row : gmap string Value) : m ∪ (m ∪ row) = m ∪ row.
Proof. rewrite (assoc_L (∪)), (idemp_L (∪)). reflexivity. Qed.

Lemma updateRows_in_place order table updates rows :
  permutes order -> hasPrimaryKey table = false ->
  forall n (h : Heap),
  exists h', updateRows order table updates n rows h = (h', None) /\
    forall r, deref h' r = if decide (r ∈ rows) then updates ∪ deref h r else deref h r.
Proof.
  intros [_ Hperm] Hpk. induction rows as [|row rest IH]; intros n h; simpl.
  - exists h. split; [reflexivity|]. intros r. destruct (decide (r ∈ [])) as [H|_]; [inversion H|reflexivity].
  - rewrite Hpk.
    destruct (updateInPlace_spec row (overUpdates order n updates) h) as [Hrow Hother].
    rewrite (foldl_setColumn_union _ updates) in Hrow by apply Hperm.
    destruct (IH (S n) (updateInPlace row (overUpdates order n updates) h)) as (h' & He & Hh').
    exists h'. split; [exact He|]. intros r. rewrite Hh'.
    destruct (decide (r ∈ row :: rest)) as [Hin|Hnin], (decide (r ∈ rest)) as [Hin'|Hnin'],
             (Nat.eq_dec r row) as [->|Hne];
      try rewrite Hrow; try rewrite (deref_other h _ r) by (apply Hother; assumption);
      try reflexivity; try apply union_twice; exfalso.
    + apply elem_of_cons in Hin as [?|?]; tauto.
    + apply Hnin, list_elem_of_here.
    + apply Hnin, list_elem_of_further, Hin'.
    + apply Hnin, list_elem_of_here.
Qed.

Lemma elem_of_List_filter {A} (f : A -> bool) (l : list A) (x : A) :
  x ∈ List.filter f l <-> x ∈ l /\ f x = true.
Proof. rewrite !list_elem_of_In. apply filter_In. Qed.

(** Property X10. On a table without primary key UPDATE checks nothing.
    Whatever columns the statement assigns, declared or not, and whatever
    the types of the values, once the assigned expressions evaluate and
    the WHERE clause builds the statement succeeds: every row the
    condition accepts ends as the assignments laid over its old data, and
    every other row is as it was. *)
Theorem update_without_primary_key (order : RangeOrder) (h : Heap) (db : Database)
    (stmt : UpdateStatement) (table : Table) (updates : gmap string Value)
    (whereCondition : gmap string Value -> bool) :
  permutes order ->
  Tables db !! upd_TableName stmt = Some table ->
  hasPrimaryKey table = false ->
  evaluateExpression <$> upd_Set stmt = Ok <$> updates ->
  whereConditionOf (upd_Where stmt) = Ok whereCondition ->
  exists h', ExecuteUpdate order h db stmt = (h', None) /\
    forall r, deref h' r =
              if decide (r ∈ tbl_Rows table /\ whereCondition (deref h r) = true)
              then updates ∪ deref h r else deref h r.
Proof.
  intros Hperm Htable Hpk Hset Hwhere. unfold ExecuteUpdate.
  rewrite Htable, (evaluateSet_permutation _ _ updates (proj1 Hperm _) Hset), Hwhere.
  destruct (updateRows_in_place order table updates
              (List.filter (fun row => whereCondition (deref h row)) (tbl_Rows table))
              Hperm Hpk 0 h) as (h' & He & Hh').
  exists h'. split; [exact He|]. intros r. rewrite Hh'.
  destruct (decide (r ∈ tbl_Rows table /\ whereCondition (deref h r) = true)) as [Hy|Hn].
  - rewrite decide_True; [reflexivity|]. apply elem_of_List_filter. exact Hy.
  - rewrite decide_False; [reflexivity|]. intros H. apply Hn.
    apply elem_of_List_filter in H. exact H.
Qed.

Lemma List_filter_sublist {A} (f : A -> bool) (l : list A) : List.filter f l `sublist_of` l.
Proof.
  induction l as [|x l IH]; simpl; [constructor|].
  destruct (f x); [apply sublist_skip, IH|apply sublist_cons, IH].
Qed.

Lemma UpdateRow_found (h : Heap) t row v updates h' t' :
  hasPrimaryKey t = true -> tbl_index t !! v = Some row ->
  UpdateRow h t v updates = (h', t', None) ->
  t' = t /\ deref h' row = foldl setColumn (deref h row) updates /\
  forall r, r <> row -> h' !! r = h !! r.
Proof.
  intros Hpk Hv. unfold UpdateRow, FindRowByPrimaryKey. rewrite Hpk, Hv.
  destruct (applyUpdates t row updates h) as [h1 [e1|]] eqn:Ea; [discriminate|].
  intros [= <- <- _]. apply applyUpdates_ok in Ea as (Hrow & Hother & _). auto.
Qed.

Lemma updateRows_keyed order table updates :
  permutes order -> hasPrimaryKey table = true ->
  updates !! tbl_PrimaryKey table = None ->
  forall todo n (h h' : Heap),
  NoDup todo -> Forall (fun r => r ∈ tbl_Rows table) todo -> indexed h table ->
  updateRows order table updates n todo h = (h', None) ->
  (forall r, deref h' r = if decide (r ∈ todo) then updates ∪ deref h r else deref h r) /\
  indexed h' table /\ (typed h table -> typed h' table) /\
  (distinct h table -> distinct h' table).
Proof.
  intros [_ Hperm] Hpk Hkey.
  induction todo as [|row rest IH]; intros n h h' Hnd Hsub Hi; simpl.
  - intros [= <-]. split; [|auto]. intros r.
    destruct (decide (r ∈ [])) as [H|_]; [inversion H|reflexivity].
  - rewrite Hpk. apply list.NoDup_cons in Hnd as [Hnew Hnd].
    apply list.Forall_cons in Hsub as [Hrow Hsub].
    destruct (indexed_row_in_index h table row Hi Hrow) as (v & Hv & Hl).
    unfold keyOf in Hv. unfold GetValue. rewrite Hv. simpl.
    destruct (UpdateRow h table v (overUpdates order n updates)) as [[h1 t1] [e1|]] eqn:Eu;
      [discriminate|].
    assert (Hnin : tbl_PrimaryKey table ∉ map fst (overUpdates order n updates)).
    { intros Hin. apply (list_elem_of_fmap _ (overUpdates order n updates)) in Hin
        as ([c w] & Hc & Hin). simpl in Hc. subst c.
      rewrite Hperm in Hin. apply elem_of_map_to_list in Hin. congruence. }
    pose proof (UpdateRow_indexed _ _ _ _ _ _ _ Hnin Hi Eu) as Hi1.
    pose proof (fun H => UpdateRow_typed _ _ _ _ _ _ _ H Eu) as Ht1.
    pose proof (fun H => UpdateRow_distinct _ _ _ _ _ _ (proj1 Hi) H Eu) as Hd1.
    apply (UpdateRow_found h table row) in Eu as (-> & Hr1 & Hother); [|exact Hpk|exact Hl].
    rewrite (foldl_setColumn_union _ updates) in Hr1 by apply Hperm.
    intros Hrest. destruct (IH _ _ _ Hnd Hsub Hi1 Hrest) as (Hh' & Hi' & Ht' & Hd').
    split; [|split; [exact Hi'|split; auto]].
    intros r. rewrite Hh'.
    destruct (decide (r ∈ row :: rest)) as [Hin|Hnin'], (decide (r ∈ rest)) as [Hin'|Hnin''],
             (Nat.eq_dec r row) as [->|Hne];
      try rewrite Hr1; try rewrite (deref_other h _ r) by (apply Hother; assumption);
      try reflexivity; try apply union_twice; exfalso.
    + apply elem_of_cons in Hin as [?|?]; tauto.
    + apply Hnin', list_elem_of_here.
    + apply Hnin', list_elem_of_further, Hin'.
    + apply Hnin', list_elem_of_here.
Qed.

(** Property X11. On a table with a primary key whose index agrees with
    its rows, an UPDATE that does not assign the primary-key column and
    succeeds has written every assignment to every row the WHERE condition
    accepted, whatever the order in which Go visits the assignments, and
    has written no other row; the index still agrees with the rows, and
    rows that were well typed, or had pairwise different values in the
    unique columns, still are and have. *)
Theorem update_with_primary_key (order : RangeOrder) (h h' : Heap) (db : Database)
    (stmt : UpdateStatement) (table : Table) (updates : gmap string Value)
    (whereCondition : gmap string Value -> bool) :
  permutes order ->
  Tables db !! upd_TableName stmt = Some table ->
  hasPrimaryKey table = true -> indexed h table ->
  evaluateExpression <$> upd_Set stmt = Ok <$> updates ->
  updates !! tbl_PrimaryKey table = None ->
  whereConditionOf (upd_Where stmt) = Ok whereCondition ->
  ExecuteUpdate order h db stmt = (h', None) ->
  (forall r, deref h' r =
             if decide (r ∈ tbl_Rows table /\ whereCondition (deref h r) = true)
             then updates ∪ deref h r else deref h r) /\
  indexed h' table /\ (typed h table -> typed h' table) /\
  (distinct h table -> distinct h' table).
Proof.
  intros Hperm Htable Hpk Hi Hset Hkey Hwhere. unfold ExecuteUpdate.
  rewrite Htable, (evaluateSet_permutation _ _ updates (proj1 Hperm _) Hset), Hwhere.
  intros Hrun.
  assert (Hnd : NoDup (List.filter (fun row => whereCondition (deref h row)) (tbl_Rows table))).
  { eapply sublist_NoDup; [apply Hi|apply List_filter_sublist]. }
  assert (Hsub : Forall (fun r => r ∈ tbl_Rows table)
                   (List.filter (fun row => whereCondition (deref h row)) (tbl_Rows table))).
  { apply list.Forall_forall. intros r Hr. apply elem_of_List_filter in Hr. apply Hr. }
  destruct (updateRows_keyed order table updates Hperm Hpk Hkey _ _ _ _ Hnd Hsub Hi Hrun)
    as (Hh' & Hrest).
  split; [|exact Hrest]. intros r. rewrite Hh'.
  destruct (decide (r ∈ tbl_Rows table /\ whereCondition (deref h r) = true)) as [Hy|Hn].
  - rewrite decide_True; [reflexivity|]. apply elem_of_List_filter. exact Hy.
  - rewrite decide_False; [reflexivity|]. intros H. apply Hn.
    apply elem_of_List_filter in H. exact H.
Qed.

(** Two names. *)
Lemma compare_ordered_values_witness :
  comparable (VText "Bob") (VText "Alice") = true /\
  compareValues (VText "Bob") (VText "Alice") ">" = strictlyGreater (VText "Bob") (VText "Alice") /\
  compareValues (VText "Bob") (VText "Alice") "<" = strictlyGreater (VText "Alice") (VText "Bob") /\
  compareValues (VText "Bob") (VText "Alice") "<=" = negb (strictlyGreater (VText "Bob") (VText "Alice")) /\
  compareValues (VText "Bob") (VText "Alice") ">=" = negb (strictlyGreater (VText "Alice") (VText "Bob")) /\
  compareValues (VText "Bob") (VText "Alice") "=" = bool_decide (VText "Bob" = VText "Alice") /\
  compareValues (VText "Bob") (VText "Alice") "!=" = negb (bool_decide (VText "Bob" = VText "Alice")) /\
  (VText "Bob" = VText "Alice" \/ strictlyGreater (VText "Bob") (VText "Alice") = true \/
   strictlyGreater (VText "Alice") (VText "Bob") = true) /\
  (strictlyGreater (VText "Bob") (VText "Alice") = true ->
   strictlyGreater (VText "Alice") (VText "Bob") = false /\ VText "Bob" <> VText "Alice").
Proof.
  split; [reflexivity|].
  apply (compare_ordered_values (VText "Bob") (VText "Alice")). reflexivity.
Defined.

(** The one row of [logs] gets a new [line] and a column [level] the
    table does not have. *)
Lemma update_without_primary_key_witness :
  (permutes listingOrder /\
   Tables db !! upd_TableName updateLogs = Some logs1 /\
   hasPrimaryKey logs1 = false /\
   evaluateExpression <$> upd_Set updateLogs = Ok <$> updateLogsValues /\
   whereConditionOf (upd_Where updateLogs) = Ok (fun _ => true)) /\
  exists h', ExecuteUpdate listingOrder store db updateLogs = (h', None) /\
    forall r, deref h' r =
              if decide (r ∈ tbl_Rows logs1 /\ true = true)
              then updateLogsValues ∪ deref store r else deref store r.
Proof.
  split; [split; [|split; [|split; [|split]]]|].
  - split; intros; reflexivity.
  - by_evaluation.
  - by_evaluation.
  - by_evaluation.
  - reflexivity.
  - apply (update_without_primary_key listingOrder store db updateLogs logs1
             updateLogsValues (fun _ => true)).
    + split; intros; reflexivity.
    + by_evaluation.
    + by_evaluation.
    + by_evaluation.
    + reflexivity.
Defined.

(** Bob is renamed and activated; Alice is not touched. *)
Lemma update_with_primary_key_witness :
  (permutes listingOrder /\
   Tables db !! upd_TableName updateBob = Some users2 /\
   hasPrimaryKey users2 = true /\ indexed store users2 /\
   evaluateExpression <$> upd_Set updateBob = Ok <$> updateBobValues /\
   updateBobValues !! tbl_PrimaryKey users2 = None /\
   whereConditionOf (upd_Where updateBob) = Ok idIsTwo /\
   ExecuteUpdate listingOrder store db updateBob = (storeAfterUpdateBob, None)) /\
  (forall r, deref storeAfterUpdateBob r =
             if decide (r ∈ tbl_Rows users2 /\ idIsTwo (deref store r) = true)
             then updateBobValues ∪ deref store r else deref store r) /\
  indexed storeAfterUpdateBob users2 /\
  (typed store users2 -> typed storeAfterUpdateBob users2) /\
  (distinct store users2 -> distinct storeAfterUpdateBob users2).
Proof.
  split; [split; [|split; [|split; [|split; [|split; [|split; [|split]]]]]]|].
  - split; intros; reflexivity.
  - by_evaluation.
  - by_evaluation.
  - by_evaluation.
  - by_evaluation.
  - by_evaluation.
  - reflexivity.
  - by_evaluation.
  - apply (update_with_primary_key listingOrder store storeAfterUpdateBob db updateBob
             users2 updateBobValues idIsTwo).
    + split; intros; reflexivity.
    + by_evaluation.
    + by_evaluation.
    + by_evaluation.
    + by_evaluation.
    + by_evaluation.
    + reflexivity.
    + by_evaluation.
Defined.

(** *** CREATE TABLE, INSERT, SELECT *)

Lemma List_filter_all {A} (l : list A) : List.filter (fun _ => true) l = l.
Proof. induction l as [|x l IH]; simpl; [reflexivity|]. rewrite IH. reflexivity. Qed.

Lemma ExecuteSelect_all (h : Heap) db name t :
  Tables db !! name = Some t ->
  ExecuteSelect h db (selectAll name) =
  Ok {| rs_Columns := GetColumnNames t; rs_Rows := projected h t (tbl_Rows t) |}.
Proof.
  intros Ht. unfold ExecuteSelect, selectAll, SelectRows, projected. simpl. rewrite Ht.
  rewrite List_filter_all. reflexivity.
Qed.

(** Property X12. CREATE TABLE succeeds exactly when the name is free,
    whatever the columns are. The table it registers is empty: SELECT *
    returns the declared column names in their order and no row. The
    other tables are untouched, and a second CREATE TABLE of the same
    name, with any columns, fails with the error that the table exists
    and leaves the database as it is. *)
Theorem create_table_registers (h : Heap) (db : Database) (stmt : CreateTableStatement) :
  (Tables db !! ct_TableName stmt <> None ->
   ExecuteCreateTable db stmt = (db, Some (ErrTableExists (ct_TableName stmt)))) /\
  (Tables db !! ct_TableName stmt = None ->
   exists db', ExecuteCreateTable db stmt = (db', None) /\
     (forall name, name <> ct_TableName stmt -> Tables db' !! name = Tables db !! name) /\
     ExecuteSelect h db' (selectAll (ct_TableName stmt)) =
       Ok {| rs_Columns := map cd_Name (ct_Columns stmt); rs_Rows := [] |} /\
     forall columns,
       ExecuteCreateTable db' {| ct_TableName := ct_TableName stmt; ct_Columns := columns |} =
       (db', Some (ErrTableExists (ct_TableName stmt)))).
Proof.
  unfold ExecuteCreateTable. split.
  - destruct (Tables db !! ct_TableName stmt); [reflexivity|congruence].
  - intros Hfree. rewrite Hfree. eexists. split; [reflexivity|]. split; [|split].
    + intros name Hne. simpl. apply lookup_insert_ne. congruence.
    + erewrite ExecuteSelect_all; [|simpl; apply lookup_insert_eq].
      unfold GetColumnNames, projected. simpl. rewrite map_map. reflexivity.
    + intros columns. simpl. rewrite lookup_insert_eq. reflexivity.
Qed.

Lemma fillRow_spec row columns : forall values (h h1 : Heap),
  length values = length columns ->
  fillRow h row columns values = (h1, None) ->
  (forall r, r <> row -> h1 !! r = h !! r) /\
  (forall c, c ∉ map col_Name columns -> deref h1 row !! c = deref h row !! c) /\
  exists vs, map evaluateExpression values = map Ok vs /\
    (NoDup (map col_Name columns) ->
     map (GetValue (deref h1 row)) (map col_Name columns) = vs).
Proof.
  induction columns as [|col rest IH]; intros [|e es] h h1 Hlen; simpl in *; try discriminate.
  - intros [= <-]. split; [auto|]. split; [auto|]. exists []. auto.
  - destruct (evaluateExpression e) as [v|err] eqn:Ee; [|discriminate].
    intros H. apply IH in H as (Hother & Hkeep & vs & Hvs & Hget); [|lia].
    split; [|split].
    + intros r Hne. rewrite Hother by exact Hne. apply lookup_SetValue_other, Hne.
    + intros c Hc. apply not_elem_of_cons in Hc as [Hne Hc].
      rewrite Hkeep by exact Hc. rewrite deref_SetValue_same. apply lookup_insert_ne. congruence.
    + exists (v :: vs). split; [simpl; congruence|]. intros Hnd.
      apply list.NoDup_cons in Hnd as [Hnew Hnd]. rewrite (Hget Hnd). f_equal.
      unfold GetValue. rewrite (Hkeep _ Hnew), deref_SetValue_same, lookup_insert_eq.
      reflexivity.
Qed.

Lemma fillRow_any row columns : forall values (h h1 : Heap) e,
  fillRow h row columns values = (h1, e) -> forall r, r <> row -> h1 !! r = h !! r.
Proof.
  induction columns as [|col rest IH]; intros [|v vs] h h1 e; simpl; try (intros [= <- _]; auto).
  destruct (evaluateExpression v); [|intros [= <- _]; auto].
  intros H r Hne. rewrite (IH _ _ _ _ H r Hne). apply lookup_SetValue_other, Hne.
Qed.

Lemma NewRow_fresh (h : Heap) row h0 :
  NewRow h = (row, h0) ->
  (row ∉ dom h) /\ deref h0 row = ∅ /\ forall r, r <> row -> h0 !! r = h !! r.
Proof.
  unfold NewRow. intros [= <- <-]. split; [apply is_fresh|]. split.
  - unfold deref. rewrite lookup_insert_eq. reflexivity.
  - intros r Hne. apply lookup_insert_ne. congruence.
Qed.

(** What [ExecuteInsert] does to the store, whether it succeeds or not:
    it makes one row object and writes no other. *)
Lemma ExecuteInsert_store (h h' : Heap) db db' stmt e :
  ExecuteInsert h db stmt = (h', db', e) -> forall r, r ∈ dom h -> h' !! r = h !! r.
Proof.
  unfold ExecuteInsert. destruct (Tables db !! ins_TableName stmt) as [table|]; [|intros [= <- _ _]; auto].
  destruct (negb _); [intros [= <- _ _]; auto|].
  destruct (NewRow h) as [row h0] eqn:En. apply NewRow_fresh in En as (Hfresh & _ & Hh0).
  destruct (fillRow h0 row (tbl_Columns table) (ins_Values stmt)) as [h1 e1] eqn:Ef.
  assert (Hh1 : forall r, r ∈ dom h -> h1 !! r = h !! r).
  { intros r Hr. assert (r <> row) by (intros ->; auto).
    rewrite (fillRow_any _ _ _ _ _ _ Ef r) by assumption. auto. }
  destruct e1 as [e1|]; [intros [= <- _ _]; exact Hh1|].
  destruct (InsertRow h1 table row) as [table' err]. intros [= <- _ _]. exact Hh1.
Qed.

Lemma projected_ext (h h' : Heap) t rows :
  Forall (fun r => h' !! r = h !! r) rows -> projected h' t rows = projected h t rows.
Proof.
  unfold projected. induction 1 as [|r rest Hr _ IH]; simpl; [reflexivity|].
  rewrite IH, (deref_other h h' r Hr). reflexivity.
Qed.

(** Property X13. After a successful INSERT, SELECT * on the table
    returns the rows it returned before, followed by one new row; when the
    column names of the table are pairwise different the new row is the
    list of the inserted values in their order. *)
Theorem insert_then_select (h h' : Heap) (db db' : Database) (stmt : InsertStatement)
    (table : Table) :
  Tables db !! ins_TableName stmt = Some table ->
  Forall (fun r => r ∈ dom h) (tbl_Rows table) ->
  ExecuteInsert h db stmt = (h', db', None) ->
  exists row values,
    map evaluateExpression (ins_Values stmt) = map Ok values /\
    ExecuteSelect h db (selectAll (ins_TableName stmt)) =
      Ok {| rs_Columns := GetColumnNames table;
            rs_Rows := projected h table (tbl_Rows table) |} /\
    ExecuteSelect h' db' (selectAll (ins_TableName stmt)) =
      Ok {| rs_Columns := GetColumnNames table;
            rs_Rows := projected h table (tbl_Rows table) ++ [row] |} /\
    (NoDup (GetColumnNames table) -> row = values).
Proof.
  intros Htable Halloc Hins.
  pose proof (ExecuteInsert_store _ _ _ _ _ _ Hins) as Hstore.
  unfold ExecuteInsert in Hins. rewrite Htable in Hins.
  destruct (Nat.eqb_spec (length (ins_Values stmt)) (length (tbl_Columns table)))
    as [Hlen|]; cbn [negb] in Hins; [|discriminate].
  destruct (NewRow h) as [row h0] eqn:En.
  destruct (fillRow h0 row (tbl_Columns table) (ins_Values stmt)) as [h1 [e1|]] eqn:Ef;
    [discriminate|].
  destruct (InsertRow h1 table row) as [table' err] eqn:Ei. simpl in Hins.
  injection Hins as <- <- ->.
  apply InsertRow_ok_inv in Ei as (_ & _ & Hc & Hr & _).
  apply fillRow_spec in Ef as (_ & _ & values & Hvalues & Hget); [|exact Hlen].
  exists (rowValues (deref h1 row) (GetColumnNames table)), values.
  split; [exact Hvalues|]. split; [apply ExecuteSelect_all, Htable|]. split.
  - erewrite ExecuteSelect_all; [|simpl; apply lookup_insert_eq].
    assert (Hnames : GetColumnNames table' = GetColumnNames table).
    { unfold GetColumnNames. rewrite Hc. reflexivity. }
    assert (Hold : projected h1 table (tbl_Rows table) = projected h table (tbl_Rows table)).
    { apply projected_ext. eapply list.Forall_impl; [exact Halloc|]. intros r Hr'. simpl.
      apply Hstore, Hr'. }
    rewrite <- Hold. unfold projected. rewrite Hnames, Hr, map_app. reflexivity.
  - intros Hnd. apply Hget, Hnd.
Qed.

Lemma List_filter_ext_Forall {A} (f g : A -> bool) (l : list A) :
  Forall (fun x => f x = g x) l -> List.filter f l = List.filter g l.
Proof.
  induction 1 as [|x l Hx _ IH]; simpl; [reflexivity|]. rewrite Hx, IH. reflexivity.
Qed.

Lemma map_ext_Forall {A B} (f g : A -> B) (l : list A) :
  Forall (fun x => f x = g x) l -> map f l = map g l.
Proof.
  induction 1 as [|x l Hx _ IH]; simpl; [reflexivity|]. rewrite Hx, IH. reflexivity.
Qed.

Lemma joinRight_ext (h h' : Heap) leftTable rightTable leftCol rightCol leftRow rightRows :
  h' !! leftRow = h !! leftRow -> Forall (fun r => h' !! r = h !! r) rightRows ->
  joinRight h' leftTable rightTable leftCol rightCol leftRow rightRows =
  joinRight h leftTable rightTable leftCol rightCol leftRow rightRows.
Proof.
  intros Hl. induction 1 as [|r rest Hr _ IH]; simpl; [reflexivity|].
  rewrite IH, (deref_other h h' r Hr), (deref_other h h' leftRow Hl). reflexivity.
Qed.

Lemma joinLeft_ext (h h' : Heap) leftTable rightTable leftCol rightCol leftRows :
  Forall (fun r => h' !! r = h !! r) leftRows ->
  Forall (fun r => h' !! r = h !! r) (tbl_Rows rightTable) ->
  joinLeft h' leftTable rightTable leftCol rightCol leftRows =
  joinLeft h leftTable rightTable leftCol rightCol leftRows.
Proof.
  intros Hl Hr. induction Hl as [|r rest Hrow _ IH]; simpl; [reflexivity|].
  rewrite IH, (joinRight_ext h h') by assumption. reflexivity.
Qed.

(** A query reads the store at the rows of the tables only. *)
Lemma ExecuteSelect_ext (h h' : Heap) db stmt :
  (forall name t, Tables db !! name = Some t ->
                  Forall (fun r => h' !! r = h !! r) (tbl_Rows t)) ->
  ExecuteSelect h' db stmt = ExecuteSelect h db stmt.
Proof.
  intros Hsame. unfold ExecuteSelect.
  destruct (Tables db !! sel_TableName stmt) as [table|] eqn:Et; [|reflexivity].
  pose proof (Hsame _ _ Et) as Hrows.
  destruct (whereConditionOf (sel_Where stmt)) as [cond|]; [|reflexivity].
  destruct (sel_Join stmt) as [join|].
  - unfold executeJoinSelect.
    destruct (Tables db !! jc_TableName join) as [rightTable|] eqn:Er; [|reflexivity].
    destruct (parseJoinCondition (jc_On join)) as [[leftCol rightCol]|]; [|reflexivity].
    rewrite (joinLeft_ext h h'); [reflexivity|exact Hrows|exact (Hsame _ _ Er)].
  - assert (Hsel : SelectRows h' table (Some cond) = SelectRows h table (Some cond)).
    { unfold SelectRows. apply List_filter_ext_Forall.
      eapply list.Forall_impl; [exact Hrows|]. intros r Hr. simpl.
      rewrite (deref_other h h' r Hr). reflexivity. }
    rewrite Hsel.
    assert (Hsub : Forall (fun r => h' !! r = h !! r) (SelectRows h table (Some cond))).
    { rewrite list.Forall_forall in Hrows |- *. intros r Hr. apply Hrows.
      unfold SelectRows in Hr. apply elem_of_List_filter in Hr. apply Hr. }
    assert (Hmap : forall names,
              map (fun row => rowValues (deref h' row) names) (SelectRows h table (Some cond)) =
              map (fun row => rowValues (deref h row) names) (SelectRows h table (Some cond))).
    { intros names. apply map_ext_Forall.
      eapply list.Forall_impl; [exact Hsub|]. intros r Hr. simpl.
      rewrite (deref_other h h' r Hr). reflexivity. }
    destruct (match sel_Columns stmt with
              | [StarExpression] => Ok (GetColumnNames table)
              | columns => extractColumnNames columns
              end) as [names|]; [|reflexivity].
    rewrite Hmap. reflexivity.
Qed.

(** Property X14. An INSERT that fails changes nothing a query can see:
    the database is the one before the statement, and every SELECT
    returns what it returned before. *)
Theorem failed_insert_changes_nothing (h h' : Heap) (db db' : Database)
    (stmt : InsertStatement) (e : error) :
  allocated h db ->
  ExecuteInsert h db stmt = (h', db', Some e) ->
  db' = db /\ forall query, ExecuteSelect h' db' query = ExecuteSelect h db query.
Proof.
  intros Halloc Hins.
  pose proof (ExecuteInsert_store _ _ _ _ _ _ Hins) as Hstore.
  assert (Hdb : db' = db).
  { unfold ExecuteInsert in Hins.
    destruct (Tables db !! ins_TableName stmt) as [table|] eqn:Et; [|congruence].
    destruct (negb _); [congruence|].
    destruct (NewRow h) as [row h0].
    destruct (fillRow h0 row (tbl_Columns table) (ins_Values stmt)) as [h1 [e1|]];
      [congruence|].
    destruct (InsertRow h1 table row) as [table' err] eqn:Ei. simpl in Hins.
    injection Hins as _ <- ->. apply InsertRow_err_unchanged in Ei as [-> _].
    apply setTable_same, Et. }
  split; [exact Hdb|]. subst db'. intros query. apply ExecuteSelect_ext.
  intros name t Ht. specialize (Halloc name t Ht). simpl in Halloc.
  eapply list.Forall_impl; [exact Halloc|]. intros r Hr. apply Hstore, Hr.
Qed.

(** *** DELETE *)

Lemma rowsToDelete_keyed (h : Heap) table cond rows :
  hasPrimaryKey table = true ->
  rowsToDelete h table cond rows =
  map (fun r => GetValue (deref h r) (tbl_PrimaryKey table))
      (List.filter (fun r => cond (deref h r)) rows).
Proof.
  intros Hpk. induction rows as [|r rest IH]; simpl; [reflexivity|].
  rewrite Hpk, IH. destruct (cond (deref h r)); reflexivity.
Qed.

Lemma deleteRows_indexed (h : Heap) pk : forall todo t,
  hasPrimaryKey t = true -> tbl_PrimaryKey t = pk -> indexed h t ->
  NoDup todo -> Forall (fun r => r ∈ tbl_Rows t) todo ->
  exists t',
    deleteRows t (map (fun r => GetValue (deref h r) pk) todo) = (t', None) /\
    tbl_Name t' = tbl_Name t /\ tbl_Columns t' = tbl_Columns t /\
    tbl_PrimaryKey t' = tbl_PrimaryKey t /\
    tbl_Rows t' = filter (fun r => r ∉ todo) (tbl_Rows t) /\
    indexed h t'.
Proof.
  induction todo as [|row rest IH]; intros t Hpk Hname Hi Hnd Hsub; simpl.
  - exists t. repeat match goal with |- _ /\ _ => split end; try reflexivity; [|exact Hi].
    symmetry. apply filter_all. apply list.Forall_forall. intros r _ H. inversion H.
  - apply list.NoDup_cons in Hnd as [Hnew Hnd].
    apply list.Forall_cons in Hsub as [Hrow Hsub].
    destruct (indexed_row_in_index h t row Hi Hrow) as (v & Hv & Hl).
    unfold keyOf in Hv. rewrite Hname in Hv. unfold GetValue at 1. rewrite Hv. simpl.
    destruct (DeleteRow t v) as [t1 e1] eqn:Ed.
    pose proof (DeleteRow_indexed h t v t1 e1 Hi Ed) as Hi1.
    assert (He1 : e1 = None).
    { unfold DeleteRow, FindRowByPrimaryKey in Ed. rewrite Hpk, Hl in Ed. simpl in Ed.
      congruence. }
    subst e1. apply DeleteRow_ok in Ed as (_ & row' & Hl' & Ht1).
    assert (row' = row) by congruence. subst row'.
    assert (Hrows1 : tbl_Rows t1 = filter (fun r => r <> row) (tbl_Rows t)).
    { rewrite Ht1. simpl. apply removeFirst_filter, Hi. }
    destruct (IH t1) as (t' & Hdel & Hn & Hc & Hp & Hr & Hi'); try assumption.
    + rewrite Ht1. exact Hpk.
    + rewrite Ht1. exact Hname.
    + rewrite list.Forall_forall in Hsub |- *. intros r Hr. rewrite Hrows1.
      apply list_elem_of_filter. split; [intros ->; auto|apply Hsub, Hr].
    + exists t'. split; [exact Hdel|]. rewrite Hn, Hc, Hp, Hr, Hrows1, Ht1. simpl.
      repeat match goal with |- _ /\ _ => split end; try reflexivity; [|exact Hi'].
      rewrite list_filter_filter. apply list_filter_iff. intros r.
      rewrite not_elem_of_cons. tauto.
Qed.

Lemma filter_List_filter {A} (P : A -> Prop) `{forall x, Decision (P x)} (g : A -> bool)
    (l : list A) :
  Forall (fun x => P x <-> g x = true) l -> filter P l = List.filter g l.
Proof.
  induction 1 as [|x l Hx _ IH]; simpl; [reflexivity|].
  destruct (g x) eqn:E.
  - rewrite filter_cons_True by (apply Hx; reflexivity). rewrite IH. reflexivity.
  - rewrite filter_cons_False; [exact IH|]. intros HP. apply Hx in HP. discriminate.
Qed.

(** Property X15. On a table with a primary key whose index agrees with
    its rows, DELETE succeeds once its WHERE clause builds; it removes
    exactly the rows the condition accepts, all rows when there is no
    WHERE clause, and keeps the others in their order; the deleted rows
    are found no more by [FindRowByPrimaryKey], the others are found as
    before, and the index still agrees with the rows. *)
Theorem delete_removes_matching_rows (h : Heap) (db : Database) (stmt : DeleteStatement)
    (table : Table) (whereCondition : gmap string Value -> bool) :
  Tables db !! del_TableName stmt = Some table ->
  hasPrimaryKey table = true -> indexed h table ->
  whereConditionOf (del_Where stmt) = Ok whereCondition ->
  exists table',
    ExecuteDelete h db stmt = (setTable db (del_TableName stmt) table', None) /\
    tbl_Name table' = tbl_Name table /\ tbl_Columns table' = tbl_Columns table /\
    tbl_PrimaryKey table' = tbl_PrimaryKey table /\
    tbl_Rows table' =
      List.filter (fun r => negb (whereCondition (deref h r))) (tbl_Rows table) /\
    (forall v r, FindRowByPrimaryKey table' v = Some r <->
                 FindRowByPrimaryKey table v = Some r /\
                 whereCondition (deref h r) = false) /\
    indexed h table'.
Proof.
  intros Htable Hpk Hi Hwhere. unfold ExecuteDelete. rewrite Htable, Hwhere.
  rewrite (rowsToDelete_keyed h table whereCondition _ Hpk).
  destruct (deleteRows_indexed h (tbl_PrimaryKey table)
              (List.filter (fun r => whereCondition (deref h r)) (tbl_Rows table)) table)
    as (t' & Hdel & Hn & Hc & Hp & Hr & Hi'); try assumption; try reflexivity.
  { eapply sublist_NoDup; [apply Hi|apply List_filter_sublist]. }
  { apply list.Forall_forall. intros r Hr. apply elem_of_List_filter in Hr. apply Hr. }
  rewrite Hdel. exists t'. split; [reflexivity|].
  assert (Hrows : tbl_Rows t' =
            List.filter (fun r => negb (whereCondition (deref h r))) (tbl_Rows table)).
  { rewrite Hr. apply filter_List_filter. apply list.Forall_forall. intros r Hin.
    rewrite elem_of_List_filter. destruct (whereCondition (deref h r)); simpl; split;
      try discriminate; try tauto. intros _ [_ H]. discriminate. }
  assert (Hpk' : hasPrimaryKey t' = true).
  { unfold hasPrimaryKey in *. rewrite Hp. exact Hpk. }
  repeat match goal with |- _ /\ _ => split end; try assumption; intros v r; split.
  - intros Hf. apply (indexed_find h t' v r) in Hf as [Hin Hk]; [|exact Hpk'|exact Hi'].
    rewrite Hrows in Hin. apply elem_of_List_filter in Hin as [Hin Hc'].
    split; [|apply negb_true_iff, Hc'].
    apply (indexed_find h table v r Hpk Hi). split; [exact Hin|].
    unfold keyOf in *. congruence.
  - intros [Hf Hc']. apply (indexed_find h table v r Hpk Hi) in Hf as [Hin Hk].
    apply (indexed_find h t' v r); [exact Hpk'|exact Hi'|]. split.
    + rewrite Hrows. apply elem_of_List_filter. split; [exact Hin|]. rewrite Hc'. reflexivity.
    + unfold keyOf in *. congruence.
Qed.

(** Erin, with the empty name, is inserted after Alice. *)
Lemma insert_then_select_witness :
  (Tables dbAlice !! ins_TableName insertEmptyName = Some users1 /\
   Forall (fun r => r ∈ dom store) (tbl_Rows users1) /\
   ExecuteInsert store dbAlice insertEmptyName = (storeAfterInsert, dbAfterInsert, None)) /\
  exists row values,
    map evaluateExpression (ins_Values insertEmptyName) = map Ok values /\
    ExecuteSelect store dbAlice (selectAll (ins_TableName insertEmptyName)) =
      Ok {| rs_Columns := GetColumnNames users1;
            rs_Rows := projected store users1 (tbl_Rows users1) |} /\
    ExecuteSelect storeAfterInsert dbAfterInsert (selectAll (ins_TableName insertEmptyName)) =
      Ok {| rs_Columns := GetColumnNames users1;
            rs_Rows := projected store users1 (tbl_Rows users1) ++ [row] |} /\
    (NoDup (GetColumnNames users1) -> row = values).
Proof.
  split; [split; [|split]; by_evaluation|].
  apply (insert_then_select store storeAfterInsert dbAlice dbAfterInsert insertEmptyName
           users1); by_evaluation.
Defined.

(** Zed is refused for Alice's key. *)
Lemma failed_insert_changes_nothing_witness :
  (allocated store db /\
   ExecuteInsert store db insertZed =
     (storeAfterZed, db, Some (ErrPrimaryKeyViolation (VInt 1)))) /\
  db = db /\ forall query, ExecuteSelect storeAfterZed db query = ExecuteSelect store db query.
Proof.
  split; [split; by_evaluation|].
  apply (failed_insert_changes_nothing store storeAfterZed db db insertZed
           (ErrPrimaryKeyViolation (VInt 1))); by_evaluation.
Defined.

(** Bob is deleted, Alice stays. *)
Lemma delete_removes_matching_rows_witness :
  (Tables db !! del_TableName deleteBob = Some users2 /\
   hasPrimaryKey users2 = true /\ indexed store users2 /\
   whereConditionOf (del_Where deleteBob) = Ok idIsTwo) /\
  exists table',
    ExecuteDelete store db deleteBob = (setTable db (del_TableName deleteBob) table', None) /\
    tbl_Name table' = tbl_Name users2 /\ tbl_Columns table' = tbl_Columns users2 /\
    tbl_PrimaryKey table' = tbl_PrimaryKey users2 /\
    tbl_Rows table' = List.filter (fun r => negb (idIsTwo (deref store r))) (tbl_Rows users2) /\
    (forall v r, FindRowByPrimaryKey table' v = Some r <->
                 FindRowByPrimaryKey users2 v = Some r /\ idIsTwo (deref store r) = false) /\
    indexed store table'.
Proof.
  split; [split; [|split; [|split]]|].
  - by_evaluation.
  - by_evaluation.
  - by_evaluation.
  - reflexivity.
  - apply (delete_removes_matching_rows store db deleteBob users2 idIsTwo).
    + by_evaluation.
    + by_evaluation.
    + by_evaluation.
    + reflexivity.
Defined.

(* ===================================================================== *)
(** ** The codec: what is written is what is read                         *)
(* ===================================================================== *)

Import GoStrings.

(** *** Byte strings *)

Lemma prefix_one c (s : string) :
  String.prefix (String c EmptyString) s =
  match s with String a _ => Ascii.eqb c a | EmptyString => false end.
Proof.
  destruct s as [|a s]; simpl; [reflexivity|].
  destruct (Ascii.eqb_spec c a) as [->|Hne].
  - destruct (ascii_dec a a); [destruct s; reflexivity|congruence].
  - destruct (ascii_dec c a); [congruence|reflexivity].
Qed.

Lemma Contains_one c s : Contains s (String c EmptyString) = negb (without c s).
Proof.
  induction s as [|a s IH]; [reflexivity|].
  cbn [Contains without]. rewrite prefix_one, IH.
  destruct (Ascii.eqb c a); reflexivity.
Qed.

Lemma Split_go_nonempty sep s skip : Split_go sep s skip <> [].
Proof.
  revert skip. induction s as [|a s IH]; intros skip; [discriminate|].
  cbn [Split_go]. destruct skip; [|apply IH].
  destruct (String.prefix sep (String a s)); [discriminate|].
  destruct (Split_go sep s 0); discriminate.
Qed.

Lemma Split_go_cons c a s :
  Split_go (String c EmptyString) (String a s) 0 =
  if Ascii.eqb c a then EmptyString :: Split_go (String c EmptyString) s 0
  else match Split_go (String c EmptyString) s 0 with
       | w :: ws => String a w :: ws
       | [] => [String a EmptyString]
       end.
Proof. cbn [Split_go]. rewrite prefix_one. reflexivity. Qed.

Lemma Split_one_piece c s :
  without c s = true -> Split s (String c EmptyString) = [s].
Proof.
  unfold Split. induction s as [|a s IH]; [reflexivity|].
  cbn [without]. intros H. apply andb_true_iff in H as [Hne H]. apply negb_true_iff in Hne.
  rewrite Split_go_cons, Hne, (IH H). reflexivity.
Qed.

Lemma Split_first c s rest :
  without c s = true ->
  Split (s ++ String c rest) (String c EmptyString) = s :: Split rest (String c EmptyString).
Proof.
  unfold Split. induction s as [|a s IH]; cbn [without].
  - intros _. change (EmptyString ++ String c rest)%string with (String c rest).
    rewrite Split_go_cons, Ascii.eqb_refl. reflexivity.
  - intros H. apply andb_true_iff in H as [Hne H]. apply negb_true_iff in Hne.
    change (String a s ++ String c rest)%string with (String a (s ++ String c rest)).
    rewrite Split_go_cons, Hne, (IH H). reflexivity.
Qed.

Lemma Join_cons s l sep :
  Join (s :: l) sep = match l with [] => s | _ => (s ++ sep ++ Join l sep)%string end.
Proof. destruct l; reflexivity. Qed.

(** [Split] undoes [Join] when no piece holds the separating byte. *)
Lemma Split_Join c (l : list string) :
  l <> [] -> Forall (fun s => without c s = true) l ->
  Split (Join l (String c EmptyString)) (String c EmptyString) = l.
Proof.
  induction l as [|s l IH]; [congruence|]. intros _ Hall.
  apply list.Forall_cons in Hall as [Hs Hall]. rewrite Join_cons.
  destruct l as [|s' l']; [apply Split_one_piece, Hs|].
  etransitivity; [apply (Split_first c s (Join (s' :: l') (String c EmptyString))), Hs|].
  rewrite IH; [reflexivity|discriminate|exact Hall].
Qed.

Lemma prefix_app (p s : string) : String.prefix p (p ++ s) = true.
Proof.
  induction p as [|a p IH]; simpl; [destruct s; reflexivity|].
  destruct (ascii_dec a a); [exact IH|congruence].
Qed.

Lemma length_app (p s : string) :
  String.length (p ++ s) = String.length p + String.length s.
Proof. induction p as [|a p IH]; simpl; [reflexivity|]. rewrite IH. reflexivity. Qed.

Lemma substring_all (s : string) : String.substring 0 (String.length s) s = s.
Proof. induction s as [|a s IH]; simpl; [reflexivity|]. rewrite IH. reflexivity. Qed.

Lemma substring_skip (p s : string) n :
  String.substring (String.length p) n (p ++ s) = String.substring 0 n s.
Proof. induction p as [|a p IH]; simpl; [reflexivity|]. exact IH. Qed.

Lemma TrimPrefix_app (p s : string) : TrimPrefix (p ++ s) p = s.
Proof.
  unfold TrimPrefix, HasPrefix. rewrite prefix_app, length_app, substring_skip.
  replace (String.length p + String.length s - String.length p) with (String.length s) by lia.
  apply substring_all.
Qed.

(** The errors of the loops of [TableFromCSV]: a column definition that
    has no type, a line with too many or too few values, a value that is
    not of its column's type, a row the table refuses. *)
Lemma parseColumns_errors colDefs e :
  parseColumns colDefs = Err e -> exists colDef, e = ErrInvalidColumnDefinition colDef.
Proof.
  revert e. induction colDefs as [|colDef rest IH]; intros e; cbn [parseColumns];
    [discriminate|].
  destruct (Split (TrimSpace colDef) ":") as [|name [|typ flags]];
    try (intros [= <-]; eexists; reflexivity).
  destruct (columnFlags flags false false) as [pk uq].
  destruct (parseColumns rest) as [cols|e']; [discriminate|].
  intros [= <-]. apply IH. reflexivity.
Qed.

Lemma parseFields_errors columns : forall (h h' : Heap) row values e,
  parseFields h row columns values = (h', Some e) ->
  exists colName cause, e = ErrParsingValue colName cause.
Proof.
  induction columns as [|col columns' IH]; intros h h' row values e;
    destruct values as [|value values']; cbn [parseFields]; try discriminate.
  destruct (parseValue value (col_DataType col)) as [parsedValue|cause].
  - apply IH.
  - intros [= _ <-]. eexists _, _. reflexivity.
Qed.

Lemma loadRows_errors columns lines : forall (h h' : Heap) table i e,
  loadRows h table columns i lines = (h', Err e) ->
  (exists n got expected, e = ErrRowArity n got expected) \/
  (exists colName cause, e = ErrParsingValue colName cause) \/
  (exists n cause, e = ErrInsertingRow n cause).
Proof.
  induction lines as [|line rest IH]; intros h h' table i e; cbn [loadRows];
    [discriminate|].
  destruct (String.eqb (TrimSpace line) EmptyString); [apply IH|].
  destruct (negb (length (parseCSVLine (TrimSpace line)) =? length columns)%nat).
  - intros [= _ <-]. left. eexists _, _, _. reflexivity.
  - destruct (NewRow h) as [row h0].
    destruct (parseFields h0 row columns (parseCSVLine (TrimSpace line)))
      as [h1 [e'|]] eqn:Ef.
    + intros [= _ <-]. right. left. eapply parseFields_errors. exact Ef.
    + destruct (InsertRow h1 table row) as [table' [e'|]].
      * intros [= _ <-]. right. right. eexists _, _. reflexivity.
      * apply IH.
Qed.

(** Property X16. [TableFromCSV] never fails with the error of empty CSV
    data, whatever the text and the store: when it fails, the error is
    that of an invalid schema line, of an invalid column definition, of a
    row with too many or too few values, of a value that cannot be parsed
    or of a row that cannot be inserted. The text always has a first line,
    empty when the text is, and when that line does not start with the
    schema marker the call fails with the error of an invalid schema line,
    which quotes the line, and makes no row object. *)
Theorem load_without_schema_line (h : Heap) (name csvData : string) :
  snd (TableFromCSV h name csvData) <> Err ErrEmptyCSV /\
  (forall e, snd (TableFromCSV h name csvData) = Err e ->
     (exists line, e = ErrInvalidSchemaLine line) \/
     (exists colDef, e = ErrInvalidColumnDefinition colDef) \/
     (exists n got expected, e = ErrRowArity n got expected) \/
     (exists colName cause, e = ErrParsingValue colName cause) \/
     (exists n cause, e = ErrInsertingRow n cause)) /\
  exists schemaLine dataLines,
    Split csvData newline = schemaLine :: dataLines /\
    (csvData = EmptyString -> schemaLine = EmptyString) /\
    (HasPrefix schemaLine "# SCHEMA: " = false ->
     TableFromCSV h name csvData = (h, Err (ErrInvalidSchemaLine schemaLine))).
Proof.
  assert (Hkinds : forall e, snd (TableFromCSV h name csvData) = Err e ->
     (exists line, e = ErrInvalidSchemaLine line) \/
     (exists colDef, e = ErrInvalidColumnDefinition colDef) \/
     (exists n got expected, e = ErrRowArity n got expected) \/
     (exists colName cause, e = ErrParsingValue colName cause) \/
     (exists n cause, e = ErrInsertingRow n cause)).
  { intros e. unfold TableFromCSV.
    destruct (Split csvData newline) as [|schemaLine dataLines] eqn:E.
    - exfalso. eapply Split_go_nonempty. exact E.
    - destruct (negb (HasPrefix schemaLine "# SCHEMA: ")).
      + intros [= <-]. left. eexists. reflexivity.
      + destruct (parseColumns (Split (TrimPrefix schemaLine "# SCHEMA: ") ","))
          as [columns|e'] eqn:Ec.
        * destruct (loadRows h (NewTable name columns) columns 1 dataLines)
            as [h' [table|e']] eqn:El; simpl; [discriminate|].
          intros [= <-]. right. right. eapply loadRows_errors. exact El.
        * intros [= <-]. right. left. eapply parseColumns_errors. exact Ec. }
  split; [|split; [exact Hkinds|]].
  - intros He. apply Hkinds in He.
    destruct He as [[? He]|[[? He]|[(? & ? & ? & He)|[(? & ? & He)|(? & ? & He)]]]];
      discriminate He.
  - unfold TableFromCSV.
    destruct (Split csvData newline) as [|schemaLine dataLines] eqn:E.
    + exfalso. eapply Split_go_nonempty. exact E.
    + exists schemaLine, dataLines. split; [reflexivity|]. split.
      * intros ->. vm_compute in E. congruence.
      * intros ->. reflexivity.
Qed.

(** *** Fields *)

Lemma ReplaceAll_go_quote a v :
  ReplaceAll_go quoteStr quoteQuoteStr (String a v) 0 =
  if Ascii.eqb dquote a
  then String dquote (String dquote (ReplaceAll_go quoteStr quoteQuoteStr v 0))
  else String a (ReplaceAll_go quoteStr quoteQuoteStr v 0).
Proof.
  cbn [ReplaceAll_go]. unfold quoteStr at 1. rewrite prefix_one.
  destruct (Ascii.eqb dquote a); reflexivity.
Qed.

Lemma append_nil (s : string) : (EmptyString ++ s)%string = s.
Proof. reflexivity. Qed.

Lemma append_cons a (s t : string) : (String a s ++ t)%string = String a (s ++ t).
Proof. reflexivity. Qed.

Lemma append_assoc (a b c : string) : ((a ++ b) ++ c = a ++ (b ++ c))%string.
Proof.
  induction a as [|x a IH]; [reflexivity|]. rewrite !append_cons, IH. reflexivity.
Qed.

Lemma append_empty_r (a : string) : (a ++ EmptyString)%string = a.
Proof. induction a as [|x a IH]; [reflexivity|]. rewrite append_cons, IH. reflexivity. Qed.

(** A field written without quotes is read byte for byte. *)
Lemma parseCSVLine_go_bare s : forall rest current,
  without ","%char s = true -> without dquote s = true ->
  parseCSVLine_go (s ++ rest) false current = parseCSVLine_go rest false (current ++ s).
Proof.
  induction s as [|a s IH]; intros rest current Hc Hq.
  - rewrite append_nil, append_empty_r. reflexivity.
  - cbn [without] in Hc, Hq. apply andb_true_iff in Hc as [Hc1 Hc], Hq as [Hq1 Hq].
    apply negb_true_iff in Hc1, Hq1.
    change (String a s ++ rest)%string with (String a (s ++ rest)).
    cbn [parseCSVLine_go]. rewrite (Ascii.eqb_sym a dquote), Hq1, (Ascii.eqb_sym a ","%char), Hc1.
    cbn [negb andb]. rewrite IH by assumption. rewrite append_assoc. reflexivity.
Qed.

(** Inside quotes, the text with its quotes doubled is read as the text,
    up to the closing quote. *)
Lemma parseCSVLine_go_quoted v : forall rest current,
  fieldEnd rest ->
  parseCSVLine_go (ReplaceAll_go quoteStr quoteQuoteStr v 0 ++ String dquote rest) true current
  = parseCSVLine_go rest false (current ++ v).
Proof.
  induction v as [|a v IH]; intros rest current Hend.
  - rewrite append_empty_r. destruct Hend as [->|(rest' & ->)]; reflexivity.
  - rewrite ReplaceAll_go_quote. destruct (Ascii.eqb_spec dquote a) as [<-|Hne].
    + change (parseCSVLine_go
                (String dquote (String dquote
                   (ReplaceAll_go quoteStr quoteQuoteStr v 0 ++ String dquote rest)))
                true current = parseCSVLine_go rest false (current ++ String dquote v)).
      cbn [parseCSVLine_go]. rewrite Ascii.eqb_refl. simpl negb. cbv iota.
      rewrite IH by exact Hend. rewrite append_assoc. reflexivity.
    + change (parseCSVLine_go
                (String a (ReplaceAll_go quoteStr quoteQuoteStr v 0 ++ String dquote rest))
                true current = parseCSVLine_go rest false (current ++ String a v)).
      cbn [parseCSVLine_go]. apply Ascii.eqb_neq in Hne. rewrite (Ascii.eqb_sym a dquote), Hne.
      rewrite andb_false_r. rewrite IH by exact Hend. rewrite append_assoc. reflexivity.
Qed.

Lemma parseCSVLine_go_open x current :
  parseCSVLine_go (String dquote x) false current = parseCSVLine_go x true current.
Proof. cbn [parseCSVLine_go]. rewrite Ascii.eqb_refl. reflexivity. Qed.

Lemma parseCSVLine_go_comma x current :
  parseCSVLine_go ("," ++ x) false current = current :: parseCSVLine_go x false EmptyString.
Proof. reflexivity. Qed.

Lemma string_of_uint_digits d :
  without ","%char (NilEmpty.string_of_uint d) = true /\
  without dquote (NilEmpty.string_of_uint d) = true.
Proof. induction d; simpl; try tauto. Qed.

Lemma Itoa_bare i : without ","%char (Itoa i) = true /\ without dquote (Itoa i) = true.
Proof.
  unfold Itoa, NilZero.string_of_int, NilZero.string_of_uint.
  destruct (Z.to_int i) as [d|d]; destruct d; cbn [without]; simpl;
    try (split; reflexivity); apply string_of_uint_digits.
Qed.

(** The field [ToCSV] writes for a value is read back as the value's
    plain text. *)
Lemma parseCSVLine_go_field (v : Value) rest current :
  fieldEnd rest ->
  parseCSVLine_go
    (match v with
     | VNil => EmptyString
     | VInt i => formatValue (VInt i)
     | VText s => formatValue (VText s)
     | VBool b => formatValue (VBool b)
     end ++ rest) false current
  = parseCSVLine_go rest false (current ++ plain v).
Proof.
  intros Hend. destruct v as [|i|s|b]; cbn [plain].
  - rewrite append_nil, append_empty_r. reflexivity.
  - destruct (Itoa_bare i). apply parseCSVLine_go_bare; assumption.
  - cbn [formatValue]. unfold quoteStr at 1. rewrite !Contains_one.
    destruct (without ","%char s) eqn:Ec, (without dquote s) eqn:Eq; cbn [negb orb];
      try (apply parseCSVLine_go_bare; assumption).
    all: replace ((quoteStr ++ ReplaceAll s quoteStr quoteQuoteStr ++ quoteStr) ++ rest)%string
           with (String dquote (ReplaceAll_go quoteStr quoteQuoteStr s 0 ++ String dquote rest))
           by (unfold ReplaceAll; rewrite !append_assoc; reflexivity).
    all: rewrite parseCSVLine_go_open; apply parseCSVLine_go_quoted, Hend.
  - destruct b; apply parseCSVLine_go_bare; reflexivity.
Qed.

Lemma parseCSVLine_go_fields (row : gmap string Value) (cs : list string) : forall c current,
  parseCSVLine_go
    (Join (map (fun colName => match GetValue row colName with
                               | VNil => EmptyString
                               | value => formatValue value
                               end) (c :: cs)) ",") false current
  = (current ++ plain (GetValue row c))%string
    :: map (fun colName => plain (GetValue row colName)) cs.
Proof.
  induction cs as [|c' cs IH]; intros c current.
  - cbn [map]. unfold Join. cbn [String.concat].
    rewrite <- (append_empty_r (match GetValue row c with VNil => _ | _ => _ end)).
    rewrite parseCSVLine_go_field by (left; reflexivity). reflexivity.
  - change (map ?f (c :: c' :: cs)) with (f c :: map f (c' :: cs)).
    rewrite Join_cons. cbv beta.
    destruct (map _ (c' :: cs)) eqn:Em; [discriminate|]. rewrite <- Em.
    rewrite parseCSVLine_go_field by (right; eexists; reflexivity).
    rewrite parseCSVLine_go_comma. f_equal. apply (IH c' EmptyString).
Qed.

(** Property X17. The scanner of CSV lines undoes the quoting of
    [ToCSV]: the line written for a row, under at least one column,
    splits into one field per column, and each field is the plain text of
    the value - the text itself for a text, commas and quotes included,
    the decimal digits for an integer, [true] or [false] for a Boolean,
    the empty text for [nil]. Under no column the line is empty and is
    read as one empty field. *)
Theorem line_fields_are_plain_values (colNames : list string) (row : gmap string Value) :
  parseCSVLine (rowLine colNames row) =
  match colNames with
  | [] => [EmptyString]
  | _ => map (fun colName => plain (GetValue row colName)) colNames
  end.
Proof.
  destruct colNames as [|c cs]; [reflexivity|].
  unfold parseCSVLine, rowLine. rewrite parseCSVLine_go_fields. reflexivity.
Qed.

(** *** White space and [TrimSpace] *)

(** [space_width] by tests on the first byte. *)
Lemma space_width_cons c0 s0 :
  space_width (String c0 s0) =
  if isAsciiSpace c0 then 1
  else if (nat_of_ascii c0 =? 194)%nat then
    match s0 with
    | String c1 _ =>
        if (nat_of_ascii c1 =? 133)%nat || (nat_of_ascii c1 =? 160)%nat then 2 else 0
    | EmptyString => 0
    end
  else if (nat_of_ascii c0 =? 225)%nat then
    match s0 with
    | String c1 (String c2 _) =>
        if (nat_of_ascii c1 =? 154)%nat && (nat_of_ascii c2 =? 128)%nat then 3 else 0
    | _ => 0
    end
  else if (nat_of_ascii c0 =? 226)%nat then
    match s0 with
    | String c1 (String c2 _) =>
        if (nat_of_ascii c1 =? 128)%nat &&
           (((128 <=? nat_of_ascii c2)%nat && (nat_of_ascii c2 <=? 138)%nat) ||
            (nat_of_ascii c2 =? 168)%nat || (nat_of_ascii c2 =? 169)%nat ||
            (nat_of_ascii c2 =? 175)%nat)
        then 3
        else if (nat_of_ascii c1 =? 129)%nat && (nat_of_ascii c2 =? 159)%nat then 3 else 0
    | _ => 0
    end
  else if (nat_of_ascii c0 =? 227)%nat then
    match s0 with
    | String c1 (String c2 _) =>
        if (nat_of_ascii c1 =? 128)%nat && (nat_of_ascii c2 =? 128)%nat then 3 else 0
    | _ => 0
    end
  else 0.
Proof.
  destruct c0 as [[|] [|] [|] [|] [|] [|] [|] [|]];
    try reflexivity; destruct s0 as [|c1 [|c2 s2]]; reflexivity.
Qed.

(** A byte below 128 is no part of a white-space character of several
    bytes, neither its first byte nor a later one. *)
Lemma low_byte_tests c :
  nat_of_ascii c < 128 ->
  (forall k, 128 <= k -> (nat_of_ascii c =? k)%nat = false) /\
  (128 <=? nat_of_ascii c)%nat = false.
Proof.
  intros H. split.
  - intros k Hk. apply Nat.eqb_neq. lia.
  - apply Nat.leb_gt. exact H.
Qed.

Ltac settle_bytes Hk Hle :=
  rewrite ?Hk by lia; rewrite ?Hle; rewrite ?andb_false_r; rewrite ?andb_false_l;
  cbn [orb andb]; cbv iota;
  repeat match goal with
         | |- context [if ?t then _ else _] => destruct t; cbn [Nat.eqb]; cbv iota
         end;
  try reflexivity; try discriminate.

Lemma space_width_low c s :
  nat_of_ascii c < 128 -> space_width (String c s) = if isAsciiSpace c then 1 else 0.
Proof.
  intros H. destruct (low_byte_tests c H) as [Hk Hle]. rewrite space_width_cons.
  settle_bytes Hk Hle.
Qed.

(** The width of the white space a string starts with depends on its
    first three bytes, and a byte below 128 among them ends the matter. *)
Lemma space_width_after (a b : string) c :
  a <> EmptyString -> space_width a = 0 -> nat_of_ascii c < 128 ->
  space_width (a ++ String c b) = 0.
Proof.
  intros Hne Hw Hc. destruct (low_byte_tests c Hc) as [Hk Hle].
  destruct a as [|x [|y [|z a']]]; [congruence| | |].
  - rewrite space_width_cons in Hw. rewrite !append_cons, append_nil, space_width_cons.
    destruct (isAsciiSpace x); [discriminate|].
    destruct b as [|c2 b]; settle_bytes Hk Hle.
  - rewrite space_width_cons in Hw. rewrite !append_cons, append_nil, space_width_cons.
    destruct (isAsciiSpace x); [discriminate|].
    destruct (nat_of_ascii x =? 194)%nat; [exact Hw|].
    settle_bytes Hk Hle.
  - rewrite space_width_cons in Hw. rewrite !append_cons, space_width_cons. exact Hw.
Qed.

Lemma space_width_rev_cons c0 r0 :
  space_width_rev (String c0 r0) =
  if isAsciiSpace c0 then 1
  else match r0 with
       | String c1 r1 =>
           if (space_width (String c1 (String c0 EmptyString)) =? 2)%nat then 2
           else match r1 with
                | String c2 _ =>
                    if (space_width (String c2 (String c1 (String c0 EmptyString))) =? 3)%nat
                    then 3 else 0
                | EmptyString => 0
                end
       | EmptyString => 0
       end.
Proof. reflexivity. Qed.

(** A lead byte below 128 starts no white space of several bytes. *)
Lemma space_width_low_lead c s n :
  nat_of_ascii c < 128 -> 2 <= n -> (space_width (String c s) =? n)%nat = false.
Proof.
  intros H Hn. rewrite (space_width_low c s H). apply Nat.eqb_neq.
  destruct (isAsciiSpace c); lia.
Qed.

(** Nor is a byte below 128 the second or third byte of one. *)
Lemma space_width_low_second c0 c s :
  nat_of_ascii c < 128 -> (space_width (String c0 (String c s)) =? 2)%nat = false.
Proof.
  intros H. destruct (low_byte_tests c H) as [Hk Hle]. rewrite space_width_cons.
  destruct s as [|c2 s]; settle_bytes Hk Hle.
Qed.

Lemma space_width_low_second3 c0 c s :
  nat_of_ascii c < 128 -> (space_width (String c0 (String c s)) =? 3)%nat = false.
Proof.
  intros H. destruct (low_byte_tests c H) as [Hk Hle]. rewrite space_width_cons.
  destruct s as [|c2 s]; settle_bytes Hk Hle.
Qed.

Lemma space_width_low_third c0 c1 c s :
  nat_of_ascii c < 128 ->
  (space_width (String c0 (String c1 (String c s))) =? 3)%nat = false.
Proof.
  intros H. destruct (low_byte_tests c H) as [Hk Hle]. rewrite space_width_cons.
  settle_bytes Hk Hle.
Qed.

Lemma space_width_rev_low c r :
  nat_of_ascii c < 128 -> space_width_rev (String c r) = if isAsciiSpace c then 1 else 0.
Proof.
  intros H. rewrite space_width_rev_cons.
  destruct (isAsciiSpace c); [reflexivity|].
  destruct r as [|c1 r1]; [reflexivity|].
  rewrite (space_width_low_second c1 c EmptyString H).
  destruct r1 as [|c2 r2]; [reflexivity|].
  rewrite (space_width_low_third c2 c1 c EmptyString H). reflexivity.
Qed.

(** The same at the end of a string, read backwards. *)
Lemma space_width_rev_before (r q : string) c :
  r <> EmptyString -> space_width_rev r = 0 -> nat_of_ascii c < 128 ->
  space_width_rev (r ++ String c q) = 0.
Proof.
  intros Hne Hw Hc.
  destruct r as [|x [|y [|z r']]]; [congruence| | |].
  - rewrite space_width_rev_cons in Hw. rewrite !append_cons, append_nil, space_width_rev_cons.
    destruct (isAsciiSpace x); [discriminate|].
    rewrite (space_width_low_lead c _ 2 Hc) by lia.
    destruct q as [|c2 q]; [reflexivity|].
    rewrite (space_width_low_second3 c2 c _ Hc). reflexivity.
  - rewrite space_width_rev_cons in Hw. rewrite !append_cons, append_nil, space_width_rev_cons.
    destruct (isAsciiSpace x); [discriminate|].
    destruct (space_width (String y (String x EmptyString)) =? 2)%nat; [discriminate|].
    rewrite (space_width_low_lead c _ 3 Hc) by lia. reflexivity.
  - rewrite space_width_rev_cons in Hw. rewrite !append_cons, space_width_rev_cons. exact Hw.
Qed.

Lemma trimLeft_go_zero space (s : string) : space s = 0 -> trimLeft_go space s 0 = s.
Proof. intros H. destruct s as [|a s]; [reflexivity|]. cbn [trimLeft_go]. rewrite H. reflexivity. Qed.

Lemma trimLeft_go_length space (s : string) : forall skip,
  String.length (trimLeft_go space s skip) <= String.length s.
Proof.
  induction s as [|a s IH]; intros skip; [simpl; lia|].
  cbn [trimLeft_go]. destruct skip as [|k].
  - destruct (space (String a s)) as [|k]; [lia|]. specialize (IH k). simpl. lia.
  - specialize (IH k). simpl. lia.
Qed.

Lemma trimLeft_go_shorter space (s : string) :
  s <> EmptyString -> space s <> 0 ->
  String.length (trimLeft_go space s 0) < String.length s.
Proof.
  intros Hne Hs. destruct s as [|a s]; [congruence|]. cbn [trimLeft_go].
  destruct (space (String a s)) as [|k]; [congruence|].
  pose proof (trimLeft_go_length space s k). simpl. lia.
Qed.

Lemma string_of_list_length (l : list ascii) :
  String.length (string_of_list_ascii l) = length l.
Proof. induction l as [|a l IH]; simpl; [reflexivity|]. rewrite IH. reflexivity. Qed.

Lemma list_of_string_length (s : string) :
  length (list_ascii_of_string s) = String.length s.
Proof. induction s as [|a s IH]; simpl; [reflexivity|]. rewrite IH. reflexivity. Qed.

Lemma string_rev_length (s : string) : String.length (string_rev s) = String.length s.
Proof.
  unfold string_rev. rewrite string_of_list_length, length_rev. apply list_of_string_length.
Qed.

Lemma string_rev_involutive (s : string) : string_rev (string_rev s) = s.
Proof.
  unfold string_rev. rewrite list_ascii_of_string_of_list_ascii, rev_involutive.
  apply string_of_list_ascii_of_string.
Qed.

Lemma string_of_list_app (l k : list ascii) :
  string_of_list_ascii (l ++ k) = (string_of_list_ascii l ++ string_of_list_ascii k)%string.
Proof. induction l as [|a l IH]; [reflexivity|]. simpl. rewrite IH. reflexivity. Qed.

Lemma list_of_string_app (s t : string) :
  list_ascii_of_string (s ++ t) = list_ascii_of_string s ++ list_ascii_of_string t.
Proof. induction s as [|a s IH]; [reflexivity|]. rewrite append_cons. simpl. rewrite IH. reflexivity. Qed.

Lemma string_rev_app (s t : string) :
  string_rev (s ++ t) = (string_rev t ++ string_rev s)%string.
Proof.
  unfold string_rev. rewrite list_of_string_app, rev_app_distr. apply string_of_list_app.
Qed.

Lemma string_rev_cons a (s : string) :
  string_rev (String a s) = (string_rev s ++ String a EmptyString)%string.
Proof. apply (string_rev_app (String a EmptyString) s). Qed.

Lemma string_rev_empty (s : string) : string_rev s = EmptyString -> s = EmptyString.
Proof.
  intros H. apply (f_equal String.length) in H. rewrite string_rev_length in H.
  destruct s; [reflexivity|discriminate].
Qed.

(** A string that neither starts nor ends with white space is what
    [TrimSpace] makes of itself, and no other string beside the empty one
    is. *)
Lemma TrimSpace_id (s : string) :
  space_width s = 0 -> space_width_rev (string_rev s) = 0 -> TrimSpace s = s.
Proof.
  intros H1 H2. unfold TrimSpace. rewrite (trimLeft_go_zero _ s H1).
  rewrite (trimLeft_go_zero _ _ H2). apply string_rev_involutive.
Qed.

Lemma TrimSpace_length (s : string) : String.length (TrimSpace s) <= String.length s.
Proof.
  unfold TrimSpace. rewrite string_rev_length.
  etransitivity; [apply trimLeft_go_length|]. rewrite string_rev_length.
  apply trimLeft_go_length.
Qed.

Lemma TrimSpace_fixed (s : string) :
  TrimSpace s = s -> s <> EmptyString ->
  space_width s = 0 /\ space_width_rev (string_rev s) = 0.
Proof.
  intros Hfix Hne.
  assert (H1 : space_width s = 0).
  { destruct (Nat.eq_dec (space_width s) 0) as [E|E]; [exact E|exfalso].
    pose proof (trimLeft_go_shorter space_width s Hne E) as Hlt.
    apply (f_equal String.length) in Hfix. unfold TrimSpace in Hfix.
    rewrite string_rev_length in Hfix.
    pose proof (trimLeft_go_length space_width_rev
                  (string_rev (trimLeft_go space_width s 0)) 0) as Hle.
    rewrite string_rev_length in Hle. lia. }
  split; [exact H1|].
  destruct (Nat.eq_dec (space_width_rev (string_rev s)) 0) as [E|E]; [exact E|exfalso].
  unfold TrimSpace in Hfix. rewrite (trimLeft_go_zero _ s H1) in Hfix.
  assert (Hne' : string_rev s <> EmptyString) by (intros H; apply Hne, string_rev_empty, H).
  pose proof (trimLeft_go_shorter space_width_rev (string_rev s) Hne' E) as Hlt.
  apply (f_equal String.length) in Hfix. rewrite !string_rev_length in *. lia.
Qed.

Lemma TrimSpace_empty : TrimSpace EmptyString = EmptyString.
Proof. reflexivity. Qed.

(** *** Values *)

Lemma digits_value_acc d : forall acc : positive,
  digits_value (NilEmpty.string_of_uint d) (Z.pos acc) = Some (Z.pos (Pos.of_uint_acc d acc)).
Proof.
  induction d; intros acc; simpl; [reflexivity|..]; rewrite <- IHd; f_equal;
    match goal with
    | |- context [nat_of_ascii ?c] =>
        let n := eval vm_compute in (nat_of_ascii c) in change (nat_of_ascii c) with n
    end; lia.
Qed.

Lemma digits_value_uint d :
  digits_value (NilEmpty.string_of_uint d) 0 = Some (Z.of_N (Pos.of_uint d)).
Proof.
  induction d; simpl; [reflexivity|exact IHd|..]; apply digits_value_acc.
Qed.

Lemma string_of_uint_first d :
  d <> Decimal.Nil ->
  exists c rest, NilEmpty.string_of_uint d = String c rest /\
                 isDecimalDigit c = true /\ nat_of_ascii c < 128 /\ isAsciiSpace c = false.
Proof.
  destruct d; [congruence|..]; intros _; eexists _, _;
    (split; [reflexivity|]); (split; [reflexivity|]);
    (split; [apply Nat.ltb_lt; reflexivity|reflexivity]).
Qed.

Lemma Atoi_digits c rest n :
  isDecimalDigit c = true -> digits_value (String c rest) 0 = Some n ->
  Atoi (String c rest) =
  if (minInt <=? n)%Z && (n <=? maxInt)%Z then Some n else None.
Proof.
  intros Hc Hv. unfold Atoi.
  assert (H1 : Ascii.eqb c "-"%char = false).
  { destruct (Ascii.eqb_spec c "-"%char) as [->|]; [discriminate|reflexivity]. }
  assert (H2 : Ascii.eqb c "+"%char = false).
  { destruct (Ascii.eqb_spec c "+"%char) as [->|]; [discriminate|reflexivity]. }
  rewrite H1, H2, Hv. reflexivity.
Qed.

Lemma Atoi_minus c rest n :
  digits_value (String c rest) 0 = Some n ->
  Atoi (String "-"%char (String c rest)) =
  if (minInt <=? - n)%Z && (- n <=? maxInt)%Z then Some (- n)%Z else None.
Proof. intros Hv. unfold Atoi. cbn [Ascii.eqb Bool.eqb]. cbv iota. rewrite Hv. reflexivity. Qed.

(** [Atoi] reads what [Itoa] writes, when the number fits an [int]. *)
Lemma Atoi_Itoa (i : Z) :
  Atoi (Itoa i) = if (minInt <=? i)%Z && (i <=? maxInt)%Z then Some i else None.
Proof.
  unfold Itoa. destruct i as [|p|p]; [reflexivity| |].
  - cbn [Z.to_int NilZero.string_of_int]. unfold NilZero.string_of_uint.
    pose proof (Unsigned.to_uint_nonnil p) as Hnn.
    destruct (string_of_uint_first _ Hnn) as (c & rest & Hs & Hc & _).
    pose proof (digits_value_uint (Pos.to_uint p)) as Hv.
    rewrite DecimalPos.Unsigned.of_to in Hv. simpl Z.of_N in Hv.
    destruct (Pos.to_uint p) eqn:Ep; [congruence|..]; rewrite Hs in *;
      apply (Atoi_digits c rest (Z.pos p) Hc Hv).
  - cbn [Z.to_int NilZero.string_of_int]. unfold NilZero.string_of_uint.
    pose proof (Unsigned.to_uint_nonnil p) as Hnn.
    destruct (string_of_uint_first _ Hnn) as (c & rest & Hs & Hc & _).
    pose proof (digits_value_uint (Pos.to_uint p)) as Hv.
    rewrite DecimalPos.Unsigned.of_to in Hv. simpl Z.of_N in Hv.
    destruct (Pos.to_uint p) eqn:Ep; [congruence|..]; rewrite Hs in *;
      apply (Atoi_minus c rest (Z.pos p) Hv).
Qed.

Lemma string_of_uint_last d :
  d <> Decimal.Nil ->
  exists c rest, string_rev (NilEmpty.string_of_uint d) = String c rest /\
                 nat_of_ascii c < 128 /\ isAsciiSpace c = false.
Proof.
  induction d; [congruence|..]; intros _; cbn [NilEmpty.string_of_uint];
    rewrite string_rev_cons;
    (destruct d;
     [ eexists _, _; split; [reflexivity|];
       split; [apply Nat.ltb_lt; reflexivity|reflexivity]
     | destruct IHd as (c & rest & -> & Hc); [discriminate|];
       eexists _, _; rewrite append_cons; split; [reflexivity|exact Hc] .. ]).
Qed.

(** A string whose first and last bytes are below 128 and no white space
    is left alone by [TrimSpace]. *)
Lemma TrimSpace_low_ends (s : string) c0 s0 c1 r1 :
  s = String c0 s0 -> nat_of_ascii c0 < 128 -> isAsciiSpace c0 = false ->
  string_rev s = String c1 r1 -> nat_of_ascii c1 < 128 -> isAsciiSpace c1 = false ->
  TrimSpace s = s.
Proof.
  intros Hs H0 Hn0 Hr H1 Hn1. apply TrimSpace_id.
  - rewrite Hs, space_width_low, Hn0 by exact H0. reflexivity.
  - rewrite Hr, space_width_rev_low, Hn1 by exact H1. reflexivity.
Qed.

Lemma TrimSpace_Itoa (i : Z) : TrimSpace (Itoa i) = Itoa i /\ Itoa i <> EmptyString.
Proof.
  unfold Itoa. destruct i as [|p|p]; [split; [reflexivity|discriminate]| |];
    cbn [Z.to_int NilZero.string_of_int]; unfold NilZero.string_of_uint;
    pose proof (Unsigned.to_uint_nonnil p) as Hnn;
    destruct (string_of_uint_first _ Hnn) as (c & rest & Hs & _ & Hc & Hsp);
    destruct (string_of_uint_last _ Hnn) as (c' & rest' & Hs' & Hc' & Hsp');
    (destruct (Pos.to_uint p) eqn:Ep; [congruence|..]).
  all: split; [|try discriminate; rewrite Hs; discriminate].
  all: try (eapply TrimSpace_low_ends; eauto; fail).
  all: eapply TrimSpace_low_ends;
    [ reflexivity | apply Nat.ltb_lt; reflexivity | reflexivity
    | rewrite string_rev_cons, Hs', append_cons; reflexivity | exact Hc' | exact Hsp' ].
Qed.

Lemma parseValue_integer (i : Z) :
  parseValue (Itoa i) DATATYPE_INTEGER =
  if (minInt <=? i)%Z && (i <=? maxInt)%Z then Ok (VInt i) else Err (ErrParseInt (Itoa i)).
Proof.
  unfold parseValue. destruct (TrimSpace_Itoa i) as [-> Hne].
  destruct (String.eqb_spec (Itoa i) EmptyString) as [E|_]; [congruence|].
  rewrite Atoi_Itoa. destruct ((minInt <=? i)%Z && (i <=? maxInt)%Z); reflexivity.
Qed.

Lemma ReplaceAll_go_length s : forall skip,
  String.length (ReplaceAll_go quoteQuoteStr quoteStr s skip) <= String.length s.
Proof.
  induction s as [|a s IH]; intros skip; [simpl; lia|].
  cbn [ReplaceAll_go]. destruct skip as [|k].
  - destruct (String.prefix quoteQuoteStr (String a s)).
    + change (quoteStr ++ ?x)%string with (String dquote x).
      specialize (IH (String.length quoteQuoteStr - 1)). simpl in *. lia.
    + specialize (IH 0). simpl. lia.
  - specialize (IH k). simpl. lia.
Qed.

Lemma substring_length m n (s : string) : String.length (String.substring m n s) <= n.
Proof.
  revert m n. induction s as [|a s IH]; intros m n.
  - destruct m, n; simpl; lia.
  - destruct m as [|m]; [destruct n as [|n]; simpl; [lia|]|simpl; apply IH].
    specialize (IH 0 n). lia.
Qed.

Lemma quoted_length (s : string) : quoted s = true -> 2 <= String.length s.
Proof.
  unfold quoted. destruct s as [|a s]; [discriminate|].
  intros H. apply andb_true_iff in H as [H _]. apply andb_true_iff in H as [H _].
  apply Nat.leb_le, H.
Qed.

(** The three outcomes of [parseValue] on a text field. *)
Lemma parseValue_text (s : string) :
  parseValue s DATATYPE_TEXT =
  if String.eqb (TrimSpace s) EmptyString then Ok VNil
  else if quoted (TrimSpace s)
       then Ok (VText (ReplaceAll
                         (String.substring 1 (String.length (TrimSpace s) - 2) (TrimSpace s))
                         quoteQuoteStr quoteStr))
       else Ok (VText (TrimSpace s)).
Proof.
  unfold parseValue, quoted. destruct (String.eqb (TrimSpace s) EmptyString); [reflexivity|].
  destruct (TrimSpace s) as [|first rest]; reflexivity.
Qed.

(** Property X18. A field of a CSV line is read back as the value it
    was written for exactly when the value is an integer of 64 bits, a
    Boolean, or a text that is not empty, neither starts nor ends with
    white space and is not held in double quotes: every other text comes
    back changed, or as [nil]. *)
Theorem field_read_back (v : Value) (ty : DataType) :
  typeOf v = Some ty ->
  (parseValue (plain v) ty = Ok v <-> readable v = true).
Proof.
  destruct v as [|i|s|b]; cbn [typeOf plain readable]; try discriminate; intros [= <-].
  - rewrite parseValue_integer.
    destruct ((minInt <=? i)%Z && (i <=? maxInt)%Z); split; congruence.
  - rewrite parseValue_text. split.
    + destruct (String.eqb_spec (TrimSpace s) EmptyString) as [E|Hne]; [discriminate|].
      destruct (quoted (TrimSpace s)) eqn:Eq.
      * intros [= H]. exfalso. apply (f_equal String.length) in H.
        pose proof (quoted_length _ Eq). pose proof (TrimSpace_length s).
        pose proof (ReplaceAll_go_length
                      (String.substring 1 (String.length (TrimSpace s) - 2) (TrimSpace s)) 0).
        pose proof (substring_length 1 (String.length (TrimSpace s) - 2) (TrimSpace s)).
        unfold ReplaceAll in H. lia.
      * intros [= H]. rewrite H in *. rewrite Eq, String.eqb_refl.
        destruct (String.eqb_spec s EmptyString); [congruence|reflexivity].
    + intros H. apply andb_true_iff in H as [H Hq]. apply andb_true_iff in H as [Hne Htrim].
      apply String.eqb_eq in Htrim. rewrite Htrim.
      apply negb_true_iff in Hne, Hq. rewrite Hne, Hq. reflexivity.
  - destruct b; split; reflexivity.
Qed.

(** *** Lines *)

Lemma low_comma : nat_of_ascii ","%char < 128.
Proof. apply Nat.ltb_lt. reflexivity. Qed.

Lemma readable_text (s : string) :
  readable (VText s) = true ->
  s <> EmptyString /\ space_width s = 0 /\ space_width_rev (string_rev s) = 0.
Proof.
  cbn [readable]. intros H. apply andb_true_iff in H as [H _].
  apply andb_true_iff in H as [Hne Htrim]. apply String.eqb_eq in Htrim.
  assert (s <> EmptyString).
  { intros ->. discriminate. }
  split; [assumption|]. apply TrimSpace_fixed; assumption.
Qed.

(** The field of a readable value is not empty and neither starts nor
    ends with white space, whatever follows or precedes it on the line. *)
Lemma field_start (v : Value) (rest : string) :
  readable v = true -> fieldEnd rest ->
  fieldOf v <> EmptyString /\ space_width (fieldOf v ++ rest) = 0.
Proof.
  intros Hr Hend. destruct v as [|i|s|b]; [discriminate| | |].
  - cbn [formatValue]. destruct (TrimSpace_Itoa i) as [Htrim Hne]. split; [exact Hne|].
    apply TrimSpace_fixed in Htrim as [Hw _]; [|exact Hne].
    destruct Hend as [->|(rest' & ->)]; [rewrite append_empty_r; exact Hw|].
    apply space_width_after; [exact Hne|exact Hw|exact low_comma].
  - apply readable_text in Hr as (Hne & Hw & _). cbn [formatValue].
    destruct (Contains s "," || Contains s quoteStr).
    + split; [discriminate|]. reflexivity.
    + split; [exact Hne|].
      destruct Hend as [->|(rest' & ->)]; [rewrite append_empty_r; exact Hw|].
      apply space_width_after; [exact Hne|exact Hw|exact low_comma].
  - destruct b; (split; [discriminate|reflexivity]).
Qed.

Lemma string_rev_quoted (x : string) :
  string_rev (quoteStr ++ x ++ quoteStr) = String dquote (string_rev x ++ quoteStr).
Proof.
  rewrite !string_rev_app. reflexivity.
Qed.

Lemma field_end (v : Value) (q : string) :
  readable v = true -> fieldEnd q ->
  space_width_rev (string_rev (fieldOf v) ++ q) = 0.
Proof.
  intros Hr Hend. destruct v as [|i|s|b]; [discriminate| | |].
  - cbn [formatValue]. destruct (TrimSpace_Itoa i) as [Htrim Hne].
    apply TrimSpace_fixed in Htrim as [_ Hw]; [|exact Hne].
    destruct Hend as [->|(rest' & ->)]; [rewrite append_empty_r; exact Hw|].
    apply space_width_rev_before; [|exact Hw|exact low_comma].
    intros H. apply Hne, string_rev_empty, H.
  - apply readable_text in Hr as (Hne & _ & Hw). cbn [formatValue].
    destruct (Contains s "," || Contains s quoteStr).
    + rewrite string_rev_quoted, append_cons.
      rewrite space_width_rev_low by (apply Nat.ltb_lt; reflexivity). reflexivity.
    + destruct Hend as [->|(rest' & ->)]; [rewrite append_empty_r; exact Hw|].
      apply space_width_rev_before; [|exact Hw|exact low_comma].
      intros H. apply Hne, string_rev_empty, H.
  - destruct b; reflexivity.
Qed.

Lemma without_app c (a b : string) : without c (a ++ b) = without c a && without c b.
Proof.
  induction a as [|x a IH]; [reflexivity|]. rewrite append_cons. cbn [without].
  rewrite IH, andb_assoc. reflexivity.
Qed.

Lemma without_Join c sep (l : list string) :
  without c sep = true -> Forall (fun s => without c s = true) l ->
  without c (Join l sep) = true.
Proof.
  intros Hsep. induction 1 as [|s l Hs _ IH]; [reflexivity|].
  rewrite Join_cons. destruct l as [|s' l']; [exact Hs|].
  rewrite !without_app, Hs, Hsep, IH. reflexivity.
Qed.

Lemma without_ReplaceAll_quote c (s : string) :
  Ascii.eqb c dquote = false ->
  without c (ReplaceAll_go quoteStr quoteQuoteStr s 0) = without c s.
Proof.
  intros Hc. induction s as [|a s IH]; [reflexivity|].
  rewrite ReplaceAll_go_quote. destruct (Ascii.eqb_spec dquote a) as [<-|Hne].
  - cbn [without]. rewrite Hc, IH. reflexivity.
  - cbn [without]. rewrite IH. reflexivity.
Qed.

Lemma without_newline_uint d : without newlineByte (NilEmpty.string_of_uint d) = true.
Proof.
  induction d; [reflexivity|..]; cbn [NilEmpty.string_of_uint without];
    rewrite IHd; reflexivity.
Qed.

Lemma without_newline_Itoa i : without newlineByte (Itoa i) = true.
Proof.
  unfold Itoa, NilZero.string_of_int, NilZero.string_of_uint.
  destruct (Z.to_int i) as [d|d]; destruct d; try reflexivity; cbn [without];
    try (apply without_newline_uint);
    change (negb (Ascii.eqb newlineByte "-"%char)) with true; cbn [andb];
    apply without_newline_uint.
Qed.

Lemma without_newline_field (v : Value) :
  storable v = true -> without newlineByte (fieldOf v) = true.
Proof.
  unfold storable. intros H. apply andb_true_iff in H as [_ H].
  destruct v as [|i|s|b]; [reflexivity| | |].
  - apply without_newline_Itoa.
  - cbn [formatValue]. destruct (Contains s "," || Contains s quoteStr); [|exact H].
    unfold ReplaceAll. rewrite !without_app, without_ReplaceAll_quote, H by reflexivity.
    reflexivity.
  - destruct b; reflexivity.
Qed.

Lemma Join_snoc (l : list string) (x sep : string) :
  Join (l ++ [x]) sep = match l with [] => x | _ => (Join l sep ++ sep ++ x)%string end.
Proof.
  induction l as [|s l IH]; [reflexivity|].
  change ((s :: l) ++ [x]) with (s :: (l ++ [x])). rewrite Join_cons, IH.
  destruct l as [|s' l']; [reflexivity|].
  change ((s' :: l') ++ [x]) with (s' :: (l' ++ [x])). cbv iota.
  rewrite (Join_cons s (s' :: l')). rewrite !append_assoc. reflexivity.
Qed.

(** The line of a row of storable values is not empty, holds no line
    feed, and is left alone by [TrimSpace]. *)
Lemma rowLine_trimmed (colNames : list string) (row : gmap string Value) :
  colNames <> [] ->
  Forall (fun c => storable (GetValue row c) = true) colNames ->
  rowLine colNames row <> EmptyString /\
  TrimSpace (rowLine colNames row) = rowLine colNames row /\
  without newlineByte (rowLine colNames row) = true.
Proof.
  intros Hne Hall.
  assert (Hread : Forall (fun c => readable (GetValue row c) = true) colNames).
  { eapply list.Forall_impl; [exact Hall|]. intros c H. unfold storable in H.
    apply andb_true_iff in H as [H _]. exact H. }
  assert (Hstart : rowLine colNames row <> EmptyString /\
                   space_width (rowLine colNames row) = 0).
  { destruct colNames as [|c cs]; [congruence|]. unfold rowLine. cbn [map].
    apply list.Forall_cons in Hread as [Hc _]. rewrite Join_cons.
    destruct (map _ cs) eqn:Em.
    - destruct (field_start (GetValue row c) EmptyString Hc) as [H1 H2]; [left; reflexivity|].
      rewrite append_empty_r in H2. split; assumption.
    - destruct (field_start (GetValue row c) ("," ++ Join (s :: l) ",") Hc) as [H1 H2];
        [right; eexists; reflexivity|].
      split; [|exact H2]. intros H. apply H1.
      destruct (fieldOf (GetValue row c)); [reflexivity|discriminate]. }
  destruct Hstart as [Hnonempty Hstart]. split; [exact Hnonempty|]. split.
  - apply TrimSpace_id; [exact Hstart|].
    destruct (exists_last Hne) as (init & c & ->).
    apply list.Forall_app in Hread as [_ Hc]. apply list.Forall_cons in Hc as [Hc _].
    unfold rowLine. rewrite map_app. cbn [map]. rewrite Join_snoc.
    destruct (map _ init) eqn:Em.
    + pose proof (field_end (GetValue row c) EmptyString Hc) as H.
      rewrite append_empty_r in H. apply H. left. reflexivity.
    + rewrite !string_rev_app, append_assoc.
      apply (field_end (GetValue row c)); [exact Hc|].
      right. eexists. reflexivity.
  - unfold rowLine. apply without_Join; [reflexivity|].
    apply list.Forall_forall. intros s Hs.
    apply (list_elem_of_fmap _ colNames) in Hs as (c & -> & Hc).
    rewrite list.Forall_forall in Hall. apply without_newline_field, Hall, Hc.
Qed.

(** *** The schema line *)

Ltac evaluate_tail name :=
  match goal with
  | |- context [(name ++ ?tail)%string] =>
      let r := eval vm_compute in tail in change tail with r
  end.

Lemma colDef_parts (col : Column) :
  storableName (col_Name col) = true ->
  TrimSpace (colDefOf col) = colDefOf col /\
  without ","%char (colDefOf col) = true /\
  without newlineByte (colDefOf col) = true /\
  exists typ flags,
    Split (colDefOf col) ":" = col_Name col :: typ :: flags /\
    parseDataType typ = col_DataType col /\
    columnFlags flags false false = (col_PrimaryKey col, col_Unique col).
Proof.
  destruct col as [name dt pk uq]. unfold storableName, colDefOf.
  cbn [col_Name col_DataType col_PrimaryKey col_Unique]. intros H.
  apply andb_true_iff in H as [H Hw]. apply andb_true_iff in H as [H Hnl].
  apply andb_true_iff in H as [Hcomma Hcolon]. apply Nat.eqb_eq in Hw.
  assert (Hlow : forall c, (nat_of_ascii c <? 128)%nat = true -> nat_of_ascii c < 128).
  { intros c Hc. apply Nat.ltb_lt, Hc. }
  destruct dt, pk, uq; evaluate_tail name.
  all: split; [apply TrimSpace_id;
                [destruct name as [|a name'];
                 [rewrite append_nil; rewrite space_width_low by (apply Hlow; reflexivity);
                  reflexivity
                 |apply space_width_after; [discriminate|exact Hw|apply Hlow; reflexivity]]
                |rewrite string_rev_app;
                 match goal with
                 | |- context [string_rev ?tail] =>
                     let r := eval vm_compute in (string_rev tail) in
                     change (string_rev tail) with r
                 end;
                 rewrite append_cons;
                 rewrite space_width_rev_low by (apply Hlow; reflexivity); reflexivity]|].
  all: split; [rewrite without_app, Hcomma; reflexivity|].
  all: split; [rewrite without_app, Hnl; reflexivity|].
  all: rewrite (Split_first ":"%char name _ Hcolon);
    match goal with
    | |- context [Split ?tail ?sep] =>
        let r := eval vm_compute in (Split tail sep) in change (Split tail sep) with r
    end;
    do 2 eexists; split; [reflexivity|]; split; reflexivity.
Qed.

Lemma parseColumns_colDefs (columns : list Column) :
  Forall (fun col => storableName (col_Name col) = true) columns ->
  parseColumns (map colDefOf columns) = Ok columns.
Proof.
  induction 1 as [|col rest Hcol _ IH]; [reflexivity|].
  destruct (colDef_parts col Hcol) as (Htrim & _ & _ & typ & flags & Hsplit & Htyp & Hflags).
  cbn [map parseColumns]. rewrite Htrim, Hsplit, Hflags, IH, Htyp.
  destruct col; reflexivity.
Qed.

(** The first line of [ToCSV] is read back as the columns of the table. *)
Lemma schema_line_columns (columns : list Column) :
  columns <> [] ->
  Forall (fun col => storableName (col_Name col) = true) columns ->
  let schemaLine := ("# SCHEMA: " ++ Join (map colDefOf columns) ",")%string in
  HasPrefix schemaLine "# SCHEMA: " = true /\
  parseColumns (Split (TrimPrefix schemaLine "# SCHEMA: ") ",") = Ok columns /\
  without newlineByte schemaLine = true.
Proof.
  intros Hne Hall schemaLine. subst schemaLine. split; [apply prefix_app|]. split.
  - rewrite TrimPrefix_app.
    rewrite (Split_Join ","%char).
    + apply parseColumns_colDefs, Hall.
    + destruct columns; [congruence|discriminate].
    + apply list.Forall_forall. intros s Hs.
      apply (list_elem_of_fmap _ columns) in Hs as (col & -> & Hcol).
      rewrite list.Forall_forall in Hall. apply (colDef_parts col (Hall col Hcol)).
  - rewrite without_app. apply andb_true_iff. split; [reflexivity|].
    apply without_Join; [reflexivity|].
    apply list.Forall_forall. intros s Hs.
    apply (list_elem_of_fmap _ columns) in Hs as (col & -> & Hcol).
    rewrite list.Forall_forall in Hall. apply (colDef_parts col (Hall col Hcol)).
Qed.

(** *** The data lines *)

Lemma parseValue_plain (v : Value) (ty : DataType) :
  typeOf v = Some ty -> readable v = true -> parseValue (plain v) ty = Ok v.
Proof.
  destruct v as [|i|s|b]; cbn [typeOf plain readable]; try discriminate; intros [= <-] H.
  - rewrite parseValue_integer, H. reflexivity.
  - rewrite parseValue_text.
    apply andb_true_iff in H as [H Hq]. apply andb_true_iff in H as [Hne Htrim].
    apply String.eqb_eq in Htrim. rewrite Htrim.
    apply negb_true_iff in Hne, Hq. rewrite Hne, Hq. reflexivity.
  - destruct b; reflexivity.
Qed.

Lemma cell_value (row : Row) (col : Column) :
  cell row col ->
  row !! col_Name col = Some (GetValue row (col_Name col)) /\
  typeOf (GetValue row (col_Name col)) = Some (col_DataType col) /\
  storable (GetValue row (col_Name col)) = true /\
  readable (GetValue row (col_Name col)) = true /\
  GetValue row (col_Name col) <> VNil.
Proof.
  intros (v & Hl & Ht & Hs). unfold GetValue. rewrite Hl. simpl.
  split; [reflexivity|]. split; [exact Ht|]. split; [exact Hs|]. split.
  - unfold storable in Hs. apply andb_true_iff in Hs as [Hs _]. exact Hs.
  - intros ->. discriminate.
Qed.

Lemma parseFields_plain (row0 : Row) (r : nat) : forall columns (h : Heap),
  Forall (cell row0) columns ->
  exists h1,
    parseFields h r columns (map (fun col => plain (GetValue row0 (col_Name col))) columns)
    = (h1, None) /\
    (forall l, l <> r -> h1 !! l = h !! l) /\
    (is_Some (h !! r) -> is_Some (h1 !! r)) /\
    (forall c, c ∉ map col_Name columns -> deref h1 r !! c = deref h r !! c) /\
    (forall c, c ∈ map col_Name columns -> deref h1 r !! c = Some (GetValue row0 c)).
Proof.
  induction columns as [|col rest IH]; intros h Hall.
  - exists h. split; [reflexivity|]. split; [auto|]. split; [auto|]. split; [auto|].
    intros c Hc. inversion Hc.
  - apply list.Forall_cons in Hall as [Hcol Hall].
    destruct (cell_value row0 col Hcol) as (_ & Hty & _ & Hread & _).
    cbn [map parseFields]. rewrite (parseValue_plain _ _ Hty Hread).
    destruct (IH (SetValue h r (col_Name col) (GetValue row0 (col_Name col))) Hall)
      as (h1 & Hrun & Hother & Hsome & Hkeep & Hset).
    exists h1. split; [exact Hrun|]. split; [|split; [|split]].
    + intros l Hne. rewrite Hother by exact Hne. apply lookup_SetValue_other, Hne.
    + intros _. apply Hsome. unfold SetValue. rewrite lookup_insert_eq. eauto.
    + intros c Hc. apply not_elem_of_cons in Hc as [Hne Hc].
      rewrite Hkeep by exact Hc. rewrite deref_SetValue_same. apply lookup_insert_ne. congruence.
    + intros c Hc. destruct (decide (c ∈ map col_Name rest)) as [Hin|Hnin]; [apply Hset, Hin|].
      apply elem_of_cons in Hc as [->|Hc]; [|contradiction].
      rewrite Hkeep by exact Hnin. rewrite deref_SetValue_same. apply lookup_insert_eq.
Qed.

(** Loading the line of one row: the line is kept by [TrimSpace], has
    one field for each column, and the fields fill a new row with the
    values of the old one. *)
Lemma load_one (hc : Heap) (columns : list Column) (row0 : Row) :
  columns <> [] -> Forall (cell row0) columns ->
  let line := rowLine (map col_Name columns) row0 in
  let r := fresh (dom hc) in
  exists h1,
    TrimSpace line = line /\ String.eqb line EmptyString = false /\
    (length (parseCSVLine line) =? length columns)%nat = true /\
    parseFields (<[r := ∅]> hc) r columns (parseCSVLine line) = (h1, None) /\
    (forall l, l <> r -> h1 !! l = hc !! l) /\ r ∈ dom h1 /\
    agree columns row0 (deref h1 r).
Proof.
  intros Hne Hcells line r.
  assert (Hnames : map col_Name columns <> []) by (destruct columns; [congruence|discriminate]).
  assert (Hstor : Forall (fun c => storable (GetValue row0 c) = true) (map col_Name columns)).
  { apply list.Forall_forall. intros c Hc.
    apply (list_elem_of_fmap _ columns) in Hc as (col & -> & Hcol).
    rewrite list.Forall_forall in Hcells. apply (cell_value row0 col (Hcells col Hcol)). }
  destruct (rowLine_trimmed _ row0 Hnames Hstor) as (Hnonempty & Htrim & _).
  assert (Hfields : parseCSVLine line
                    = map (fun col => plain (GetValue row0 (col_Name col))) columns).
  { subst line. unfold parseCSVLine, rowLine.
    destruct columns as [|c cs]; [congruence|].
    change (map col_Name (c :: cs)) with (col_Name c :: map col_Name cs).
    rewrite (parseCSVLine_go_fields row0 (map col_Name cs) (col_Name c) EmptyString).
    rewrite append_nil, map_map. reflexivity. }
  destruct (parseFields_plain row0 r columns (<[r := ∅]> hc) Hcells)
    as (h1 & Hrun & Hother & Hsome & _ & Hset).
  exists h1. split; [exact Htrim|]. split.
  { destruct (String.eqb_spec line EmptyString); [contradiction|reflexivity]. }
  split; [rewrite Hfields, length_map; apply Nat.eqb_refl|].
  split; [rewrite Hfields; exact Hrun|]. split.
  { intros l Hl. rewrite Hother by exact Hl. apply lookup_insert_ne. congruence. }
  split.
  { apply elem_of_dom, Hsome. rewrite lookup_insert_eq. eauto. }
  unfold agree. apply list.Forall_forall. intros col Hcol.
  rewrite Hset by (apply (list_elem_of_fmap _ columns); exists col; auto).
  rewrite list.Forall_forall in Hcells. symmetry.
  apply (cell_value row0 col (Hcells col Hcol)).
Qed.

(** *** The loop over the lines *)

Lemma Forall2_left {A B} (P : A -> B -> Prop) (l : list A) (k : list B) x :
  Forall2 P l k -> x ∈ l -> exists y, y ∈ k /\ P x y.
Proof.
  induction 1 as [|a b l k Hab _ IH]; intros Hx; [inversion Hx|].
  apply elem_of_cons in Hx as [->|Hx]; [exists b; split; [left|exact Hab]|].
  destruct (IH Hx) as (y & Hy & Hp). exists y. split; [right|]; assumption.
Qed.

Lemma Forall2_impl_left {A B} (P Q : A -> B -> Prop) (l : list A) (k : list B) :
  Forall2 P l k -> (forall x y, x ∈ l -> P x y -> Q x y) -> Forall2 Q l k.
Proof.
  induction 1 as [|a b l k Hab _ IH]; intros Himpl; constructor.
  - apply Himpl; [left|exact Hab].
  - apply IH. intros x y Hx. apply Himpl. right. exact Hx.
Qed.

Lemma indexed_ext (h h' : Heap) (t : Table) :
  Forall (fun r => h' !! r = h !! r) (tbl_Rows t) -> indexed h t -> indexed h' t.
Proof.
  intros Hsame (Hnd & Hrows & Hidx). rewrite list.Forall_forall in Hsame.
  assert (Hkey : forall r, r ∈ tbl_Rows t -> keyOf h' t r = keyOf h t r).
  { intros r Hr. unfold keyOf. rewrite (deref_other h h' r (Hsame r Hr)). reflexivity. }
  split; [exact Hnd|]. split.
  - rewrite list.Forall_forall in Hrows |- *. intros r Hr. rewrite (Hkey r Hr). auto.
  - intros v r Hv. destruct (Hidx v r Hv) as [Hr Hk]. split; [exact Hr|].
    rewrite (Hkey r Hr). exact Hk.
Qed.

Lemma table_cells (h : Heap) (t : Table) (r : nat) :
  storableTable h t -> typed h t -> r ∈ tbl_Rows t ->
  Forall (cell (deref h r)) (tbl_Columns t).
Proof.
  intros (_ & _ & _ & Hstor) Htyped Hr. unfold typed in Htyped.
  rewrite list.Forall_forall in Hstor, Htyped.
  specialize (Hstor r Hr). specialize (Htyped r Hr).
  apply validateColumns_Forall in Htyped.
  rewrite list.Forall_forall in Hstor, Htyped |- *. intros col Hcol.
  destruct (Htyped col Hcol) as (v & Hl & Hty). specialize (Hstor col Hcol).
  exists v. split; [exact Hl|]. split; [apply validateValueType_typeOf, Hty|].
  unfold GetValue in Hstor. rewrite Hl in Hstor. exact Hstor.
Qed.

Lemma agree_GetValue (columns : list Column) (row row' : Row) (col : Column) :
  agree columns row row' -> col ∈ columns ->
  GetValue row' (col_Name col) = GetValue row (col_Name col).
Proof.
  unfold agree. rewrite list.Forall_forall. intros H Hcol. unfold GetValue.
  rewrite (H col Hcol). reflexivity.
Qed.

(** The new row passes [ValidateRow]: its cells are those of a row of
    [t], whose key and unique values no earlier row has. *)
Lemma load_validates (h : Heap) (t : Table) (name : string) (hc h1 : Heap) (tc : Table)
    (done rest : list nat) (r0 r : nat) :
  storableTable h t -> typed h t -> distinct h t ->
  (hasPrimaryKey t = true -> indexed h t) ->
  tbl_Rows t = done ++ r0 :: rest ->
  loadedSoFar h t name hc tc done ->
  r ∉ dom hc -> (forall l, l <> r -> h1 !! l = hc !! l) ->
  agree (tbl_Columns t) (deref h r0) (deref h1 r) ->
  ValidateRow h1 tc (deref h1 r) = None.
Proof.
  intros Hstor Htyped Hdistinct Hindexed Hrows
         (Hname & Hcols & Hpk & Hdone & Hdom & Hidx & _) Hfresh Hother Hagree.
  assert (Hr0 : r0 ∈ tbl_Rows t) by (rewrite Hrows; apply elem_of_app; right; left).
  pose proof (table_cells h t r0 Hstor Htyped Hr0) as Hcells.
  pose proof Hagree as Hagree'. unfold agree in Hagree'.
  rewrite list.Forall_forall in Hcells, Hagree'.
  unfold ValidateRow. rewrite Hcols.
  assert (Hv : validateColumns (tbl_Columns t) (deref h1 r) = None).
  { apply validateColumns_Forall, list.Forall_forall. intros col Hcol.
    destruct (Hcells col Hcol) as (v & Hl & Hty & _). exists v.
    rewrite (Hagree' col Hcol). split; [exact Hl|]. apply validateValueType_typeOf, Hty. }
  rewrite Hv.
  assert (Hp : validatePrimaryKey tc (deref h1 r) = None).
  { unfold validatePrimaryKey.
    assert (Hsame : hasPrimaryKey tc = hasPrimaryKey t) by (unfold hasPrimaryKey; rewrite Hpk; reflexivity).
    rewrite Hsame, Hpk. destruct (hasPrimaryKey t) eqn:Ehas; [|reflexivity].
    destruct (deref h1 r !! tbl_PrimaryKey t) as [v|] eqn:Ev; [|reflexivity].
    destruct (tbl_index tc !! v) as [r'|] eqn:Ei; [|reflexivity]. exfalso.
    destruct (Hidx v r' Ei) as (rd & Hrd & Hkey).
    destruct Hstor as (_ & Hprimary & _).
    pose proof (hasPrimaryKey_true t Ehas) as Hnonempty. rewrite Hprimary in Hnonempty.
    apply primaryKeyOf_column in Hnonempty as (col & Hcol & Hcolname).
    rewrite <- Hprimary in Hcolname.
    assert (Hkey0 : keyOf h t r0 = Some v).
    { unfold keyOf. rewrite <- Hcolname, <- (Hagree' col Hcol), Hcolname. exact Ev. }
    destruct (Hindexed eq_refl) as (Hnd & Hall & _).
    rewrite list.Forall_forall in Hall.
    assert (Hrd' : rd ∈ tbl_Rows t) by (rewrite Hrows; apply elem_of_app; left; exact Hrd).
    pose proof (Hall rd Hrd') as H1. pose proof (Hall r0 Hr0) as H2.
    rewrite Hkey in H1. rewrite Hkey0 in H2. simpl in H1, H2.
    assert (rd = r0) by congruence. subst rd.
    rewrite Hrows in Hnd. apply list.NoDup_app in Hnd as (_ & Hsep & _).
    apply (Hsep r0 Hrd). left. }
  rewrite Hp.
  apply validateUnique_None, list.Forall_forall. intros col Hcol Hflags value Hvalue.
  apply scanRows_None, list.Forall_forall. intros r' Hr'.
  destruct (Forall2_left _ _ _ r' Hdone Hr') as (rd & Hrd & Hsamecells).
  assert (Hne : r' <> r).
  { rewrite list.Forall_forall in Hdom. intros ->. apply Hfresh, Hdom, Hr'. }
  rewrite (deref_other hc h1 r' (Hother r' Hne)).
  rewrite (agree_GetValue _ _ _ col Hsamecells Hcol).
  rewrite (Hagree' col Hcol) in Hvalue.
  destruct (cell_value _ _ (Hcells col Hcol)) as (Hl0 & _ & _ & _ & Hnn0).
  assert (value = GetValue (deref h r0) (col_Name col)) by congruence. subst value.
  unfold collides.
  destruct (decide (GetValue (deref h rd) (col_Name col) = VNil)) as [Hnil|Hnn].
  { rewrite (bool_decide_eq_true_2 _ Hnil). reflexivity. }
  rewrite (bool_decide_eq_false_2 _ Hnn). cbn [negb andb].
  apply bool_decide_eq_false_2. intros Heq.
  unfold distinct in Hdistinct. rewrite list.Forall_forall in Hdistinct.
  specialize (Hdistinct col Hcol Hflags).
  rewrite Hrows, columnValues_app, list.filter_app in Hdistinct.
  apply list.NoDup_app in Hdistinct as (_ & Hsep & _).
  apply (Hsep (GetValue (deref h rd) (col_Name col))).
  - apply list_elem_of_filter. split; [exact Hnn|].
    unfold columnValues. apply (list_elem_of_fmap _ done). exists rd. auto.
  - rewrite Heq. apply list_elem_of_filter. split; [exact Hnn0|].
    unfold columnValues. cbn [map]. left.
Qed.

(** One turn of the loop of [TableFromCSV], on the line of the row
    [r0] of [t]. *)
Lemma load_step (h : Heap) (t : Table) (name : string) (hc : Heap) (tc : Table)
    (done rest : list nat) (r0 : nat) (lines : list string) :
  storableTable h t -> typed h t -> distinct h t ->
  (hasPrimaryKey t = true -> indexed h t) ->
  tbl_Rows t = done ++ r0 :: rest ->
  loadedSoFar h t name hc tc done ->
  exists h1 tc',
    (forall i, loadRows hc tc (tbl_Columns t) i
                 (rowLine (GetColumnNames t) (deref h r0) :: lines)
               = loadRows h1 tc' (tbl_Columns t) (S i) lines) /\
    loadedSoFar h t name h1 tc' (done ++ [r0]) /\
    (forall l, l ∈ dom hc -> h1 !! l = hc !! l).
Proof.
  intros Hstor Htyped Hdistinct Hindexed Hrows Hinv.
  assert (Hr0 : r0 ∈ tbl_Rows t) by (rewrite Hrows; apply elem_of_app; right; left).
  pose proof (table_cells h t r0 Hstor Htyped Hr0) as Hcells.
  pose proof Hstor as (Hne & Hprimary & _).
  destruct (load_one hc (tbl_Columns t) (deref h r0) Hne Hcells)
    as (h1 & Htrim & Hnonempty & Hlen & Hrun & Hother & Hin & Hagree).
  set (r := fresh (dom hc)) in *.
  assert (Hfresh : r ∉ dom hc) by apply is_fresh.
  pose proof (load_validates h t name hc h1 tc done rest r0 r
                Hstor Htyped Hdistinct Hindexed Hrows Hinv Hfresh Hother Hagree) as Hvalid.
  destruct (InsertRow h1 tc r) as [tc' e] eqn:Hins.
  assert (e = None) as ->.
  { unfold InsertRow in Hins. rewrite Hvalid in Hins. congruence. }
  assert (Hframe : forall l, l ∈ dom hc -> h1 !! l = hc !! l).
  { intros l Hl. apply Hother. intros ->. contradiction. }
  exists h1, tc'. split; [|split; [|exact Hframe]].
  - intros i. cbn [loadRows]. unfold GetColumnNames. rewrite Htrim, Hnonempty, Hlen.
    cbn [negb]. unfold NewRow. fold r. rewrite Hrun, Hins. reflexivity.
  - destruct Hinv as (Hname & Hcols & Hpk & Hdone & Hdom & Hidx & Hkept).
    assert (Hkept' : hasPrimaryKey tc' = true -> indexed h1 tc').
    { pose proof Hins as Hshape.
      apply InsertRow_ok_inv in Hshape as (_ & _ & _ & _ & Hpk' & _).
      intros Hhas.
      assert (Hhas' : hasPrimaryKey tc = true)
        by (unfold hasPrimaryKey in Hhas |- *; rewrite <- Hpk'; exact Hhas).
      apply (InsertRow_indexed h1 tc r tc' None); [|apply (indexed_ext hc)|exact Hins].
      - split; [exact Hhas'|]. rewrite Hpk, Hcols. exact Hprimary.
      - eapply list.Forall_impl; [exact Hdom|]. intros r' Hr'. apply Hframe, Hr'.
      - apply Hkept, Hhas'. }
    apply InsertRow_ok_inv in Hins as (_ & Hname' & Hcols' & Hrows' & Hpk' & Hidx').
    unfold loadedSoFar. rewrite Hname', Hcols', Hrows', Hpk'.
    split; [exact Hname|]. split; [exact Hcols|]. split; [exact Hpk|].
    split; [|split; [|split; [|exact Hkept']]].
    + apply Forall2_app; [|constructor; [exact Hagree|constructor]].
      rewrite list.Forall_forall in Hdom.
      eapply Forall2_impl_left; [exact Hdone|]. intros r' rd Hr' Hsame.
      rewrite (deref_other hc h1 r' (Hframe r' (Hdom r' Hr'))). exact Hsame.
    + apply list.Forall_app. split; [|constructor; [exact Hin|constructor]].
      eapply list.Forall_impl; [exact Hdom|]. intros r' Hr'.
      apply elem_of_dom. rewrite (Hframe r' Hr'). apply elem_of_dom, Hr'.
    + rewrite Hidx'.
      assert (Hold : map_Forall (fun v _ => exists rd, rd ∈ done ++ [r0] /\ keyOf h t rd = Some v)
                                (tbl_index tc)).
      { intros v r' Hv. destruct (Hidx v r' Hv) as (rd & Hrd & Hkey).
        exists rd. split; [apply elem_of_app; left; exact Hrd|exact Hkey]. }
      destruct (hasPrimaryKey tc) eqn:Ehas; [|exact Hold].
      destruct (deref h1 r !! tbl_PrimaryKey tc) as [v|] eqn:Ev; [|exact Hold].
      apply map_Forall_insert_2; [|exact Hold].
      exists r0. split; [apply elem_of_app; right; left|].
      pose proof (hasPrimaryKey_true tc Ehas) as Hnonempty'. rewrite Hpk, Hprimary in Hnonempty'.
      apply primaryKeyOf_column in Hnonempty' as (col & Hcol & Hcolname).
      rewrite <- Hprimary in Hcolname.
      unfold agree in Hagree. rewrite list.Forall_forall in Hagree.
      unfold keyOf. rewrite <- Hcolname, <- (Hagree col Hcol), Hcolname, <- Hpk. exact Ev.
Qed.

Lemma load_all (h : Heap) (t : Table) (name : string) :
  storableTable h t -> typed h t -> distinct h t ->
  (hasPrimaryKey t = true -> indexed h t) ->
  forall todo done hc tc i,
    tbl_Rows t = done ++ todo ->
    loadedSoFar h t name hc tc done ->
    exists h' t',
      loadRows hc tc (tbl_Columns t) i
        (map (fun row => rowLine (GetColumnNames t) (deref h row)) todo) = (h', Ok t') /\
      loadedSoFar h t name h' t' (tbl_Rows t) /\
      (forall l, l ∈ dom hc -> h' !! l = hc !! l).
Proof.
  intros Hstor Htyped Hdistinct Hindexed.
  induction todo as [|r0 rest IH]; intros done hc tc i Hrows Hinv.
  - exists hc, tc. split; [reflexivity|]. rewrite app_nil_r in Hrows. rewrite Hrows.
    split; [exact Hinv|auto].
  - cbn [map].
    destruct (load_step h t name hc tc done rest r0
                (map (fun row => rowLine (GetColumnNames t) (deref h row)) rest)
                Hstor Htyped Hdistinct Hindexed Hrows Hinv)
      as (h1 & tc' & Hturn & Hinv' & Hframe).
    rewrite Hturn.
    destruct (IH (done ++ [r0]) h1 tc' (S i)) as (h' & t' & Hrun & Hfinal & Hframe');
      [rewrite <- app_assoc; exact Hrows|exact Hinv'|].
    exists h', t'. split; [exact Hrun|]. split; [exact Hfinal|].
    intros l Hl. rewrite Hframe'; [apply Hframe, Hl|].
    apply elem_of_dom. rewrite (Hframe l Hl). apply elem_of_dom, Hl.
Qed.

(** *** Writing a table and reading it back *)

Lemma agree_rowValues (columns : list Column) (row row' : Row) :
  agree columns row row' ->
  rowValues row' (map col_Name columns) = rowValues row (map col_Name columns).
Proof.
  unfold agree, rowValues. induction 1 as [|col rest Hcol _ IH]; [reflexivity|].
  cbn [map]. rewrite IH. unfold GetValue at 1 3. rewrite Hcol. reflexivity.
Qed.

Lemma loaded_projected (h h' : Heap) (t t' : Table) (rows' rows : list nat) :
  tbl_Columns t' = tbl_Columns t ->
  Forall2 (fun r' r => agree (tbl_Columns t) (deref h r) (deref h' r')) rows' rows ->
  projected h' t' rows' = projected h t rows.
Proof.
  intros Hcols. unfold projected, GetColumnNames. rewrite Hcols.
  induction 1 as [|r' r rows' rows Hsame _ IH]; [reflexivity|].
  cbn [map]. rewrite IH, (agree_rowValues _ _ _ Hsame). reflexivity.
Qed.

Lemma loaded_columnValues (h h' : Heap) (columns : list Column) (rows' rows : list nat)
    (col : Column) :
  col ∈ columns ->
  Forall2 (fun r' r => agree columns (deref h r) (deref h' r')) rows' rows ->
  columnValues h' rows' (col_Name col) = columnValues h rows (col_Name col).
Proof.
  intros Hcol. unfold columnValues.
  induction 1 as [|r' r rows' rows Hsame _ IH]; [reflexivity|].
  cbn [map]. rewrite IH, (agree_GetValue _ _ _ col Hsame Hcol). reflexivity.
Qed.

Lemma stored_lines (h : Heap) (t : Table) :
  storableTable h t -> typed h t ->
  Split (ToCSV h t) newline
  = ("# SCHEMA: " ++ Join (map colDefOf (tbl_Columns t)) ",")%string
    :: map (fun row => rowLine (GetColumnNames t) (deref h row)) (tbl_Rows t).
Proof.
  intros Hstor Htyped. pose proof Hstor as (Hne & _ & Hnames & _).
  unfold ToCSV. change newline with (String newlineByte EmptyString).
  apply Split_Join; [discriminate|]. constructor.
  - apply (schema_line_columns _ Hne Hnames).
  - apply list.Forall_forall. intros line Hline.
    apply (list_elem_of_fmap _ (tbl_Rows t)) in Hline as (r & -> & Hr).
    pose proof (table_cells h t r Hstor Htyped Hr) as Hcells.
    apply rowLine_trimmed.
    + unfold GetColumnNames. destruct (tbl_Columns t); [congruence|discriminate].
    + apply list.Forall_forall. intros c Hc. unfold GetColumnNames in Hc.
      apply (list_elem_of_fmap _ (tbl_Columns t)) in Hc as (col & -> & Hcol).
      rewrite list.Forall_forall in Hcells. apply (cell_value _ col (Hcells col Hcol)).
Qed.

(** Property X19. A table written by [ToCSV] is read back by
    [TableFromCSV]: when the table has a column, its primary key is the
    one [NewTable] chooses for its columns, its column names hold no
    comma, colon or line feed and start with no white space, its rows are
    typed, respect the unique columns and, under a primary key, agree with
    the index, and every value is an integer of 64 bits, a Boolean, or a
    text that is not empty, has no line feed, neither starts nor ends with
    white space and is not held in double quotes, then loading the text
    succeeds and gives a table with the given name, the same columns and
    primary key and the same rows in the same order; the loaded table is
    typed, respects its unique columns and agrees with its index, and no
    row object that existed before the load is written. *)
Theorem store_then_load (h h0 : Heap) (t : Table) (name : string) :
  storableTable h t -> typed h t -> distinct h t ->
  (hasPrimaryKey t = true -> indexed h t) ->
  exists h' t',
    TableFromCSV h0 name (ToCSV h t) = (h', Ok t') /\
    tbl_Name t' = name /\ tbl_Columns t' = tbl_Columns t /\
    tbl_PrimaryKey t' = tbl_PrimaryKey t /\
    projected h' t' (tbl_Rows t') = projected h t (tbl_Rows t) /\
    typed h' t' /\ distinct h' t' /\ (hasPrimaryKey t' = true -> indexed h' t') /\
    (forall r, r ∈ dom h0 -> h' !! r = h0 !! r).
Proof.
  intros Hstor Htyped Hdistinct Hindexed. pose proof Hstor as (Hne & Hprimary & Hnames & _).
  destruct (schema_line_columns _ Hne Hnames) as (Hprefix & Hcolumns & _).
  destruct (load_all h t name Hstor Htyped Hdistinct Hindexed (tbl_Rows t) [] h0
              (NewTable name (tbl_Columns t)) 1 eq_refl)
    as (h' & t' & Hrun & (Hname & Hcols & Hpk & Hsame & _ & _ & Hkept) & Hframe).
  { split; [reflexivity|]. split; [reflexivity|]. split; [symmetry; exact Hprimary|].
    split; [constructor|]. split; [constructor|]. split; [apply map_Forall_empty|].
    intros _. apply indexed_NewTable. }
  exists h', t'. split.
  { unfold TableFromCSV. rewrite (stored_lines h t Hstor Htyped), Hprefix. cbn [negb].
    rewrite Hcolumns. exact Hrun. }
  split; [exact Hname|]. split; [exact Hcols|]. split; [exact Hpk|].
  split; [apply loaded_projected; assumption|].
  split; [|split; [|split; [exact Hkept|exact Hframe]]].
  - unfold typed. rewrite Hcols. apply list.Forall_forall. intros r' Hr'.
    destruct (Forall2_left _ _ _ r' Hsame Hr') as (r & Hr & Hagree).
    pose proof (table_cells h t r Hstor Htyped Hr) as Hcells.
    unfold agree in Hagree. rewrite list.Forall_forall in Hcells, Hagree.
    apply validateColumns_Forall, list.Forall_forall. intros col Hcol.
    destruct (Hcells col Hcol) as (v & Hl & Hty & _). exists v.
    rewrite (Hagree col Hcol). split; [exact Hl|]. apply validateValueType_typeOf, Hty.
  - unfold distinct in Hdistinct |- *. rewrite Hcols.
    rewrite list.Forall_forall in Hdistinct |- *. intros col Hcol Hflags.
    rewrite (loaded_columnValues h h' _ _ _ col Hcol Hsame). apply Hdistinct; assumption.
Qed.

Lemma store_then_load_witness :
  exists h' t',
    TableFromCSV store "users" (ToCSV store users2) = (h', Ok t') /\
    tbl_Name t' = "users" /\ tbl_Columns t' = tbl_Columns users2 /\
    tbl_PrimaryKey t' = tbl_PrimaryKey users2 /\
    projected h' t' (tbl_Rows t') = projected store users2 (tbl_Rows users2) /\
    typed h' t' /\ distinct h' t' /\ (hasPrimaryKey t' = true -> indexed h' t') /\
    (forall r, r ∈ dom store -> h' !! r = store !! r).
Proof.
  apply (store_then_load store store users2 "users"); [by_evaluation..|].
  intros _. by_evaluation.
Defined.

(** Property X20. A table without columns is written by [ToCSV] but
    not read back: whatever its rows, [TableFromCSV] stops at the schema
    line, whose one column definition is the empty text, with
    [invalid column definition: ], and makes no row object. *)
Theorem load_table_without_columns (h h0 : Heap) (t : Table) (name : string) :
  tbl_Columns t = [] ->
  TableFromCSV h0 name (ToCSV h t) = (h0, Err (ErrInvalidColumnDefinition EmptyString)).
Proof.
  intros Hcols. unfold TableFromCSV, ToCSV, GetColumnNames. rewrite Hcols.
  change newline with (String newlineByte EmptyString).
  rewrite Split_Join; [reflexivity|discriminate|].
  constructor; [reflexivity|].
  apply list.Forall_forall. intros line Hline.
  apply (list_elem_of_fmap _ (tbl_Rows t)) in Hline as (r & -> & _). reflexivity.
Qed.

Lemma load_table_without_columns_witness :
  tbl_Columns (NewTable "empty" []) = [] /\
  TableFromCSV store "empty" (ToCSV store (NewTable "empty" []))
  = (store, Err (ErrInvalidColumnDefinition EmptyString)).
Proof.
  split; [reflexivity|].
  apply (load_table_without_columns store store (NewTable "empty" []) "empty"). reflexivity.
Defined.

(** The text [Alice] in a text column. *)
Lemma field_read_back_witness :
  typeOf (VText "Alice") = Some DATATYPE_TEXT /\
  (parseValue (plain (VText "Alice")) DATATYPE_TEXT = Ok (VText "Alice")
   <-> readable (VText "Alice") = true).
Proof.
  split; [reflexivity|].
  apply (field_read_back (VText "Alice") DATATYPE_TEXT). reflexivity.
Defined.

(* ===================================================================== *)
(** ** The lexer on a text of separated lexemes                           *)
(* ===================================================================== *)

Import GoStrings Lexer Parser Progress Lexemes AstText Printed.

Lemma get_app_length (pre s : string) n :
  String.get (String.length pre + n) (pre ++ s) = String.get n s.
Proof. induction pre as [|a pre IH]; [reflexivity|]. rewrite append_cons. exact IH. Qed.

Lemma get_zero (s : string) :
  String.get 0 s = match s with EmptyString => None | String c _ => Some c end.
Proof. destruct s; reflexivity. Qed.

Lemma lexerAt_eq (pre pre' rest rest' : string) :
  pre = pre' -> rest = rest' -> lexerAt pre rest = lexerAt pre' rest'.
Proof. intros -> ->. reflexivity. Qed.

Lemma NewLexer_at (s : string) : NewLexer s = lexerAt EmptyString s.
Proof.
  unfold NewLexer, readChar, lexerAt. cbn [input pos current String.length].
  rewrite append_nil, get_zero. destruct s; reflexivity.
Qed.

Lemma readChar_at (pre : string) c (rest : string) :
  readChar (lexerAt pre (String c rest)) = lexerAt (pre ++ String c EmptyString) rest.
Proof.
  unfold readChar, lexerAt. cbn [input pos current].
  rewrite append_assoc, append_cons, append_nil, length_app. cbn [String.length].
  replace (S (String.length pre)) with (String.length pre + 1) by lia.
  rewrite get_app_length. cbn [String.get]. rewrite get_zero.
  f_equal. destruct rest; reflexivity.
Qed.

Lemma peekChar_at (pre : string) c (rest : string) :
  peekChar (lexerAt pre (String c rest))
  = match rest with EmptyString => zeroByte | String c' _ => c' end.
Proof.
  unfold peekChar, lexerAt. cbn [input pos].
  replace (S (String.length pre)) with (String.length pre + 1) by lia.
  rewrite get_app_length. cbn [String.get]. rewrite get_zero. destruct rest; reflexivity.
Qed.

Lemma exhausted_at (pre : string) : exhausted (lexerAt pre EmptyString).
Proof.
  unfold exhausted, lexerAt. cbn [input pos current]. split; [reflexivity|].
  rewrite append_empty_r. lia.
Qed.

Lemma get_past (s : string) n : String.length s <= n -> String.get n s = None.
Proof.
  revert n. induction s as [|a s IH]; intros n H; [destruct n; reflexivity|].
  destruct n as [|n]; simpl in H; [lia|]. simpl. apply IH. lia.
Qed.

Lemma exhausted_readChar (l : Lexer) : exhausted l -> exhausted (readChar l).
Proof.
  intros [_ Hp]. unfold exhausted, readChar. cbn [input pos current].
  rewrite get_past by lia. split; [reflexivity|lia].
Qed.

(** The loops of the lexer, one turn at a time. *)
Lemma readWhile_go_stop cond (rest : string) (l : Lexer) :
  cond (current l) = false -> readWhile_go cond rest l = l.
Proof. intros H. destruct rest; cbn [readWhile_go]; rewrite H; reflexivity. Qed.

Lemma readWhile_at cond (w : string) : forall (pre rest : string),
  cond zeroByte = false -> allBytes cond w = true ->
  match rest with EmptyString => true | String c _ => negb (cond c) end = true ->
  readWhile cond (lexerAt pre (w ++ rest)) = lexerAt (pre ++ w) rest.
Proof.
  induction w as [|c w IH]; intros pre rest Hzero Hall Hstop.
  - rewrite append_nil, append_empty_r. unfold readWhile. apply readWhile_go_stop.
    unfold lexerAt. cbn [current]. destruct rest as [|c r]; [exact Hzero|].
    apply negb_true_iff, Hstop.
  - cbn [allBytes] in Hall. apply andb_true_iff in Hall as [Hc Hall].
    specialize (IH (pre ++ String c EmptyString)%string rest Hzero Hall Hstop).
    rewrite append_assoc, append_cons, append_nil in IH. rewrite <- IH.
    rewrite append_cons, <- readChar_at.
    unfold readWhile at 1.
    set (l := lexerAt pre (String c (w ++ rest))).
    assert (Hcur : cond (current l) = true) by exact Hc.
    destruct (dropBytes (pos l) (input l)) as [|x r] eqn:Edrop.
    + cbn [readWhile_go]. rewrite Hcur. unfold readWhile. symmetry. apply readWhile_go_stop.
      unfold readChar. cbn [current]. rewrite ProgressFacts.get_dropBytes, Edrop. exact Hzero.
    + cbn [readWhile_go]. rewrite Hcur. unfold readWhile. f_equal.
      unfold readChar. cbn [pos input]. rewrite ProgressFacts.dropBytes_S, Edrop. reflexivity.
Qed.

Ltac by_bytes c H :=
  destruct c as [[|] [|] [|] [|] [|] [|] [|] [|]]; vm_compute in H; try discriminate H;
  vm_compute; repeat split; reflexivity.

Lemma letter_plain c : isLetter c = true -> plainByte c.
Proof. intros H. by_bytes c H. Qed.

Lemma digit_plain c : isDigit c = true -> plainByte c /\ isLetter c = false.
Proof. intros H. by_bytes c H. Qed.

Lemma quote_plain : plainByte "'"%char.
Proof. vm_compute. repeat split; reflexivity. Qed.

Lemma current_at (pre : string) c (rest : string) : current (lexerAt pre (String c rest)) = c.
Proof. reflexivity. Qed.

Lemma substring_prefix (w rest : string) :
  String.substring 0 (String.length w) (w ++ rest) = w.
Proof.
  induction w as [|a w IH]; [destruct rest; reflexivity|].
  rewrite append_cons. cbn [String.length String.substring]. rewrite IH. reflexivity.
Qed.

Lemma sliceTo_at (pre w rest : string) :
  sliceTo (lexerAt (pre ++ w) rest) (String.length pre) = w.
Proof.
  unfold sliceTo, lexerAt. cbn [input pos]. rewrite length_app.
  replace (S (String.length pre + String.length w) - 1 - String.length pre)
    with (String.length w) by lia.
  rewrite append_assoc, substring_skip. apply substring_prefix.
Qed.

Lemma skipWhitespace_at (pre blanks : string) c (rest : string) :
  allBytes isBlank blanks = true -> isBlank c = false ->
  skipWhitespace (lexerAt pre (blanks ++ String c rest)) = lexerAt (pre ++ blanks) (String c rest).
Proof.
  intros Hb Hc. unfold skipWhitespace. apply readWhile_at; [reflexivity|exact Hb|].
  rewrite Hc. reflexivity.
Qed.

Ltac take_plain H :=
  destruct H as (Hblank & He1 & He2 & He3 & He4 & He5 & He6 & He7 & He8 & He9 & He10 & He11).

Ltac not_a_sign :=
  rewrite ?current_at;
  match goal with
  | He1 : Ascii.eqb ?c "="%char = false |- _ =>
      rewrite ?He1
  end;
  repeat match goal with
         | H : Ascii.eqb _ _ = false |- _ => rewrite !H
         end;
  cbv iota.

Lemma NextToken_word (pre blanks : string) c (w rest : string) :
  allBytes isBlank blanks = true -> isLetter c = true -> allBytes isWordByte w = true ->
  lexemeFits (LWord (String c w)) rest = true ->
  NextToken (lexerAt pre (blanks ++ String c w ++ rest))
  = ({| tok_Type := lookupIdent (String c w); tok_Literal := String c w |},
     lexerAt (pre ++ blanks ++ String c w) rest).
Proof.
  intros Hb Hc Hw Hfits. pose proof (letter_plain c Hc) as Hplain. take_plain Hplain.
  unfold NextToken. rewrite append_cons, (skipWhitespace_at _ _ _ _ Hb Hblank).
  cbv zeta. not_a_sign. rewrite Hc. cbv iota.
  unfold readIdentifier.
  change (fun c0 : ascii => isLetter c0 || isDigit c0 || Ascii.eqb c0 "_"%char) with isWordByte.
  rewrite <- append_cons.
  rewrite (readWhile_at isWordByte (String c w) (pre ++ blanks) rest).
  - cbv zeta. change (pos (lexerAt (pre ++ blanks) (String c w ++ rest)) - 1)
      with (S (String.length (pre ++ blanks)) - 1).
    replace (S (String.length (pre ++ blanks)) - 1) with (String.length (pre ++ blanks)) by lia.
    rewrite !sliceTo_at, append_assoc. reflexivity.
  - reflexivity.
  - cbn [allBytes]. unfold isWordByte at 1. rewrite Hc, Hw. reflexivity.
  - destruct rest as [|x r]; [reflexivity|exact Hfits].
Qed.

Lemma NextToken_number (pre blanks : string) c (d rest : string) :
  allBytes isBlank blanks = true -> isDigit c = true -> allBytes isDigit d = true ->
  lexemeFits (LNumber (String c d)) rest = true ->
  NextToken (lexerAt pre (blanks ++ String c d ++ rest))
  = ({| tok_Type := TOKEN_NUMBER; tok_Literal := String c d |},
     lexerAt (pre ++ blanks ++ String c d) rest).
Proof.
  intros Hb Hc Hd Hfits. destruct (digit_plain c Hc) as [Hplain Hletter]. take_plain Hplain.
  unfold NextToken. rewrite append_cons, (skipWhitespace_at _ _ _ _ Hb Hblank).
  cbv zeta. not_a_sign. rewrite Hletter, Hc. cbv iota.
  unfold readNumber. rewrite <- append_cons.
  rewrite (readWhile_at isDigit (String c d) (pre ++ blanks) rest).
  - cbv zeta. change (pos (lexerAt (pre ++ blanks) (String c d ++ rest)) - 1)
      with (S (String.length (pre ++ blanks)) - 1).
    replace (S (String.length (pre ++ blanks)) - 1) with (String.length (pre ++ blanks)) by lia.
    rewrite !sliceTo_at, append_assoc. reflexivity.
  - reflexivity.
  - cbn [allBytes]. rewrite Hc, Hd. reflexivity.
  - destruct rest as [|x r]; [reflexivity|exact Hfits].
Qed.

Lemma NextToken_string (pre blanks s rest : string) :
  allBytes isBlank blanks = true ->
  allBytes (fun c => negb (Ascii.eqb c "'"%char) && negb (Ascii.eqb c zeroByte)) s = true ->
  NextToken (lexerAt pre (blanks ++ ("'" ++ s ++ "'") ++ rest))
  = ({| tok_Type := TOKEN_STRING; tok_Literal := s |},
     lexerAt (pre ++ blanks ++ "'" ++ s ++ "'") rest).
Proof.
  intros Hb Hs. pose proof quote_plain as Hplain. take_plain Hplain.
  unfold NextToken. rewrite !append_cons, append_nil.
  rewrite (skipWhitespace_at _ _ _ _ Hb Hblank).
  cbv zeta. not_a_sign.
  change (isLetter "'"%char) with false. change (isDigit "'"%char) with false.
  change (Ascii.eqb "'"%char "'"%char) with true. cbv iota.
  unfold readString. rewrite readChar_at. rewrite (append_assoc s).
  change ("'" ++ rest)%string with (String "'"%char rest).
  rewrite (readWhile_at _ s ((pre ++ blanks) ++ "'") (String "'"%char rest)
             eq_refl Hs eq_refl).
  cbv zeta. rewrite current_at. change (Ascii.eqb "'"%char "'"%char) with true. cbv iota.
  change (pos (lexerAt ((pre ++ blanks) ++ "'") (s ++ String "'"%char rest)) - 1)
    with (S (String.length ((pre ++ blanks) ++ "'")) - 1).
  replace (S (String.length ((pre ++ blanks) ++ "'")) - 1)
    with (String.length ((pre ++ blanks) ++ "'")) by lia.
  rewrite sliceTo_at, readChar_at. f_equal. apply lexerAt_eq; [|reflexivity].
  rewrite !append_assoc, !append_cons, !append_nil. reflexivity.
Qed.

Ltac evaluate_tests :=
  repeat match goal with
         | |- context [Ascii.eqb (Ascii ?b0 ?b1 ?b2 ?b3 ?b4 ?b5 ?b6 ?b7) ?y] =>
             let r := eval vm_compute in (Ascii.eqb (Ascii b0 b1 b2 b3 b4 b5 b6 b7) y) in
             change (Ascii.eqb (Ascii b0 b1 b2 b3 b4 b5 b6 b7) y) with r
         end;
  cbv iota.

Ltac finish_sign :=
  unfold punct; rewrite ?readChar_at; f_equal; apply lexerAt_eq; [|reflexivity];
  rewrite ?append_assoc, ?append_cons, ?append_nil; reflexivity.

Lemma NextToken_sign (pre blanks : string) (t : TokenType) (rest : string) :
  allBytes isBlank blanks = true -> lexemeOk (LSign t) = true ->
  lexemeFits (LSign t) rest = true ->
  NextToken (lexerAt pre (blanks ++ signText t ++ rest))
  = ({| tok_Type := t; tok_Literal := signText t |},
     lexerAt (pre ++ blanks ++ signText t) rest).
Proof.
  intros Hb Hok Hfits.
  destruct t; try discriminate Hok; cbn [signText]; unfold NextToken;
    rewrite !append_cons, append_nil;
    rewrite (skipWhitespace_at pre blanks _ _ Hb) by reflexivity;
    cbv zeta; rewrite current_at; evaluate_tests; rewrite ?peekChar_at; evaluate_tests;
    first [ finish_sign
          | destruct rest as [|x r]; cbn [lexemeFits] in Hfits;
            [ change (Ascii.eqb zeroByte "="%char) with false
            | apply negb_true_iff in Hfits; rewrite Hfits ];
            cbv iota; finish_sign ].
Qed.

(** One call of [NextToken] on a lexeme with blanks in front of it. *)
Lemma NextToken_lexeme (pre blanks : string) (x : Lexeme) (rest : string) :
  allBytes isBlank blanks = true -> lexemeOk x = true -> lexemeFits x rest = true ->
  NextToken (lexerAt pre (blanks ++ lexemeText x ++ rest))
  = (lexemeToken x, lexerAt (pre ++ blanks ++ lexemeText x) rest).
Proof.
  intros Hb Hok Hfits. destruct x as [w|d|s|t]; cbn [lexemeText lexemeToken].
  - destruct w as [|c w]; [discriminate|]. cbn [lexemeOk] in Hok.
    apply andb_true_iff in Hok as [Hc Hw]. apply NextToken_word; assumption.
  - destruct d as [|c d]; [discriminate|]. cbn [lexemeOk] in Hok.
    apply andb_true_iff in Hok as [Hc Hd]. apply NextToken_number; assumption.
  - apply NextToken_string; assumption.
  - apply NextToken_sign; assumption.
Qed.

Lemma NextToken_exhausted (l : Lexer) :
  exhausted l -> NextToken l = (endToken, readChar l).
Proof.
  intros [Hc _]. unfold NextToken, skipWhitespace, readWhile.
  rewrite readWhile_go_stop by (rewrite Hc; reflexivity).
  cbv zeta. rewrite Hc. reflexivity.
Qed.

Lemma NextToken_end (pre blanks : string) :
  allBytes isBlank blanks = true ->
  NextToken (lexerAt pre blanks) = (endToken, readChar (lexerAt (pre ++ blanks) EmptyString)).
Proof.
  intros Hb.
  assert (Hskip : skipWhitespace (lexerAt pre blanks) = lexerAt (pre ++ blanks) EmptyString).
  { pose proof (readWhile_at isBlank blanks pre EmptyString eq_refl Hb eq_refl) as H.
    rewrite append_empty_r in H. exact H. }
  unfold NextToken. rewrite Hskip. reflexivity.
Qed.

Lemma lexTokens_exhausted n : forall l,
  exhausted l ->
  fst (lexTokens n l) = replicate n endToken /\ exhausted (snd (lexTokens n l)).
Proof.
  induction n as [|n IH]; intros l Hl; [split; [reflexivity|exact Hl]|].
  cbn [lexTokens]. rewrite (NextToken_exhausted l Hl).
  destruct (IH (readChar l) (exhausted_readChar l Hl)) as [Htoks Hend].
  destruct (lexTokens n (readChar l)) as [ts l2]. cbn [fst snd] in *.
  rewrite Htoks. split; [reflexivity|exact Hend].
Qed.

Lemma render_app (a b : list Segment) : render (a ++ b) = (render a ++ render b)%string.
Proof.
  induction a as [|[blanks x] a IH]; [reflexivity|].
  cbn [app render]. rewrite IH, !append_assoc. reflexivity.
Qed.

Lemma separated_app (a b : list Segment) (trail : string) :
  separated (a ++ b) trail = separated a (render b ++ trail) && separated b trail.
Proof.
  induction a as [|[blanks x] a IH]; [reflexivity|].
  cbn [app separated]. rewrite IH, render_app, !append_assoc, !andb_assoc. reflexivity.
Qed.

(** The lexer takes a text of separated lexemes apart into their tokens. *)
Lemma lexTokens_separated (segs : list Segment) (trail : string) : forall pre : string,
  separated segs trail = true ->
  lexTokens (length segs) (lexerAt pre (render segs ++ trail))
  = (map (fun seg => lexemeToken (snd seg)) segs, lexerAt (pre ++ render segs) trail).
Proof.
  induction segs as [|[blanks x] segs IH]; intros pre Hsep.
  - cbn [length lexTokens map render]. rewrite append_nil, append_empty_r. reflexivity.
  - cbn [separated] in Hsep. apply andb_true_iff in Hsep as [Hsep Hrest].
    apply andb_true_iff in Hsep as [Hsep Hfits].
    apply andb_true_iff in Hsep as [Hb Hok].
    cbn [length lexTokens map render snd]. rewrite !append_assoc.
    rewrite (NextToken_lexeme pre blanks x (render segs ++ trail) Hb Hok Hfits).
    rewrite (IH (pre ++ blanks ++ lexemeText x)%string Hrest).
    rewrite !append_assoc. reflexivity.
Qed.

(* ===================================================================== *)
(** ** The parser on the tokens of a printed statement                    *)
(* ===================================================================== *)

Lemma exhausted_atEnd (l : Lexer) : exhausted l -> atEnd l.
Proof.
  intros Hl. exists (readChar l). split; [apply NextToken_exhausted, Hl|].
  apply exhausted_readChar, Hl.
Qed.

(** The lexer before a text of separated lexemes and blanks delivers
    their tokens. *)
Lemma feeds_separated (segs : list Segment) (trail : string) : forall pre : string,
  separated segs trail = true -> allBytes isBlank trail = true ->
  feeds (lexerAt pre (render segs ++ trail)) (tokensOf segs).
Proof.
  induction segs as [|[blanks x] segs IH]; intros pre Hsep Htrail.
  - cbn [render tokensOf map feeds]. rewrite append_nil.
    eexists. split; [apply NextToken_end, Htrail|].
    apply exhausted_readChar, exhausted_at.
  - cbn [separated] in Hsep. apply andb_true_iff in Hsep as [Hsep Hrest].
    apply andb_true_iff in Hsep as [Hsep Hfits].
    apply andb_true_iff in Hsep as [Hb Hok].
    cbn [render tokensOf map feeds snd]. rewrite !append_assoc.
    eexists. split; [apply NextToken_lexeme; assumption|].
    apply IH; assumption.
Qed.

Lemma nextToken_ahead (p : Parser) (t : Token) (rest : list Token) :
  ahead p (t :: rest) ->
  exists p', nextToken p = (tt, p') /\ currentToken p' = t /\ ahead p' rest /\
             errors p' = errors p.
Proof.
  intros [HJ [Hpeek Hfeeds]].
  pose proof (ProgressFacts.nextToken_later p HJ) as (_ & _ & HJ').
  unfold nextToken in *.
  destruct rest as [|t2 rest]; cbn [feeds] in Hfeeds.
  - destruct Hfeeds as (l' & Hnext & Hend). rewrite Hnext in *. cbn [snd] in HJ'.
    eexists. split; [reflexivity|]. cbn [currentToken errors]. split; [exact Hpeek|].
    split; [|reflexivity]. split; [exact HJ'|]. split; [reflexivity|exact Hend].
  - destruct Hfeeds as (l' & Hnext & Hend). rewrite Hnext in *. cbn [snd] in HJ'.
    eexists. split; [reflexivity|]. cbn [currentToken errors]. split; [exact Hpeek|].
    split; [|reflexivity]. split; [exact HJ'|]. split; [reflexivity|exact Hend].
Qed.

Lemma expectPeek_ahead (ty : TokenType) (p : Parser) (t : Token) (rest : list Token) :
  ahead p (t :: rest) -> tok_Type t = ty ->
  exists p', expectPeek ty p = (true, p') /\ currentToken p' = t /\ ahead p' rest /\
             errors p' = errors p.
Proof.
  intros Hahead Hty. pose proof Hahead as [_ [Hpeek _]].
  destruct (nextToken_ahead p t rest Hahead) as (p' & Hnext & Hcur & Hahead' & Herr).
  exists p'. unfold expectPeek, bind, peekTokenIs, ret.
  rewrite Hpeek, (bool_decide_eq_true_2 _ Hty), Hnext. auto.
Qed.

Lemma peekTokenIs_ahead (ty : TokenType) (p : Parser) (t : Token) (rest : list Token) :
  ahead p (t :: rest) -> peekTokenIs ty p = (bool_decide (tok_Type t = ty), p).
Proof. intros [_ [Hpeek _]]. unfold peekTokenIs. rewrite Hpeek. reflexivity. Qed.

Lemma peekTokenIs_end (ty : TokenType) (p : Parser) :
  ahead p [] -> peekTokenIs ty p = (bool_decide (TOKEN_EOF = ty), p).
Proof. intros [_ [Hpeek _]]. unfold peekTokenIs. rewrite Hpeek. reflexivity. Qed.

(** *** Expressions *)

Lemma operator_sign (op : string) (t : TokenType) :
  operatorToken op = Some t ->
  signText t = op /\ isComparison t = true /\ lexemeOk (LSign t) = true /\ t <> TOKEN_DOT.
Proof.
  unfold operatorToken.
  repeat match goal with
         | |- context [String.eqb op ?s] => destruct (String.eqb_spec op s) as [->|_]
         end; intros [= <-]; repeat split; discriminate.
Qed.

Lemma uint_digits d : allBytes isDigit (NilEmpty.string_of_uint d) = true.
Proof. induction d; [reflexivity|..]; cbn [NilEmpty.string_of_uint allBytes]; rewrite IHd; reflexivity. Qed.

Lemma Itoa_number (n : Z) : (0 <= n)%Z -> lexemeOk (LNumber (Itoa n)) = true.
Proof.
  intros Hn. unfold Itoa. destruct n as [|p|p]; [reflexivity| |lia].
  cbn [Z.to_int NilZero.string_of_int]. unfold NilZero.string_of_uint.
  pose proof (Unsigned.to_uint_nonnil p) as Hnn. pose proof (uint_digits (Pos.to_uint p)) as Hd.
  destruct (Pos.to_uint p); [congruence|..]; exact Hd.
Qed.

Lemma fits_clean (x : Lexeme) (rest : string) : cleanStart rest = true -> lexemeFits x rest = true.
Proof.
  destruct rest as [|c r]; [reflexivity|]. cbn [cleanStart lexemeFits]. intros H.
  apply andb_true_iff in H as [Hw He]. destruct x as [w|d|s|t]; [exact Hw| |reflexivity|].
  - unfold isWordByte in Hw. apply negb_true_iff in Hw. apply negb_true_iff.
    destruct (isDigit c); [|reflexivity]. rewrite orb_true_r in Hw. discriminate.
  - destruct t; try reflexivity; exact He.
Qed.

(** The text of an expression is the text of its lexemes. *)
Lemma primary_text (e : Expression) (lead : string) :
  primaryOk e = true ->
  exists s, Expression_String e = Some s /\ render (exprSegments lead e) = (lead ++ s)%string.
Proof.
  destruct e as [v|t c|v ty|l op r|]; cbn [primaryOk]; try discriminate; intros Hok.
  - exists v. split; [reflexivity|]. cbn [exprSegments render lexemeText].
    rewrite append_empty_r. reflexivity.
  - eexists. split; [reflexivity|]. cbn [exprSegments render lexemeText signText].
    rewrite !append_nil, append_empty_r. reflexivity.
  - destruct v as [|n|s|b], ty; try discriminate; eexists; (split; [reflexivity|]);
      cbn [exprSegments render lexemeText Sprint]; rewrite ?append_empty_r; try reflexivity.
Qed.

Lemma expression_text (e : Expression) (lead : string) :
  expressionOk e = true ->
  exists s, Expression_String e = Some s /\ render (exprSegments lead e) = (lead ++ s)%string.
Proof.
  destruct e as [v|t c|v ty|l op r|]; try apply primary_text.
  cbn [expressionOk]. intros Hok. apply andb_true_iff in Hok as [Hok Hr].
  apply andb_true_iff in Hok as [Hl Hop]. apply bool_decide_eq_true_1 in Hop as [t Hop].
  destruct (primary_text l lead Hl) as (ls & Hls & Hlr).
  destruct (primary_text r " " Hr) as (rs & Hrs & Hrr).
  destruct (operator_sign op t Hop) as (Htext & _).
  exists (ls ++ " " ++ op ++ " " ++ rs)%string. cbn [Expression_String exprSegments].
  rewrite Hls, Hrs. split; [reflexivity|].
  rewrite render_app. cbn [render lexemeText]. rewrite Hlr, Hrr, Hop. cbn [default].
  simpl. rewrite Htext, !append_assoc. reflexivity.
Qed.

Lemma isName_word (w : string) :
  isName w = true -> lexemeOk (LWord w) = true /\ lookupIdent w = TOKEN_IDENTIFIER.
Proof.
  unfold isName. intros H. apply andb_true_iff in H as [Hok Hid].
  apply bool_decide_eq_true_1 in Hid. auto.
Qed.

Lemma separated_one (blanks : string) (x : Lexeme) (trail : string) :
  allBytes isBlank blanks = true -> lexemeOk x = true -> cleanStart trail = true ->
  separated [(blanks, x)] trail = true.
Proof.
  intros Hb Hok Hclean. cbn [separated render]. rewrite append_nil, Hb, Hok.
  rewrite (fits_clean x trail Hclean). reflexivity.
Qed.

Lemma fits_always (t : TokenType) (rest : string) :
  t <> TOKEN_GREATER -> t <> TOKEN_LESS -> lexemeFits (LSign t) rest = true.
Proof. intros H1 H2. destruct rest; [reflexivity|]. destruct t; try reflexivity; congruence. Qed.

Lemma primary_separated (e : Expression) (lead trail : string) :
  allBytes isBlank lead = true -> primaryOk e = true -> cleanStart trail = true ->
  separated (exprSegments lead e) trail = true.
Proof.
  intros Hb Hok Hclean.
  destruct e as [v|t c|v ty|l op r|]; cbn [primaryOk] in Hok; try discriminate.
  - apply separated_one; [exact Hb|apply isName_word, Hok|exact Hclean].
  - apply andb_true_iff in Hok as [Ht Hc].
    apply isName_word in Ht as [Ht _]. apply isName_word in Hc as [Hc _].
    cbn [exprSegments separated render lexemeText signText].
    rewrite Hb, Ht, Hc, !append_nil, !append_cons, append_nil, append_empty_r.
    rewrite (fits_clean _ trail Hclean), fits_always by discriminate. reflexivity.
  - destruct v as [|n|s|b], ty; try discriminate; cbn [exprSegments];
      apply separated_one; try assumption.
    + apply andb_true_iff in Hok as [Hn _]. apply Itoa_number, Z.leb_le, Hn.
    + destruct b; reflexivity.
Qed.

Lemma cleanStart_blank (r trail : string) : cleanStart ((" " ++ r) ++ trail) = true.
Proof. reflexivity. Qed.

Lemma expression_separated (e : Expression) (lead trail : string) :
  allBytes isBlank lead = true -> expressionOk e = true -> cleanStart trail = true ->
  separated (exprSegments lead e) trail = true.
Proof.
  intros Hb Hok Hclean.
  destruct e as [v|t c|v ty|l op r|]; try (apply primary_separated; assumption).
  cbn [expressionOk] in Hok. apply andb_true_iff in Hok as [Hok Hr].
  apply andb_true_iff in Hok as [Hl Hop]. apply bool_decide_eq_true_1 in Hop as [t Hop].
  destruct (operator_sign op t Hop) as (_ & _ & Hsign & _).
  cbn [exprSegments]. rewrite separated_app. apply andb_true_iff. split.
  - apply primary_separated; [exact Hb|exact Hl|]. cbn [render]. apply cleanStart_blank.
  - cbn [separated]. rewrite Hop. change (default TOKEN_EQUALS (Some t)) with t.
    rewrite Hsign.
    rewrite (primary_separated r " " trail eq_refl Hr Hclean).
    destruct (primary_text r " " Hr) as (rs & _ & ->).
    rewrite fits_clean by reflexivity. reflexivity.
Qed.

Lemma peekTokenIs_other (ty : TokenType) (p : Parser) (rest : list Token) :
  ahead p rest -> ty <> TOKEN_EOF ->
  match rest with [] => True | t :: _ => tok_Type t <> ty end ->
  peekTokenIs ty p = (false, p).
Proof.
  intros Hahead Hty Hrest. destruct rest as [|t rest].
  - rewrite (peekTokenIs_end ty p Hahead). rewrite bool_decide_eq_false_2 by congruence.
    reflexivity.
  - rewrite (peekTokenIs_ahead ty p t rest Hahead). rewrite bool_decide_eq_false_2 by exact Hrest.
    reflexivity.
Qed.

Lemma peekType_ahead (p : Parser) (rest : list Token) :
  ahead p rest ->
  tok_Type (peekToken p) = match rest with [] => TOKEN_EOF | t :: _ => tok_Type t end.
Proof. intros [_ H]. destruct rest as [|t rest]; destruct H as [-> _]; reflexivity. Qed.

(** [parsePrimaryExpression] on the tokens of a primary expression. *)
Lemma parsePrimary_ahead (e : Expression) (lead : string) (p : Parser) (rest : list Token) :
  primaryOk e = true ->
  ahead p (tokensOf (exprSegments lead e) ++ rest) ->
  match rest with [] => True | t :: _ => tok_Type t <> TOKEN_DOT end ->
  exists p', parsePrimaryExpression p = (Parsed e, p') /\ ahead p' rest /\
             errors p' = errors p.
Proof.
  intros Hok Hahead Hrest.
  destruct e as [v|t c|v ty|l op r|]; cbn [primaryOk] in Hok; try discriminate.
  - apply isName_word in Hok as [_ Hid].
    cbn [exprSegments tokensOf map app snd lexemeToken] in Hahead.
    pose proof (peekType_ahead p _ Hahead) as Hpeek. cbn [tok_Type] in Hpeek.
    destruct (nextToken_ahead p _ _ Hahead) as (p1 & Hnext & Hcur & Hahead1 & Herr).
    exists p1. unfold parsePrimaryExpression, bind, get. rewrite Hpeek, Hid, Hnext.
    unfold currentLiteral. rewrite Hcur.
    rewrite (peekTokenIs_other TOKEN_DOT p1 rest Hahead1) by (discriminate || exact Hrest).
    unfold ret. auto.
  - apply andb_true_iff in Hok as [Ht Hc].
    apply isName_word in Ht as [_ Ht]. apply isName_word in Hc as [_ Hc].
    cbn [exprSegments tokensOf map app snd lexemeToken signText] in Hahead.
    pose proof (peekType_ahead p _ Hahead) as Hpeek. cbn [tok_Type] in Hpeek.
    destruct (nextToken_ahead p _ _ Hahead) as (p1 & Hnext1 & Hcur1 & Hahead1 & Herr1).
    pose proof (peekTokenIs_ahead TOKEN_DOT p1 _ _ Hahead1) as Hdot.
    destruct (nextToken_ahead p1 _ _ Hahead1) as (p2 & Hnext2 & Hcur2 & Hahead2 & Herr2).
    destruct (expectPeek_ahead TOKEN_IDENTIFIER p2 _ _ Hahead2 Hc)
      as (p3 & Hnext3 & Hcur3 & Hahead3 & Herr3).
    exists p3. unfold parsePrimaryExpression, bind, get. rewrite Hpeek, Ht, Hnext1.
    unfold currentLiteral. rewrite Hcur1, Hdot. cbn [tok_Type].
    rewrite (bool_decide_eq_true_2 _ eq_refl), Hnext2, Hnext3. cbn [negb].
    rewrite Hcur3. unfold ret. split; [reflexivity|]. split; [exact Hahead3|congruence].
  - destruct v as [|n|s|b], ty; try discriminate;
      cbn [exprSegments tokensOf map app snd lexemeToken] in Hahead;
      pose proof (peekType_ahead p _ Hahead) as Hpeek; cbn [tok_Type] in Hpeek;
      destruct (nextToken_ahead p _ _ Hahead) as (p1 & Hnext & Hcur & Hahead1 & Herr);
      exists p1; unfold parsePrimaryExpression, bind, get.
    + rewrite Hpeek, Hnext. unfold currentLiteral. rewrite Hcur. cbn [tok_Literal].
      rewrite Atoi_Itoa. apply andb_true_iff in Hok as [Hlow Hhigh].
      assert (Hmin : (minInt <=? n)%Z = true).
      { apply Z.leb_le. apply Z.leb_le in Hlow. unfold minInt. lia. }
      rewrite Hmin, Hhigh. unfold ret. auto.
    + rewrite Hpeek, Hnext. unfold currentLiteral. rewrite Hcur. unfold ret. auto.
    + destruct b;
        [change (lookupIdent "TRUE") with TOKEN_TRUE in Hpeek
        |change (lookupIdent "FALSE") with TOKEN_FALSE in Hpeek];
        rewrite Hpeek, Hnext; unfold ret; auto.
Qed.

Lemma tokensOf_app (a b : list Segment) : tokensOf (a ++ b) = tokensOf a ++ tokensOf b.
Proof. apply map_app. Qed.

Lemma closes_noDot (rest : list Token) :
  closes rest -> match rest with [] => True | t :: _ => tok_Type t <> TOKEN_DOT end.
Proof. destruct rest; [auto|]. intros [_ H]. exact H. Qed.

Lemma closes_peek (p : Parser) (rest : list Token) :
  ahead p rest -> closes rest -> isComparison (tok_Type (peekToken p)) = false.
Proof.
  intros Hahead Hrest. rewrite (peekType_ahead p rest Hahead).
  destruct rest; [reflexivity|]. apply Hrest.
Qed.

(** [parseExpression] on the tokens of an expression. *)
Lemma parseExpression_ahead (e : Expression) (lead : string) (p : Parser) (rest : list Token) :
  expressionOk e = true ->
  ahead p (tokensOf (exprSegments lead e) ++ rest) -> closes rest ->
  exists p', parseExpression p = (Parsed e, p') /\ ahead p' rest /\ errors p' = errors p.
Proof.
  intros Hok Hahead Hrest.
  assert (Hprimary : primaryOk e = true ->
                     exists p', parseExpression p = (Parsed e, p') /\ ahead p' rest /\
                                errors p' = errors p).
  { intros Hp.
    destruct (parsePrimary_ahead e lead p rest Hp Hahead (closes_noDot rest Hrest))
      as (p1 & Hrun & Hahead1 & Herr).
    exists p1. unfold parseExpression, bind, get. rewrite Hrun.
    rewrite (closes_peek p1 rest Hahead1 Hrest). unfold ret. auto. }
  destruct e as [v|t c|v ty|l op r|]; try (apply Hprimary; exact Hok). clear Hprimary.
  cbn [expressionOk] in Hok. apply andb_true_iff in Hok as [Hok Hr].
  apply andb_true_iff in Hok as [Hl Hop]. apply bool_decide_eq_true_1 in Hop as [t Hop].
  destruct (operator_sign op t Hop) as (Htext & Hcmp & _ & Hdot).
  cbn [exprSegments] in Hahead. rewrite Hop in Hahead.
  change (default TOKEN_EQUALS (Some t)) with t in Hahead.
  rewrite tokensOf_app, <- app_assoc in Hahead.
  cbn [tokensOf map snd lexemeToken] in Hahead. rewrite <- app_comm_cons in Hahead.
  destruct (parsePrimary_ahead l lead p _ Hl Hahead Hdot) as (p1 & Hrun1 & Hahead1 & Herr1).
  pose proof (peekType_ahead p1 _ Hahead1) as Hpeek. cbn [tok_Type] in Hpeek.
  destruct (nextToken_ahead p1 _ _ Hahead1) as (p2 & Hnext & Hcur & Hahead2 & Herr2).
  destruct (parsePrimary_ahead r " " p2 rest Hr Hahead2 (closes_noDot rest Hrest))
    as (p3 & Hrun3 & Hahead3 & Herr3).
  exists p3. unfold parseExpression, bind, get. rewrite Hrun1, Hpeek, Hcmp, Hnext.
  unfold currentLiteral. rewrite Hcur. cbn [tok_Literal]. rewrite Hrun3, Htext.
  unfold ret. split; [reflexivity|]. split; [exact Hahead3|congruence].
Qed.

(** *** Lists of expressions *)

Lemma first_token (e : Expression) (lead : string) :
  expressionOk e = true ->
  exists t ts, tokensOf (exprSegments lead e) = t :: ts /\ startsExpression (tok_Type t) = true.
Proof.
  assert (Hprimary : forall e', primaryOk e' = true ->
            exists t ts, tokensOf (exprSegments lead e') = t :: ts /\
                         startsExpression (tok_Type t) = true).
  { intros e' Hok. destruct e' as [v|t c|v ty|l op r|]; cbn [primaryOk] in Hok; try discriminate.
    - apply isName_word in Hok as [_ Hid]. eexists _, _. split; [reflexivity|].
      cbn [snd lexemeToken tok_Type]. rewrite Hid. reflexivity.
    - apply andb_true_iff in Hok as [Ht _]. apply isName_word in Ht as [_ Hid].
      eexists _, _. split; [reflexivity|]. cbn [snd lexemeToken tok_Type]. rewrite Hid.
      reflexivity.
    - destruct v as [|n|s|b], ty; try discriminate; eexists _, _; (split; [reflexivity|]);
        try reflexivity. destruct b; reflexivity. }
  intros Hok. destruct e as [v|t c|v ty|l op r|]; try (apply Hprimary; exact Hok).
  cbn [expressionOk] in Hok. apply andb_true_iff in Hok as [Hok _].
  apply andb_true_iff in Hok as [Hl _].
  destruct (Hprimary l Hl) as (t & ts & Heq & Hstart).
  cbn [exprSegments]. rewrite tokensOf_app, Heq. eexists _, _. split; [reflexivity|exact Hstart].
Qed.

Lemma list_text (es : list Expression) :
  forallb expressionOk es = true ->
  exists ss, Expressions_Strings es = Some ss /\
    (es = [] -> ss = []) /\
    (es <> [] -> forall lead, render (listSegments lead es) = (lead ++ Join ss ", ")%string).
Proof.
  induction es as [|e rest IH]; intros Hok.
  - exists []. split; [reflexivity|]. split; [reflexivity|congruence].
  - cbn [forallb] in Hok. apply andb_true_iff in Hok as [He Hrest].
    destruct (IH Hrest) as (ss & Hss & Hnil & Hcons).
    destruct (expression_text e EmptyString He) as (s & Hs & _).
    exists (s :: ss). cbn [Expressions_Strings]. rewrite Hs, Hss.
    split; [reflexivity|]. split; [discriminate|]. intros _ lead.
    destruct (expression_text e lead He) as (s' & Hs' & Hrender).
    assert (s' = s) by congruence. subst s'.
    cbn [listSegments]. rewrite render_app, Hrender. destruct rest as [|e' rest'].
    + rewrite (Hnil eq_refl). cbn [render]. rewrite append_empty_r. reflexivity.
    + cbn [render lexemeText signText]. rewrite (Hcons ltac:(discriminate) " ").
      rewrite Join_cons. destruct ss as [|s2 ss2].
      * cbn [Expressions_Strings] in Hss. destruct (Expression_String e'); [|discriminate].
        destruct (Expressions_Strings rest'); discriminate.
      * rewrite !append_assoc. reflexivity.
Qed.

Lemma list_separated (es : list Expression) : forall lead trail : string,
  allBytes isBlank lead = true -> forallb expressionOk es = true -> cleanStart trail = true ->
  separated (listSegments lead es) trail = true.
Proof.
  induction es as [|e rest IH]; intros lead trail Hb Hok Hclean; [reflexivity|].
  cbn [forallb] in Hok. apply andb_true_iff in Hok as [He Hrest].
  cbn [listSegments]. rewrite separated_app. destruct rest as [|e' rest'].
  - cbn [render separated]. rewrite append_nil, andb_true_r.
    apply expression_separated; assumption.
  - apply andb_true_iff. split.
    + apply expression_separated; [exact Hb|exact He|]. cbn [render lexemeText signText].
      rewrite append_nil, append_cons. reflexivity.
    + cbn [separated]. rewrite (IH " " trail eq_refl Hrest Hclean).
      rewrite fits_always by discriminate. reflexivity.
Qed.

(** The loop of [parseExpressionList] on the tokens of a list, with
    turns to spare. *)
Lemma parseList_ahead (endTok : TokenType) (closing : Token) (rest : list Token) :
  tok_Type closing = endTok -> startsExpression endTok = false ->
  endTok <> TOKEN_COMMA -> endTok <> TOKEN_EOF -> closes (closing :: rest) ->
  forall es lead acc p fuel,
    forallb expressionOk es = true -> length es < fuel ->
    ahead p (tokensOf (listSegments lead es) ++ closing :: rest) ->
    exists p', parseExpressionList_go fuel endTok acc p = (acc ++ es, p') /\
               ahead p' (closing :: rest) /\ errors p' = errors p.
Proof.
  intros Hclosing Hstart Hcomma Heof Hcloses.
  induction es as [|e es IH]; intros lead acc p fuel Hok Hfuel Hahead.
  - destruct fuel as [|fuel]; [simpl in Hfuel; lia|].
    cbn [listSegments tokensOf map app] in Hahead.
    exists p. cbn [parseExpressionList_go]. unfold bind.
    rewrite (peekTokenIs_ahead endTok p _ _ Hahead).
    rewrite (bool_decide_eq_true_2 _ Hclosing).
    destruct (peekTokenIs TOKEN_EOF p) as [b p0] eqn:Ep. unfold peekTokenIs in Ep.
    injection Ep as _ <-. cbn [orb]. unfold ret. rewrite app_nil_r. auto.
  - destruct fuel as [|fuel]; [simpl in Hfuel; lia|]. cbn [length] in Hfuel.
    cbn [forallb] in Hok. apply andb_true_iff in Hok as [He Hes].
    destruct (first_token e lead He) as (t & ts & Hfirst & Htype).
    cbn [listSegments] in Hahead. rewrite tokensOf_app, <- app_assoc in Hahead.
    assert (Hnot_end : tok_Type t <> endTok) by (intros E; rewrite E in Htype; congruence).
    assert (Hnot_eof : tok_Type t <> TOKEN_EOF) by (intros E; rewrite E in Htype; discriminate).
    cbn [parseExpressionList_go]. unfold bind at 1 2.
    pose proof Hahead as Hpeeks. rewrite Hfirst, <- app_comm_cons in Hpeeks.
    rewrite (peekTokenIs_ahead endTok p _ _ Hpeeks), (bool_decide_eq_false_2 _ Hnot_end).
    rewrite (peekTokenIs_ahead TOKEN_EOF p _ _ Hpeeks), (bool_decide_eq_false_2 _ Hnot_eof).
    cbn [orb]. clear Hpeeks. unfold bind at 1.
    destruct es as [|e' es'].
    + cbn [tokensOf map app] in Hahead.
      destruct (parseExpression_ahead e lead p _ He Hahead Hcloses) as (p1 & Hrun & Hahead1 & Herr1).
      rewrite Hrun. unfold bind at 1.
      rewrite (peekTokenIs_ahead endTok p1 _ _ Hahead1), (bool_decide_eq_true_2 _ Hclosing).
      destruct (IH lead (acc ++ [e]) p1 fuel eq_refl ltac:(simpl in *; lia) Hahead1)
        as (p2 & Hrun2 & Hahead2 & Herr2).
      exists p2. rewrite Hrun2, <- app_assoc. split; [reflexivity|].
      split; [exact Hahead2|congruence].
    + cbn [tokensOf map snd lexemeToken signText] in Hahead.
      rewrite <- app_comm_cons in Hahead.
      destruct (parseExpression_ahead e lead p _ He Hahead) as (p1 & Hrun & Hahead1 & Herr1).
      { split; [reflexivity|discriminate]. }
      rewrite Hrun. unfold bind at 1.
      rewrite (peekTokenIs_ahead endTok p1 _ _ Hahead1).
      rewrite bool_decide_eq_false_2 by (cbn [tok_Type]; congruence).
      destruct (expectPeek_ahead TOKEN_COMMA p1 _ _ Hahead1 eq_refl)
        as (p2 & Hcomma' & _ & Hahead2 & Herr2).
      unfold bind at 1. rewrite Hcomma'. cbn [negb].
      destruct (IH " " (acc ++ [e]) p2 fuel Hes ltac:(simpl in *; lia) Hahead2)
        as (p3 & Hrun3 & Hahead3 & Herr3).
      exists p3. rewrite Hrun3, <- app_assoc. split; [reflexivity|].
      split; [exact Hahead3|congruence].
Qed.

(** [parseExpressionList] itself: its turns are enough. *)
Lemma parseExpressionList_ahead (endTok : TokenType) (closing : Token) (rest : list Token)
    (es : list Expression) (lead : string) (p : Parser) :
  tok_Type closing = endTok -> startsExpression endTok = false ->
  endTok <> TOKEN_COMMA -> endTok <> TOKEN_EOF -> closes (closing :: rest) ->
  forallb expressionOk es = true ->
  ahead p (tokensOf (listSegments lead es) ++ closing :: rest) ->
  exists p', parseExpressionList endTok p = (es, p') /\
             ahead p' (closing :: rest) /\ errors p' = errors p.
Proof.
  intros Hclosing Hstart Hcomma Heof Hcloses Hok Hahead.
  pose proof Hahead as [HJ _].
  destruct (parseList_ahead endTok closing rest Hclosing Hstart Hcomma Heof Hcloses
              es lead [] p (turnsLeft p + length es + 1) Hok ltac:(lia) Hahead)
    as (p' & Hrun & Hahead' & Herr).
  exists p'. split; [|auto].
  unfold parseExpressionList, bind, turns.
  rewrite (ProgressFacts.parseExpressionList_go_enough endTok _
             (turnsLeft p + length es + 1) [] p HJ); [exact Hrun| |lia].
  pose proof (ProgressFacts.turnsLeft_turns p HJ) as Ht. unfold turns in Ht. exact Ht.
Qed.

(** *** Statements *)

(** The parser made for a text of separated lexemes has the first token
    in [currentToken] and the others before it. *)
Lemma NewParser_ahead (blanks : string) (x : Lexeme) (segs : list Segment) (trail : string) :
  separated ((blanks, x) :: segs) trail = true -> allBytes isBlank trail = true ->
  currentToken (NewParser (NewLexer (render ((blanks, x) :: segs) ++ trail))) = lexemeToken x /\
  ahead (NewParser (NewLexer (render ((blanks, x) :: segs) ++ trail))) (tokensOf segs) /\
  errors (NewParser (NewLexer (render ((blanks, x) :: segs) ++ trail))) = [].
Proof.
  intros Hsep Htrail.
  pose proof (ProgressFacts.J_NewParser (render ((blanks, x) :: segs) ++ trail)) as HJ.
  pose proof (feeds_separated _ trail EmptyString Hsep Htrail) as Hfeeds.
  rewrite <- NewLexer_at in Hfeeds. revert HJ Hfeeds.
  generalize (NewLexer (render ((blanks, x) :: segs) ++ trail)). intros l HJ Hfeeds.
  cbn [tokensOf map snd feeds] in Hfeeds. destruct Hfeeds as (l1 & Hnext1 & Hfeeds).
  unfold NewParser, bind, nextToken in *. cbn [lexer peekToken errors currentToken] in *.
  rewrite Hnext1 in *. cbn [lexer peekToken errors currentToken] in *.
  destruct segs as [|[blanks2 x2] segs]; cbn [map feeds] in Hfeeds.
  - destruct Hfeeds as (l2 & Hnext2 & Hend). rewrite Hnext2 in *.
    cbn [snd currentToken errors] in *. split; [reflexivity|]. split; [|reflexivity].
    split; [exact HJ|]. split; [reflexivity|exact Hend].
  - destruct Hfeeds as (l2 & Hnext2 & Hfeeds). rewrite Hnext2 in *.
    cbn [snd currentToken errors] in *. split; [reflexivity|]. split; [|reflexivity].
    split; [exact HJ|]. split; [reflexivity|exact Hfeeds].
Qed.

Ltac expect H p' Hrun Hcur Hahead Herr :=
  match type of H with
  | ahead ?p (?t :: ?rest) =>
      let ty := eval vm_compute in (tok_Type t) in
      destruct (expectPeek_ahead ty p t rest H) as (p' & Hrun & Hcur & Hahead & Herr);
      [try reflexivity|]
  end.

Lemma insert_text (i : InsertStatement) :
  insertOk i = true ->
  InsertStatement_String i = Some (render (insertSegments i)) /\
  separated (insertSegments i) EmptyString = true.
Proof.
  unfold insertOk. intros Hok. apply andb_true_iff in Hok as [Hname Hvalues].
  apply isName_word in Hname as [Hname _].
  destruct (list_text (ins_Values i) Hvalues) as (ss & Hss & Hnil & Hcons). split.
  - unfold InsertStatement_String, insertSegments. rewrite Hss. f_equal.
    rewrite !render_app. cbn [render lexemeText signText].
    destruct (ins_Values i) as [|e es] eqn:Ev.
    + rewrite (Hnil eq_refl). cbn [listSegments render Join String.concat].
      rewrite !append_nil, !append_empty_r, !append_assoc. reflexivity.
    + rewrite (Hcons ltac:(discriminate) EmptyString).
      rewrite !append_nil, !append_empty_r, !append_assoc. reflexivity.
  - unfold insertSegments.
    change ([(EmptyString, LWord "INSERT"); (" ", LWord "INTO"); (" ", LWord (ins_TableName i));
             (" ", LWord "VALUES"); (" ", LSign TOKEN_LEFT_PAREN)]
            ++ listSegments EmptyString (ins_Values i) ++ [(EmptyString, LSign TOKEN_RIGHT_PAREN)])
      with ((EmptyString, LWord "INSERT") :: (" ", LWord "INTO") :: (" ", LWord (ins_TableName i))
            :: (" ", LWord "VALUES") :: (" ", LSign TOKEN_LEFT_PAREN)
            :: (listSegments EmptyString (ins_Values i)
                ++ [(EmptyString, LSign TOKEN_RIGHT_PAREN)])).
    cbn [separated]. rewrite Hname. rewrite separated_app.
    rewrite (list_separated (ins_Values i) EmptyString _ eq_refl Hvalues) by reflexivity.
    cbn [render lexemeText signText separated].
    rewrite !append_cons, !append_nil.
    rewrite !fits_always by discriminate. reflexivity.
Qed.

Lemma closes_paren (rest : list Token) :
  closes ({| tok_Type := TOKEN_RIGHT_PAREN; tok_Literal := ")" |} :: rest).
Proof. split; [reflexivity|discriminate]. Qed.

(** Property X22. An INSERT statement is read back from its text: when
    the table name is a word that is no keyword and every value is a
    name, a qualified name, a number from 0 to the largest [int], a text
    without single quote and without the byte 0, a Boolean, or a
    comparison of two of these, [String] gives a text, and the lexer and
    the parser turn that text into the statement again, with no
    diagnostic. *)
Theorem insert_read_back (i : InsertStatement) :
  insertOk i = true ->
  exists sql, InsertStatement_String i = Some sql /\
              parseText sql = (Parsed (StmtInsert i), []).
Proof.
  intros Hok. destruct (insert_text i Hok) as [Htext Hsep].
  exists (render (insertSegments i)). split; [exact Htext|].
  unfold insertOk in Hok. apply andb_true_iff in Hok as [Hname Hvalues].
  apply isName_word in Hname as [_ Hname].
  unfold parseText.
  rewrite <- (append_empty_r (render (insertSegments i))).
  unfold insertSegments in *. cbn [app] in *.
  destruct (NewParser_ahead _ _ _ EmptyString Hsep eq_refl) as (Hcur & Hahead & Herr).
  revert Hcur Hahead Herr.
  generalize (NewParser (NewLexer (render
    ((EmptyString, LWord "INSERT") :: (" ", LWord "INTO") :: (" ", LWord (ins_TableName i))
     :: (" ", LWord "VALUES") :: (" ", LSign TOKEN_LEFT_PAREN)
     :: listSegments EmptyString (ins_Values i) ++ [(EmptyString, LSign TOKEN_RIGHT_PAREN)])
    ++ EmptyString))).
  intros p Hcur Hahead Herr.
  cbn [tokensOf map snd lexemeToken] in Hahead. fold (tokensOf) in Hahead.
  change (map (fun seg : Segment => lexemeToken seg.2)
              (listSegments EmptyString (ins_Values i)
               ++ [(EmptyString, LSign TOKEN_RIGHT_PAREN)]))
    with (tokensOf (listSegments EmptyString (ins_Values i)
                    ++ [(EmptyString, LSign TOKEN_RIGHT_PAREN)])) in Hahead.
  rewrite tokensOf_app in Hahead. cbn [tokensOf map snd lexemeToken signText] in Hahead.
  expect Hahead p1 Hrun1 Hcur1 Hahead1 Herr1.
  destruct (expectPeek_ahead TOKEN_IDENTIFIER p1 _ _ Hahead1 Hname)
    as (p2 & Hrun2 & Hcur2 & Hahead2 & Herr2).
  expect Hahead2 p3 Hrun3 Hcur3 Hahead3 Herr3.
  expect Hahead3 p4 Hrun4 Hcur4 Hahead4 Herr4.
  destruct (parseExpressionList_ahead TOKEN_RIGHT_PAREN
              {| tok_Type := TOKEN_RIGHT_PAREN; tok_Literal := ")" |}
              [] (ins_Values i) EmptyString p4
              eq_refl eq_refl ltac:(discriminate) ltac:(discriminate) (closes_paren [])
              Hvalues Hahead4)
    as (p5 & Hrun5 & Hahead5 & Herr5).
  expect Hahead5 p6 Hrun6 Hcur6 Hahead6 Herr6.
  unfold ParseStatement, bind, get. rewrite Hcur.
  change (tok_Type (lexemeToken (LWord "INSERT"))) with TOKEN_INSERT. cbv iota.
  unfold wrap, parseInsertStatement, bind.
  rewrite Hrun1. cbn [negb]. rewrite Hrun2. cbn [negb].
  unfold currentLiteral. rewrite Hcur2. cbn [tok_Literal].
  rewrite Hrun3. cbn [negb]. rewrite Hrun4. cbn [negb]. rewrite Hrun5, Hrun6. cbn [negb].
  unfold ret, GetErrors. destruct i as [name values]. cbn [ins_TableName ins_Values] in *.
  f_equal. congruence.
Qed.

(** The optional WHERE clause. *)
Lemma where_text (blanks : string) (where_ : option Expression) :
  whereOk where_ = true -> allBytes isBlank blanks = true ->
  match where_ with
  | Some e => exists s, Expression_String e = Some s /\
                        render (whereSegments blanks where_) = (blanks ++ "WHERE " ++ s)%string
  | None => render (whereSegments blanks where_) = EmptyString
  end /\
  separated (whereSegments blanks where_) EmptyString = true.
Proof.
  intros Hok Hb. destruct where_ as [e|]; cbn [whereOk] in Hok; [|split; reflexivity].
  destruct (expression_text e " " Hok) as (s & Hs & Hrender). split.
  - exists s. split; [exact Hs|]. cbn [whereSegments render lexemeText]. rewrite Hrender.
    rewrite !append_cons, !append_nil. reflexivity.
  - cbn [whereSegments separated]. rewrite Hb.
    rewrite (expression_separated e " " EmptyString eq_refl Hok eq_refl), Hrender.
    reflexivity.
Qed.

Lemma parseOptionalWhere_ahead (blanks : string) (where_ : option Expression) (p : Parser) :
  whereOk where_ = true -> ahead p (tokensOf (whereSegments blanks where_)) ->
  exists p', parseOptionalWhere p = (Parsed where_, p') /\ ahead p' [] /\
             errors p' = errors p.
Proof.
  intros Hok Hahead. destruct where_ as [e|]; cbn [whereOk] in Hok.
  - cbn [whereSegments tokensOf map snd lexemeToken] in Hahead.
    pose proof (peekTokenIs_ahead TOKEN_WHERE p _ _ Hahead) as Hpeek.
    destruct (nextToken_ahead p _ _ Hahead) as (p1 & Hnext & _ & Hahead1 & Herr1).
    rewrite <- (app_nil_r (map _ _)) in Hahead1.
    destruct (parseExpression_ahead e " " p1 [] Hok Hahead1 I) as (p2 & Hrun & Hahead2 & Herr2).
    exists p2. unfold parseOptionalWhere, bind. rewrite Hpeek.
    change (tok_Type {| tok_Type := lookupIdent "WHERE"; tok_Literal := "WHERE" |})
      with TOKEN_WHERE.
    rewrite (bool_decide_eq_true_2 _ eq_refl), Hnext, Hrun. unfold ret.
    split; [reflexivity|]. split; [exact Hahead2|congruence].
  - cbn [whereSegments tokensOf map] in Hahead. exists p.
    unfold parseOptionalWhere, bind. rewrite (peekTokenIs_end TOKEN_WHERE p Hahead).
    rewrite bool_decide_eq_false_2 by discriminate. unfold ret. auto.
Qed.

Lemma delete_text (d : DeleteStatement) :
  deleteOk d = true ->
  DeleteStatement_String d = Some (render (deleteSegments d)) /\
  separated (deleteSegments d) EmptyString = true.
Proof.
  unfold deleteOk. intros Hok. apply andb_true_iff in Hok as [Hname Hwhere].
  apply isName_word in Hname as [Hname _].
  destruct (where_text " " (del_Where d) Hwhere eq_refl) as [Htext Hsep].
  unfold DeleteStatement_String, deleteSegments. split.
  - cbn [render lexemeText]. destruct (del_Where d) as [e|].
    + destruct Htext as (s & Hs & ->). unfold withWhere. rewrite Hs.
      f_equal; rewrite ?append_cons, ?append_nil, ?append_assoc; reflexivity.
    + rewrite Htext. unfold withWhere.
      f_equal; rewrite ?append_cons, ?append_nil, ?append_empty_r; reflexivity.
  - cbn [separated]. rewrite Hname, Hsep. cbn [render lexemeText].
    rewrite !append_cons, !append_nil.
    destruct (del_Where d) as [e|]; [reflexivity|].
    cbn [whereSegments render]. rewrite append_empty_r. reflexivity.
Qed.

(** Property X23. A DELETE statement is read back from its text: when
    the table name is a word that is no keyword and the condition, if
    there is one, is a name, a qualified name, a number from 0 to the
    largest [int], a text without single quote and without the byte 0, a
    Boolean, or a comparison of two of these, the lexer and the parser
    turn the text that [String] gives into the statement again, with no
    diagnostic. *)
Theorem delete_read_back (d : DeleteStatement) :
  deleteOk d = true ->
  exists sql, DeleteStatement_String d = Some sql /\
              parseText sql = (Parsed (StmtDelete d), []).
Proof.
  intros Hok. destruct (delete_text d Hok) as [Htext Hsep].
  exists (render (deleteSegments d)). split; [exact Htext|].
  unfold deleteOk in Hok. apply andb_true_iff in Hok as [Hname Hwhere].
  apply isName_word in Hname as [_ Hname].
  unfold parseText. rewrite <- (append_empty_r (render (deleteSegments d))).
  unfold deleteSegments in *.
  destruct (NewParser_ahead _ _ _ EmptyString Hsep eq_refl) as (Hcur & Hahead & Herr).
  revert Hcur Hahead Herr.
  generalize (NewParser (NewLexer (render
    ((EmptyString, LWord "DELETE") :: (" ", LWord "FROM") :: (" ", LWord (del_TableName d))
     :: whereSegments " " (del_Where d)) ++ EmptyString))).
  intros p Hcur Hahead Herr.
  cbn [tokensOf map snd lexemeToken] in Hahead.
  change (map (fun seg : Segment => lexemeToken seg.2) (whereSegments " " (del_Where d)))
    with (tokensOf (whereSegments " " (del_Where d))) in Hahead.
  expect Hahead p1 Hrun1 Hcur1 Hahead1 Herr1.
  destruct (expectPeek_ahead TOKEN_IDENTIFIER p1 _ _ Hahead1 Hname)
    as (p2 & Hrun2 & Hcur2 & Hahead2 & Herr2).
  destruct (parseOptionalWhere_ahead " " (del_Where d) p2 Hwhere Hahead2)
    as (p3 & Hrun3 & Hahead3 & Herr3).
  unfold ParseStatement, bind, get. rewrite Hcur.
  change (tok_Type (lexemeToken (LWord "DELETE"))) with TOKEN_DELETE. cbv iota.
  unfold wrap, parseDeleteStatement, bind.
  rewrite Hrun1. cbn [negb]. rewrite Hrun2. cbn [negb].
  unfold currentLiteral. rewrite Hcur2. cbn [tok_Literal]. rewrite Hrun3.
  unfold ret, GetErrors. destruct d as [name where_]. cbn [del_TableName del_Where] in *.
  f_equal. congruence.
Qed.

(** *** SELECT *)

Lemma columns_text (columns : list Expression) :
  columnsOk columns = true ->
  exists ss, Expressions_Strings columns = Some ss /\
    render (listSegments " " columns)
    = match columns with [] => EmptyString | _ => (" " ++ Join ss ", ")%string end /\
    (columns = [] -> ss = []) /\
    forall trail, cleanStart trail = true -> separated (listSegments " " columns) trail = true.
Proof.
  unfold columnsOk. intros Hok.
  destruct (decide (columns = [StarExpression])) as [->|Hne].
  - exists ["*"]. split; [reflexivity|]. split; [reflexivity|]. split; [discriminate|].
    intros trail Hclean. cbn [listSegments exprSegments app].
    apply separated_one; [reflexivity|reflexivity|exact Hclean].
  - rewrite (bool_decide_eq_false_2 _ Hne) in Hok. cbn [orb] in Hok.
    destruct (list_text columns Hok) as (ss & Hss & Hnil & Hcons).
    exists ss. split; [exact Hss|]. split; [|split; [exact Hnil|]].
    + destruct columns as [|e es]; [reflexivity|]. apply Hcons. discriminate.
    + intros trail Hclean. apply list_separated; [reflexivity|exact Hok|exact Hclean].
Qed.

Lemma fromToken_closes (rest : list Token) :
  closes ({| tok_Type := lookupIdent "FROM"; tok_Literal := "FROM" |} :: rest).
Proof. split; [reflexivity|discriminate]. Qed.

Lemma parseSelectColumns_ahead (columns : list Expression) (p : Parser) (rest : list Token) :
  columnsOk columns = true ->
  ahead p (tokensOf (listSegments " " columns)
           ++ {| tok_Type := lookupIdent "FROM"; tok_Literal := "FROM" |} :: rest) ->
  exists p', parseSelectColumns p = (columns, p') /\
             ahead p' ({| tok_Type := lookupIdent "FROM"; tok_Literal := "FROM" |} :: rest) /\
             errors p' = errors p.
Proof.
  unfold columnsOk. intros Hok Hahead.
  destruct (decide (columns = [StarExpression])) as [->|Hne].
  - cbn [listSegments exprSegments app tokensOf map snd lexemeToken signText] in Hahead.
    pose proof (peekTokenIs_ahead TOKEN_STAR p _ _ Hahead) as Hpeek.
    destruct (nextToken_ahead p _ _ Hahead) as (p1 & Hnext & _ & Hahead1 & Herr1).
    exists p1. unfold parseSelectColumns, bind. rewrite Hpeek. cbn [tok_Type].
    rewrite (bool_decide_eq_true_2 _ eq_refl), Hnext. unfold ret. auto.
  - rewrite (bool_decide_eq_false_2 _ Hne) in Hok. cbn [orb] in Hok.
    destruct (parseExpressionList_ahead TOKEN_FROM
                {| tok_Type := lookupIdent "FROM"; tok_Literal := "FROM" |} rest
                columns " " p eq_refl eq_refl ltac:(discriminate) ltac:(discriminate)
                (fromToken_closes rest) Hok Hahead)
      as (p1 & Hrun & Hahead1 & Herr1).
    exists p1. unfold parseSelectColumns, bind.
    assert (Hpeek : peekTokenIs TOKEN_STAR p = (false, p)).
    { destruct columns as [|e es].
      - cbn [listSegments tokensOf map app] in Hahead.
        rewrite (peekTokenIs_ahead TOKEN_STAR p _ _ Hahead).
        rewrite bool_decide_eq_false_2 by discriminate. reflexivity.
      - cbn [forallb] in Hok. apply andb_true_iff in Hok as [He _].
        destruct (first_token e " " He) as (t & ts & Hfirst & Hstart).
        cbn [listSegments] in Hahead. rewrite tokensOf_app, Hfirst in Hahead.
        rewrite <- !app_comm_cons in Hahead.
        rewrite (peekTokenIs_ahead TOKEN_STAR p _ _ Hahead).
        rewrite bool_decide_eq_false_2; [reflexivity|].
        intros E. rewrite E in Hstart. discriminate. }
    rewrite Hpeek. auto.
Qed.

Lemma join_text (join : option JoinClause) :
  joinOk join = true ->
  match join with
  | Some j => exists js, JoinClause_String j = Some js /\
                         render (joinSegments join) = (" " ++ js)%string
  | None => render (joinSegments join) = EmptyString
  end /\
  forall trail, cleanStart trail = true -> separated (joinSegments join) trail = true.
Proof.
  intros Hok. destruct join as [j|]; cbn [joinOk] in Hok; [|split; reflexivity].
  apply andb_true_iff in Hok as [Hname Hon]. apply isName_word in Hname as [Hname _].
  destruct (expression_text (onExpression j) " " Hon) as (s & Hs & Hrender). split.
  - eexists. unfold JoinClause_String. fold (onExpression j). rewrite Hs.
    split; [reflexivity|]. cbn [joinSegments render lexemeText]. rewrite Hrender.
    rewrite ?append_cons, ?append_nil, ?append_assoc. reflexivity.
  - intros trail Hclean. cbn [joinSegments separated]. rewrite Hname.
    rewrite (expression_separated (onExpression j) " " trail eq_refl Hon Hclean).
    cbn [render lexemeText]. rewrite Hrender, !append_cons, !append_nil. reflexivity.
Qed.

Lemma parseJoinClause_ahead (j : JoinClause) (p : Parser) (rest : list Token) :
  joinOk (Some j) = true ->
  ahead p (tokensOf (joinSegments (Some j)) ++ rest) -> closes rest ->
  exists p', parseJoinClause p = (Parsed j, p') /\ ahead p' rest /\ errors p' = errors p.
Proof.
  cbn [joinOk]. intros Hok Hahead Hrest.
  apply andb_true_iff in Hok as [Hname Hon]. apply isName_word in Hname as [_ Hname].
  cbn [joinSegments tokensOf map snd lexemeToken app] in Hahead.
  change (map (fun seg : Segment => lexemeToken seg.2) (exprSegments " " (onExpression j)))
    with (tokensOf (exprSegments " " (onExpression j))) in Hahead.
  destruct (nextToken_ahead p _ _ Hahead) as (p1 & Hnext & _ & Hahead1 & Herr1).
  destruct (expectPeek_ahead TOKEN_IDENTIFIER p1 _ _ Hahead1 Hname)
    as (p2 & Hrun2 & Hcur2 & Hahead2 & Herr2).
  expect Hahead2 p3 Hrun3 Hcur3 Hahead3 Herr3.
  destruct (parseExpression_ahead (onExpression j) " " p3 rest Hon Hahead3 Hrest)
    as (p4 & Hrun4 & Hahead4 & Herr4).
  exists p4. unfold parseJoinClause, bind. rewrite Hnext, Hrun2. cbn [negb].
  unfold currentLiteral. rewrite Hcur2. cbn [tok_Literal]. rewrite Hrun3. cbn [negb].
  rewrite Hrun4. unfold onExpression, ret. destruct j as [name [l op r]].
  cbn [jc_TableName jc_On be_Left be_Operator be_Right].
  split; [reflexivity|]. split; [exact Hahead4|congruence].
Qed.

Lemma whereSegments_start (where_ : option Expression) (trail : string) :
  cleanStart trail = true -> cleanStart (render (whereSegments " " where_) ++ trail) = true.
Proof. intros H. destruct where_; [reflexivity|exact H]. Qed.

Lemma joinSegments_start (join : option JoinClause) (trail : string) :
  cleanStart trail = true -> cleanStart (render (joinSegments join) ++ trail) = true.
Proof. intros H. destruct join; [reflexivity|exact H]. Qed.

Lemma whereTokens_closes (where_ : option Expression) :
  closes (tokensOf (whereSegments " " where_)).
Proof. destruct where_; [split; [reflexivity|discriminate]|exact I]. Qed.

Lemma select_text (s : SelectStatement) :
  selectOk s = true ->
  SelectStatement_String s = Some (render (selectSegments s)) /\
  separated (selectSegments s) EmptyString = true.
Proof.
  unfold selectOk. intros Hok. apply andb_true_iff in Hok as [Hok Hwhere].
  apply andb_true_iff in Hok as [Hok Hjoin]. apply andb_true_iff in Hok as [Hname Hcolumns].
  apply isName_word in Hname as [Hname _].
  destruct (columns_text (sel_Columns s) Hcolumns) as (ss & Hss & Hrender & Hnil & Hsep).
  destruct (join_text (sel_Join s) Hjoin) as [Hjtext Hjsep].
  destruct (where_text " " (sel_Where s) Hwhere eq_refl) as [Hwtext Hwsep].
  unfold SelectStatement_String, selectSegments. rewrite Hss. split.
  - cbn [render lexemeText]. rewrite render_app. cbn [render lexemeText].
    rewrite render_app, Hrender.
    assert (Hjoin' : Join ss ", " = EmptyString \/ sel_Columns s <> []).
    { destruct (sel_Columns s); [left; rewrite (Hnil eq_refl); reflexivity|right; discriminate]. }
    destruct (sel_Join s) as [j|]; destruct (sel_Where s) as [w|]; unfold withWhere;
      try (destruct Hjtext as (js & -> & ->)); try (destruct Hwtext as (ws & -> & ->));
      try rewrite Hjtext; try rewrite Hwtext; f_equal;
      (destruct Hjoin' as [->|Hne]; [|destruct (sel_Columns s); [congruence|]]);
      rewrite ?append_assoc, ?append_cons, ?append_nil, ?append_empty_r; try reflexivity;
      destruct (sel_Columns s); reflexivity.
  - assert (Hrest : cleanStart (render (joinSegments (sel_Join s)
                                        ++ whereSegments " " (sel_Where s)) ++ EmptyString) = true).
    { rewrite render_app, append_assoc. apply joinSegments_start, whereSegments_start.
      reflexivity. }
    assert (Hfrom : forall fb tail, cleanStart (render ((String " " fb, LWord "FROM") :: tail) ++ EmptyString)
                                    = true) by reflexivity.
    cbn [separated]. rewrite separated_app.
    rewrite Hsep; [|destruct (sel_Columns s); apply Hfrom].
    cbn [separated]. rewrite Hname.
    rewrite separated_app, Hwsep.
    rewrite Hjsep; [|apply whereSegments_start; reflexivity].
    rewrite (fits_clean (LWord (sel_TableName s)) _ Hrest).
    rewrite render_app, Hrender.
    destruct (sel_Columns s) as [|e es]; reflexivity.
Qed.

(** Property X24. A SELECT statement is read back from its text: when
    the table names are words that are no keywords, the columns are the
    star alone or a list of names, qualified names, numbers from 0 to the
    largest [int], texts without single quote and without the byte 0,
    Booleans and comparisons of two of these, and the ON and WHERE
    conditions are of the same kind, the lexer and the parser turn the
    text that [String] gives into the statement again, with no
    diagnostic. *)
Theorem select_read_back (s : SelectStatement) :
  selectOk s = true ->
  exists sql, SelectStatement_String s = Some sql /\
              parseText sql = (Parsed (StmtSelect s), []).
Proof.
  intros Hok. destruct (select_text s Hok) as [Htext Hsep].
  exists (render (selectSegments s)). split; [exact Htext|].
  unfold selectOk in Hok. apply andb_true_iff in Hok as [Hok Hwhere].
  apply andb_true_iff in Hok as [Hok Hjoin]. apply andb_true_iff in Hok as [Hname Hcolumns].
  apply isName_word in Hname as [_ Hname].
  unfold parseText. rewrite <- (append_empty_r (render (selectSegments s))).
  unfold selectSegments in *.
  destruct (NewParser_ahead _ _ _ EmptyString Hsep eq_refl) as (Hcur & Hahead & Herr).
  revert Hcur Hahead Herr.
  match goal with
  | |- context [NewParser ?l] => generalize (NewParser l)
  end.
  intros p Hcur Hahead Herr.
  rewrite tokensOf_app in Hahead. cbn [tokensOf map snd lexemeToken] in Hahead.
  change (map (fun seg : Segment => lexemeToken seg.2) (listSegments " " (sel_Columns s)))
    with (tokensOf (listSegments " " (sel_Columns s))) in Hahead.
  change (map (fun seg : Segment => lexemeToken seg.2)
              (joinSegments (sel_Join s) ++ whereSegments " " (sel_Where s)))
    with (tokensOf (joinSegments (sel_Join s) ++ whereSegments " " (sel_Where s))) in Hahead.
  rewrite tokensOf_app in Hahead.
  destruct (parseSelectColumns_ahead _ p _ Hcolumns Hahead) as (p1 & Hrun1 & Hahead1 & Herr1).
  expect Hahead1 p2 Hrun2 Hcur2 Hahead2 Herr2.
  destruct (expectPeek_ahead TOKEN_IDENTIFIER p2 _ _ Hahead2 Hname)
    as (p3 & Hrun3 & Hcur3 & Hahead3 & Herr3).
  unfold ParseStatement, bind, get. rewrite Hcur.
  change (tok_Type (lexemeToken (LWord "SELECT"))) with TOKEN_SELECT. cbv iota.
  unfold wrap, parseSelectStatement, bind.
  rewrite Hrun1, Hrun2. cbn [negb]. rewrite Hrun3. cbn [negb].
  unfold currentLiteral. rewrite Hcur3. cbn [tok_Literal].
  destruct s as [name columns where_ join]. cbn [sel_TableName sel_Columns sel_Where sel_Join] in *.
  destruct join as [j|].
  - pose proof Hahead3 as Hpeek.
    cbn [joinSegments tokensOf map snd lexemeToken app] in Hpeek.
    rewrite (peekTokenIs_ahead TOKEN_JOIN p3 _ _ Hpeek). cbn [tok_Type].
    change (lookupIdent "JOIN") with TOKEN_JOIN. rewrite (bool_decide_eq_true_2 _ eq_refl).
    destruct (parseJoinClause_ahead j p3 _ Hjoin Hahead3 (whereTokens_closes where_))
      as (p4 & Hrun4 & Hahead4 & Herr4).
    destruct (parseOptionalWhere_ahead " " where_ p4 Hwhere Hahead4)
      as (p5 & Hrun5 & Hahead5 & Herr5).
    rewrite Hrun4. unfold ret. rewrite Hrun5. unfold GetErrors. f_equal. congruence.
  - cbn [joinSegments tokensOf map app] in Hahead3.
    change (map (fun seg : Segment => lexemeToken seg.2) (whereSegments " " where_))
      with (tokensOf (whereSegments " " where_)) in Hahead3.
    rewrite (peekTokenIs_other TOKEN_JOIN p3 _ Hahead3)
      by first [discriminate | destruct where_; [discriminate|exact I]].
    destruct (parseOptionalWhere_ahead " " where_ p3 Hwhere Hahead3)
      as (p5 & Hrun5 & Hahead5 & Herr5).
    unfold ret. rewrite Hrun5. unfold GetErrors. f_equal. congruence.
Qed.

(** *** CREATE TABLE *)

Lemma column_text (c : ColumnDefinition) (lead : string) :
  render (columnSegments lead c) = (lead ++ ColumnDefinition_String c)%string.
Proof.
  unfold columnSegments, flagSegments, ColumnDefinition_String.
  cbn [render lexemeText]. rewrite render_app.
  destruct (cd_PrimaryKey c), (cd_Unique c); cbn [render lexemeText];
    rewrite ?append_cons, ?append_nil, ?append_empty_r; reflexivity.
Qed.

Lemma column_separated (c : ColumnDefinition) (lead trail : string) :
  allBytes isBlank lead = true -> columnOk c = true -> cleanStart trail = true ->
  separated (columnSegments lead c) trail = true.
Proof.
  unfold columnOk. intros Hb Hok Hclean. apply andb_true_iff in Hok as [Hname _].
  apply isName_word in Hname as [Hname _].
  unfold columnSegments, flagSegments. cbn [separated]. rewrite Hb, Hname.
  cbn [render lexemeText]. rewrite !append_cons, !append_nil.
  assert (Hty : lexemeOk (LWord (DataType_String (cd_DataType c))) = true)
    by (destruct (cd_DataType c); reflexivity).
  rewrite Hty.
  destruct (cd_PrimaryKey c), (cd_Unique c); cbn [app render lexemeText separated];
    rewrite ?append_cons, ?append_nil, ?append_empty_r, ?(fits_clean _ trail Hclean);
    reflexivity.
Qed.

Lemma columns_render (columns : list ColumnDefinition) : forall lead : string,
  columns <> [] ->
  render (columnsSegments lead columns)
  = (lead ++ Join (map ColumnDefinition_String columns) ", ")%string.
Proof.
  induction columns as [|c rest IH]; intros lead Hne; [congruence|].
  cbn [columnsSegments map]. rewrite render_app, column_text, Join_cons.
  destruct rest as [|c' rest'].
  - cbn [render map]. rewrite append_empty_r. reflexivity.
  - cbn [render lexemeText signText]. rewrite (IH " " ltac:(discriminate)).
    cbn [map]. rewrite ?append_assoc, ?append_nil. reflexivity.
Qed.

Lemma columns_separated (columns : list ColumnDefinition) : forall lead trail : string,
  allBytes isBlank lead = true -> forallb columnOk columns = true -> cleanStart trail = true ->
  separated (columnsSegments lead columns) trail = true.
Proof.
  induction columns as [|c rest IH]; intros lead trail Hb Hok Hclean; [reflexivity|].
  cbn [forallb] in Hok. apply andb_true_iff in Hok as [Hc Hrest].
  cbn [columnsSegments]. rewrite separated_app. destruct rest as [|c' rest'].
  - cbn [render separated]. rewrite append_nil, andb_true_r.
    apply column_separated; assumption.
  - apply andb_true_iff. split.
    + apply column_separated; [exact Hb|exact Hc|]. cbn [render lexemeText signText].
      rewrite append_nil, append_cons. reflexivity.
    + cbn [separated]. rewrite (IH " " trail eq_refl Hrest Hclean).
      rewrite fits_always by discriminate. reflexivity.
Qed.

Lemma parseDataType_ahead (dt : DataType) (p : Parser) (rest : list Token) :
  ahead p ({| tok_Type := lookupIdent (DataType_String dt);
              tok_Literal := DataType_String dt |} :: rest) ->
  exists p', parseDataType p = (Parsed dt, p') /\ ahead p' rest /\ errors p' = errors p.
Proof.
  intros Hahead.
  destruct (expectPeek_ahead TOKEN_IDENTIFIER p _ _ Hahead) as (p1 & Hrun & Hcur & Hahead1 & Herr).
  { destruct dt; reflexivity. }
  exists p1. unfold parseDataType, bind. rewrite Hrun. cbn [negb].
  unfold currentLiteral. rewrite Hcur. cbn [tok_Literal]. destruct dt; unfold ret; auto.
Qed.

Lemma parseColumnConstraint_ahead (c : ColumnDefinition) (p : Parser) (next : Token)
    (rest : list Token) :
  negb (cd_PrimaryKey c && cd_Unique c) = true ->
  ahead p (tokensOf (flagSegments c) ++ next :: rest) ->
  tok_Type next <> TOKEN_PRIMARY -> tok_Type next <> TOKEN_UNIQUE ->
  exists p', parseColumnConstraint p = ((cd_PrimaryKey c, cd_Unique c), p') /\
             ahead p' (next :: rest) /\ errors p' = errors p.
Proof.
  intros Hflags Hahead Hp Hu. unfold flagSegments in Hahead.
  unfold parseColumnConstraint, bind.
  destruct (cd_PrimaryKey c), (cd_Unique c); try discriminate;
    cbn [app tokensOf map snd lexemeToken] in Hahead.
  - rewrite (peekTokenIs_ahead TOKEN_PRIMARY p _ _ Hahead). cbn [tok_Type].
    change (lookupIdent "PRIMARY") with TOKEN_PRIMARY.
    rewrite (bool_decide_eq_true_2 _ eq_refl).
    destruct (nextToken_ahead p _ _ Hahead) as (p1 & Hnext & _ & Hahead1 & Herr1).
    expect Hahead1 p2 Hrun2 Hcur2 Hahead2 Herr2.
    rewrite Hnext, Hrun2. exists p2. unfold ret. split; [reflexivity|].
    split; [exact Hahead2|congruence].
  - rewrite (peekTokenIs_ahead TOKEN_PRIMARY p _ _ Hahead). cbn [tok_Type].
    change (lookupIdent "UNIQUE") with TOKEN_UNIQUE.
    rewrite bool_decide_eq_false_2 by discriminate.
    rewrite (peekTokenIs_ahead TOKEN_UNIQUE p _ _ Hahead). cbn [tok_Type].
    rewrite (bool_decide_eq_true_2 _ eq_refl).
    destruct (nextToken_ahead p _ _ Hahead) as (p1 & Hnext & _ & Hahead1 & Herr1).
    rewrite Hnext. exists p1. unfold ret. auto.
  - rewrite (peekTokenIs_ahead TOKEN_PRIMARY p _ _ Hahead).
    rewrite (bool_decide_eq_false_2 _ Hp).
    rewrite (peekTokenIs_ahead TOKEN_UNIQUE p _ _ Hahead).
    rewrite (bool_decide_eq_false_2 _ Hu). exists p. unfold ret. auto.
Qed.

Lemma parseColumns_ahead (rest : list Token) :
  forall columns lead acc p fuel,
    forallb columnOk columns = true -> length columns < fuel ->
    ahead p (tokensOf (columnsSegments lead columns)
             ++ {| tok_Type := TOKEN_RIGHT_PAREN; tok_Literal := ")" |} :: rest) ->
    exists p', parseColumnDefinitions_go fuel acc p = (acc ++ columns, p') /\
               ahead p' ({| tok_Type := TOKEN_RIGHT_PAREN; tok_Literal := ")" |} :: rest) /\
               errors p' = errors p.
Proof.
  induction columns as [|c columns IH]; intros lead acc p fuel Hok Hfuel Hahead.
  - destruct fuel as [|fuel]; [simpl in Hfuel; lia|].
    cbn [columnsSegments tokensOf map app] in Hahead.
    exists p. cbn [parseColumnDefinitions_go]. unfold bind.
    rewrite (peekTokenIs_ahead TOKEN_RIGHT_PAREN p _ _ Hahead).
    rewrite (bool_decide_eq_true_2 _ eq_refl).
    destruct (peekTokenIs TOKEN_EOF p) as [b p0] eqn:Ep. unfold peekTokenIs in Ep.
    injection Ep as _ <-. cbn [orb]. unfold ret. rewrite app_nil_r. auto.
  - destruct fuel as [|fuel]; [simpl in Hfuel; lia|]. cbn [length] in Hfuel.
    cbn [forallb] in Hok. apply andb_true_iff in Hok as [Hc Hcolumns].
    unfold columnOk in Hc. apply andb_true_iff in Hc as [Hname Hflags].
    apply isName_word in Hname as [_ Hname].
    cbn [columnsSegments] in Hahead. unfold columnSegments in Hahead.
    rewrite tokensOf_app in Hahead. cbn [tokensOf map snd lexemeToken] in Hahead.
    change (map (fun seg : Segment => lexemeToken seg.2) (flagSegments c))
      with (tokensOf (flagSegments c)) in Hahead.
    rewrite <- !app_comm_cons, <- app_assoc in Hahead.
    cbn [parseColumnDefinitions_go]. unfold bind at 1 2.
    rewrite (peekTokenIs_ahead TOKEN_RIGHT_PAREN p _ _ Hahead). cbn [tok_Type].
    rewrite Hname, bool_decide_eq_false_2 by discriminate.
    rewrite (peekTokenIs_ahead TOKEN_EOF p _ _ Hahead). cbn [tok_Type].
    rewrite Hname, bool_decide_eq_false_2 by discriminate. cbn [orb].
    destruct (expectPeek_ahead TOKEN_IDENTIFIER p _ _ Hahead Hname)
      as (p1 & Hrun1 & Hcur1 & Hahead1 & Herr1).
    destruct (parseDataType_ahead (cd_DataType c) p1 _ Hahead1)
      as (p2 & Hrun2 & Hahead2 & Herr2).
    unfold bind at 1. rewrite Hrun1. cbn [negb]. unfold bind at 1, currentLiteral at 1.
    rewrite Hcur1. cbn [tok_Literal]. unfold bind at 1. rewrite Hrun2.
    destruct columns as [|c' columns'].
    + cbn [tokensOf map app] in Hahead2.
      destruct (parseColumnConstraint_ahead c p2 _ _ Hflags Hahead2)
        as (p3 & Hrun3 & Hahead3 & Herr3); [discriminate|discriminate|].
      unfold bind at 1. rewrite Hrun3. cbn [fst snd]. unfold bind at 1.
      rewrite (peekTokenIs_ahead TOKEN_RIGHT_PAREN p3 _ _ Hahead3).
      rewrite (bool_decide_eq_true_2 _ eq_refl).
      destruct (IH lead (acc ++ [c]) p3 fuel eq_refl ltac:(simpl in *; lia) Hahead3)
        as (p4 & Hrun4 & Hahead4 & Herr4).
      exists p4. destruct c as [name dt pk uq]. cbn [cd_Name cd_DataType cd_PrimaryKey cd_Unique] in *.
      rewrite Hrun4, <- app_assoc. split; [reflexivity|].
      split; [exact Hahead4|congruence].
    + cbn [tokensOf map snd lexemeToken signText] in Hahead2.
      rewrite <- app_comm_cons in Hahead2.
      destruct (parseColumnConstraint_ahead c p2 _ _ Hflags Hahead2)
        as (p3 & Hrun3 & Hahead3 & Herr3); [discriminate|discriminate|].
      unfold bind at 1. rewrite Hrun3. cbn [fst snd]. unfold bind at 1.
      rewrite (peekTokenIs_ahead TOKEN_RIGHT_PAREN p3 _ _ Hahead3).
      rewrite bool_decide_eq_false_2 by discriminate.
      destruct (expectPeek_ahead TOKEN_COMMA p3 _ _ Hahead3 eq_refl)
        as (p3' & Hcomma & _ & Hahead3' & Herr3').
      unfold bind at 1. rewrite Hcomma. cbn [negb].
      destruct (IH " " (acc ++ [c]) p3' fuel Hcolumns ltac:(simpl in *; lia) Hahead3')
        as (p4 & Hrun4 & Hahead4 & Herr4).
      exists p4. destruct c as [name dt pk uq]. cbn [cd_Name cd_DataType cd_PrimaryKey cd_Unique] in *.
      rewrite Hrun4, <- app_assoc. split; [reflexivity|].
      split; [exact Hahead4|congruence].
Qed.

Lemma parseColumnDefinitions_ahead (rest : list Token) (columns : list ColumnDefinition)
    (p : Parser) :
  forallb columnOk columns = true ->
  ahead p (tokensOf (columnsSegments EmptyString columns)
           ++ {| tok_Type := TOKEN_RIGHT_PAREN; tok_Literal := ")" |} :: rest) ->
  exists p', parseColumnDefinitions p = (columns, p') /\
             ahead p' ({| tok_Type := TOKEN_RIGHT_PAREN; tok_Literal := ")" |} :: rest) /\
             errors p' = errors p.
Proof.
  intros Hok Hahead. pose proof Hahead as [HJ _].
  destruct (parseColumns_ahead rest columns EmptyString [] p
              (turnsLeft p + length columns + 1) Hok ltac:(lia) Hahead)
    as (p' & Hrun & Hahead' & Herr).
  exists p'. split; [|auto].
  unfold parseColumnDefinitions, bind, turns.
  rewrite (ProgressFacts.parseColumnDefinitions_go_enough _
             (turnsLeft p + length columns + 1) [] p HJ); [exact Hrun| |lia].
  pose proof (ProgressFacts.turnsLeft_turns p HJ) as Ht. unfold turns in Ht. exact Ht.
Qed.

Lemma create_text (c : CreateTableStatement) :
  createOk c = true ->
  CreateTableStatement_String c = render (createSegments c) /\
  separated (createSegments c) EmptyString = true.
Proof.
  unfold createOk. intros Hok. apply andb_true_iff in Hok as [Hname Hcolumns].
  apply isName_word in Hname as [Hname _].
  unfold CreateTableStatement_String, createSegments. split.
  - cbn [render lexemeText signText]. rewrite render_app. cbn [render lexemeText signText].
    destruct (ct_Columns c) as [|col cols] eqn:Ec.
    + cbn [columnsSegments render map Join String.concat].
      rewrite ?append_cons, ?append_nil, ?append_empty_r. reflexivity.
    + rewrite (columns_render (col :: cols) EmptyString ltac:(discriminate)).
      rewrite ?append_cons, ?append_nil, ?append_empty_r, ?append_assoc. reflexivity.
  - cbn [separated]. rewrite Hname, separated_app.
    rewrite (columns_separated (ct_Columns c) EmptyString _ eq_refl Hcolumns) by reflexivity.
    cbn [render lexemeText signText separated].
    rewrite !append_cons, !append_nil. rewrite !fits_always by discriminate. reflexivity.
Qed.

(** Property X25. A CREATE TABLE statement is read back from its text:
    when the table name and the column names are words that are no
    keywords and no column is both primary key and unique, the lexer and
    the parser turn the text that [String] gives into the statement
    again, with no diagnostic. *)
Theorem create_read_back (c : CreateTableStatement) :
  createOk c = true ->
  parseText (CreateTableStatement_String c) = (Parsed (StmtCreateTable c), []).
Proof.
  intros Hok. destruct (create_text c Hok) as [Htext Hsep]. rewrite Htext.
  unfold createOk in Hok. apply andb_true_iff in Hok as [Hname Hcolumns].
  apply isName_word in Hname as [_ Hname].
  unfold parseText. rewrite <- (append_empty_r (render (createSegments c))).
  unfold createSegments in *.
  destruct (NewParser_ahead _ _ _ EmptyString Hsep eq_refl) as (Hcur & Hahead & Herr).
  revert Hcur Hahead Herr.
  match goal with
  | |- context [NewParser ?l] => generalize (NewParser l)
  end.
  intros p Hcur Hahead Herr.
  cbn [tokensOf map snd lexemeToken] in Hahead.
  change (map (fun seg : Segment => lexemeToken seg.2)
              (columnsSegments EmptyString (ct_Columns c)
               ++ [(EmptyString, LSign TOKEN_RIGHT_PAREN)]))
    with (tokensOf (columnsSegments EmptyString (ct_Columns c)
                    ++ [(EmptyString, LSign TOKEN_RIGHT_PAREN)])) in Hahead.
  rewrite tokensOf_app in Hahead. cbn [tokensOf map snd lexemeToken signText] in Hahead.
  expect Hahead p1 Hrun1 Hcur1 Hahead1 Herr1.
  destruct (expectPeek_ahead TOKEN_IDENTIFIER p1 _ _ Hahead1 Hname)
    as (p2 & Hrun2 & Hcur2 & Hahead2 & Herr2).
  expect Hahead2 p3 Hrun3 Hcur3 Hahead3 Herr3.
  destruct (parseColumnDefinitions_ahead [] (ct_Columns c) p3 Hcolumns Hahead3)
    as (p4 & Hrun4 & Hahead4 & Herr4).
  expect Hahead4 p5 Hrun5 Hcur5 Hahead5 Herr5.
  unfold ParseStatement, bind, get. rewrite Hcur.
  change (tok_Type (lexemeToken (LWord "CREATE"))) with TOKEN_CREATE. cbv iota.
  unfold wrap, parseCreateStatement, bind.
  rewrite Hrun1. cbn [negb]. rewrite Hrun2. cbn [negb].
  unfold currentLiteral. rewrite Hcur2. cbn [tok_Literal].
  rewrite Hrun3. cbn [negb]. rewrite Hrun4, Hrun5. cbn [negb].
  unfold ret, GetErrors. destruct c as [name columns]. cbn [ct_TableName ct_Columns] in *.
  f_equal. congruence.
Qed.

(** *** UPDATE *)

Lemma assignments_text (entries : list (string * Expression)) :
  forallb assignmentOk entries = true ->
  exists ss, Assignments_Strings entries = Some ss /\
    (entries <> [] ->
     forall lead, render (assignmentsSegments lead entries) = (lead ++ Join ss ", ")%string).
Proof.
  induction entries as [|[col e] rest IH]; intros Hok.
  - exists []. split; [reflexivity|congruence].
  - cbn [forallb] in Hok. apply andb_true_iff in Hok as [Ha Hrest].
    unfold assignmentOk in Ha. cbn [fst snd] in Ha. apply andb_true_iff in Ha as [_ He].
    destruct (IH Hrest) as (ss & Hss & Hcons).
    destruct (expression_text e " " He) as (s & Hs & Hrender).
    exists ((col ++ " = " ++ s)%string :: ss). cbn [Assignments_Strings]. rewrite Hs, Hss.
    split; [reflexivity|]. intros _ lead.
    cbn [assignmentsSegments]. unfold assignmentSegments. cbn [fst snd].
    rewrite render_app. cbn [render lexemeText signText]. rewrite Hrender, Join_cons.
    destruct rest as [|a' rest'].
    + cbn [Assignments_Strings] in Hss. injection Hss as <-. cbn [render].
      rewrite ?append_cons, ?append_nil, ?append_empty_r, ?append_assoc. reflexivity.
    + cbn [render lexemeText signText]. rewrite (Hcons ltac:(discriminate) " ").
      destruct ss as [|s2 ss2].
      * cbn [Assignments_Strings] in Hss. destruct a' as [col' e'].
        destruct (Expression_String e'); [|discriminate].
        destruct (Assignments_Strings rest'); discriminate.
      * rewrite ?append_cons, ?append_nil, ?append_empty_r, ?append_assoc. reflexivity.
Qed.

Lemma assignments_separated (entries : list (string * Expression)) :
  forall lead trail : string,
    allBytes isBlank lead = true -> forallb assignmentOk entries = true ->
    cleanStart trail = true ->
    separated (assignmentsSegments lead entries) trail = true.
Proof.
  induction entries as [|[col e] rest IH]; intros lead trail Hb Hok Hclean; [reflexivity|].
  cbn [forallb] in Hok. apply andb_true_iff in Hok as [Ha Hrest].
  unfold assignmentOk in Ha. cbn [fst snd] in Ha. apply andb_true_iff in Ha as [Hcol He].
  apply isName_word in Hcol as [Hcol _].
  assert (Hone : forall trail', cleanStart trail' = true ->
                   separated (assignmentSegments lead (col, e)) trail' = true).
  { intros trail' Hclean'. unfold assignmentSegments. cbn [fst snd separated].
    rewrite Hb, Hcol. rewrite (expression_separated e " " trail' eq_refl He Hclean').
    cbn [render lexemeText signText]. rewrite !append_cons, !append_nil.
    rewrite fits_always by discriminate. reflexivity. }
  cbn [assignmentsSegments]. rewrite separated_app. destruct rest as [|a' rest'].
  - cbn [render separated]. rewrite append_nil, andb_true_r. apply Hone, Hclean.
  - apply andb_true_iff. split.
    + apply Hone. cbn [render lexemeText signText]. rewrite append_nil, append_cons.
      reflexivity.
    + cbn [separated]. rewrite (IH " " trail eq_refl Hrest Hclean).
      rewrite fits_always by discriminate. reflexivity.
Qed.

Lemma foldl_insert_entries {A} (entries : list (string * A)) : forall set : gmap string A,
  NoDup (map fst entries) ->
  foldl (fun set (a : string * A) => <[a.1 := a.2]> set) set entries
  = list_to_map entries ∪ set.
Proof.
  induction entries as [|[k v] rest IH]; intros set Hnd.
  - cbn [foldl]. rewrite list_to_map_nil, (left_id_L ∅ (∪)). reflexivity.
  - cbn [map fst] in Hnd. apply list.NoDup_cons in Hnd as [Hnew Hnd].
    cbn [foldl fst snd]. rewrite (IH _ Hnd), list_to_map_cons.
    rewrite <- insert_union_l. symmetry. apply insert_union_r.
    apply not_elem_of_list_to_map_1. exact Hnew.
Qed.

Lemma exit_on_comma (p : Parser) :
  ahead p [] ->
  exists p', expectPeek TOKEN_COMMA p = (false, p') /\ ahead p' [] /\
             errors p' = errors p ++ [commaExpected].
Proof.
  intros Hahead. pose proof Hahead as [HJ [Hpeek Hend]].
  unfold expectPeek, bind. rewrite (peekTokenIs_end TOKEN_COMMA p Hahead).
  rewrite bool_decide_eq_false_2 by discriminate. unfold peekError, ret.
  eexists. split; [reflexivity|]. split.
  - split; [|split; [exact Hpeek|exact Hend]].
    destruct HJ as [Hwf Hpos]. split; [exact Hwf|exact Hpos].
  - cbn [errors]. rewrite Hpeek. reflexivity.
Qed.

Lemma parseSet_ahead (where_ : option Expression) :
  forall entries lead set p fuel,
    forallb assignmentOk entries = true -> length entries < fuel ->
    ahead p (tokensOf (assignmentsSegments lead entries)
             ++ tokensOf (whereSegments " " where_)) ->
    exists p',
      parseSetClause_go fuel set p
      = (foldl (fun set (a : string * Expression) => <[a.1 := a.2]> set) set entries, p') /\
      ahead p' (tokensOf (whereSegments " " where_)) /\
      errors p' = errors p ++ match entries, where_ with
                              | _ :: _, None => [commaExpected]
                              | _, _ => []
                              end.
Proof.
  induction entries as [|[col e] entries IH]; intros lead set p fuel Hok Hfuel Hahead.
  - destruct fuel as [|fuel]; [simpl in Hfuel; lia|].
    cbn [assignmentsSegments tokensOf map app] in Hahead.
    exists p. cbn [parseSetClause_go foldl]. unfold bind. rewrite app_nil_r.
    destruct where_ as [w|].
    + cbn [whereSegments tokensOf map snd lexemeToken] in Hahead.
      rewrite (peekTokenIs_ahead TOKEN_WHERE p _ _ Hahead). cbn [tok_Type].
      change (lookupIdent "WHERE") with TOKEN_WHERE.
      rewrite (bool_decide_eq_true_2 _ eq_refl).
      destruct (peekTokenIs TOKEN_EOF p) as [b p0] eqn:Ep. unfold peekTokenIs in Ep.
      injection Ep as _ <-. cbn [orb]. unfold ret. auto.
    + cbn [whereSegments tokensOf map] in Hahead.
      rewrite (peekTokenIs_end TOKEN_WHERE p Hahead), (peekTokenIs_end TOKEN_EOF p Hahead).
      rewrite (bool_decide_eq_true_2 _ eq_refl), orb_true_r. unfold ret. auto.
  - destruct fuel as [|fuel]; [simpl in Hfuel; lia|]. cbn [length] in Hfuel.
    cbn [forallb] in Hok. apply andb_true_iff in Hok as [Ha Hentries].
    unfold assignmentOk in Ha. cbn [fst snd] in Ha. apply andb_true_iff in Ha as [Hcol He].
    apply isName_word in Hcol as [_ Hcol].
    cbn [assignmentsSegments] in Hahead. unfold assignmentSegments in Hahead.
    cbn [fst snd] in Hahead.
    rewrite tokensOf_app in Hahead. cbn [tokensOf map snd lexemeToken signText] in Hahead.
    change (map (fun seg : Segment => lexemeToken seg.2) (exprSegments " " e))
      with (tokensOf (exprSegments " " e)) in Hahead.
    rewrite <- !app_comm_cons, <- app_assoc in Hahead.
    cbn [parseSetClause_go foldl fst snd]. unfold bind at 1 2.
    rewrite (peekTokenIs_ahead TOKEN_WHERE p _ _ Hahead). cbn [tok_Type].
    rewrite Hcol, bool_decide_eq_false_2 by discriminate.
    rewrite (peekTokenIs_ahead TOKEN_EOF p _ _ Hahead). cbn [tok_Type].
    rewrite Hcol, bool_decide_eq_false_2 by discriminate. cbn [orb].
    destruct (expectPeek_ahead TOKEN_IDENTIFIER p _ _ Hahead Hcol)
      as (p1 & Hrun1 & Hcur1 & Hahead1 & Herr1).
    destruct (expectPeek_ahead TOKEN_EQUALS p1 _ _ Hahead1 eq_refl)
      as (p2 & Hrun2 & Hcur2 & Hahead2 & Herr2).
    unfold bind at 1. rewrite Hrun1. cbn [negb]. unfold bind at 1, currentLiteral at 1.
    rewrite Hcur1. cbn [tok_Literal]. unfold bind at 1. rewrite Hrun2. cbn [negb].
    destruct entries as [|a' entries'].
    + cbn [tokensOf map app] in Hahead2.
      change (map (fun seg : Segment => lexemeToken seg.2) (whereSegments " " where_))
        with (tokensOf (whereSegments " " where_)) in Hahead2.
      destruct (parseExpression_ahead e " " p2 _ He Hahead2 (whereTokens_closes where_))
        as (p3 & Hrun3 & Hahead3 & Herr3).
      unfold bind at 1. rewrite Hrun3. unfold bind at 1.
      destruct where_ as [w|].
      * pose proof Hahead3 as Hpeek. cbn [whereSegments tokensOf map snd lexemeToken] in Hpeek.
        rewrite (peekTokenIs_ahead TOKEN_WHERE p3 _ _ Hpeek). cbn [tok_Type].
        change (lookupIdent "WHERE") with TOKEN_WHERE.
        rewrite (bool_decide_eq_true_2 _ eq_refl).
        destruct (IH lead (<[col := e]> set) p3 fuel eq_refl ltac:(simpl in *; lia) Hahead3)
          as (p4 & Hrun4 & Hahead4 & Herr4).
        exists p4. rewrite Hrun4. split; [reflexivity|]. split; [exact Hahead4|].
        rewrite Herr4, !app_nil_r. congruence.
      * cbn [whereSegments tokensOf map] in Hahead3.
        rewrite (peekTokenIs_end TOKEN_WHERE p3 Hahead3).
        rewrite bool_decide_eq_false_2 by discriminate.
        destruct (exit_on_comma p3 Hahead3) as (p4 & Hrun4 & Hahead4 & Herr4).
        unfold bind at 1. rewrite Hrun4. cbn [negb]. unfold ret.
        exists p4. split; [reflexivity|]. split; [exact Hahead4|].
        rewrite Herr4. congruence.
    + cbn [tokensOf map snd lexemeToken signText] in Hahead2.
      rewrite <- app_comm_cons in Hahead2.
      destruct (parseExpression_ahead e " " p2 _ He Hahead2) as (p3 & Hrun3 & Hahead3 & Herr3).
      { split; [reflexivity|discriminate]. }
      unfold bind at 1. rewrite Hrun3. unfold bind at 1.
      rewrite (peekTokenIs_ahead TOKEN_WHERE p3 _ _ Hahead3).
      rewrite bool_decide_eq_false_2 by discriminate.
      destruct (expectPeek_ahead TOKEN_COMMA p3 _ _ Hahead3 eq_refl)
        as (p4 & Hrun4 & _ & Hahead4 & Herr4).
      unfold bind at 1. rewrite Hrun4. cbn [negb].
      destruct (IH " " (<[col := e]> set) p4 fuel Hentries ltac:(simpl in *; lia) Hahead4)
        as (p5 & Hrun5 & Hahead5 & Herr5).
      exists p5. rewrite Hrun5. split; [reflexivity|]. split; [exact Hahead5|].
      rewrite Herr5. congruence.
Qed.

Lemma update_entries (order : RangeOrder) (u : UpdateStatement) :
  permutes order -> updateOk u = true ->
  forallb assignmentOk (overSet order (upd_Set u)) = true /\
  overSet order (upd_Set u) <> [] /\
  foldl (fun set (a : string * Expression) => <[a.1 := a.2]> set) ∅
        (overSet order (upd_Set u)) = upd_Set u.
Proof.
  intros [Hperm _] Hok. specialize (Hperm (upd_Set u)). unfold updateOk in Hok.
  apply andb_true_iff in Hok as [Hok _]. apply andb_true_iff in Hok as [Hok Hall].
  apply andb_true_iff in Hok as [_ Hne]. apply bool_decide_eq_true_1 in Hall.
  apply negb_true_iff, bool_decide_eq_false_1 in Hne.
  destruct (entries_of_permutation _ _ Hperm) as [Hnd Hin]. split; [|split].
  - apply forallb_forall. intros [col e] Ha. apply list_elem_of_In, Hin in Ha.
    apply (Hall col e Ha).
  - intros Hnil. rewrite Hnil in Hperm. apply Permutation_nil in Hperm.
    apply Hne. apply map_to_list_empty_iff, Hperm.
  - rewrite foldl_insert_entries by exact Hnd. rewrite (right_id_L ∅ (∪)).
    rewrite (list_to_map_proper _ _ Hnd Hperm). apply list_to_map_to_list.
Qed.

Lemma update_text (entries : list (string * Expression)) (u : UpdateStatement) :
  isName (upd_TableName u) = true -> forallb assignmentOk entries = true ->
  entries <> [] -> whereOk (upd_Where u) = true ->
  exists ss, Assignments_Strings entries = Some ss /\
    withWhere ("UPDATE " ++ upd_TableName u ++ " SET " ++ Join ss ", ") (upd_Where u)
    = Some (render (updateSegments entries u)) /\
    separated (updateSegments entries u) EmptyString = true.
Proof.
  intros Hname Hentries Hne Hwhere. apply isName_word in Hname as [Hname _].
  destruct (assignments_text entries Hentries) as (ss & Hss & Hrender).
  specialize (Hrender Hne " ").
  destruct (where_text " " (upd_Where u) Hwhere eq_refl) as [Hwtext Hwsep].
  exists ss. split; [exact Hss|]. unfold updateSegments. split.
  - cbn [render lexemeText]. rewrite render_app, Hrender.
    destruct (upd_Where u) as [w|]; unfold withWhere.
    + destruct Hwtext as (ws & -> & ->).
      f_equal; rewrite ?append_cons, ?append_nil, ?append_assoc; reflexivity.
    + rewrite Hwtext.
      f_equal; rewrite ?append_cons, ?append_nil, ?append_assoc, ?append_empty_r; reflexivity.
  - cbn [separated]. rewrite Hname, separated_app, Hwsep.
    rewrite (assignments_separated entries " " _ eq_refl Hentries)
      by (apply whereSegments_start; reflexivity).
    cbn [render lexemeText]. rewrite render_app, Hrender.
    rewrite !append_cons, !append_nil. reflexivity.
Qed.

Lemma parseSetClause_ahead (where_ : option Expression) (entries : list (string * Expression))
    (p : Parser) :
  forallb assignmentOk entries = true ->
  ahead p (tokensOf (assignmentsSegments " " entries)
           ++ tokensOf (whereSegments " " where_)) ->
  exists p',
    parseSetClause p
    = (foldl (fun set (a : string * Expression) => <[a.1 := a.2]> set) ∅ entries, p') /\
    ahead p' (tokensOf (whereSegments " " where_)) /\
    errors p' = errors p ++ match entries, where_ with
                            | _ :: _, None => [commaExpected]
                            | _, _ => []
                            end.
Proof.
  intros Hok Hahead. pose proof Hahead as [HJ _].
  destruct (parseSet_ahead where_ entries " " ∅ p
              (turnsLeft p + length entries + 1) Hok ltac:(lia) Hahead)
    as (p' & Hrun & Hahead' & Herr).
  exists p'. split; [|auto].
  unfold parseSetClause, bind, turns.
  rewrite (ProgressFacts.parseSetClause_go_enough _
             (turnsLeft p + length entries + 1) ∅ p HJ); [exact Hrun| |lia].
  pose proof (ProgressFacts.turnsLeft_turns p HJ) as Ht. unfold turns in Ht. exact Ht.
Qed.

(** Property X26. An UPDATE statement is read back from its text,
    whatever the order in which [String] visits the assignments: when the
    table name and the assigned columns are words that are no keywords,
    there is at least one assignment, and the assigned values and the
    condition are names, qualified names, numbers from 0 to the largest
    [int], texts without single quote and without the byte 0, Booleans or
    comparisons of two of these, the lexer and the parser turn the text
    into the statement again. With a WHERE clause there is no diagnostic;
    without one the parser records that it expected a comma at the end of
    the input, and still returns the statement. *)
Theorem update_read_back (order : RangeOrder) (u : UpdateStatement) :
  permutes order -> updateOk u = true ->
  exists sql, UpdateStatement_String order u = Some sql /\
              parseText sql
              = (Parsed (StmtUpdate u),
                 match upd_Where u with Some _ => [] | None => [commaExpected] end).
Proof.
  intros Horder Hok.
  destruct (update_entries order u Horder Hok) as (Hentries & Hne & Hset).
  unfold updateOk in Hok. apply andb_true_iff in Hok as [Hok Hwhere].
  apply andb_true_iff in Hok as [Hok _]. apply andb_true_iff in Hok as [Hname _].
  destruct (update_text _ u Hname Hentries Hne Hwhere) as (ss & Hss & Htext & Hsep).
  exists (render (updateSegments (overSet order (upd_Set u)) u)). split.
  { unfold UpdateStatement_String. rewrite Hss. exact Htext. }
  apply isName_word in Hname as [_ Hname].
  unfold parseText.
  rewrite <- (append_empty_r (render (updateSegments (overSet order (upd_Set u)) u))).
  unfold updateSegments in *.
  destruct (NewParser_ahead _ _ _ EmptyString Hsep eq_refl) as (Hcur & Hahead & Herr).
  revert Hcur Hahead Herr.
  match goal with
  | |- context [NewParser ?l] => generalize (NewParser l)
  end.
  intros p Hcur Hahead Herr.
  cbn [tokensOf map snd lexemeToken] in Hahead.
  change (map (fun seg : Segment => lexemeToken seg.2)
              (assignmentsSegments " " (overSet order (upd_Set u))
               ++ whereSegments " " (upd_Where u)))
    with (tokensOf (assignmentsSegments " " (overSet order (upd_Set u))
                    ++ whereSegments " " (upd_Where u))) in Hahead.
  rewrite tokensOf_app in Hahead.
  destruct (expectPeek_ahead TOKEN_IDENTIFIER p _ _ Hahead Hname)
    as (p1 & Hrun1 & Hcur1 & Hahead1 & Herr1).
  expect Hahead1 p2 Hrun2 Hcur2 Hahead2 Herr2.
  destruct (parseSetClause_ahead _ _ p2 Hentries Hahead2) as (p3 & Hrun3 & Hahead3 & Herr3).
  destruct (parseOptionalWhere_ahead " " (upd_Where u) p3 Hwhere Hahead3)
    as (p4 & Hrun4 & Hahead4 & Herr4).
  unfold ParseStatement, bind, get. rewrite Hcur.
  change (tok_Type (lexemeToken (LWord "UPDATE"))) with TOKEN_UPDATE. cbv iota.
  unfold wrap, parseUpdateStatement, bind.
  rewrite Hrun1. cbn [negb]. unfold currentLiteral. rewrite Hcur1. cbn [tok_Literal].
  rewrite Hrun2. cbn [negb]. rewrite Hrun3, Hrun4, Hset.
  unfold ret, GetErrors. destruct u as [name set where_].
  cbn [upd_TableName upd_Set upd_Where] in *. f_equal.
  rewrite Herr4, Herr3, Herr2, Herr1, Herr. cbn [app].
  destruct (overSet order set); [congruence|]. destruct where_; reflexivity.
Qed.

(** *** What the lexer and the parser read *)

(** Property X21. The lexer takes a text apart into the tokens of its
    lexemes: when the text is made of words (a letter or an underscore,
    then letters, digits and underscores), numbers (digits), texts in
    single quotes (with no single quote and no byte 0 inside) and the
    twelve signs, with blanks between them or not, such that no word or
    number is followed at once by a byte it could go on with, and neither
    [>] nor [<] by [=], then the successive calls of [NextToken] deliver
    one token for each lexeme - for a word the keyword or the identifier
    that [lookupIdent] makes of it, for a text in quotes the text without
    them - and after them the end token for ever. *)
Theorem tokens_of_separated_text (segs : list Segment) (trail : string) :
  separated segs trail = true -> allBytes isBlank trail = true ->
  exists l,
    lexTokens (length segs) (NewLexer (render segs ++ trail)) = (tokensOf segs, l) /\
    forall n, fst (lexTokens n l) = replicate n endToken.
Proof.
  intros Hsep Htrail. exists (lexerAt (render segs) trail). split.
  - rewrite NewLexer_at. rewrite (lexTokens_separated segs trail EmptyString Hsep).
    rewrite append_nil. reflexivity.
  - intros [|n]; [reflexivity|]. cbn [lexTokens].
    rewrite (NextToken_end (render segs) trail Htrail).
    pose proof (lexTokens_exhausted n _
                  (exhausted_readChar _ (exhausted_at (render segs ++ trail)))) as [Htoks _].
    destruct (lexTokens n _) as [ts l2]. cbn [fst] in *. rewrite Htoks. reflexivity.
Qed.

Lemma tokens_of_separated_text_witness :
  (separated selectLexemes " " = true /\ allBytes isBlank " " = true) /\
  exists l,
    lexTokens (length selectLexemes) (NewLexer (render selectLexemes ++ " "))
    = (tokensOf selectLexemes, l) /\
    forall n, fst (lexTokens n l) = replicate n endToken.
Proof.
  split; [split; reflexivity|].
  apply (tokens_of_separated_text selectLexemes " "); reflexivity.
Defined.

Lemma insert_read_back_witness :
  insertOk insertZed = true /\
  exists sql, InsertStatement_String insertZed = Some sql /\
              parseText sql = (Parsed (StmtInsert insertZed), []).
Proof. split; [reflexivity|]. apply (insert_read_back insertZed). reflexivity. Defined.

Lemma delete_read_back_witness :
  deleteOk deleteBob = true /\
  exists sql, DeleteStatement_String deleteBob = Some sql /\
              parseText sql = (Parsed (StmtDelete deleteBob), []).
Proof. split; [reflexivity|]. apply (delete_read_back deleteBob). reflexivity. Defined.

Lemma select_read_back_witness :
  selectOk joinWhereGreater = true /\
  exists sql, SelectStatement_String joinWhereGreater = Some sql /\
              parseText sql = (Parsed (StmtSelect joinWhereGreater), []).
Proof. split; [reflexivity|]. apply (select_read_back joinWhereGreater). reflexivity. Defined.

Lemma create_read_back_witness :
  createOk createUsers = true /\
  parseText (CreateTableStatement_String createUsers) = (Parsed (StmtCreateTable createUsers), []).
Proof. split; [reflexivity|]. apply (create_read_back createUsers). reflexivity. Defined.

Lemma update_read_back_witness :
  (permutes listingOrder /\ updateOk updateLogs = true) /\
  exists sql, UpdateStatement_String listingOrder updateLogs = Some sql /\
              parseText sql = (Parsed (StmtUpdate updateLogs), [commaExpected]).
Proof.
  split; [split; [split; intros; reflexivity|vm_compute; reflexivity]|].
  apply (update_read_back listingOrder updateLogs); [split; intros; reflexivity|].
  vm_compute. reflexivity.
Defined.

Lemma lexTokens_add (n m : nat) : forall l,
  lexTokens (n + m) l
  = (fst (lexTokens n l) ++ fst (lexTokens m (snd (lexTokens n l))),
     snd (lexTokens m (snd (lexTokens n l)))).
Proof.
  induction n as [|n IH]; intros l.
  - cbn [Nat.add lexTokens fst snd app]. destruct (lexTokens m l); reflexivity.
  - cbn [Nat.add lexTokens]. destruct (NextToken l) as [t l1]. rewrite (IH l1).
    destruct (lexTokens n l1) as [ts l2]. reflexivity.
Qed.

Lemma NextToken_open_string (pre blanks s : string) :
  allBytes isBlank blanks = true -> lexemeOk (LString s) = true ->
  NextToken (lexerAt pre (blanks ++ "'" ++ s))
  = ({| tok_Type := TOKEN_STRING; tok_Literal := s |},
     lexerAt (pre ++ blanks ++ "'" ++ s) EmptyString).
Proof.
  intros Hb Hs. cbn [lexemeOk] in Hs. pose proof quote_plain as Hplain. take_plain Hplain.
  unfold NextToken. rewrite !append_cons, append_nil.
  rewrite (skipWhitespace_at _ _ _ _ Hb Hblank).
  cbv zeta. not_a_sign.
  change (isLetter "'"%char) with false. change (isDigit "'"%char) with false.
  change (Ascii.eqb "'"%char "'"%char) with true. cbv iota.
  assert (Hread : readWhile (fun c => negb (Ascii.eqb c "'"%char) && negb (Ascii.eqb c zeroByte))
                     (lexerAt ((pre ++ blanks) ++ "'") s)
                   = lexerAt (((pre ++ blanks) ++ "'") ++ s) EmptyString).
  { pose proof (readWhile_at _ s ((pre ++ blanks) ++ "'") EmptyString eq_refl Hs eq_refl) as H.
    rewrite append_empty_r in H. exact H. }
  unfold readString. rewrite readChar_at, Hread.
  cbv zeta. change (current (lexerAt (((pre ++ blanks) ++ "'") ++ s) EmptyString)) with zeroByte.
  change (Ascii.eqb zeroByte "'"%char) with false. cbv iota.
  change (pos (lexerAt ((pre ++ blanks) ++ "'") s) - 1)
    with (S (String.length ((pre ++ blanks) ++ "'")) - 1).
  replace (S (String.length ((pre ++ blanks) ++ "'")) - 1)
    with (String.length ((pre ++ blanks) ++ "'")) by lia.
  rewrite sliceTo_at. f_equal. apply lexerAt_eq; [|reflexivity].
  rewrite !append_assoc, !append_cons, !append_nil. reflexivity.
Qed.

(** Property X27. A text in single quotes that is not closed is no
    error for the lexer: when the separated lexemes of a text are followed
    by a single quote and then bytes that are neither a single quote nor
    the byte 0, up to the end of the input, [NextToken] delivers the
    tokens of the lexemes, then one text token that holds all that
    follows the quote, then the end token for ever. *)
Theorem open_text_token (segs : list Segment) (blanks s : string) :
  separated segs (blanks ++ "'" ++ s) = true ->
  allBytes isBlank blanks = true -> lexemeOk (LString s) = true ->
  exists l,
    lexTokens (length segs + 1) (NewLexer (render segs ++ blanks ++ "'" ++ s))
    = (tokensOf segs ++ [{| tok_Type := TOKEN_STRING; tok_Literal := s |}], l) /\
    forall n, fst (lexTokens n l) = replicate n endToken.
Proof.
  intros Hsep Hb Hs.
  exists (lexerAt (render segs ++ blanks ++ "'" ++ s) EmptyString). split.
  - rewrite lexTokens_add, NewLexer_at.
    rewrite (lexTokens_separated segs _ EmptyString Hsep). cbn [fst snd lexTokens].
    rewrite append_nil, (NextToken_open_string _ _ _ Hb Hs). reflexivity.
  - intros n. apply lexTokens_exhausted, exhausted_at.
Qed.

Lemma open_text_token_witness :
  (separated selectLexemes " 'abc" = true /\ allBytes isBlank " " = true /\
   lexemeOk (LString "abc") = true) /\
  exists l,
    lexTokens (length selectLexemes + 1) (NewLexer (render selectLexemes ++ " " ++ "'" ++ "abc"))
    = (tokensOf selectLexemes ++ [{| tok_Type := TOKEN_STRING; tok_Literal := "abc" |}], l) /\
    forall n, fst (lexTokens n l) = replicate n endToken.
Proof.
  split; [split; [|split]; reflexivity|].
  apply (open_text_token selectLexemes " " "abc"); reflexivity.
Defined.
